(** * ai-blog: embedding worker, RPC client, semantic search and ingestion

    A shallow embedding of the TypeScript/JavaScript sources

      - [src/db/semantic-search.ts]  (semanticSearch, fnv1a32, slugify)
      - [src/db/embeddings.ts]       (upsertEmbeddings, deleteDocumentEmbeddings)
      - [public/embeddings-worker.js] and its Xenova 2.x sibling
      - the worker RPC client        (createWorkerRpcClient, getEmbeddingsWorker,
                                      terminateEmbeddingsWorker)
      - [src/lib/post-export.ts]     (sanitizeFilename)

    followed by the properties of the specification that concern them, and
    by further properties of the same code.

    Conventions of the embedding.
      - A JavaScript string is the list of its UTF-16 code units.
      - A JavaScript number is the exact rational value of a double.  The
        divisions and multiplications of the sources round their result to
        the nearest double, ties to the even significand ([double]);
        [Math.round] is rounding half up of the exact value.  A difference
        of which only the sign is used is kept exact.  Integers are taken
        below 2^53, where every integer is a double and sums are exact;
        NaN, the infinities and overflow are not represented.
      - Code that throws returns [Throw]; module-level mutable variables are
        fields of an explicit state record that is threaded through.
      - What the outside world does (the vector store and the conversion of
        its vector column, the model loader, the loaded model, the clock)
        is an explicit argument.
      - The message handlers of the workers are asynchronous.  [onMessage]
        is the handler of a message that is handled to its end before the
        next one; for the worker that restores [globalThis.fetch], the
        parts of [ensurePipeline] before and after its [await] are also
        given on their own, so that loads that overlap can be followed.
      - A timer is due after the delay [setTimeout] makes of its argument;
        timeouts are whole milliseconds. *)

From Stdlib Require Import ZArith QArith Qround Qabs Qpower Lqa.
From Stdlib Require Import List String Ascii Lia Bool.
From Stdlib Require Import Floats.SpecFloat.
From Stdlib Require Import Sorting.Sorted Sorting.Permutation.
From stdpp Require Import gmap list sorting.

Set Default Proof Using "Type".
Set Warnings "-register-all".
Local Open Scope Z_scope.

(* ===================================================================== *)
(** * Part I: the embedding *)
(* ===================================================================== *)

(** ** JavaScript values *)

Module JS.

(** A string is its sequence of UTF-16 code units. *)
Definition jsstring : Type := list N.

(** A number is the exact rational value of a double. *)
Definition number : Type := Q.

(** The string whose code units are the bytes of an ASCII literal. *)
Definition js (s : string) : jsstring :=
  List.map N_of_ascii (list_ascii_of_string s).

Definition ch (a : ascii) : N := N_of_ascii a.

(** [a === b] on strings. *)
Definition str_eqb (a b : jsstring) : bool := bool_decide (a = b).

(** The result of running code that may throw. *)
Inductive outcome (E A : Type) : Type :=
| Ok (a : A)
| Throw (e : E).
Arguments Ok {E A} a.
Arguments Throw {E A} e.

(** [Math.round]: the nearest integer, ties towards plus infinity. *)
Definition Math_round (x : Q) : Z := Qfloor (x + (1 # 2))%Q.

(** [2 ^ e] *)
Definition pow2 (e : Z) : Q := ((2 # 1) ^ e)%Q.

(** The integer [e] with [2 ^ e <= x < 2 ^ (e + 1)], for [0 < x]. *)
Definition ilog2 (x : Q) : Z :=
  let k := Z.log2 (Qnum x) - Z.log2 (Z.pos (Qden x)) in
  if Qle_bool (pow2 k) x then k else k - 1.

(** The nearest integer, ties to the even one. *)
Definition roundEven (x : Q) : Z :=
  let f := Qfloor x in
  match (x - inject_Z f ?= 1 # 2)%Q with
  | Lt => f
  | Gt => f + 1
  | Eq => if Z.even f then f else f + 1
  end.

(** IEEE 754 rounding to nearest: the nearest value of the binary format
    with [prec] bits of precision whose least positive value is
    [2 ^ emin], ties to the even significand.  The significand of [x] is
    taken at the exponent of [x], or at [emin] where [x] is subnormal. *)
Definition roundBinary (prec emin : Z) (x : Q) : Q :=
  if Qeq_bool x 0 then 0%Q else
  let a := Qabs x in
  let e := Z.max (ilog2 a - (prec - 1)) emin in
  let y := (inject_Z (roundEven (a / pow2 e)) * pow2 e)%Q in
  Qred (if Qle_bool 0 x then y else - y)%Q.

(** The nearest double (binary64). *)
Definition double (x : Q) : number := roundBinary 53 (-1074) x.

(** [a / b] and [a * b] on numbers. *)
Definition fdiv (a b : number) : number := double (a / b).

Definition fmul (a b : number) : number := double (a * b).

(** ToInt32 and ToUint32 of an integer. *)
Definition toUint32 (z : Z) : Z := z mod 2 ^ 32.

Definition toInt32 (z : Z) : Z :=
  let u := z mod 2 ^ 32 in if u <? 2 ^ 31 then u else u - 2 ^ 32.

(** ECMAScript [WhiteSpace] and [LineTerminator] code units: the class
    matched by [\s] and removed by [String.prototype.trim]. *)
Definition isLineTerminator (c : N) : bool :=
  ((c =? 10) || (c =? 13) || (c =? 0x2028) || (c =? 0x2029))%N.

Definition isWhiteSpace (c : N) : bool :=
  ((c =? 9) || (c =? 11) || (c =? 12) || (c =? 32) || (c =? 160)
   || (c =? 0x1680) || ((0x2000 <=? c) && (c <=? 0x200A))
   || (c =? 0x202F) || (c =? 0x205F) || (c =? 0x3000) || (c =? 0xFEFF)
   || isLineTerminator c)%N.

(** [s.trim()] *)
Fixpoint trimStart (s : jsstring) : jsstring :=
  match s with
  | c :: s' => if isWhiteSpace c then trimStart s' else s
  | [] => []
  end.

Definition trimEnd (s : jsstring) : jsstring := rev (trimStart (rev s)).

Definition trim (s : jsstring) : jsstring := trimEnd (trimStart s).

(** [s.slice(0, n)] for [0 <= n]. *)
Definition slice0 (n : nat) (s : jsstring) : jsstring := firstn n s.

End JS.

(** ** Regular expressions

    A backtracking matcher for the fragment of ECMAScript regular
    expressions used by the sources (no [u] flag: the unit of matching is
    the code unit).  Quantifiers apply to character classes only, which is
    all the sources need and makes the matcher structurally recursive. *)

Module Regex.
Import JS.

Inductive cset : Type :=
| CChar (c : N)                (* a literal code unit *)
| CDigit                       (* \d *)
| CSpace                       (* \s *)
| CDot                         (* .  : anything but a line terminator *)
| CUnion (a b : cset)          (* [ab] *)
| CNot (a : cset).             (* [^a], \S *)

Inductive regex : Type :=
| RLit (s : jsstring)                      (* a literal sequence *)
| RSet (cs : cset)                         (* one code unit of a class *)
| RRep (cs : cset) (lo : nat) (hi : option nat) (greedy : bool)
                                           (* cs{lo,hi} / cs{lo,hi}? *)
| RBol                                     (* ^ *)
| REol                                     (* $ *)
| RSeq (a b : regex)
| RAlt (a b : regex)
| RGroup (n : nat) (a : regex)             (* the n-th capturing group *)
| RBackref (n : nat).                      (* \n *)

Record flags : Type := { ignoreCase : bool; multiline : bool }.

(** Canonicalize of the specification without [u]: upper-casing.  The
    patterns of the sources contain ASCII letters only, for which the code
    units that canonicalize to the same value are the two ASCII cases. *)
Definition canonicalize (f : flags) (c : N) : N :=
  if ignoreCase f then
    (if (97 <=? c) && (c <=? 122) then c - 32 else c)%N
  else c.

Fixpoint cset_mem (f : flags) (cs : cset) (c : N) : bool :=
  match cs with
  | CChar d => (canonicalize f c =? canonicalize f d)%N
  | CDigit => ((48 <=? c) && (c <=? 57))%N
  | CSpace => isWhiteSpace c
  | CDot => negb (isLineTerminator c)
  | CUnion a b => cset_mem f a c || cset_mem f b c
  | CNot a => negb (cset_mem f a c)
  end.

(** The state of a match in progress: the input before the current
    position (nearest code unit first), the input from the current position
    on, and the captures made so far. *)
Record mstate : Type := {
  ms_before : list N;
  ms_rest : list N;
  ms_caps : list (nat * jsstring)
}.

Definition continuation : Type := mstate -> option mstate.

Fixpoint get_cap (n : nat) (caps : list (nat * jsstring)) : option jsstring :=
  match caps with
  | (m, s) :: caps' => if Nat.eqb n m then Some s else get_cap n caps'
  | [] => None
  end.

(** Consume the literal [lit] at the current position. *)
Fixpoint match_lit (f : flags) (lit : jsstring) (s : mstate) : option mstate :=
  match lit with
  | [] => Some s
  | d :: lit' =>
      match ms_rest s with
      | c :: rest' =>
          if (canonicalize f c =? canonicalize f d)%N
          then match_lit f lit'
                 {| ms_before := c :: ms_before s; ms_rest := rest';
                    ms_caps := ms_caps s |}
          else None
      | [] => None
      end
  end.

(** The mandatory [lo] repetitions of a quantified class. *)
Fixpoint rep_min (f : flags) (cs : cset) (lo : nat) (s : mstate) : option mstate :=
  match lo with
  | O => Some s
  | S lo' =>
      match ms_rest s with
      | c :: rest' =>
          if cset_mem f cs c
          then rep_min f cs lo'
                 {| ms_before := c :: ms_before s; ms_rest := rest';
                    ms_caps := ms_caps s |}
          else None
      | [] => None
      end
  end.

Definition budget_left (b : option nat) : bool :=
  match b with Some O => false | _ => true end.

Definition budget_pred (b : option nat) : option nat :=
  match b with Some n => Some (Nat.pred n) | None => None end.

(** The optional repetitions after the mandatory ones: a greedy quantifier
    tries one more repetition before the continuation, a lazy one the
    continuation first. *)
Fixpoint rep_more (f : flags) (cs : cset) (greedy : bool) (b : option nat)
    (before rest : list N) (caps : list (nat * jsstring)) (k : continuation)
    {struct rest} : option mstate :=
  let here := {| ms_before := before; ms_rest := rest; ms_caps := caps |} in
  match rest with
  | c :: rest' =>
      if budget_left b && cset_mem f cs c then
        if greedy then
          match rep_more f cs greedy (budget_pred b) (c :: before) rest' caps k with
          | Some r => Some r
          | None => k here
          end
        else
          match k here with
          | Some r => Some r
          | None => rep_more f cs greedy (budget_pred b) (c :: before) rest' caps k
          end
      else k here
  | [] => k here
  end.

Definition at_bol (f : flags) (s : mstate) : bool :=
  match ms_before s with
  | [] => true
  | c :: _ => multiline f && isLineTerminator c
  end.

Definition at_eol (f : flags) (s : mstate) : bool :=
  match ms_rest s with
  | [] => true
  | c :: _ => multiline f && isLineTerminator c
  end.

(** The code units consumed between two states of one match. *)
Definition consumed (s s' : mstate) : jsstring :=
  firstn (length (ms_rest s) - length (ms_rest s')) (ms_rest s).

Fixpoint rmatch (f : flags) (r : regex) (s : mstate) (k : continuation)
    {struct r} : option mstate :=
  match r with
  | RLit lit =>
      match match_lit f lit s with
      | Some s' => k s'
      | None => None
      end
  | RSet cs =>
      match rep_min f cs 1 s with
      | Some s' => k s'
      | None => None
      end
  | RRep cs lo hi greedy =>
      match rep_min f cs lo s with
      | Some s' =>
          rep_more f cs greedy (option_map (fun h => (h - lo)%nat) hi)
            (ms_before s') (ms_rest s') (ms_caps s') k
      | None => None
      end
  | RBol => if at_bol f s then k s else None
  | REol => if at_eol f s then k s else None
  | RSeq a b => rmatch f a s (fun s' => rmatch f b s' k)
  | RAlt a b =>
      match rmatch f a s k with
      | Some r' => Some r'
      | None => rmatch f b s k
      end
  | RGroup n a =>
      rmatch f a s (fun s' =>
        k {| ms_before := ms_before s'; ms_rest := ms_rest s';
             ms_caps := (n, consumed s s') :: ms_caps s' |})
  | RBackref n =>
      match match_lit {| ignoreCase := false; multiline := multiline f |}
              (default [] (get_cap n (ms_caps s))) s with
      | Some s' => k s'
      | None => None
      end
  end.

(** One match attempt at the current position: the number of code units
    matched and the captures. *)
Definition exec_at (f : flags) (r : regex) (before rest : list N)
  : option (nat * list (nat * jsstring)) :=
  match rmatch f r {| ms_before := before; ms_rest := rest; ms_caps := [] |} Some with
  | Some s' => Some ((length rest - length (ms_rest s'))%nat, ms_caps s')
  | None => None
  end.

(** Replacement templates: literal text and [$n]. *)
Inductive titem : Type :=
| TLit (s : jsstring)
| TCap (n : nat).

Definition expand (tpl : list titem) (caps : list (nat * jsstring)) : jsstring :=
  flat_map (fun t => match t with
                     | TLit s => s
                     | TCap n => default [] (get_cap n caps)
                     end) tpl.

(** [s.replace(/r/g, tpl)]: the input is scanned from the left; a match
    at the current position is replaced and scanning resumes after it
    ([skip] counts the code units of the match still to be passed over);
    after an empty match the scan advances by one code unit, which is
    copied. *)
Fixpoint replace_from (f : flags) (r : regex) (tpl : list titem)
    (before rest : list N) (skip : nat) {struct rest} : jsstring :=
  match skip with
  | S skip' =>
      match rest with
      | c :: rest' => replace_from f r tpl (c :: before) rest' skip'
      | [] => []
      end
  | O =>
      match exec_at f r before rest with
      | Some (S n, caps) =>
          expand tpl caps ++
          match rest with
          | c :: rest' => replace_from f r tpl (c :: before) rest' n
          | [] => []
          end
      | Some (O, caps) =>
          expand tpl caps ++
          match rest with
          | c :: rest' => c :: replace_from f r tpl (c :: before) rest' O
          | [] => []
          end
      | None =>
          match rest with
          | c :: rest' => c :: replace_from f r tpl (c :: before) rest' O
          | [] => []
          end
      end
  end.

Definition replaceAll (f : flags) (r : regex) (tpl : list titem) (s : jsstring) : jsstring :=
  replace_from f r tpl [] s O.

(** [/r/.test(s)]: is there a match at some position. *)
Fixpoint test_from (f : flags) (r : regex) (before rest : list N) {struct rest} : bool :=
  match exec_at f r before rest with
  | Some _ => true
  | None =>
      match rest with
      | c :: rest' => test_from f r (c :: before) rest'
      | [] => false
      end
  end.

Definition test (f : flags) (r : regex) (s : jsstring) : bool := test_from f r [] s.

(** Abbreviations for writing patterns. *)
Definition flags_g : flags := {| ignoreCase := false; multiline := false |}.
Definition flags_gm : flags := {| ignoreCase := false; multiline := true |}.
Definition flags_i : flags := {| ignoreCase := true; multiline := false |}.

Definition star (cs : cset) : regex := RRep cs 0 None true.
Definition plus (cs : cset) : regex := RRep cs 1 None true.
Definition star_lazy (cs : cset) : regex := RRep cs 0 None false.
Definition lit (s : string) : regex := RLit (js s).
Definition chr (a : ascii) : cset := CChar (ch a).
Definition CAny : cset := CUnion CSpace (CNot CSpace).       (* [\s\S] *)

Fixpoint seq (rs : list regex) : regex :=
  match rs with
  | [] => RLit []
  | [r] => r
  | r :: rs' => RSeq r (seq rs')
  end.

End Regex.

(** ** Semantic search ([src/db/semantic-search.ts]) *)

Module SemanticSearch.
Import JS Regex.

(** The chain of replacements that turns raw Markdown into the text of the
    excerpt, in the order of the source.  Each pattern is quoted before its
    translation; in the quotations a blank is inserted between a star and
    a closing parenthesis. *)
Definition normalizeMarkdown (rawMarkdown : jsstring) : jsstring :=
  (* .replace(/<[^>]*>/g, ' ') *)
  let s := replaceAll flags_g
             (seq [lit "<"; star (CNot (chr ">")); lit ">"])
             [TLit (js " ")] rawMarkdown in
  (* .replace(/!\[[^\]]*\]\([^)]*\)/g, '') *)
  let s := replaceAll flags_g
             (seq [lit "!["; star (CNot (chr "]")); lit "](";
                   star (CNot (chr ")")); lit ")"])
             [] s in
  (* .replace(/\[([^\]]* )\]\([^)]*\)/g, '$1') *)
  let s := replaceAll flags_g
             (seq [lit "["; RGroup 1 (star (CNot (chr "]"))); lit "](";
                   star (CNot (chr ")")); lit ")"])
             [TCap 1] s in
  (* .replace(/```[\s\S]*?```/g, '') *)
  let s := replaceAll flags_g
             (seq [lit "```"; star_lazy CAny; lit "```"])
             [] s in
  (* .replace(/`[^`]*`/g, '') *)
  let s := replaceAll flags_g
             (seq [lit "`"; star (CNot (chr "`")); lit "`"])
             [] s in
  (* .replace(/^#{1,6}\s+/gm, '') *)
  let s := replaceAll flags_gm
             (seq [RBol; RRep (chr "#") 1 (Some 6%nat) true; plus CSpace])
             [] s in
  (* .replace(/(\*\*|__)(.*?)\1/g, '$2') *)
  let s := replaceAll flags_g
             (seq [RGroup 1 (RAlt (lit "**") (lit "__"));
                   RGroup 2 (star_lazy CDot); RBackref 1])
             [TCap 2] s in
  (* .replace(/(\*|_)(.*?)\1/g, '$2') *)
  let s := replaceAll flags_g
             (seq [RGroup 1 (RAlt (lit "*") (lit "_"));
                   RGroup 2 (star_lazy CDot); RBackref 1])
             [TCap 2] s in
  (* .replace(/^>\s*/gm, '') *)
  let s := replaceAll flags_gm
             (seq [RBol; lit ">"; star CSpace])
             [] s in
  (* .replace(/^-{3,}$/gm, '') *)
  let s := replaceAll flags_gm
             (seq [RBol; RRep (chr "-") 3 None true; REol])
             [] s in
  (* .replace(/^[\s]*[-*+]\s+/gm, '') *)
  let s := replaceAll flags_gm
             (seq [RBol; star CSpace;
                   RSet (CUnion (chr "-") (CUnion (chr "*") (chr "+")));
                   plus CSpace])
             [] s in
  (* .replace(/^[\s]*\d+\.\s+/gm, '') *)
  let s := replaceAll flags_gm
             (seq [RBol; star CSpace; plus CDigit; lit "."; plus CSpace])
             [] s in
  (* .replace(/\s+/g, ' ') *)
  let s := replaceAll flags_g (plus CSpace) [TLit (js " ")] s in
  trim s.

(** [normalizedText.slice(0, 180) + (normalizedText.length > 180 ? '...' : '')] *)
Definition excerptOf (normalizedText : jsstring) : jsstring :=
  slice0 180 normalizedText ++
  (if (180 <? length normalizedText)%nat then js "..." else []).

(** A chunk of [document_embeddings] joined with its document, as the
    store ranks it: [chunk_distance] is the cosine distance [<=>] between
    the chunk's embedding and the query vector, computed by the store. *)
Record Chunk : Type := {
  doc_id : jsstring;
  doc_title : jsstring;
  doc_slug : jsstring;
  doc_rawMarkdown : option jsstring;   (* [None]: the column is null *)
  doc_createdAt : Z;
  chunk_distance : number
}.

(** A row of [results], as the [select] clause shapes it. *)
Record ResultRow : Type := {
  row_id : jsstring;
  row_title : jsstring;
  row_slug : jsstring;
  row_rawMarkdown : option jsstring;
  row_createdAt : Z;
  row_similarity : number
}.

(** similarity: sql`1 - (embedding <=> vector)` *)
Definition select (c : Chunk) : ResultRow :=
  {| row_id := doc_id c;
     row_title := doc_title c;
     row_slug := doc_slug c;
     row_rawMarkdown := doc_rawMarkdown c;
     row_createdAt := doc_createdAt c;
     row_similarity := (1 - chunk_distance c)%Q |}.

Record SemanticSearchResult : Type := {
  id : jsstring;
  title : jsstring;
  slug : jsstring;
  excerpt : jsstring;
  similarity : number;
  createdAt : Z
}.

Inductive error : Type :=
| DimensionMismatch (expected received : nat)
    (* new Error(`Dimension invalida del embedding. Esperado .., recibido ..`) *)
| TypeError.
    (* a method called on null or undefined *)

(** The vector store: what it answers to the nearest-neighbour query
    (order by distance ascending, limit), and the number of queries it has
    been sent. *)
Definition Store : Type := list number -> Z -> list Chunk.

(** [new Map<string, SemanticSearchResult>()]: the entries in insertion
    order; [set] on a present key replaces the value in place. *)
Definition DocMap : Type := list (jsstring * SemanticSearchResult).

Fixpoint map_get (k : jsstring) (m : DocMap) : option SemanticSearchResult :=
  match m with
  | (k', v) :: m' => if str_eqb k k' then Some v else map_get k m'
  | [] => None
  end.

Fixpoint map_set (k : jsstring) (v : SemanticSearchResult) (m : DocMap) : DocMap :=
  match m with
  | (k', v') :: m' =>
      if str_eqb k k' then (k', v) :: m' else (k', v') :: map_set k v m'
  | [] => [(k, v)]
  end.

Definition map_values (m : DocMap) : list SemanticSearchResult := List.map snd m.

(** [a > b] on numbers. *)
Definition gt (a b : number) : bool :=
  match Qlt_le_dec b a with left _ => true | right _ => false end.

(** The body of [for (const row of results)]. *)
Definition visit (docMap : DocMap) (row : ResultRow) : outcome error DocMap :=
  let existing := map_get (row_id row) docMap in
  if match existing with
     | None => true
     | Some e => gt (row_similarity row) (similarity e)
     end
  then
    match row_rawMarkdown row with
    | None => Throw TypeError             (* row.rawMarkdown.replace *)
    | Some raw =>
        let normalizedText := normalizeMarkdown raw in
        Ok (map_set (row_id row)
              {| id := row_id row;
                 title := row_title row;
                 slug := row_slug row;
                 excerpt := excerptOf normalizedText;
                 similarity := row_similarity row;
                 createdAt := row_createdAt row |}
              docMap)
    end
  else Ok docMap.

Fixpoint group (results : list ResultRow) (docMap : DocMap) : outcome error DocMap :=
  match results with
  | [] => Ok docMap
  | row :: results' =>
      match visit docMap row with
      | Ok docMap' => group results' docMap'
      | Throw e => Throw e
      end
  end.

(** [(a, b) => b.similarity - a.similarity] *)
Definition compareFn (a b : SemanticSearchResult) : number :=
  (similarity b - similarity a)%Q.

(** [Array.prototype.sort]: a stable sort; [a] stays before [b] unless
    the comparison of [a] with [b] is positive. *)
Fixpoint sort_insert (cmp : SemanticSearchResult -> SemanticSearchResult -> number)
    (x : SemanticSearchResult) (l : list SemanticSearchResult)
  : list SemanticSearchResult :=
  match l with
  | [] => [x]
  | y :: l' => if gt (cmp x y) 0%Q then y :: sort_insert cmp x l' else x :: y :: l'
  end.

Fixpoint sort (cmp : SemanticSearchResult -> SemanticSearchResult -> number)
    (l : list SemanticSearchResult) : list SemanticSearchResult :=
  match l with
  | [] => []
  | x :: l' => sort_insert cmp x (sort cmp l')
  end.

(** [semanticSearch(queryEmbedding, limit = 10)].  [calls] counts the
    queries sent to the store. *)
Definition semanticSearch (EMBEDDING_DIMENSIONS : nat) (store : Store)
    (queryEmbedding : list number) (limit : option Z) (calls : nat)
  : outcome error (list SemanticSearchResult) * nat :=
  let limit := default 10 limit in
  if negb (length queryEmbedding =? EMBEDDING_DIMENSIONS)%nat then
    (Throw (DimensionMismatch EMBEDDING_DIMENSIONS (length queryEmbedding)), calls)
  else
    let results := List.map select (store queryEmbedding limit) in
    let calls := S calls in
    match group results [] with
    | Ok docMap => (Ok (sort compareFn (map_values docMap)), calls)
    | Throw e => (Throw e, calls)
    end.

End SemanticSearch.

(** ** Content hash ([fnv1a32], database utilities) *)

Module DbUtils.
Import JS.

(** [a ^ b] and [Math.imul(a, b)] on 32-bit integers. *)
Definition xor32 (a b : Z) : Z := toInt32 (Z.lxor (toInt32 a) (toInt32 b)).

Definition imul (a b : Z) : Z := toInt32 (toInt32 a * toInt32 b).

Definition hexDigit (d : Z) : N :=
  if d <? 10 then Z.to_N (48 + d) else Z.to_N (97 + (d - 10)).

(** [n.toString(16)] for a non-negative integer. *)
Fixpoint toString16_from (fuel : nat) (n : Z) (acc : jsstring) : jsstring :=
  match fuel with
  | O => acc
  | S fuel' =>
      let acc' := hexDigit (n mod 16) :: acc in
      if n / 16 =? 0 then acc' else toString16_from fuel' (n / 16) acc'
  end.

Definition toString16 (n : Z) : jsstring :=
  toString16_from (S (Z.to_nat (Z.log2 n))) n [].

(** [s.padStart(len, '0')] *)
Definition padStart0 (len : nat) (s : jsstring) : jsstring :=
  repeat (ch "0") (len - length s) ++ s.

(** [fnv1a32(str)] *)
Definition fnv1a32 (str : jsstring) : jsstring :=
  let hash :=
    fold_left (fun hash c => imul (xor32 hash (Z.of_N c)) 0x01000193)
              str 0x811c9dc5 in
  padStart0 8 (toString16 (toUint32 hash)).

End DbUtils.

(** ** Embedding ingestion ([src/db/embeddings.ts]) *)

Module Embeddings.
Import JS DbUtils.

Record EmbeddingItem : Type := {
  chunkIndex : Z;
  chunkText : jsstring;
  embedding : list number;
  modelId : jsstring;
  device : jsstring;
  pooling : option jsstring;       (* pooling?: string *)
  normalize : option bool          (* normalize?: boolean *)
}.

Record UpsertEmbeddingsInput : Type := {
  documentId : jsstring;
  items : list EmbeddingItem
}.

(** A row of the table [document_embeddings], restricted to the columns the
    sources write. *)
Record EmbeddingRow : Type := {
  col_documentId : jsstring;
  col_chunkIndex : Z;
  col_chunkText : jsstring;
  col_modelId : jsstring;
  col_device : jsstring;
  col_pooling : jsstring;
  col_normalize : Z;
  col_contentHash : jsstring;
  col_embedding : list number
}.

Definition Table : Type := list EmbeddingRow.

Inductive error : Type :=
| EmptyValues          (* the query builder: values() needs at least one value *)
| StoreError.          (* the store rejects the statement *)

(** [validateEmbeddingDimensions(embedding)] *)
Definition validateEmbeddingDimensions (EMBEDDING_DIMENSIONS : nat)
    (embedding : list number) : bool :=
  (length embedding =? EMBEDDING_DIMENSIONS)%nat.

(** The conflict target of the statement. *)
Definition key : Type := jsstring * Z * jsstring * jsstring.

Definition row_key (r : EmbeddingRow) : key :=
  (col_documentId r, col_chunkIndex r, col_modelId r, col_device r).

(** [items.map((it) => ...)] *)
Definition toValue (documentId : jsstring) (it : EmbeddingItem) : EmbeddingRow :=
  let contentHash := fnv1a32 (chunkText it) in
  {| col_documentId := documentId;
     col_chunkIndex := chunkIndex it;
     col_chunkText := chunkText it;
     col_modelId := modelId it;
     col_device := device it;
     col_pooling := default (js "mean") (pooling it);
     col_normalize := if default true (normalize it) then 1 else 0;
     col_contentHash := contentHash;
     col_embedding := embedding it |}.

(** [set: { chunkText, pooling, normalize, contentHash, embedding }] from
    the excluded (proposed) row. *)
Definition conflict_update (excluded old : EmbeddingRow) : EmbeddingRow :=
  {| col_documentId := col_documentId old;
     col_chunkIndex := col_chunkIndex old;
     col_chunkText := col_chunkText excluded;
     col_modelId := col_modelId old;
     col_device := col_device old;
     col_pooling := col_pooling excluded;
     col_normalize := col_normalize excluded;
     col_contentHash := col_contentHash excluded;
     col_embedding := col_embedding excluded |}.

(** One proposed row of [INSERT ... ON CONFLICT (target) DO UPDATE]. *)
Definition upsert_row (t : Table) (v : EmbeddingRow) : Table :=
  if existsb (fun r => bool_decide (row_key r = row_key v)) t
  then List.map (fun r => if bool_decide (row_key r = row_key v)
                          then conflict_update v r else r) t
  else t ++ [v].

(** The store.  The column [embedding] has the type
    [vector(EMBEDDING_DIMENSIONS)]; [vector_in] is the input conversion of
    that type: the vector the column holds for a proposed vector, or
    nothing when the store refuses it. *)
Section Store.

Variable vector_in : list number -> option (list number).

(** A proposed row as the table takes it. *)
Definition stored (v : EmbeddingRow) : option EmbeddingRow :=
  match vector_in (col_embedding v) with
  | Some embedding =>
      Some {| col_documentId := col_documentId v;
              col_chunkIndex := col_chunkIndex v;
              col_chunkText := col_chunkText v;
              col_modelId := col_modelId v;
              col_device := col_device v;
              col_pooling := col_pooling v;
              col_normalize := col_normalize v;
              col_contentHash := col_contentHash v;
              col_embedding := embedding |}
  | None => None
  end.

(** The statement as the store executes it: a vector of another dimension
    or one the column refuses makes the statement fail, and a statement
    that proposes two rows for one conflict key is rejected as a whole. *)
Definition insert_onConflictDoUpdate (EMBEDDING_DIMENSIONS : nat)
    (values : list EmbeddingRow) (t : Table) : outcome error Table :=
  match values with
  | [] => Throw EmptyValues
  | _ =>
      if forallb (fun v => validateEmbeddingDimensions EMBEDDING_DIMENSIONS
                             (col_embedding v)) values
         && bool_decide (NoDup (List.map row_key values))
      then
        match mapM stored values with
        | Some rows => Ok (fold_left upsert_row rows t)
        | None => Throw StoreError
        end
      else Throw StoreError
  end.

(** [upsertEmbeddings(input)]: the count of items and the table after. *)
Definition upsertEmbeddings (EMBEDDING_DIMENSIONS : nat)
    (input : UpsertEmbeddingsInput) (t : Table) : outcome error nat * Table :=
  let values := List.map (toValue (documentId input)) (items input) in
  match insert_onConflictDoUpdate EMBEDDING_DIMENSIONS values t with
  | Ok t' => (Ok (length values), t')
  | Throw e => (Throw e, t)
  end.

End Store.

(** The conversion of pgvector: each component is rounded to the nearest
    single-precision number (binary32), and a component that rounds beyond
    the largest of them is refused. *)
Definition float4 (x : number) : option number :=
  let y := roundBinary 24 (-149) x in
  if Qle_bool (pow2 128) (Qabs y) then None else Some y.

Definition pgvector_in (v : list number) : option (list number) := mapM float4 v.

(** [deleteDocumentEmbeddings(documentId)] *)
Definition deleteDocumentEmbeddings (documentId : jsstring) (t : Table) : Table :=
  List.filter (fun r => negb (bool_decide (col_documentId r = documentId))) t.

End Embeddings.

(** ** Untyped message payloads *)

Module JSValue.
Import JS.

Inductive jsval : Type :=
| VUndefined
| VNull
| VBool (b : bool)
| VNum (x : number)
| VStr (s : jsstring)
| VArr (elems : list jsval)
| VObj (fields : list (jsstring * jsval)).

(** ToBoolean *)
Definition truthy (v : jsval) : bool :=
  match v with
  | VUndefined | VNull => false
  | VBool b => b
  | VNum x => negb (Qeq_bool x 0)
  | VStr s => negb (bool_decide (s = []))
  | VArr _ | VObj _ => true
  end.

Fixpoint lookup_field (name : jsstring) (fields : list (jsstring * jsval)) : jsval :=
  match fields with
  | (k, v) :: fields' => if str_eqb name k then v else lookup_field name fields'
  | [] => VUndefined
  end.

(** [v?.name] for the property names of the protocol, none of which is a
    property of a primitive or of an array. *)
Definition get (name : string) (v : jsval) : jsval :=
  match v with
  | VObj fields => lookup_field (js name) fields
  | _ => VUndefined
  end.

(** [a ?? b] *)
Definition nullish (v : jsval) : bool :=
  match v with VUndefined | VNull => true | _ => false end.

End JSValue.

(** ** The worker RPC client ([createWorkerRpcClient]) *)

Module RpcClient.
Import JS JSValue.

Inductive WorkerRequestType : Type := init | embed | status | clearCache.

Record WorkerRequest : Type := {
  req_type : WorkerRequestType;
  req_requestId : jsstring;
  req_payload : jsval
}.

(** What a call's promise is rejected with. *)
Inductive rejection : Type :=
| WorkerError (error : jsval)           (* data.error *)
| UnknownWorkerError                    (* 'Error desconocido del Worker de embeddings.' *)
| TimeoutError (type : WorkerRequestType)
                                        (* `Timeout llamando al Worker (${type}).` *)
| DisposedError.                        (* 'RPC client disposed' *)

Inductive settlement : Type :=
| Resolved (result : jsval)
| Rejected (err : rejection).

(** An entry of [pending].  The functions [resolve] and [reject] of the
    call's promise are represented by the promise they settle, the progress
    callback by a handle. *)
Record Entry : Type := {
  entry_promise : nat;
  entry_onProgress : option nat;
  entry_timeoutId : Z
}.

(** A timer armed by [window.setTimeout]: when it is due, and the variables
    its callback closes over. *)
Record Timer : Type := {
  timer_id : Z;
  timer_due : Z;
  timer_requestId : jsstring;
  timer_type : WorkerRequestType;
  timer_promise : nat
}.

Record Client : Type := {
  pending : gmap jsstring Entry;
  timers : list Timer;                    (* armed timers, oldest first *)
  nextTimerId : Z;                        (* timer ids are positive *)
  promises : gmap nat settlement;         (* the settled promises *)
  nextPromise : nat;
  progressCalls : list (nat * jsval);     (* callback invocations, oldest first *)
  posted : list WorkerRequest;            (* worker.postMessage, oldest first *)
  listening : bool;                       (* onMessage is registered *)
  terminated : bool;                      (* worker.terminate() was called *)
  now : Z                                 (* the clock, in milliseconds *)
}.

(** [createWorkerRpcClient(worker)] at time [t]. *)
Definition createWorkerRpcClient (t : Z) : Client :=
  {| pending := ∅; timers := []; nextTimerId := 1;
     promises := ∅; nextPromise := 0;
     progressCalls := []; posted := [];
     listening := true; terminated := false; now := t |}.

(** Settling a promise: only the first settlement counts. *)
Definition settle (p : nat) (s : settlement) (ps : gmap nat settlement)
  : gmap nat settlement :=
  match ps !! p with
  | Some _ => ps
  | None => <[p := s]> ps
  end.

(** The delay of the timer that [window.setTimeout(handler, timeout)] arms,
    for a timeout in whole milliseconds.  The argument is a WebIDL [long]:
    the timeout is converted to a 32-bit signed integer, and a negative
    delay counts as 0.  A timeout of 2^31 milliseconds is a delay of 0,
    one of 2^32 + 5 a delay of 5. *)
Definition timerDelay (timeout : Z) : Z := Z.max 0 (toInt32 timeout).

(** [window.clearTimeout(id)] *)
Definition clearTimeout (tid : Z) (ts : list Timer) : list Timer :=
  List.filter (fun t => negb (timer_id t =? tid)) ts.

Definition isWorkerMessage (value : jsval) : bool :=
  match value with
  | VObj _ =>
      match get "type" value, get "requestId" value with
      | VStr ty, VStr _ =>
          str_eqb ty (js "response") || str_eqb ty (js "progress")
      | _, _ => false
      end
  | _ => false
  end.

Definition onMessage (data : jsval) (c : Client) : Client :=
  if negb (isWorkerMessage data) then c else
  match get "type" data, get "requestId" data with
  | VStr ty, VStr requestId =>
      match pending c !! requestId with
      | None => c
      | Some entry =>
          if str_eqb ty (js "progress") then
            match entry_onProgress entry with
            | Some cb =>
                {| pending := pending c; timers := timers c;
                   nextTimerId := nextTimerId c;
                   promises := promises c; nextPromise := nextPromise c;
                   progressCalls := progressCalls c ++ [(cb, get "payload" data)];
                   posted := posted c; listening := listening c;
                   terminated := terminated c; now := now c |}
            | None => c
            end
          else if str_eqb ty (js "response") then
            {| pending := delete requestId (pending c);
               timers := if entry_timeoutId entry =? 0 then timers c
                         else clearTimeout (entry_timeoutId entry) (timers c);
               nextTimerId := nextTimerId c;
               promises :=
                 settle (entry_promise entry)
                   (if truthy (get "ok" data) then Resolved (get "result" data)
                    else if nullish (get "error" data) then Rejected UnknownWorkerError
                    else Rejected (WorkerError (get "error" data)))
                   (promises c);
               nextPromise := nextPromise c;
               progressCalls := progressCalls c; posted := posted c;
               listening := listening c; terminated := terminated c;
               now := now c |}
          else c
      end
  | _, _ => c
  end.

(** [call(type, payload, opts)], with the identifier [randomId()] returned.
    The promise of the call is [nextPromise c]. *)
Definition call (requestId : jsstring) (type : WorkerRequestType) (payload : jsval)
    (timeoutMs : option Z) (onProgress : option nat) (c : Client) : Client :=
  let timeoutMs := default 60000 timeoutMs in
  let promise := nextPromise c in
  let timeoutId := nextTimerId c in
  {| pending :=
       <[requestId := {| entry_promise := promise;
                         entry_onProgress := onProgress;
                         entry_timeoutId := timeoutId |}]> (pending c);
     timers := timers c ++
       [{| timer_id := timeoutId; timer_due := now c + timerDelay timeoutMs;
           timer_requestId := requestId; timer_type := type;
           timer_promise := promise |}];
     nextTimerId := nextTimerId c + 1;
     promises := promises c; nextPromise := S (nextPromise c);
     progressCalls := progressCalls c;
     posted := posted c ++
       [{| req_type := type; req_requestId := requestId; req_payload := payload |}];
     listening := listening c; terminated := terminated c; now := now c |}.

(** The callback given to [setTimeout]. *)
Definition onTimeout (t : Timer) (c : Client) : Client :=
  {| pending := delete (timer_requestId t) (pending c);
     timers := clearTimeout (timer_id t) (timers c);
     nextTimerId := nextTimerId c;
     promises := settle (timer_promise t) (Rejected (TimeoutError (timer_type t)))
                   (promises c);
     nextPromise := nextPromise c;
     progressCalls := progressCalls c; posted := posted c;
     listening := listening c; terminated := terminated c; now := now c |}.

(** Timers are run in the order of their due times, and in the order of
    their creation when due together. *)
Fixpoint insert_by_due (t : Timer) (ts : list Timer) : list Timer :=
  match ts with
  | [] => [t]
  | u :: ts' => if timer_due u <=? timer_due t then u :: insert_by_due t ts'
                else t :: u :: ts'
  end.

Definition by_due (ts : list Timer) : list Timer :=
  fold_left (fun acc t => insert_by_due t acc) ts [].

(** The clock reaches [t]: the timers due by then fire. *)
Definition advance (t : Z) (c : Client) : Client :=
  let due := by_due (List.filter (fun u => timer_due u <=? t) (timers c)) in
  let c' := fold_left (fun c u => onTimeout u c) due c in
  {| pending := pending c'; timers := timers c'; nextTimerId := nextTimerId c';
     promises := promises c'; nextPromise := nextPromise c';
     progressCalls := progressCalls c'; posted := posted c';
     listening := listening c'; terminated := terminated c';
     now := Z.max (now c) t |}.

(** [dispose()] *)
Definition dispose (c : Client) : Client :=
  let entries := map_to_list (pending c) in
  {| pending := ∅;
     timers := fold_left (fun ts e =>
                 if entry_timeoutId (snd e) =? 0 then ts
                 else clearTimeout (entry_timeoutId (snd e)) ts) entries (timers c);
     nextTimerId := nextTimerId c;
     promises := fold_left (fun ps e =>
                   settle (entry_promise (snd e)) (Rejected DisposedError) ps)
                   entries (promises c);
     nextPromise := nextPromise c;
     progressCalls := progressCalls c; posted := posted c;
     listening := false; terminated := true; now := now c |}.

(** What happens to a client. *)
Inductive event : Type :=
| Call (requestId : jsstring) (type : WorkerRequestType) (payload : jsval)
       (timeoutMs : option Z) (onProgress : option nat)
| Message (data : jsval)           (* the worker posts [data] *)
| Advance (t : Z)                  (* the clock reaches [t] *)
| Dispose.

Definition step (c : Client) (e : event) : Client :=
  match e with
  | Call requestId type payload timeoutMs onProgress =>
      call requestId type payload timeoutMs onProgress c
  | Message data => if listening c then onMessage data c else c
  | Advance t => advance t c
  | Dispose => dispose c
  end.

Definition run (es : list event) (c : Client) : Client := fold_left step es c.

End RpcClient.

(** ** The embedding worker: what both versions share *)

Module Worker.
Import JS JSValue Regex.

(** A thrown value, as the handler reports it: message, name. *)
Record Thrown : Type := {
  thrown_message : jsstring;
  thrown_name : option jsstring
}.

(** What the loaded model returns for a text. *)
Inductive vectorLike : Type :=
| PlainArray (v : list number)         (* Array.isArray *)
| TypedArray (v : list number)         (* ArrayBuffer.isView *)
| NoVector.                            (* undefined or null *)

Inductive Output : Type :=
| OutArray (v : list number)           (* the output is an array *)
| OutTensor (data : vectorLike)        (* the output has a [data] property *)
| OutNothing.                          (* undefined or null *)

(** The function [pipeline(...)] resolves to. *)
Definition Pipeline : Type := jsval -> outcome Thrown Output.

Definition toPlainArray (vectorLike : vectorLike) : option (list number) :=
  match vectorLike with
  | NoVector => None
  | PlainArray v => Some v
  | TypedArray v => Some v
  end.

(** [Array.isArray(output) ? output : output?.data] *)
Definition vectorOf (output : Output) : vectorLike :=
  match output with
  | OutArray v => PlainArray v
  | OutTensor data => data
  | OutNothing => NoVector
  end.

Record Config : Type := {
  cfg_modelId : option jsstring;         (* [None]: null *)
  cfg_device : option jsstring
}.

(** The payload of a progress message. *)
Inductive Progress : Type :=
| Loading (label : jsstring) (percent : option Z)
    (* { phase: 'loading', label, percent }; [None]: percent is null *)
| LoadingMessage (message : jsstring)
    (* { phase: 'loading', message } *)
| Running (index total : nat) (percent : Z).
    (* { phase: 'running', index, total, percent } *)

Inductive Result : Type :=
| ResStatus (ready : bool) (config : Config)
| ResCleared
| ResReady (config : Config)
| ResEmbed (modelId device : option jsstring)
           (embeddings : list (option (list number))).

Inductive ErrorInfo : Type :=
| ErrTextsNotArray             (* '`texts` debe ser un array no vacio' *)
| ErrUnknownType (type : jsval)(* `Tipo de mensaje desconocido: ${type}` *)
| ErrThrown (e : Thrown).      (* the catch clause *)

(** [self.postMessage] *)
Inductive Posted : Type :=
| PostProgress (requestId : jsval) (payload : Progress)
| PostResponse (requestId : jsval) (ok : bool) (result : option Result)
               (error : option ErrorInfo).

(** A fetch function: the platform's, or a wrapper installed by
    [ensurePipeline] around another; [report] is the request the wrapper
    posts progress to, when it has a reporter. *)
Inductive Fetch : Type :=
| NativeFetch
| Intercepted (report : option jsval) (base : Fetch).

(** What the worker does that can be observed, in order. *)
Inductive Obs : Type :=
| Post (m : Posted)
| LoadModel (modelId device : jsstring) (fetch : Fetch)
    (* pipeline(...) is called, with [fetch] the fetch function in place *)
| PipeCall (text : jsval).
    (* the model is run on a text *)

(** What happens while [pipeline(...)] runs.  Responses are numbered in the
    order of the fetches. *)
Inductive LoadEvent : Type :=
| LFetch (url : jsstring) (hasBody : bool) (contentLength : option Z)
    (* the library fetches [url]; the wrapped fetch answers with a
       response with or without a body, and with the decimal value of its
       content-length header, if it has one *)
| LRead (response : nat) (byteLength : option Z)
    (* a chunk of that response is read through the streams of the
       wrappers *)
| LDone (response : nat)
    (* ... the end of the body *)
| LCancel (response : nat)
    (* the stream the library was given is cancelled *)
| LCallback (status : jsstring) (progress : option number) (file : option jsstring).
    (* the library calls [progress_callback] *)

Record LoadScript : Type := {
  load_events : list LoadEvent;
  load_result : outcome Thrown Pipeline
}.

(** [pipeline('feature-extraction', modelId, { device, ... })] *)
Definition Loader : Type := jsstring -> jsstring -> LoadScript.

(** [Math.round(((i + 1) / texts.length) * 100)] *)
Definition runningPercent (i total : nat) : Z :=
  Math_round (fmul (fdiv (inject_Z (Z.of_nat (i + 1))) (inject_Z (Z.of_nat total)))
                   100%Q).

(** The loop of the [embed] handler over the texts from index [i] on. *)
Fixpoint embedLoop (pipe : Pipeline) (requestId : jsval) (texts : list jsval)
    (i total : nat) (embeddings : list (option (list number)))
  : outcome Thrown (list (option (list number))) * list Obs :=
  match texts with
  | [] => (Ok embeddings, [])
  | text :: texts' =>
      let progress :=
        Post (PostProgress requestId (Running i total (runningPercent i total))) in
      match pipe text with
      | Throw e => (Throw e, [progress; PipeCall text])
      | Ok output =>
          let vector := vectorOf output in
          let '(r, obs) :=
            embedLoop pipe requestId texts' (S i) total
              (embeddings ++ [toPlainArray vector]) in
          (r, progress :: PipeCall text :: obs)
      end
  end.

(** [a || b] on a string that may be missing. *)
Definition or_else (a : option jsstring) (b : jsstring) : jsstring :=
  match a with
  | Some s => if bool_decide (s = []) then b else s
  | None => b
  end.

Definition or_opt (a b : option jsstring) : option jsstring :=
  match a with
  | Some s => if bool_decide (s = []) then b else a
  | None => b
  end.

(** A request.  [modelId] and [device], when present, are strings. *)
Record Payload : Type := {
  p_modelId : option jsstring;
  p_device : option jsstring;
  p_texts : jsval
}.

Record Request : Type := {
  type : jsval;
  requestId : jsval;
  payload : option Payload
}.

Definition alts (rs : list regex) : regex :=
  match rs with
  | [] => RLit []
  | r :: rs' => fold_left RAlt rs' r
  end.

(** [url.split('/').pop() || url] *)
Fixpoint lastSegment (url acc : jsstring) : jsstring :=
  match url with
  | [] => acc
  | c :: url' => if (c =? ch "/")%N then lastSegment url' [] else lastSegment url' (acc ++ [c])
  end.

Definition fileKeyOf (url : jsstring) : jsstring :=
  let last := lastSegment url [] in
  if bool_decide (last = []) then url else last.

(** The module-level variables of a worker script, and the fetch functions
    its [ensurePipeline] replaces. *)
Record Info : Type := { loaded : Z; total : Z }.

Record State : Type := {
  featureExtractionPipeline : option Pipeline;
  currentConfig : Config;
  downloadTracker : gmap jsstring Info;
  globalThis_fetch : Fetch;
  env_fetch : option Fetch              (* [None]: env.fetch is not set *)
}.

Definition initial : State :=
  {| featureExtractionPipeline := None;
     currentConfig := {| cfg_modelId := None; cfg_device := None |};
     downloadTracker := ∅;
     globalThis_fetch := NativeFetch;
     env_fetch := None |}.

Definition set_pipeline (p : option Pipeline) (st : State) : State :=
  {| featureExtractionPipeline := p;
     currentConfig := currentConfig st;
     downloadTracker := downloadTracker st;
     globalThis_fetch := globalThis_fetch st;
     env_fetch := env_fetch st |}.

Definition set_config (c : Config) (st : State) : State :=
  {| featureExtractionPipeline := featureExtractionPipeline st;
     currentConfig := c;
     downloadTracker := downloadTracker st;
     globalThis_fetch := globalThis_fetch st;
     env_fetch := env_fetch st |}.

Definition set_tracker (d : gmap jsstring Info) (st : State) : State :=
  {| featureExtractionPipeline := featureExtractionPipeline st;
     currentConfig := currentConfig st;
     downloadTracker := d;
     globalThis_fetch := globalThis_fetch st;
     env_fetch := env_fetch st |}.

Definition set_globalThis_fetch (f : Fetch) (st : State) : State :=
  {| featureExtractionPipeline := featureExtractionPipeline st;
     currentConfig := currentConfig st;
     downloadTracker := downloadTracker st;
     globalThis_fetch := f;
     env_fetch := env_fetch st |}.

Definition set_env_fetch (f : option Fetch) (st : State) : State :=
  {| featureExtractionPipeline := featureExtractionPipeline st;
     currentConfig := currentConfig st;
     downloadTracker := downloadTracker st;
     globalThis_fetch := globalThis_fetch st;
     env_fetch := f |}.

(** The first test of [ensurePipeline]: a pipeline is loaded and the
    configuration is the requested one. *)
Definition loadedFor (modelId device : jsstring) (st : State) : option Pipeline :=
  match featureExtractionPipeline st with
  | Some p =>
      if bool_decide (cfg_modelId (currentConfig st) = Some modelId)
         && bool_decide (cfg_device (currentConfig st) = Some device)
      then Some p else None
  | None => None
  end.

Definition reportTo (reportProgress : option jsval) (ps : list Progress) : list Obs :=
  match reportProgress with
  | Some requestId => List.map (fun p => Post (PostProgress requestId p)) ps
  | None => []
  end.

(** The reporters of the wrappers a fetch function is made of, innermost
    first: each wrapper with a reporter treats the response of its base in
    the same way, and a wrapper without one hands the response on. *)
Fixpoint reporters (f : Fetch) : list jsval :=
  match f with
  | NativeFetch => []
  | Intercepted report base =>
      reporters base ++ match report with Some r => [r] | None => [] end
  end.

(** The message handler, over the parts in which the two versions differ:
    [ensurePipeline], the default model, the first progress message of
    [init], and what [clearCache] does to the download tracker. *)
Section Handler.

Variable ensurePipeline :
  jsstring -> jsstring -> option jsval -> State ->
  outcome Thrown Pipeline * State * list Obs.
Variable defaultModel : jsstring.
Variable initProgress : Progress.
Variable clearTracker : bool.

Definition postProgress (requestId : jsval) (p : Progress) : Obs :=
  Post (PostProgress requestId p).

Definition postResponse (requestId : jsval) (ok : bool) (result : option Result)
    (error : option ErrorInfo) : Obs :=
  Post (PostResponse requestId ok result error).

Definition is_type (name : string) (type : jsval) : bool :=
  match type with
  | VStr s => str_eqb s (js name)
  | _ => false
  end.

Definition catch (requestId : jsval) (e : Thrown) : Obs :=
  postResponse requestId false None (Some (ErrThrown e)).

Definition onMessage (data : option Request) (st : State) : State * list Obs :=
  let type := match data with Some d => type d | None => VUndefined end in
  let requestId := match data with Some d => requestId d | None => VUndefined end in
  let payload := match data with Some d => payload d | None => None end in
  if is_type "status" type then
    (st, [postResponse requestId true
            (Some (ResStatus (bool_decide (is_Some (featureExtractionPipeline st)))
                     (currentConfig st))) None])
  else if is_type "clearCache" type then
    let st := set_pipeline None st in
    let st := set_config {| cfg_modelId := None; cfg_device := None |} st in
    let st := if clearTracker then set_tracker ∅ st else st in
    (st, [postResponse requestId true (Some ResCleared) None])
  else if is_type "init" type then
    let modelId := or_else (payload ≫= p_modelId) defaultModel in
    let device := or_else (payload ≫= p_device) (js "wasm") in
    let '(r, st', obs) := ensurePipeline modelId device (Some requestId) st in
    match r with
    | Ok _ =>
        (st', postProgress requestId initProgress :: obs ++
              [postResponse requestId true (Some (ResReady (currentConfig st'))) None])
    | Throw e =>
        (st', postProgress requestId initProgress :: obs ++ [catch requestId e])
    end
  else if is_type "embed" type then
    let modelId :=
      or_else (or_opt (payload ≫= p_modelId) (cfg_modelId (currentConfig st)))
              defaultModel in
    let device :=
      or_else (or_opt (payload ≫= p_device) (cfg_device (currentConfig st)))
              (js "wasm") in
    let texts := match payload with Some p => p_texts p | None => VUndefined end in
    match texts with
    | VArr (text :: more) =>
        let texts := text :: more in
        let '(r, st', obs) := ensurePipeline modelId device (Some requestId) st in
        match r with
        | Throw e => (st', obs ++ [catch requestId e])
        | Ok pipe =>
            let '(r', obs') := embedLoop pipe requestId texts 0 (length texts) [] in
            match r' with
            | Throw e => (st', obs ++ obs' ++ [catch requestId e])
            | Ok embeddings =>
                (st', obs ++ obs' ++
                      [postResponse requestId true
                         (Some (ResEmbed (cfg_modelId (currentConfig st'))
                                         (cfg_device (currentConfig st'))
                                         embeddings)) None])
            end
        end
    | _ =>
        (* !Array.isArray(texts) || texts.length === 0 *)
        (st, [postResponse requestId false None (Some ErrTextsNotArray)])
    end
  else
    (st, [postResponse requestId false None (Some (ErrUnknownType type))]).

End Handler.

End Worker.

(** ** The worker on Transformers.js 2.x, with the download tracker
    (the sibling of [public/embeddings-worker.js]) *)

Module WorkerV2.
Import JS JSValue Regex Worker.

(** The pattern of [isModelAsset].  In the source the dots and question
    marks of the last four alternatives are preceded by two backslashes: a
    literal backslash followed by any code unit, and an optional
    backslash. *)
Definition modelAssetPattern : regex :=
  let ext (n : nat) (name : string) :=
    seq [lit "\"; RSet CDot; lit name;
         RGroup n (RAlt REol (RRep (chr "\") 0 (Some 1%nat) true))] in
  alts [lit "huggingface"; seq [lit "hf"; lit "."; lit "co"]; lit "jsdelivr";
        lit "onnxruntime"; ext 1%nat "wasm"%string; ext 2%nat "onnx"%string;
        ext 3%nat "bin"%string; ext 4%nat "json"%string].

Definition isModelAsset (url : jsstring) : bool := test flags_i modelAssetPattern url.

Definition sumTotal (d : gmap jsstring Info) : Z :=
  map_fold (fun _ info acc => acc + total info) 0 d.

Definition sumLoaded (d : gmap jsstring Info) : Z :=
  map_fold (fun _ info acc => acc + loaded info) 0 d.

(** [calculateTotalProgress()]; [None] is null. *)
Definition calculateTotalProgress (downloadTracker : gmap jsstring Info) : option Z :=
  if bool_decide (size downloadTracker = 0%nat) then None else
  let totalBytes := sumTotal downloadTracker in
  let loadedBytes := sumLoaded downloadTracker in
  if totalBytes =? 0 then None
  else Some (Z.min 99 (Math_round (fmul (fdiv (inject_Z loadedBytes)
                                              (inject_Z totalBytes)) 100%Q))).

(** The state of a load in flight: the tracker, and for each response, in
    the order of the fetches, the key of its file while the streams of the
    wrappers are reading it. *)
Record Download : Type := {
  tracker : gmap jsstring Info;
  responses : list (option jsstring)
}.

(** [if (totalPct !== null) report(...)] *)
Definition reportTotal (d : gmap jsstring Info) : list Progress :=
  match calculateTotalProgress d with
  | Some totalPct => [Loading (js "Descargando modelo") (Some totalPct)]
  | None => []
  end.

(** [if (info && value) info.loaded += value.byteLength] *)
Definition addLoaded (fileKey : jsstring) (byteLength : option Z)
    (d : gmap jsstring Info) : gmap jsstring Info :=
  match d !! fileKey, byteLength with
  | Some info, Some len =>
      <[fileKey := {| loaded := loaded info + len; total := total info |}]> d
  | _, _ => d
  end.

(** [if (info) info.loaded = info.total] *)
Definition setLoaded (fileKey : jsstring) (d : gmap jsstring Info)
  : gmap jsstring Info :=
  match d !! fileKey with
  | Some info => <[fileKey := {| loaded := total info; total := total info |}]> d
  | None => d
  end.

(** A chunk, or the end of a body, goes through the streams of the
    wrappers with the reporters [rs], innermost first: each updates the
    tracker and reports the total to its own request. *)
Fixpoint throughWrappers (rs : list jsval)
    (update : gmap jsstring Info -> gmap jsstring Info) (d : gmap jsstring Info)
  : gmap jsstring Info * list Obs :=
  match rs with
  | [] => (d, [])
  | r :: rs' =>
      let d := update d in
      let '(d', obs) := throughWrappers rs' update d in
      (d', reportTo (Some r) (reportTotal d) ++ obs)
  end.

(** One event of a load, seen by the wrappers [globalThis.fetch] is made
    of, whose reporters are [rs], and by the [progress_callback] of the
    call, which reports to [report]. *)
Definition loadStep (rs : list jsval) (report : option jsval) (l : Download)
    (e : LoadEvent) : Download * list Obs :=
  match e with
  | LFetch url hasBody contentLength =>
      if negb (isModelAsset url) || bool_decide (rs = []) then
        ({| tracker := tracker l; responses := responses l ++ [None] |}, [])
      else
        let total := default 0 contentLength in
        if negb hasBody || (total =? 0) then
          ({| tracker := tracker l; responses := responses l ++ [None] |},
           List.map (fun r => Post (PostProgress r
                       (Loading (js "Descargando modelo") None))) rs)
        else
          let fileKey := fileKeyOf url in
          ({| tracker := <[fileKey := {| loaded := 0; total := total |}]> (tracker l);
              responses := responses l ++ [Some fileKey] |}, [])
  | LRead n byteLength =>
      match responses l !! n with
      | Some (Some fileKey) =>
          let '(d, obs) := throughWrappers rs (addLoaded fileKey byteLength) (tracker l) in
          ({| tracker := d; responses := responses l |}, obs)
      | _ => (l, [])
      end
  | LDone n =>
      match responses l !! n with
      | Some (Some fileKey) =>
          let '(d, obs) := throughWrappers rs (setLoaded fileKey) (tracker l) in
          ({| tracker := d; responses := <[n := None]> (responses l) |}, obs)
      | _ => (l, [])
      end
  | LCancel n =>
      match responses l !! n with
      | Some (Some fileKey) =>
          ({| tracker := delete fileKey (tracker l); responses := responses l |}, [])
      | _ => (l, [])
      end
  | LCallback status progress file =>
      if negb (bool_decide (is_Some report)) then (l, [])
      else if str_eqb status (js "downloading") || str_eqb status (js "progress") then
        let pct := option_map Math_round progress in
        let label :=
          match file with
          | Some f => if bool_decide (f = []) then js "Descargando modelo"
                      else js "Descargando " ++ f
          | None => js "Descargando modelo"
          end in
        (l, reportTo report [Loading label pct])
      else if str_eqb status (js "done") then
        (l, reportTo report [Loading (js "Modelo listo") (Some 100)])
      else (l, [])
  end.

Fixpoint loadRun (rs : list jsval) (report : option jsval) (l : Download)
    (es : list LoadEvent) : Download * list Obs :=
  match es with
  | [] => (l, [])
  | e :: es' =>
      let '(l', obs) := loadStep rs report l e in
      let '(l'', obs') := loadRun rs report l' es' in
      (l'', obs ++ obs')
  end.

(** [ensurePipeline] from the first test to [await pipeline(...)]: the
    tracker is emptied, the wrapper is put on [globalThis.fetch] around the
    function found there, and the start is reported. *)
Definition beforeLoad (report : option jsval) (st : State) : Fetch * State * list Obs :=
  let st := set_tracker ∅ st in
  let originalFetch := globalThis_fetch st in
  let st := set_globalThis_fetch (Intercepted report originalFetch) st in
  (originalFetch, st, reportTo report [Loading (js "Iniciando descarga") (Some 0)]).

(** [ensurePipeline] from the moment the promise of [pipeline(...)] is
    settled: [originalFetch] is the function its call found on
    [globalThis.fetch]. *)
Definition afterLoad (modelId resolvedDevice : jsstring) (report : option jsval)
    (originalFetch : Fetch) (result : outcome Thrown Pipeline) (st : State)
  : outcome Thrown Pipeline * State * list Obs :=
  match result with
  | Ok p =>
      let st := set_pipeline (Some p) st in
      let st := set_config {| cfg_modelId := Some modelId;
                              cfg_device := Some resolvedDevice |} st in
      let st := set_globalThis_fetch originalFetch st in
      (Ok p, st, reportTo report [Loading (js "Modelo listo") (Some 100)])
  | Throw err =>
      let st := set_globalThis_fetch originalFetch st in
      (Throw err, st, [])
  end.

(** [ensurePipeline({ modelId, device, reportProgress })], when nothing
    else runs in the worker between its start and its end. *)
Definition ensurePipeline (pipeline : Loader)
    (modelId device : jsstring) (reportProgress : option jsval) (st : State)
  : outcome Thrown Pipeline * State * list Obs :=
  match loadedFor modelId device st with
  | Some p => (Ok p, st, [])
  | None =>
      let report := reportProgress in
      let '(originalFetch, st, started) := beforeLoad report st in
      let resolvedDevice := or_else (Some device) (js "wasm") in
      (* await pipeline('feature-extraction', modelId, { ... }) *)
      let script := pipeline modelId resolvedDevice in
      let '(l, obs) :=
        loadRun (reporters (globalThis_fetch st)) report
          {| tracker := downloadTracker st; responses := [] |}
          (load_events script) in
      let during := LoadModel modelId resolvedDevice (globalThis_fetch st) :: obs in
      let st := set_tracker (tracker l) st in
      let '(r, st, ended) :=
        afterLoad modelId resolvedDevice report originalFetch (load_result script) st in
      (r, st, started ++ during ++ ended)
  end.

Definition defaultModel : jsstring := js "Xenova/paraphrase-multilingual-MiniLM-L12-v2".

Definition onMessage (pipeline : Loader) : option Request -> State -> State * list Obs :=
  Worker.onMessage (ensurePipeline pipeline) defaultModel
    (Loading (js "Iniciando carga del modelo") (Some 0)) true.

End WorkerV2.

(** ** The worker of [public/embeddings-worker.js] (Transformers.js 3.x) *)

Module WorkerV3.
Import JS JSValue Regex Worker.

Definition modelAssetPattern : regex :=
  let ext (n : nat) (name : string) :=
    seq [lit "."; lit name; RGroup n (RAlt (lit "?") REol)] in
  alts [lit "huggingface"; lit "hf.co"; lit "jsdelivr"; lit "onnxruntime";
        ext 1%nat "wasm"%string; ext 2%nat "onnx"%string].

Definition isModelAsset (url : jsstring) : bool := test flags_i modelAssetPattern url.

Definition reportAll (rs : list jsval) (p : Progress) : list Obs :=
  List.map (fun requestId => Post (PostProgress requestId p)) rs.

(** [Math.min(99, Math.round((loaded / total) * 100))] *)
Definition filePercent (loaded total : Z) : Z :=
  Z.min 99 (Math_round (fmul (fdiv (inject_Z loaded) (inject_Z total)) 100%Q)).

(** One event of a load, seen by the wrappers [env.fetch] is made of.  For
    each response, in the order of the fetches: the byte counters of its
    stream while the wrappers read it. *)
Definition loadStep (rs : list jsval) (streams : list (option Info)) (e : LoadEvent)
  : list (option Info) * list Obs :=
  match e with
  | LFetch url hasBody contentLength =>
      if bool_decide (rs = []) || negb hasBody || negb (isModelAsset url) then
        (streams ++ [None], [])
      else
        let total := default 0 contentLength in
        if total =? 0 then
          (streams ++ [None], reportAll rs (Loading (js "Descargando modelo") None))
        else
          (streams ++ [Some {| loaded := 0; total := total |}], [])
  | LRead n byteLength =>
      match streams !! n with
      | Some (Some info) =>
          let loaded := loaded info + default 0 byteLength in
          let pct := filePercent loaded (total info) in
          (<[n := Some {| loaded := loaded; total := total info |}]> streams,
           reportAll rs (Loading (js "Descargando modelo") (Some pct)))
      | _ => (streams, [])
      end
  | LDone n =>
      match streams !! n with
      | Some (Some info) =>
          (<[n := None]> streams,
           reportAll rs (Loading (js "Modelo descargado") (Some 100)))
      | _ => (streams, [])
      end
  | LCancel n =>
      match streams !! n with
      | Some (Some info) => (<[n := None]> streams, [])
      | _ => (streams, [])
      end
  | LCallback _ _ _ => (streams, [])      (* no progress_callback is passed *)
  end.

Fixpoint loadRun (rs : list jsval) (streams : list (option Info)) (es : list LoadEvent)
  : list (option Info) * list Obs :=
  match es with
  | [] => (streams, [])
  | e :: es' =>
      let '(streams', obs) := loadStep rs streams e in
      let '(streams'', obs') := loadRun rs streams' es' in
      (streams'', obs ++ obs')
  end.

(** [ensurePipeline({ modelId, device, reportProgress })] *)
Definition ensurePipeline (pipeline : Loader)
    (modelId device : jsstring) (reportProgress : option jsval) (st : State)
  : outcome Thrown Pipeline * State * list Obs :=
  match loadedFor modelId device st with
  | Some p => (Ok p, st, [])
  | None =>
      let report := reportProgress in
      (* const baseFetch = env.fetch || fetch *)
      let baseFetch := default (globalThis_fetch st) (env_fetch st) in
      let st := set_env_fetch (Some (Intercepted report baseFetch)) st in
      let resolvedDevice := or_else (Some device) (js "wasm") in
      (* await pipeline('feature-extraction', modelId, { device }) *)
      let script := pipeline modelId resolvedDevice in
      let inPlace := default NativeFetch (env_fetch st) in
      let '(_, obs) := loadRun (reporters inPlace) [] (load_events script) in
      let during := LoadModel modelId resolvedDevice inPlace :: obs in
      match load_result script with
      | Ok p =>
          let st := set_pipeline (Some p) st in
          let st := set_config {| cfg_modelId := Some modelId;
                                  cfg_device := Some resolvedDevice |} st in
          (Ok p, st,
           during ++ reportTo report [Loading (js "Modelo listo") (Some 100)])
      | Throw err => (Throw err, st, during)
      end
  end.

Definition defaultModel : jsstring := js "Xenova/multilingual-e5-large".

(** 'Cargando modelo' followed by U+2026 *)
Definition cargandoModelo : jsstring := js "Cargando modelo" ++ [0x2026%N].

Definition onMessage (pipeline : Loader) : option Request -> State -> State * list Obs :=
  Worker.onMessage (ensurePipeline pipeline) defaultModel
    (LoadingMessage cargandoModelo) false.

End WorkerV3.

(** ** Export of a post ([src/lib/post-export.ts]) *)

Module PostExport.
Import JS Regex.

(** The class of the first replacement: backslash, slash, colon, star,
    question mark, double quote (code unit 34), the angle brackets and the
    bar. *)
Definition reserved : cset :=
  CUnion (chr "\") (CUnion (chr "/") (CUnion (chr ":") (CUnion (chr "*")
    (CUnion (chr "?") (CUnion (CChar 34) (CUnion (chr "<")
      (CUnion (chr ">") (chr "|")))))))).

Definition documento : jsstring := js "documento".

(** [sanitizeFilename(name)] *)
Definition sanitizeFilename (name : jsstring) : jsstring :=
  (* String(name || 'documento') *)
  let s := if bool_decide (name = []) then documento else name in
  (* .replace(/[reserved]/g, '') *)
  let s := replaceAll flags_g (RSet reserved) [] s in
  (* .replace(/\s+/g, ' ') *)
  let s := replaceAll flags_g (plus CSpace) [TLit (js " ")] s in
  (* .trim().slice(0, 80) *)
  let s := slice0 80 (trim s) in
  (* ... || 'documento' *)
  if bool_decide (s = []) then documento else s.

End PostExport.

(** ** The worker instance ([getEmbeddingsWorker], [terminateEmbeddingsWorker]) *)

Module WorkerInstance.
Import JS.

(** The module-level variable [workerInstance], and what has been done to
    the platform: the workers constructed, each by the URL given to
    [new Worker] (a worker is named by its position in this list), and the
    workers on which [terminate] has been called, oldest first. *)
Record State : Type := {
  workerInstance : option nat;          (* [None]: null *)
  constructed : list jsstring;
  terminatedWorkers : list nat
}.

Definition initial : State :=
  {| workerInstance := None; constructed := []; terminatedWorkers := [] |}.

Inductive error : Type :=
| WorkersUnsupported.
    (* new Error('Web Workers no estan soportados en este navegador.') *)

(** [getEmbeddingsWorker(workerUrl = '/embeddings-worker.js')];
    [supported] is [typeof Worker !== 'undefined']. *)
Definition getEmbeddingsWorker (supported : bool) (workerUrl : option jsstring)
    (st : State) : outcome error nat * State :=
  let workerUrl := default (js "/embeddings-worker.js") workerUrl in
  match workerInstance st with
  | Some w => (Ok w, st)
  | None =>
      if negb supported then (Throw WorkersUnsupported, st)
      else
        (* workerInstance = new Worker(workerUrl, { type: 'module' }) *)
        let w := length (constructed st) in
        (Ok w, {| workerInstance := Some w;
                  constructed := constructed st ++ [workerUrl];
                  terminatedWorkers := terminatedWorkers st |})
  end.

(** [terminateEmbeddingsWorker()] *)
Definition terminateEmbeddingsWorker (st : State) : State :=
  match workerInstance st with
  | Some w =>
      {| workerInstance := None;
         constructed := constructed st;
         terminatedWorkers := terminatedWorkers st ++ [w] |}
  | None => st
  end.

(** A sequence of uses of the two functions. *)
Inductive op : Type :=
| Get (supported : bool) (workerUrl : option jsstring)
| Terminate.

Definition step (st : State) (o : op) : State :=
  match o with
  | Get supported workerUrl => snd (getEmbeddingsWorker supported workerUrl st)
  | Terminate => terminateEmbeddingsWorker st
  end.

Definition run (ops : list op) (st : State) : State := fold_left step ops st.

End WorkerInstance.

(** ** Slugs ([slugify], database utilities) *)

Module Slugs.
Import JS Regex.

(** The class of the code units from [lo] to [lo + n]. *)
Fixpoint crangeFrom (lo : N) (n : nat) : cset :=
  match n with
  | O => CChar lo
  | S n' => CUnion (CChar lo) (crangeFrom (N.succ lo) n')
  end.

(** The class [[lo-hi]]. *)
Definition crange (lo hi : N) : cset := crangeFrom lo (N.to_nat (hi - lo)).

Section Slugify.

(** [String.prototype.toLowerCase] and [String.prototype.normalize] with
    the form NFKD are functions of the platform; [slugify] is defined over
    any two functions on strings. *)
Variable toLowerCase : jsstring -> jsstring.
Variable normalizeNFKD : jsstring -> jsstring.

(** [slugify(input)] *)
Definition slugify (input : jsstring) : jsstring :=
  let s := normalizeNFKD (toLowerCase input) in
  (* .replace(/[\u0300-\u036f]/g, '') *)
  let s := replaceAll flags_g (RSet (crange 0x300 0x36f)) [] s in
  (* .replace(/[^a-z0-9]+/g, '-') *)
  let s := replaceAll flags_g
             (plus (CNot (CUnion (crange (ch "a") (ch "z")) (crange (ch "0") (ch "9")))))
             [TLit (js "-")] s in
  (* .replace(/(^-|-$)/g, '') *)
  let s := replaceAll flags_g
             (RGroup 1 (RAlt (RSeq RBol (lit "-")) (RSeq (lit "-") REol)))
             [] s in
  let base := slice0 80 s in
  (* base || 'post' *)
  if bool_decide (base = []) then js "post" else base.

End Slugify.

End Slugs.

(* ===================================================================== *)
(** * Part II: the vocabulary of the properties *)
(* ===================================================================== *)

(** ** Numbers *)

Section NumberTerms.
Import JS.

(** The value of a finite number of the Standard Library's specification
    of IEEE 754 arithmetic, and the binary64 number nearest to an
    integer. *)
Definition valueOf (f : spec_float) : option Q :=
  match f with
  | S754_zero _ => Some 0%Q
  | S754_finite s m e =>
      Some (Qred ((if s then -1 else 1) * inject_Z (Z.pos m) * pow2 e))%Q
  | _ => None
  end.

Definition binary64 (z : Z) : spec_float := binary_normalize 53 1024 z 0 false.

(** [(a / b) * 100] with the division and the multiplication of that
    specification on binary64. *)
Definition binary64_percentage (a b : Z) : option Q :=
  valueOf (SFmul 53 1024 (SFdiv 53 1024 (binary64 a) (binary64 b)) (binary64 100)).

End NumberTerms.

(** ** Semantic search *)

Section SemanticSearchTerms.
Import JS Regex SemanticSearch.

(** The order of the result list: earlier entries are at least as similar. *)
Definition descending (a b : SemanticSearchResult) : Prop :=
  (similarity b <= similarity a)%Q.

(** The entry built from a row whose raw content is [raw]. *)
Definition entryOf (row : ResultRow) (raw : jsstring) : SemanticSearchResult :=
  {| id := row_id row;
     title := row_title row;
     slug := row_slug row;
     excerpt := excerptOf (normalizeMarkdown raw);
     similarity := row_similarity row;
     createdAt := row_createdAt row |}.

(** The number of white-space code units a string starts with. *)
Fixpoint wsPrefix (s : jsstring) : nat :=
  match s with
  | c :: s' => if isWhiteSpace c then S (wsPrefix s') else O
  | [] => O
  end.

(** Every run of white space becomes one space. *)
Fixpoint collapse (s : jsstring) (afterSpace : bool) : jsstring :=
  match s with
  | [] => []
  | c :: s' =>
      if isWhiteSpace c
      then (if afterSpace then collapse s' true else 32%N :: collapse s' true)
      else c :: collapse s' false
  end.

(** A text in which white space occurs only as single spaces between
    other code units. *)
Record collapsed (text : jsstring) : Prop := {
  collapsed_space : forall c, In c text -> isWhiteSpace c = true -> c = 32%N;
  collapsed_single : forall a c d b, text = a ++ c :: d :: b ->
    isWhiteSpace c = true -> isWhiteSpace d = false;
  collapsed_first : forall c t, text = c :: t -> isWhiteSpace c = false;
  collapsed_last : forall t c, text = t ++ [c] -> isWhiteSpace c = false
}.





(** A store that answers every query with the same three chunks of two
    documents, nearest first. *)
Definition sampleChunk (doc : string) (raw : option jsstring) (d : number) : Chunk :=
  {| doc_id := js doc; doc_title := js doc; doc_slug := js doc;
     doc_rawMarkdown := raw; doc_createdAt := 0; chunk_distance := d |}.

Definition sampleStore : Store :=
  fun _ _ => [sampleChunk "a" (Some (js "# A")) (1 # 10);
              sampleChunk "b" (Some []) (2 # 10);
              sampleChunk "a" (Some (js "# A")) (5 # 10)].

Definition nullStore : Store :=
  fun _ _ => [sampleChunk "a" None (1 # 10)].


(** The loop over the rows: after the rows [seen], the map has one entry
    for each document seen, built from a row of that document that no seen
    row of the document exceeds in similarity. *)
Record grouped (seen : list ResultRow) (m : DocMap) : Prop := {
  grouped_nodup : List.NoDup (List.map fst m);
  grouped_best : forall k v, In (k, v) m ->
    exists row raw,
      In row seen /\ row_rawMarkdown row = Some raw /\ v = entryOf row raw /\
      k = row_id row /\
      forall row', In row' seen -> row_id row' = k ->
                   (row_similarity row' <= similarity v)%Q;
  grouped_all : forall row, In row seen -> In (row_id row) (List.map fst m)
}.

End SemanticSearchTerms.

(** ** Embedding ingestion *)

Section EmbeddingsTerms.
Import JS DbUtils Embeddings.


(** The key an item is written under. *)
Definition item_key (documentId : jsstring) (it : EmbeddingItem) : key :=
  (documentId, chunkIndex it, modelId it, device it).

(** The items of one call are accepted by the store: every vector has the
    dimension of the column and is taken by it, and no two items share a
    chunk index, model and device. *)
Definition accepted (vector_in : list number -> option (list number)) (D : nat)
    (items : list EmbeddingItem) : Prop :=
  List.Forall (fun it => length (embedding it) = D) items /\
  List.Forall (fun it => is_Some (vector_in (embedding it))) items /\
  List.NoDup (List.map (fun it => (chunkIndex it, modelId it, device it)) items).

(** Whether a key is among the keys of a table. *)
Definition key_in_dec (k : key) (l : list key) : {In k l} + {~ In k l} :=
  in_dec (fun a b => decide (a = b)) k l.

(** An item for chunk 0 of document ["doc"], and the call that carries it. *)
Definition sampleItem (v : list number) (p : option jsstring) (n : option bool)
  : EmbeddingItem :=
  {| chunkIndex := 0; chunkText := js "hola"; embedding := v;
     modelId := js "m"; device := js "wasm"; pooling := p; normalize := n |}.

Definition sampleInput (v : list number) (p : option jsstring) (n : option bool)
  : UpsertEmbeddingsInput :=
  {| documentId := js "doc"; items := [sampleItem v p n] |}.

(** A row written earlier with other values, and a call that omits both
    fields for the same key. *)
Definition clsRow : EmbeddingRow :=
  {| col_documentId := js "doc"; col_chunkIndex := 0; col_chunkText := js "old";
     col_modelId := js "m"; col_device := js "wasm"; col_pooling := js "cls";
     col_normalize := 0; col_contentHash := js "00000000";
     col_embedding := [1%Q; 0%Q] |}.

End EmbeddingsTerms.

(** ** The embedding worker *)

Section WorkerTerms.
Import JS JSValue Worker.

(** The progress message and the run of the model for each text from
    index [i] on, in order. *)
Fixpoint embedSteps (requestId : jsval) (texts : list jsval) (i total : nat)
  : list Obs :=
  match texts with
  | [] => []
  | text :: texts' =>
      Post (PostProgress requestId (Running i total (runningPercent i total)))
      :: PipeCall text :: embedSteps requestId texts' (S i) total
  end.

(** The messages [{ type: 'embed', requestId, payload }] and
    [{ type: 'init', requestId, payload }]. *)
Definition embedRequest (requestId : jsval) (p : option Payload) : option Request :=
  Some {| type := VStr (js "embed"); requestId := requestId; payload := p |}.

Definition initRequest (requestId : jsval) (p : option Payload) : option Request :=
  Some {| type := VStr (js "init"); requestId := requestId; payload := p |}.

(** The percentages of the progress messages of a phase, in order. *)
Definition runningPercents (obs : list Obs) : list Z :=
  flat_map (fun o => match o with
                     | Post (PostProgress _ (Running _ _ pct)) => [pct]
                     | _ => []
                     end) obs.

Definition loadingPercents (obs : list Obs) : list (option Z) :=
  flat_map (fun o => match o with
                     | Post (PostProgress _ (Loading _ pct)) => [pct]
                     | _ => []
                     end) obs.

(** The model and the device an [embed] request resolves to. *)
Definition embedModel (defaultModel : jsstring) (p : option Payload) (st : State)
  : jsstring :=
  or_else (or_opt (p ≫= p_modelId) (cfg_modelId (currentConfig st))) defaultModel.

Definition embedDevice (p : option Payload) (st : State) : jsstring :=
  or_else (or_opt (p ≫= p_device) (cfg_device (currentConfig st))) (js "wasm").

(** A model that knows two texts and throws on anything else, a loader
    that resolves to it without fetching, and a loader that throws. *)
Definition stubPipe : Pipeline :=
  fun text =>
    match text with
    | VStr s =>
        if str_eqb s (js "hola") then Ok (OutTensor (TypedArray [1%Q; 0%Q]))
        else if str_eqb s (js "mundo") then Ok (OutTensor (TypedArray [0%Q; 1%Q]))
        else Throw {| thrown_message := js "unknown text"; thrown_name := None |}
    | _ => Throw {| thrown_message := js "text.split is not a function";
                    thrown_name := Some (js "TypeError") |}
    end.

Definition stubLoader : Loader :=
  fun _ _ => {| load_events := []; load_result := Ok stubPipe |}.

Definition failingLoader : Loader :=
  fun _ _ => {| load_events := [];
                load_result := Throw {| thrown_message := js "Failed to fetch";
                                        thrown_name := Some (js "TypeError") |} |}.

(** A payload with [texts] only, and a request identifier. *)
Definition textsPayload (texts : jsval) : Payload :=
  {| p_modelId := None; p_device := None; p_texts := texts |}.

Definition r1 : jsval := VStr (js "r1").

(** The percentage of the specification,
    [min(99, round(100 * sum(loaded) / sum(total)))] over the tracked
    files, in exact arithmetic; there is none when the totals sum to
    nothing. *)
Definition spec_sum (f : Info -> Z) (d : gmap jsstring Info) : Z :=
  foldr Z.add 0 (List.map (fun kv => f (snd kv)) (map_to_list d)).

Definition spec_percent (d : gmap jsstring Info) : option Z :=
  if spec_sum total d =? 0 then None
  else Some (Z.min 99 (Math_round (100 * inject_Z (spec_sum loaded d)
                                   / inject_Z (spec_sum total d))%Q)).

(** The percentage of the tracked files as the worker computes it: the
    quotient of the sums is rounded to a double, and so is its product
    with 100, before [Math.round]. *)
Definition trackedPercent (d : gmap jsstring Info) : option Z :=
  if spec_sum total d =? 0 then None
  else Some (Z.min 99 (Math_round (fmul (fdiv (inject_Z (spec_sum loaded d))
                                              (inject_Z (spec_sum total d)))
                                        100%Q))).

(** The library calls [progress_callback]. *)
Definition isCallback (e : LoadEvent) : bool :=
  match e with LCallback _ _ _ => true | _ => false end.

(** The percentages that [progress_callback] forwards at an event: the
    rounded progress of the library, or none, for the statuses
    [downloading] and [progress], and 100 for the status [done]. *)
Definition callbackPercent (e : LoadEvent) : list (option Z) :=
  match e with
  | LCallback status progress _ =>
      if str_eqb status (js "downloading") || str_eqb status (js "progress")
      then [option_map Math_round progress]
      else if str_eqb status (js "done") then [Some 100] else []
  | _ => []
  end.

(** A percentage that is null or below 100. *)
Definition cappedPercent (pct : option Z) : Prop :=
  match pct with Some z => z <= 99 | None => True end.

(** A loader during which the library reports [done] for a file through
    its progress callback; one that downloads a file of 10 bytes in two
    chunks; and one that downloads a file of 40 bytes in chunks of 23 and
    17 bytes while the library reports its own progress. *)
Definition callbackLoader : Loader :=
  fun _ _ => {| load_events := [LCallback (js "done") None (Some (js "model.onnx"))];
                load_result := Ok stubPipe |}.

Definition downloadLoader : Loader :=
  fun _ _ => {| load_events :=
                  [LFetch (js "https://huggingface.co/m/model.onnx") true (Some 10);
                   LRead 0 (Some 4); LRead 0 (Some 6); LDone 0];
                load_result := Ok stubPipe |}.

Definition oddLoader : Loader :=
  fun _ _ => {| load_events :=
                  [LFetch (js "https://huggingface.co/m/model.onnx") true (Some 40);
                   LCallback (js "progress") (Some (115 # 2)) (Some (js "model.onnx"));
                   LRead 0 (Some 23); LRead 0 (Some 17); LDone 0;
                   LCallback (js "done") None (Some (js "model.onnx"))];
                load_result := Ok stubPipe |}.

End WorkerTerms.

(** ** The worker RPC client *)

Section RpcClientTerms.
Import JS JSValue RpcClient.

(** A terminal response for the call [requestId]. *)
Definition isResponseFor (requestId : jsstring) (data : jsval) : bool :=
  match get "type" data, get "requestId" data with
  | VStr ty, VStr rid => str_eqb ty (js "response") && str_eqb rid requestId
  | _, _ => false
  end.

(** Timer and promise identifiers in use are below the next ones. *)
Record wf (c : Client) : Prop := {
  wf_timers : forall t, In t (timers c) ->
    timer_id t < nextTimerId c /\ (timer_promise t < nextPromise c)%nat;
  wf_pending : forall rid e, pending c !! rid = Some e ->
    entry_timeoutId e < nextTimerId c /\ (entry_promise e < nextPromise c)%nat;
  wf_promises : forall p s, promises c !! p = Some s -> (p < nextPromise c)%nat
}.

(** The callbacks of the timers [ts] run one after the other. *)
Definition fire (ts : list Timer) (c : Client) : Client :=
  fold_left (fun c u => onTimeout u c) ts c.

(** The timers due by time [t], in the order in which they fire. *)
Definition dueBy (t : Z) (c : Client) : list Timer :=
  by_due (List.filter (fun u => timer_due u <=? t) (timers c)).

(** The events that leave the call [rid] waiting: no response for it, no
    other call under its identifier, no disposal, and the clock stays
    before [due]. *)
Definition quiet (rid : jsstring) (due : Z) (e : event) : Prop :=
  match e with
  | Call rid' _ _ _ _ => rid' <> rid
  | Message data => isResponseFor rid data = false
  | Advance t => t < due
  | Dispose => False
  end.

(** An event that is not a call under the identifier [rid]. *)
Definition otherCall (rid : jsstring) (e : event) : Prop :=
  match e with
  | Call rid' _ _ _ _ => rid' <> rid
  | _ => True
  end.

(** A message of the worker: [{ type, requestId, ... }]. *)
Definition workerMessage (ty : string) (rid : string) (more : list (jsstring * jsval))
  : jsval :=
  VObj ((js "type", VStr (js ty)) :: (js "requestId", VStr (js rid)) :: more).

(** An earlier call that is answered at time 5; then, after a call under
    ["a"] with the default timeout, a progress message for it, another
    call and the response to that one while the clock goes to 60004. *)
Definition earlierEvents : list event :=
  [Call (js "z") init VUndefined None None;
   Advance 5;
   Message (workerMessage "response" "z" [(js "ok", VBool true)])].

Definition quietEvents : list event :=
  [Message (workerMessage "progress" "a" [(js "payload", VNum 50%Q)]);
   Call (js "b") status VUndefined (Some 1000) None;
   Message (workerMessage "response" "b" [(js "ok", VBool true)]);
   Advance 60004].

(** A call that is waiting for its response.  [t0] is the timer of the
    call [rid]: the call is pending under that timer and its promise, the
    promise is not settled, and no other entry or timer shares its timer,
    promise or request identifier. *)
Record armed (rid : jsstring) (cb : option nat) (t0 : Timer) (c : Client) : Prop := {
  armed_rid : timer_requestId t0 = rid;
  armed_entry : pending c !! rid =
    Some {| entry_promise := timer_promise t0; entry_onProgress := cb;
            entry_timeoutId := timer_id t0 |};
  armed_timer : In t0 (timers c);
  armed_unsettled : promises c !! timer_promise t0 = None;
  armed_entries : forall rid' e, rid' <> rid -> pending c !! rid' = Some e ->
    entry_timeoutId e <> timer_id t0 /\ entry_promise e <> timer_promise t0;
  armed_timers : forall u, In u (timers c) ->
    timer_id u = timer_id t0 \/ timer_promise u = timer_promise t0 \/
    timer_requestId u = rid -> u = t0;
  armed_ids : timer_id t0 < nextTimerId c /\ (timer_promise t0 < nextPromise c)%nat
}.

End RpcClientTerms.

(** ** Embedding ingestion: the rows of a document *)

Section DocumentRowsTerms.
Import JS DbUtils Embeddings.

(** The rows of a document, in the order of the table. *)
Definition rowsOf (documentId : jsstring) (t : Table) : list EmbeddingRow :=
  List.filter (fun r => bool_decide (col_documentId r = documentId)) t.

(** A row of another document, and two chunks of document ["doc"]. *)
Definition otherRow : EmbeddingRow :=
  {| col_documentId := js "other"; col_chunkIndex := 0; col_chunkText := js "x";
     col_modelId := js "m"; col_device := js "wasm"; col_pooling := js "mean";
     col_normalize := 1; col_contentHash := js "00000000";
     col_embedding := [0%Q; 1%Q] |}.

Definition chunkItem (i : Z) (text : string) (v : list number) : EmbeddingItem :=
  {| chunkIndex := i; chunkText := js text; embedding := v;
     modelId := js "m"; device := js "wasm"; pooling := None; normalize := None |}.

Definition twoChunks : UpsertEmbeddingsInput :=
  {| documentId := js "doc";
     items := [chunkItem 0 "hola" [1%Q; 0%Q]; chunkItem 1 "mundo" [0%Q; 1%Q]] |}.

End DocumentRowsTerms.

(** ** Content hash *)

Section HashTerms.
Import JS DbUtils.

(** The digits [0-9a-f]. *)
Definition isLowerHex (c : N) : bool :=
  ((48 <=? c) && (c <=? 57) || (97 <=? c) && (c <=? 102))%N.

(** The number a string of such digits denotes in base 16. *)
Definition hexValue (c : N) : Z :=
  if (c <? 58)%N then Z.of_N c - 48 else Z.of_N c - 87.

Definition parseHex (s : jsstring) : Z :=
  fold_left (fun acc c => acc * 16 + hexValue c) s 0.

(** The hash as a 32-bit integer, before it is printed. *)
Definition fnv1a32_int (str : jsstring) : Z :=
  fold_left (fun hash c => imul (xor32 hash (Z.of_N c)) 0x01000193) str 0x811c9dc5.

End HashTerms.

(** ** Semantic search: answers in the order of the query *)

Section OrderedAnswerTerms.
Import JS Regex SemanticSearch.

(** The chunks of an answer that are the first of their document, given
    the documents already [seen]. *)
Fixpoint firstOfEach (seen : list jsstring) (chunks : list Chunk) : list Chunk :=
  match chunks with
  | [] => []
  | c :: chunks' =>
      if existsb (str_eqb (doc_id c)) seen then firstOfEach seen chunks'
      else c :: firstOfEach (seen ++ [doc_id c]) chunks'
  end.

(** The entry built from a chunk with raw content. *)
Definition entryOfChunk (c : Chunk) : SemanticSearchResult :=
  entryOf (select c) (default [] (doc_rawMarkdown c)).

(** The order of the query: [order by distance asc]. *)
Definition nearestFirst (a b : Chunk) : Prop :=
  (chunk_distance a <= chunk_distance b)%Q.

(** The code units one of which every match of a pattern of
    [normalizeMarkdown] before the last contains: the punctuation of
    Markdown and HTML, and the digits. *)
Definition isMarkup (c : N) : bool :=
  existsb (N.eqb c) (js "<[`#*_>-+") || ((48 <=? c) && (c <=? 57))%N.

Definition plainText (s : jsstring) : bool :=
  forallb (fun c => negb (isMarkup c)) s.

(** A sufficient test for: every code unit of the class satisfies [P]. *)
Fixpoint cset_within (P : N -> bool) (cs : cset) : bool :=
  match cs with
  | CChar d => P d
  | CDigit => forallb P [48; 49; 50; 51; 52; 53; 54; 55; 56; 57]%N
  | CUnion a b => cset_within P a && cset_within P b
  | CSpace | CDot | CNot _ => false
  end.

(** [P] does not tell apart code units that the matcher identifies. *)
Definition respects (f : flags) (P : N -> bool) : Prop :=
  forall c d, canonicalize f c = canonicalize f d -> P d = true -> P c = true.

(** A sufficient test for: every match of the pattern contains a code
    unit that satisfies [P], when [P] respects the flags. *)
Fixpoint needs (P : N -> bool) (r : regex) : bool :=
  match r with
  | RLit l => existsb P l
  | RSet cs => cset_within P cs
  | RRep cs lo _ _ => negb (Nat.eqb lo 0) && cset_within P cs
  | RSeq a b => needs P a || needs P b
  | RAlt a b => needs P a && needs P b
  | RGroup _ a => needs P a
  | RBol | REol | RBackref _ => false
  end.

End OrderedAnswerTerms.

(** ** Export of a post *)

Section PostExportTerms.
Import JS Regex PostExport.

(** The code units that a file name must not contain. *)
Definition reservedChars : list N := js "\/:*?" ++ [34%N] ++ js "<>|".

(** White space occurs only as single spaces, and not at the start. *)
Record spaced (text : jsstring) : Prop := {
  spaced_space : forall c, In c text -> isWhiteSpace c = true -> c = 32%N;
  spaced_single : forall a c d b, text = a ++ c :: d :: b ->
    isWhiteSpace c = true -> isWhiteSpace d = false;
  spaced_first : forall c t, text = c :: t -> isWhiteSpace c = false
}.

End PostExportTerms.

(** ** The worker RPC client: answers, progress, disposal *)

Section RpcAnswerTerms.
Import JS JSValue RpcClient.

(** What a terminal response settles its call with: the result when [ok]
    is truthy, otherwise the error, or the unknown-error value when the
    error is null or undefined. *)
Definition settlementOf (data : jsval) : settlement :=
  if truthy (get "ok" data) then Resolved (get "result" data)
  else if nullish (get "error" data) then Rejected UnknownWorkerError
  else Rejected (WorkerError (get "error" data)).

(** A progress message for the call [requestId]. *)
Definition isProgressFor (requestId : jsstring) (data : jsval) : bool :=
  match get "type" data, get "requestId" data with
  | VStr ty, VStr rid => str_eqb ty (js "progress") && str_eqb rid requestId
  | _, _ => false
  end.

(** The requests of the calls among the events, and their identifiers. *)
Definition requests (es : list event) : list WorkerRequest :=
  flat_map (fun e => match e with
                     | Call rid ty payload _ _ =>
                         [{| req_type := ty; req_requestId := rid;
                             req_payload := payload |}]
                     | _ => []
                     end) es.

Definition callIds (es : list event) : list jsstring :=
  flat_map (fun e => match e with
                     | Call rid _ _ _ _ => [rid]
                     | _ => []
                     end) es.

(** The bookkeeping of a client whose calls have distinct identifiers:
    timers and pending entries correspond one to one, timer identifiers
    are positive and distinct, and every promise that is not settled has a
    timer. *)
Record tracked (c : Client) : Prop := {
  tracked_wf : wf c;
  tracked_next : 0 < nextTimerId c;
  tracked_pos : forall u, In u (timers c) -> 0 < timer_id u;
  tracked_ids : List.NoDup (List.map timer_id (timers c));
  tracked_timer : forall u, In u (timers c) ->
    exists cb, pending c !! timer_requestId u =
      Some {| entry_promise := timer_promise u; entry_onProgress := cb;
              entry_timeoutId := timer_id u |};
  tracked_entry : forall rid e, pending c !! rid = Some e ->
    exists u, In u (timers c) /\ timer_id u = entry_timeoutId e /\
              timer_requestId u = rid /\ timer_promise u = entry_promise e;
  tracked_waiting : forall p, (p < nextPromise c)%nat -> promises c !! p = None ->
    exists u, In u (timers c) /\ timer_promise u = p
}.

(** The timer [t0] is the only one for its promise and its request. *)
Definition sole (t0 : Timer) (c : Client) : Prop :=
  (timer_promise t0 < nextPromise c)%nat /\
  forall u, In u (timers c) ->
    timer_promise u = timer_promise t0 \/ timer_requestId u = timer_requestId t0 ->
    u = t0.

(** Two calls, the first answered, the second waiting; and what may
    happen after the answer. *)
Definition answeredEvents : list event :=
  [Call (js "a") embed VUndefined None (Some 7%nat);
   Message (workerMessage "progress" "a" [(js "payload", VNum 50%Q)]);
   Advance 10;
   Message (workerMessage "response" "a"
              [(js "ok", VBool true); (js "result", VNum 1%Q)]);
   Call (js "b") status VUndefined (Some 1000) None].

End RpcAnswerTerms.

Section RpcDisposedTerms.
Import JS JSValue RpcClient.

(** The events that leave a call on a disposed client waiting: any
    message of the worker, calls under other identifiers, and the clock
    before [due]. *)
Definition quietDisposed (rid : jsstring) (due : Z) (e : event) : Prop :=
  match e with
  | Call rid' _ _ _ _ => rid' <> rid
  | Message _ => True
  | Advance t => t < due
  | Dispose => False
  end.

End RpcDisposedTerms.

(** ** The embedding worker: both scripts *)

Section WorkerScriptTerms.
Import JS JSValue Regex Worker.

(** The two worker scripts: [public/embeddings-worker.js] and its sibling
    on Transformers.js 2.x. *)
Inductive script : Type := PublicWorker | TrackerWorker.

Definition onMessageOf (w : script) (pipeline : Loader)
  : option Request -> State -> State * list Obs :=
  match w with
  | PublicWorker => WorkerV3.onMessage pipeline
  | TrackerWorker => WorkerV2.onMessage pipeline
  end.

Definition ensurePipelineOf (w : script) (pipeline : Loader)
  : jsstring -> jsstring -> option jsval -> State ->
    outcome Thrown Pipeline * State * list Obs :=
  match w with
  | PublicWorker => WorkerV3.ensurePipeline pipeline
  | TrackerWorker => WorkerV2.ensurePipeline pipeline
  end.

Definition defaultModelOf (w : script) : jsstring :=
  match w with
  | PublicWorker => WorkerV3.defaultModel
  | TrackerWorker => WorkerV2.defaultModel
  end.

Definition initProgressOf (w : script) : Progress :=
  match w with
  | PublicWorker => LoadingMessage WorkerV3.cargandoModelo
  | TrackerWorker => Loading (js "Iniciando carga del modelo") (Some 0)
  end.

(** The model and the device an [init] request resolves to. *)
Definition initModel (defaultModel : jsstring) (p : option Payload) : jsstring :=
  or_else (p ≫= p_modelId) defaultModel.

Definition initDevice (p : option Payload) : jsstring :=
  or_else (p ≫= p_device) (js "wasm").

(** The identifier the handler reads from a message. *)
Definition requestIdOf (data : option Request) : jsval :=
  match data with Some d => requestId d | None => VUndefined end.

Definition isResponse (o : Obs) : bool :=
  match o with Post (PostResponse _ _ _ _) => true | _ => false end.

(** What the handler relies on from [ensurePipeline]. *)
Record loads (pipeline : Loader)
    (ensurePipeline : jsstring -> jsstring -> option jsval -> State ->
                      outcome Thrown Pipeline * State * list Obs) : Prop := {
  loads_cached : forall m d r st p,
    loadedFor m d st = Some p -> ensurePipeline m d r st = (Ok p, st, []);
  loads_ok : forall m d r st p,
    loadedFor m d st = None -> d <> [] -> load_result (pipeline m d) = Ok p ->
    exists st' obs,
      ensurePipeline m d r st = (Ok p, st', obs) /\
      featureExtractionPipeline st' = Some p /\
      currentConfig st' = {| cfg_modelId := Some m; cfg_device := Some d |};
  loads_failed : forall m d r st e,
    loadedFor m d st = None -> d <> [] -> load_result (pipeline m d) = Throw e ->
    exists st' obs,
      ensurePipeline m d r st = (Throw e, st', obs) /\
      featureExtractionPipeline st' = featureExtractionPipeline st /\
      currentConfig st' = currentConfig st;
  loads_quiet : forall m d r st,
    List.Forall (fun o => isResponse o = false) (snd (ensurePipeline m d r st))
}.

(** The host names of the pattern of [isModelAsset]. *)
Definition hostPattern : regex :=
  alts [lit "huggingface"; seq [lit "hf"; lit "."; lit "co"]; lit "jsdelivr";
        lit "onnxruntime"].

(** A model that returns the same vector for every text, and a loader
    that resolves to it. *)
Definition constPipe : Pipeline := fun _ => Ok (OutArray [1%Q]).

Definition constLoader : Loader :=
  fun _ _ => {| load_events := []; load_result := Ok constPipe |}.

End WorkerScriptTerms.

Section WorkerRequestTerms.
Import JS JSValue Worker.

(** The message [{ type: 'clearCache', requestId }]. *)
Definition clearCacheRequest (requestId : jsval) : option Request :=
  Some {| type := VStr (js "clearCache"); requestId := requestId; payload := None |}.

(** The loader is called. *)
Definition isLoad (o : Obs) : bool :=
  match o with LoadModel _ _ _ => true | _ => false end.

End WorkerRequestTerms.

Section WorkerAddressTerms.
Import JS JSValue Worker.

(** A message, if the observation is one, carries the identifier
    [requestId]. *)
Definition addressedTo (requestId : jsval) (o : Obs) : Prop :=
  match o with
  | Post (PostProgress r _) => r = requestId
  | Post (PostResponse r _ _ _) => r = requestId
  | _ => True
  end.

(** What [public/embeddings-worker.js] does for an [init] request [r2]
    that follows an [init] request [r1] and a [clearCache], when each load
    downloads a file. *)
Definition staleProgress : list Obs :=
  let st1 := fst (WorkerV3.onMessage downloadLoader (initRequest r1 None) initial) in
  let st2 := fst (WorkerV3.onMessage downloadLoader (clearCacheRequest r1) st1) in
  snd (WorkerV3.onMessage downloadLoader (initRequest (VStr (js "r2")) None) st2).

(** The state of the worker on Transformers.js 2.x after two loads that
    overlapped.  The handlers are asynchronous: the request [r2] started
    its load while the load of [r1] was awaited, and the load of [r1]
    ended first. *)
Definition overlapped : State :=
  let m := js "m" in
  let d := js "wasm" in
  let '(originalFetch1, st, _) := WorkerV2.beforeLoad (Some r1) initial in
  let '(originalFetch2, st, _) := WorkerV2.beforeLoad (Some (VStr (js "r2"))) st in
  let '(_, st, _) :=
    WorkerV2.afterLoad m d (Some r1) originalFetch1 (Ok constPipe) st in
  let '(_, st, _) :=
    WorkerV2.afterLoad m d (Some (VStr (js "r2"))) originalFetch2 (Ok constPipe) st in
  st.

(** A payload that asks for another model. *)
Definition otherModel : Payload :=
  {| p_modelId := Some (js "other"); p_device := None; p_texts := VUndefined |}.

End WorkerAddressTerms.

(** ** The worker instance *)

Section WorkerInstanceTerms.
Import JS WorkerInstance.

(** The workers constructed so far are terminated, each once, except the
    one that [workerInstance] holds. *)
Definition single (st : State) : Prop :=
  List.NoDup (terminatedWorkers st) /\
  (forall w, (w < length (constructed st))%nat ->
     (In w (terminatedWorkers st) <-> workerInstance st <> Some w)) /\
  (forall w, In w (terminatedWorkers st) \/ workerInstance st = Some w ->
     (w < length (constructed st))%nat).

End WorkerInstanceTerms.

(** ** Slugs *)

Section SlugTerms.
Import JS Regex Slugs.

(** The code units of a slug: [a-z], [0-9] and the hyphen. *)
Definition isAlnum (c : N) : bool :=
  ((97 <=? c) && (c <=? 122) || (48 <=? c) && (c <=? 57))%N.

Definition isSlugChar (c : N) : bool := isAlnum c || (c =? 45)%N.

(** The number of code units that satisfy [P] at the start of a string. *)
Fixpoint prefixLen (P : N -> bool) (s : jsstring) : nat :=
  match s with
  | c :: s' => if P c then S (prefixLen P s') else O
  | [] => O
  end.

(** Every run of code units that satisfy [P] becomes one [d]. *)
Fixpoint squeeze (P : N -> bool) (d : N) (s : jsstring) (inRun : bool) : jsstring :=
  match s with
  | [] => []
  | c :: s' =>
      if P c
      then (if inRun then squeeze P d s' true else d :: squeeze P d s' true)
      else c :: squeeze P d s' false
  end.

(** A hyphen is removed where it starts or ends the string. *)
Fixpoint stripEnds (atStart : bool) (s : jsstring) : jsstring :=
  match s with
  | [] => []
  | c :: s' =>
      if (c =? 45)%N && (atStart || bool_decide (s' = []))
      then stripEnds false s'
      else c :: stripEnds false s'
  end.

End SlugTerms.

(** ** The worker and its client *)

Section WorkerClientTerms.
Import JS JSValue RpcClient Worker.

(** The strings of the type [WorkerRequestType]. *)
Definition typeName (ty : WorkerRequestType) : jsstring :=
  match ty with
  | init => js "init"
  | embed => js "embed"
  | status => js "status"
  | clearCache => js "clearCache"
  end.

(** The request of a call as the worker receives it; [decode] reads the
    payload. *)
Definition received (decode : jsval -> option Payload) (req : WorkerRequest)
  : option Request :=
  Some {| type := VStr (typeName (req_type req));
          requestId := VStr (req_requestId req);
          payload := decode (req_payload req) |}.

(** The object that [postProgress] and [postResponse] pass to
    [self.postMessage], given the values of the payload, of the result
    and of the error.  [postResponse] is called with [null] for the result
    of a failure and without the error of a success. *)
Definition postedMessage (encP : Progress -> jsval) (encR : Result -> jsval)
    (encE : ErrorInfo -> jsval) (m : Posted) : jsval :=
  match m with
  | PostProgress requestId p =>
      VObj [(js "type", VStr (js "progress")); (js "requestId", requestId);
            (js "payload", encP p)]
  | PostResponse requestId ok result error =>
      VObj [(js "type", VStr (js "response")); (js "requestId", requestId);
            (js "ok", VBool ok);
            (js "result", match result with Some r => encR r | None => VNull end);
            (js "error", match error with Some e => encE e | None => VUndefined end)]
  end.

(** The messages the client receives for what the worker does, in
    order. *)
Definition delivered (encP : Progress -> jsval) (encR : Result -> jsval)
    (encE : ErrorInfo -> jsval) (obs : list Obs) : list event :=
  flat_map (fun o => match o with
                     | Post m => [Message (postedMessage encP encR encE m)]
                     | _ => []
                     end) obs.

(** Encodings for examples: the payloads are not looked into. *)
Definition opaqueProgress (p : Progress) : jsval := VObj [].
Definition opaqueError (e : ErrorInfo) : jsval := VObj [].
Definition vectorsOf (r : Result) : jsval :=
  match r with
  | ResEmbed _ _ embeddings =>
      VArr (List.map (fun v => match v with
                               | Some xs => VArr (List.map VNum xs)
                               | None => VNull
                               end) embeddings)
  | _ => VObj []
  end.

Definition textsOnly (payload : jsval) : option Payload :=
  Some {| p_modelId := None; p_device := None; p_texts := get "texts" payload |}.

End WorkerClientTerms.

(* ===================================================================== *)
(** * Part III: properties *)
(* ===================================================================== *)


(** ** Numbers: rounding to the nearest double *)

Section NumberFacts.
Import JS.

Lemma pow2_pos (e : Z) : (0 < pow2 e)%Q.
Proof. apply Qpower_0_lt. reflexivity. Qed.

Lemma pow2_plus (a b : Z) : (pow2 (a + b) == pow2 a * pow2 b)%Q.
Proof. apply Qpower_plus. discriminate. Qed.

Lemma pow2_le (a b : Z) : a <= b -> (pow2 a <= pow2 b)%Q.
Proof. intros H. apply Qpower_le_compat_l; [exact H | discriminate]. Qed.

Lemma pow2_lt (a b : Z) : a < b -> (pow2 a < pow2 b)%Q.
Proof. intros H. apply Qpower_lt_compat_l; [exact H | reflexivity]. Qed.

Lemma pow2_lt_inv (a b : Z) : (pow2 a < pow2 b)%Q -> a < b.
Proof. intros H. apply (Qpower_lt_compat_l_inv (2 # 1)); [exact H | reflexivity]. Qed.

Lemma pow2_Z (n : Z) : 0 <= n -> (pow2 n == inject_Z (2 ^ n))%Q.
Proof. intros H. unfold pow2. rewrite Zpower_Qpower by exact H. reflexivity. Qed.

Lemma ilog2_spec (x : Q) :
  (0 < x)%Q -> (pow2 (ilog2 x) <= x)%Q /\ (x < pow2 (ilog2 x + 1))%Q.
Proof.
  intros Hx. destruct x as [n d]. unfold ilog2. cbn [Qnum Qden].
  assert (0 < n) as Hn by (unfold Qlt in Hx; cbn in Hx; lia).
  set (a := Z.log2 n). set (b := Z.log2 (Z.pos d)).
  assert (0 <= a) as Ha by apply Z.log2_nonneg.
  assert (0 <= b) as Hb by apply Z.log2_nonneg.
  destruct (Z.log2_spec n Hn) as [Hn1 Hn2]. fold a in Hn1, Hn2.
  destruct (Z.log2_spec (Z.pos d) (Pos2Z.is_pos d)) as [Hd1 Hd2]. fold b in Hd1, Hd2.
  assert (n # d == inject_Z n / inject_Z (Z.pos d))%Q as Hnd by apply Qmake_Qdiv.
  assert (0 < inject_Z (Z.pos d))%Q as Hdpos by (unfold Qlt; cbn; lia).
  assert (forall k, pow2 k * inject_Z (Z.pos d) <= inject_Z n -> pow2 k <= n # d)%Q
    as Hle.
  { intros k H. rewrite Hnd. apply Qle_shift_div_l; assumption. }
  assert (forall k, inject_Z n < pow2 k * inject_Z (Z.pos d) -> n # d < pow2 k)%Q
    as Hlt.
  { intros k H. rewrite Hnd. apply Qlt_shift_div_r; assumption. }
  assert (pow2 (a - b - 1) <= n # d)%Q as Hlow.
  { apply Hle. apply Qle_trans with (pow2 (a - b - 1) * pow2 (b + 1))%Q.
    - apply Qmult_le_l; [apply pow2_pos |].
      rewrite pow2_Z by lia. rewrite <- Zle_Qle. lia.
    - rewrite <- pow2_plus. replace (a - b - 1 + (b + 1)) with a by lia.
      rewrite pow2_Z by lia. rewrite <- Zle_Qle. exact Hn1. }
  assert (n # d < pow2 (a - b + 1))%Q as Hhigh.
  { apply Hlt. apply Qlt_le_trans with (pow2 (a - b + 1) * pow2 b)%Q.
    - rewrite <- pow2_plus. replace (a - b + 1 + b) with (a + 1) by lia.
      rewrite pow2_Z by lia. rewrite <- Zlt_Qlt. replace (a + 1) with (Z.succ a) by lia.
      exact Hn2.
    - apply Qmult_le_l; [apply pow2_pos |].
      rewrite pow2_Z by lia. rewrite <- Zle_Qle. exact Hd1. }
  destruct (Qle_bool (pow2 (a - b)) (n # d)) eqn:Hk.
  - apply Qle_bool_iff in Hk. split; [exact Hk | exact Hhigh].
  - split; [exact Hlow |]. replace (a - b - 1 + 1) with (a - b) by lia.
    apply Qnot_le_lt. intros H. apply Qle_bool_iff in H. congruence.
Qed.

Lemma ilog2_le (x y : Q) : (0 < x)%Q -> (x <= y)%Q -> ilog2 x <= ilog2 y.
Proof.
  intros Hx Hxy.
  destruct (ilog2_spec x Hx) as [Hx1 _].
  destruct (ilog2_spec y (Qlt_le_trans _ _ _ Hx Hxy)) as [_ Hy2].
  assert (pow2 (ilog2 x) < pow2 (ilog2 y + 1))%Q as H.
  { eapply Qle_lt_trans; [exact Hx1 |]. eapply Qle_lt_trans; [exact Hxy | exact Hy2]. }
  apply pow2_lt_inv in H. lia.
Qed.

Lemma ilog2_comp (x y : Q) : (0 < x)%Q -> (x == y)%Q -> ilog2 x = ilog2 y.
Proof.
  intros Hx Hxy.
  assert (0 < y)%Q as Hy by (rewrite <- Hxy; exact Hx).
  apply Z.le_antisymm; apply ilog2_le; try assumption; rewrite Hxy; apply Qle_refl.
Qed.

Lemma roundEven_floor (x : Q) : Qfloor x <= roundEven x <= Qfloor x + 1.
Proof.
  unfold roundEven. destruct (_ ?= _)%Q; [destruct (Z.even _) | |]; lia.
Qed.

Lemma roundEven_comp (x y : Q) : (x == y)%Q -> roundEven x = roundEven y.
Proof.
  intros H. unfold roundEven. rewrite (Qfloor_comp _ _ H).
  assert (x - inject_Z (Qfloor y) == y - inject_Z (Qfloor y))%Q as H'
    by (rewrite H; reflexivity).
  rewrite (Qcompare_comp _ _ H' (1 # 2)%Q (1 # 2)%Q (Qeq_refl _)). reflexivity.
Qed.

Lemma roundEven_Z (n : Z) : roundEven (inject_Z n) = n.
Proof.
  unfold roundEven. rewrite Qfloor_Z.
  replace (inject_Z n - inject_Z n ?= 1 # 2)%Q with Lt; [reflexivity |].
  symmetry. apply Qlt_alt.
  apply Qle_lt_trans with 0%Q; [| reflexivity].
  apply Qle_minus_iff. ring_simplify. apply Qle_refl.
Qed.

Lemma roundEven_le (x y : Q) : (x <= y)%Q -> roundEven x <= roundEven y.
Proof.
  intros Hxy. pose proof (Qfloor_resp_le x y Hxy) as Hf.
  pose proof (roundEven_floor x) as Hx. pose proof (roundEven_floor y) as Hy.
  destruct (Z.eq_dec (Qfloor x) (Qfloor y)) as [Heq | Hne]; [| lia].
  unfold roundEven. rewrite Heq.
  destruct (Qcompare_spec (x - inject_Z (Qfloor y)) (1 # 2)) as [Hcx | Hcx | Hcx];
    destruct (Qcompare_spec (y - inject_Z (Qfloor y)) (1 # 2)) as [Hcy | Hcy | Hcy];
    try (destruct (Z.even (Qfloor y))); try lia; exfalso; lra.
Qed.

Lemma roundBinary_comp (prec emin : Z) (x y : Q) :
  (x == y)%Q -> roundBinary prec emin x = roundBinary prec emin y.
Proof.
  intros H. unfold roundBinary.
  assert (Qeq_bool x 0 = Qeq_bool y 0) as ->.
  { destruct (Qeq_bool y 0) eqn:Hy.
    - apply Qeq_bool_iff. apply Qeq_bool_iff in Hy. rewrite H. exact Hy.
    - apply not_true_is_false. intros Hx. apply Qeq_bool_iff in Hx.
      rewrite H in Hx. apply Qeq_bool_iff in Hx. congruence. }
  destruct (Qeq_bool y 0) eqn:Hy; [reflexivity |].
  assert (~ y == 0)%Q as Hy' by (intros E; apply Qeq_bool_iff in E; congruence).
  assert (0 < Qabs x)%Q as Hax.
  { destruct (Qlt_le_dec 0 (Qabs x)) as [Hp | Hn]; [exact Hp | exfalso].
    apply Hy'. rewrite <- H. apply Qabs_Qle_condition in Hn. lra. }
  assert (Qabs x == Qabs y)%Q as Ha by (rewrite H; reflexivity).
  rewrite (ilog2_comp _ _ Hax Ha).
  assert (Qle_bool 0 x = Qle_bool 0 y) as ->.
  { destruct (Qle_bool 0 y) eqn:Hs.
    - apply Qle_bool_iff. apply Qle_bool_iff in Hs. rewrite H. exact Hs.
    - apply not_true_is_false. intros Hx. apply Qle_bool_iff in Hx.
      rewrite H in Hx. apply Qle_bool_iff in Hx. congruence. }
  set (e := Z.max _ _).
  rewrite (roundEven_comp (Qabs x / pow2 e) (Qabs y / pow2 e))
    by (rewrite Ha; reflexivity).
  reflexivity.
Qed.

Lemma roundBinary_pos (prec emin : Z) (x : Q) :
  (0 < x)%Q ->
  let e := Z.max (ilog2 x - (prec - 1)) emin in
  (roundBinary prec emin x == inject_Z (roundEven (x / pow2 e)) * pow2 e)%Q.
Proof.
  intros Hx e. unfold roundBinary.
  replace (Qeq_bool x 0) with false
    by (symmetry; apply not_true_is_false; intros E; apply Qeq_bool_iff in E; lra).
  replace (Qle_bool 0 x) with true by (symmetry; apply Qle_bool_iff; lra).
  rewrite Qred_correct.
  assert (Qabs x == x)%Q as Ha by (apply Qabs_pos; lra).
  assert (0 < Qabs x)%Q as Hax by (rewrite Ha; exact Hx).
  rewrite (ilog2_comp _ _ Hax Ha). fold e.
  rewrite (roundEven_comp (Qabs x / pow2 e) (x / pow2 e)) by (rewrite Ha; reflexivity).
  reflexivity.
Qed.

Lemma roundBinary_zero (prec emin : Z) (x : Q) :
  (x == 0)%Q -> roundBinary prec emin x = 0%Q.
Proof.
  intros H. unfold roundBinary.
  replace (Qeq_bool x 0) with true by (symmetry; apply Qeq_bool_iff; exact H).
  reflexivity.
Qed.

Lemma roundBinary_nonneg (prec emin : Z) (x : Q) :
  (0 <= x)%Q -> (0 <= roundBinary prec emin x)%Q.
Proof.
  intros Hx. destruct (Qeq_dec x 0) as [H0 | H0].
  - rewrite (roundBinary_zero _ _ _ H0). apply Qle_refl.
  - assert (0 < x)%Q as Hpos by (apply Qle_lt_or_eq in Hx as [H | H]; [exact H | ];
      exfalso; apply H0; symmetry; exact H).
    rewrite (roundBinary_pos prec emin x Hpos). cbv zeta.
    set (e := Z.max _ _).
    apply Qmult_le_0_compat; [| apply Qlt_le_weak, pow2_pos].
    change 0%Q with (inject_Z 0). rewrite <- Zle_Qle.
    pose proof (roundEven_floor (x / pow2 e)) as Hr.
    assert (0 <= Qfloor (x / pow2 e)); [| lia].
    rewrite <- (Qfloor_Z 0). apply Qfloor_resp_le.
    apply Qle_shift_div_l; [apply pow2_pos |]. change (inject_Z 0) with 0%Q. lra.
Qed.

(** Rounding is monotone on the non-negative numbers. *)
Lemma roundBinary_le (prec emin : Z) (x y : Q) :
  1 <= prec -> (0 <= x)%Q -> (x <= y)%Q ->
  (roundBinary prec emin x <= roundBinary prec emin y)%Q.
Proof.
  intros Hprec Hx Hxy. destruct (Qeq_dec x 0) as [H0 | H0].
  { rewrite (roundBinary_zero _ _ _ H0). apply roundBinary_nonneg. lra. }
  assert (0 < x)%Q as Hpx by (apply Qle_lt_or_eq in Hx as [H | H]; [exact H | ];
    exfalso; apply H0; symmetry; exact H).
  assert (0 < y)%Q as Hpy by lra.
  rewrite (roundBinary_pos prec emin x Hpx), (roundBinary_pos prec emin y Hpy).
  cbv zeta.
  set (ex := Z.max (ilog2 x - (prec - 1)) emin).
  set (ey := Z.max (ilog2 y - (prec - 1)) emin).
  pose proof (ilog2_le x y Hpx Hxy) as Hlog.
  pose proof (pow2_pos ex) as Hpex. pose proof (pow2_pos ey) as Hpey.
  destruct (Z.eq_dec ex ey) as [Heq | Hne].
  - rewrite Heq. apply Qmult_le_compat_r; [| apply Qlt_le_weak; exact Hpey].
    rewrite <- Zle_Qle. apply roundEven_le.
    apply Qmult_le_compat_r; [exact Hxy |]. apply Qlt_le_weak, Qinv_lt_0_compat, Hpey.
  - assert (ex < ey) as Hlt by lia.
    assert (ey = ilog2 y - (prec - 1)) as Hey by lia.
    destruct (ilog2_spec x Hpx) as [_ Hx2]. destruct (ilog2_spec y Hpy) as [Hy1 _].
    set (k := ilog2 y - ey).
    (* the significand of [y] is at least [2 ^ k], that of [x] at most [2 ^ (k + 1)] *)
    assert (0 <= k) as Hk by (unfold k; lia).
    apply Qle_trans with (pow2 (ey + k)).
    + apply Qle_trans with (inject_Z (2 ^ (k + 1)) * pow2 ex)%Q.
      * apply Qmult_le_compat_r; [| apply Qlt_le_weak; exact Hpex]. rewrite <- Zle_Qle.
        rewrite <- (roundEven_Z (2 ^ (k + 1))). apply roundEven_le.
        apply Qle_shift_div_r; [exact Hpex |].
        rewrite <- pow2_Z by lia. rewrite <- pow2_plus.
        apply Qlt_le_weak. eapply Qlt_le_trans; [exact Hx2 |].
        apply pow2_le. unfold k. lia.
      * rewrite <- pow2_Z by lia. rewrite <- pow2_plus. apply pow2_le. lia.
    + apply Qle_trans with (inject_Z (2 ^ k) * pow2 ey)%Q.
      * rewrite <- pow2_Z by lia. rewrite <- pow2_plus.
        replace (k + ey) with (ey + k) by lia. apply Qle_refl.
      * apply Qmult_le_compat_r; [| apply Qlt_le_weak; exact Hpey]. rewrite <- Zle_Qle.
        rewrite <- (roundEven_Z (2 ^ k)). apply roundEven_le.
        apply Qle_shift_div_l; [exact Hpey |].
        rewrite <- pow2_Z by lia. rewrite <- pow2_plus.
        replace (k + ey) with (ilog2 y) by (unfold k; lia). exact Hy1.
Qed.

Lemma double_nonneg (x : Q) : (0 <= x)%Q -> (0 <= double x)%Q.
Proof. apply roundBinary_nonneg. Qed.

Lemma double_le (x y : Q) : (0 <= x)%Q -> (x <= y)%Q -> (double x <= double y)%Q.
Proof. apply roundBinary_le. lia. Qed.

Lemma double_comp (x y : Q) : (x == y)%Q -> double x = double y.
Proof. apply roundBinary_comp. Qed.

Lemma Math_round_le (x y : Q) : (x <= y)%Q -> Math_round x <= Math_round y.
Proof. intros H. apply Qfloor_resp_le. lra. Qed.

Lemma Math_round_comp (x y : Q) : (x == y)%Q -> Math_round x = Math_round y.
Proof. intros H. apply Qfloor_comp. rewrite H. reflexivity. Qed.

(** The rounding of the embedding against the Standard Library's
    specification of IEEE 754 arithmetic: for the integers from 1 to 64,
    [(a / b) * 100] is the same number in both. *)
Example double_agrees_with_binary64 :
  forallb (fun b =>
    forallb (fun a =>
      match binary64_percentage a b with
      | Some x => Qeq_bool x (fmul (fdiv (inject_Z a) (inject_Z b)) 100%Q)
      | None => false
      end)
    (seqZ 1 64)) (seqZ 1 64) = true.
Proof. vm_compute. reflexivity. Qed.

(** At 23 of 40 the quotient and the product are rounded below 57.5. *)
Example percent_23_of_40 :
  Math_round (fmul (fdiv 23 40) 100)%Q = 57 /\ Math_round (23 / 40 * 100)%Q = 58.
Proof. vm_compute. split; reflexivity. Qed.

End NumberFacts.

(** ** Semantic search *)

Section SemanticSearchFacts.
Import JS Regex SemanticSearch.

Lemma gt_true (a b : number) : gt a b = true <-> (b < a)%Q.
Proof.
  unfold gt. destruct (Qlt_le_dec b a) as [H | H]; split; intros H'; try easy.
  exfalso. apply (Qlt_not_le _ _ H'). exact H.
Qed.

Lemma gt_false (a b : number) : gt a b = false <-> (a <= b)%Q.
Proof.
  unfold gt. destruct (Qlt_le_dec b a) as [H | H]; split; intros H'; try easy.
  exfalso. apply (Qlt_not_le _ _ H). exact H'.
Qed.

Lemma compareFn_positive (a b : SemanticSearchResult) :
  gt (compareFn a b) 0%Q = true <-> (similarity a < similarity b)%Q.
Proof.
  rewrite gt_true. unfold compareFn. split; intros H.
  - apply (Qplus_lt_l _ _ (- similarity a)). rewrite Qplus_opp_r. exact H.
  - apply (Qplus_lt_l _ _ (- similarity a)) in H. rewrite Qplus_opp_r in H. exact H.
Qed.

Lemma compareFn_not_positive (a b : SemanticSearchResult) :
  gt (compareFn a b) 0%Q = false <-> (similarity b <= similarity a)%Q.
Proof.
  rewrite gt_false. unfold compareFn. split; intros H.
  - apply (Qplus_le_l _ _ (- similarity a)). rewrite Qplus_opp_r. exact H.
  - apply (Qplus_le_l _ _ (- similarity a)) in H. rewrite Qplus_opp_r in H. exact H.
Qed.

(** *** The sort *)

Lemma sort_insert_perm (x : SemanticSearchResult) (l : list SemanticSearchResult) :
  Permutation (x :: l) (sort_insert compareFn x l).
Proof.
  induction l as [| y l IH]; simpl.
  - reflexivity.
  - destruct (gt (compareFn x y) 0%Q).
    + rewrite perm_swap. apply perm_skip. exact IH.
    + reflexivity.
Qed.

Lemma sort_perm (l : list SemanticSearchResult) :
  Permutation l (sort compareFn l).
Proof.
  induction l as [| x l IH]; simpl.
  - reflexivity.
  - rewrite <- sort_insert_perm. apply perm_skip. exact IH.
Qed.

Lemma sort_insert_sorted (x : SemanticSearchResult) (l : list SemanticSearchResult) :
  StronglySorted descending l -> StronglySorted descending (sort_insert compareFn x l).
Proof.
  induction l as [| y l IH]; simpl; intros Hs.
  - constructor; [constructor | constructor].
  - destruct (gt (compareFn x y) 0%Q) eqn:Hc.
    + apply compareFn_positive in Hc.
      apply StronglySorted_inv in Hs as [Hs Hy].
      constructor; [apply IH; exact Hs |].
      rewrite List.Forall_forall. intros z Hz.
      apply (Permutation_in _ (Permutation_sym (sort_insert_perm x l))) in Hz.
      destruct Hz as [<- | Hz].
      * apply Qlt_le_weak. exact Hc.
      * rewrite List.Forall_forall in Hy. apply Hy. exact Hz.
    + apply compareFn_not_positive in Hc.
      constructor; [exact Hs |].
      constructor; [exact Hc |].
      apply StronglySorted_inv in Hs as [_ Hy].
      rewrite List.Forall_forall in Hy |- *. intros z Hz.
      unfold descending in *. eapply Qle_trans; [apply Hy; exact Hz | exact Hc].
Qed.

Lemma sort_sorted (l : list SemanticSearchResult) :
  StronglySorted descending (sort compareFn l).
Proof.
  induction l as [| x l IH]; simpl.
  - constructor.
  - apply sort_insert_sorted. exact IH.
Qed.

(** *** The map *)

Lemma str_eqb_eq (a b : jsstring) : str_eqb a b = true <-> a = b.
Proof. unfold str_eqb. apply bool_decide_eq_true. Qed.

Lemma str_eqb_neq (a b : jsstring) : str_eqb a b = false <-> a <> b.
Proof. unfold str_eqb. apply bool_decide_eq_false. Qed.

Lemma map_get_some (k : jsstring) (m : DocMap) (v : SemanticSearchResult) :
  map_get k m = Some v -> In (k, v) m.
Proof.
  induction m as [| [k' v'] m IH]; simpl; [easy |].
  destruct (str_eqb k k') eqn:E.
  - apply str_eqb_eq in E. intros [= ->]. left. now subst.
  - intros H. right. apply IH. exact H.
Qed.

Lemma map_get_none (k : jsstring) (m : DocMap) :
  map_get k m = None <-> ~ In k (List.map fst m).
Proof.
  induction m as [| [k' v'] m IH]; simpl; [tauto |].
  destruct (str_eqb k k') eqn:E.
  - apply str_eqb_eq in E. split; [easy | intros H; exfalso; apply H; now left].
  - apply str_eqb_neq in E. rewrite IH. split; intros H.
    + intros [-> | H']; [now apply E | now apply H].
    + intros H'. apply H. now right.
Qed.

Lemma map_set_keys_fresh (k : jsstring) (v : SemanticSearchResult) (m : DocMap) :
  ~ In k (List.map fst m) -> map_set k v m = m ++ [(k, v)].
Proof.
  induction m as [| [k' v'] m IH]; simpl; intros H; [reflexivity |].
  destruct (str_eqb k k') eqn:E.
  - apply str_eqb_eq in E. exfalso. apply H. now left.
  - f_equal. apply IH. intros H'. apply H. now right.
Qed.

Lemma map_set_keys (k : jsstring) (v : SemanticSearchResult) (m : DocMap) :
  In k (List.map fst m) -> List.map fst (map_set k v m) = List.map fst m.
Proof.
  induction m as [| [k' v'] m IH]; simpl; intros H; [easy |].
  destruct (str_eqb k k') eqn:E; simpl; [reflexivity |].
  f_equal. apply IH. destruct H as [-> | H]; [| exact H].
  apply str_eqb_neq in E. now contradiction E.
Qed.

Lemma map_set_in (k : jsstring) (v : SemanticSearchResult) (m : DocMap)
    (k' : jsstring) (v' : SemanticSearchResult) :
  List.NoDup (List.map fst m) ->
  In (k', v') (map_set k v m) ->
  (k' = k /\ v' = v) \/ (k' <> k /\ In (k', v') m).
Proof.
  induction m as [| [k0 v0] m IH]; simpl; intros Hnd H.
  - destruct H as [[= <- <-] | []]. now left.
  - apply List.NoDup_cons_iff in Hnd as [Hk0 Hnd].
    destruct (str_eqb k k0) eqn:E.
    + apply str_eqb_eq in E. subst k0.
      destruct H as [[= <- <-] | H]; [now left |].
      right. split; [| now right].
      intros ->. apply Hk0. apply (in_map fst) in H. exact H.
    + apply str_eqb_neq in E.
      destruct H as [[= <- <-] | H].
      * right. split; [congruence | now left].
      * destruct (IH Hnd H) as [? | [? ?]]; [now left | right; split; [easy | now right]].
Qed.

Lemma map_in_unique (m : DocMap) (k : jsstring) (v1 v2 : SemanticSearchResult) :
  List.NoDup (List.map fst m) -> In (k, v1) m -> In (k, v2) m -> v1 = v2.
Proof.
  induction m as [| [k0 v0] m IH]; simpl; intros Hnd H1 H2; [easy |].
  apply List.NoDup_cons_iff in Hnd as [Hk0 Hnd].
  destruct H1 as [[= -> ->] | H1], H2 as [[= E2] | H2].
  - congruence.
  - exfalso. apply Hk0. apply (in_map fst) in H2. exact H2.
  - subst k0. exfalso. apply Hk0. apply (in_map fst) in H1. exact H1.
  - apply IH; assumption.
Qed.

(** *** The loop over the rows *)

Lemma grouped_nil : grouped [] [].
Proof.
  split; simpl.
  - constructor.
  - intros k v [].
  - intros row [].
Qed.

Lemma visit_grouped (seen : list ResultRow) (m m' : DocMap) (row : ResultRow) :
  grouped seen m -> visit m row = Ok m' -> grouped (seen ++ [row]) m'.
Proof.
  intros [Hnd Hbest Hall]. unfold visit.
  destruct (map_get (row_id row) m) as [e |] eqn:Hget.
  - destruct (gt (row_similarity row) (similarity e)) eqn:Hgt.
    + destruct (row_rawMarkdown row) as [raw |] eqn:Hraw; [| discriminate].
      intros [= <-].
      pose proof (map_get_some _ _ _ Hget) as Hin.
      assert (Hk : In (row_id row) (List.map fst m)).
      { apply (in_map fst) in Hin. exact Hin. }
      apply gt_true in Hgt.
      split.
      * rewrite map_set_keys by exact Hk. exact Hnd.
      * intros k v Hkv. apply map_set_in in Hkv; [| exact Hnd].
        destruct Hkv as [[-> ->] | [Hne Hkv]].
        -- exists row, raw. repeat split; try easy.
           ++ apply in_or_app. right. now left.
           ++ intros row' Hrow' Hid. apply in_app_or in Hrow'.
              destruct Hrow' as [Hrow' | [<- | []]]; [| apply Qle_refl].
              destruct (Hbest _ _ Hin) as (r0 & raw0 & _ & _ & _ & _ & Hmax).
              simpl. eapply Qle_trans; [apply Hmax; assumption |].
              apply Qlt_le_weak. exact Hgt.
        -- destruct (Hbest _ _ Hkv) as (r0 & raw0 & Hr0 & Hraw0 & Hv & Hk0 & Hmax).
           exists r0, raw0. repeat split; try easy.
           ++ apply in_or_app. now left.
           ++ intros row' Hrow' Hid. apply in_app_or in Hrow'.
              destruct Hrow' as [Hrow' | [<- | []]]; [now apply Hmax |].
              now contradiction Hne.
      * intros row' Hrow'. rewrite map_set_keys by exact Hk.
        apply in_app_or in Hrow'. destruct Hrow' as [Hrow' | [<- | []]].
        -- now apply Hall.
        -- exact Hk.
    + intros [= <-].
      pose proof (map_get_some _ _ _ Hget) as Hin.
      apply gt_false in Hgt.
      split.
      * exact Hnd.
      * intros k v Hkv.
        destruct (Hbest _ _ Hkv) as (r0 & raw0 & Hr0 & Hraw0 & Hv & Hk0 & Hmax).
        exists r0, raw0. repeat split; try easy.
        -- apply in_or_app. now left.
        -- intros row' Hrow' Hid. apply in_app_or in Hrow'.
           destruct Hrow' as [Hrow' | [<- | []]]; [now apply Hmax |].
           rewrite <- Hid in Hkv.
           rewrite (map_in_unique m _ v e Hnd Hkv Hin). exact Hgt.
      * intros row' Hrow'. apply in_app_or in Hrow'.
        destruct Hrow' as [Hrow' | [<- | []]].
        -- now apply Hall.
        -- apply (in_map fst) in Hin. exact Hin.
  - destruct (row_rawMarkdown row) as [raw |] eqn:Hraw; [| discriminate].
    intros [= <-].
    apply map_get_none in Hget.
    rewrite map_set_keys_fresh by exact Hget.
    split.
    + rewrite List.map_app. simpl.
      apply List.NoDup_app; [exact Hnd | |].
      * constructor; [easy | constructor].
      * intros x Hx [<- | []]. now apply Hget.
    + intros k v Hkv. apply in_app_or in Hkv.
      destruct Hkv as [Hkv | [[= <- <-] | []]].
      * destruct (Hbest _ _ Hkv) as (r0 & raw0 & Hr0 & Hraw0 & Hv & Hk0 & Hmax).
        exists r0, raw0. repeat split; try easy.
        -- apply in_or_app. now left.
        -- intros row' Hrow' Hid. apply in_app_or in Hrow'.
           destruct Hrow' as [Hrow' | [<- | []]]; [now apply Hmax |].
           exfalso. apply Hget. rewrite Hid.
           apply (in_map fst) in Hkv. exact Hkv.
      * exists row, raw. repeat split; try easy.
        -- apply in_or_app. right. now left.
        -- intros row' Hrow' Hid. apply in_app_or in Hrow'.
           destruct Hrow' as [Hrow' | [<- | []]]; [| apply Qle_refl].
           exfalso. apply Hget. rewrite <- Hid. now apply Hall.
    + intros row' Hrow'. rewrite List.map_app. apply in_or_app.
      apply in_app_or in Hrow'. destruct Hrow' as [Hrow' | [<- | []]].
      * left. now apply Hall.
      * right. now left.
Qed.

Lemma group_grouped (rows seen : list ResultRow) (m m' : DocMap) :
  grouped seen m -> group rows m = Ok m' -> grouped (seen ++ rows) m'.
Proof.
  revert seen m. induction rows as [| row rows IH]; simpl; intros seen m Hg.
  - intros [= <-]. rewrite List.app_nil_r. exact Hg.
  - destruct (visit m row) as [m1 | e] eqn:Hv; [| discriminate].
    intros H. replace (seen ++ row :: rows) with ((seen ++ [row]) ++ rows)
      by (rewrite <- List.app_assoc; reflexivity).
    eapply IH; [| exact H]. eapply visit_grouped; eassumption.
Qed.

Lemma group_total (rows : list ResultRow) (m : DocMap) :
  List.Forall (fun row => row_rawMarkdown row <> None) rows ->
  exists m', group rows m = Ok m'.
Proof.
  revert m. induction rows as [| row rows IH]; simpl; intros m Hraw.
  - now exists m.
  - apply List.Forall_cons_iff in Hraw as [Hrow Hraw].
    unfold visit.
    destruct (row_rawMarkdown row) as [raw |]; [| now contradiction Hrow].
    destruct (match map_get (row_id row) m with
              | Some e => gt (row_similarity row) (similarity e)
              | None => true
              end); apply IH; exact Hraw.
Qed.

(** What [semanticSearch] returns once the dimension is right. *)
Lemma semanticSearch_unfold (D : nat) (store : Store) (q : list number)
    (limit : option Z) (calls : nat) :
  length q = D ->
  semanticSearch D store q limit calls =
  match group (List.map select (store q (default 10 limit))) [] with
  | Ok docMap => (Ok (sort compareFn (map_values docMap)), S calls)
  | Throw e => (Throw e, S calls)
  end.
Proof.
  intros Hlen. unfold semanticSearch.
  rewrite (proj2 (Nat.eqb_eq _ _) Hlen). reflexivity.
Qed.

(** The entries of the result, in terms of the chunks the store answered
    with: shared by the ranking and the excerpt properties. *)
Lemma semanticSearch_entries (D : nat) (store : Store) (q : list number)
    (limit : option Z) (calls : nat) (res : list SemanticSearchResult) :
  length q = D ->
  fst (semanticSearch D store q limit calls) = Ok res ->
  let chunks := store q (default 10 limit) in
  List.NoDup (List.map id res) /\
  StronglySorted descending res /\
  (forall r, In r res ->
     exists c raw,
       In c chunks /\ doc_rawMarkdown c = Some raw /\
       r = entryOf (select c) raw /\
       forall c', In c' chunks -> doc_id c' = id r ->
                  (1 - chunk_distance c' <= similarity r)%Q) /\
  (forall c, In c chunks -> In (doc_id c) (List.map id res)).
Proof.
  intros Hlen. rewrite semanticSearch_unfold by exact Hlen.
  destruct (group _ _) as [m | e] eqn:Hg; simpl; [| discriminate].
  intros [= <-].
  pose proof (group_grouped _ _ _ _ grouped_nil Hg) as [Hnd Hbest Hall].
  simpl in *.
  assert (Hkeys : forall k v, In (k, v) m -> id v = k).
  { intros k v Hkv. destruct (Hbest _ _ Hkv) as (r0 & raw0 & _ & _ & -> & -> & _).
    reflexivity. }
  assert (Hids : List.map id (map_values m) = List.map fst m).
  { unfold map_values. rewrite List.map_map. apply List.map_ext_in.
    intros [k v] Hkv. simpl. now apply Hkeys. }
  repeat split.
  - eapply Permutation_NoDup.
    + apply Permutation_map. apply sort_perm.
    + rewrite Hids. exact Hnd.
  - apply sort_sorted.
  - intros r Hr.
    apply (Permutation_in _ (Permutation_sym (sort_perm _))) in Hr.
    unfold map_values in Hr. apply in_map_iff in Hr as ([k v] & <- & Hkv). simpl.
    destruct (Hbest _ _ Hkv) as (r0 & raw0 & Hr0 & Hraw0 & Hv & Hk0 & Hmax).
    apply in_map_iff in Hr0 as (c & <- & Hc).
    exists c, raw0. repeat split; try easy.
    intros c' Hc' Hid.
    apply (Hmax (select c')).
    + apply in_map. exact Hc'.
    + simpl. rewrite Hid. now apply Hkeys.
  - intros c Hc.
    eapply Permutation_in.
    + apply Permutation_map. apply sort_perm.
    + rewrite Hids. apply (Hall (select c)). apply in_map. exact Hc.
Qed.

End SemanticSearchFacts.

(** ** The excerpt *)

Section ExcerptFacts.
Import JS Regex SemanticSearch.

Lemma wsPrefix_le (s : jsstring) : (wsPrefix s <= length s)%nat.
Proof.
  induction s as [| c s IH]; simpl; [lia |].
  destruct (isWhiteSpace c); simpl; lia.
Qed.

Lemma rep_more_space (before rest : list N) (caps : list (nat * jsstring)) :
  exists s', rep_more flags_g CSpace true None before rest caps Some = Some s' /\
             ms_rest s' = skipn (wsPrefix rest) rest /\ ms_caps s' = caps.
Proof.
  revert before. induction rest as [| c rest IH]; intros before; simpl.
  - eexists. repeat split.
  - destruct (isWhiteSpace c) eqn:Hc; simpl.
    + destruct (IH (c :: before)) as (s' & -> & Hrest & Hcaps).
      exists s'. repeat split; assumption.
    + eexists. repeat split.
Qed.

Lemma exec_plus_space (before rest : list N) :
  exec_at flags_g (plus CSpace) before rest =
  match rest with
  | c :: rest' => if isWhiteSpace c then Some (S (wsPrefix rest'), []) else None
  | [] => None
  end.
Proof.
  unfold exec_at, plus. simpl.
  destruct rest as [| c rest']; simpl; [reflexivity |].
  destruct (isWhiteSpace c) eqn:Hc; simpl; [| reflexivity].
  destruct (rep_more_space (c :: before) rest' []) as (s' & -> & Hrest & ->).
  rewrite Hrest. rewrite List.length_skipn.
  pose proof (wsPrefix_le rest') as Hle.
  do 2 f_equal. lia.
Qed.

Lemma replace_from_skip (f : flags) (r : regex) (tpl : list titem) (n : nat) :
  forall (rest before : list N), (n <= length rest)%nat ->
  exists before',
    replace_from f r tpl before rest n = replace_from f r tpl before' (skipn n rest) O.
Proof.
  induction n as [| n IH]; intros rest before Hn.
  - exists before. reflexivity.
  - destruct rest as [| c rest]; simpl in Hn; [lia |].
    destruct (IH rest (c :: before)) as (before' & Heq); [lia |].
    exists before'. simpl. exact Heq.
Qed.

Lemma collapse_after_space (s : jsstring) :
  collapse s true = collapse (skipn (wsPrefix s) s) false.
Proof.
  induction s as [| c s IH]; simpl; [reflexivity |].
  destruct (isWhiteSpace c) eqn:Hc; simpl.
  - exact IH.
  - rewrite Hc. reflexivity.
Qed.

Lemma replace_from_here (f : flags) (r : regex) (tpl : list titem)
    (before rest : list N) :
  replace_from f r tpl before rest O =
  match exec_at f r before rest with
  | Some (S n, caps) =>
      expand tpl caps ++
      match rest with
      | c :: rest' => replace_from f r tpl (c :: before) rest' n
      | [] => []
      end
  | Some (O, caps) =>
      expand tpl caps ++
      match rest with
      | c :: rest' => c :: replace_from f r tpl (c :: before) rest' O
      | [] => []
      end
  | None =>
      match rest with
      | c :: rest' => c :: replace_from f r tpl (c :: before) rest' O
      | [] => []
      end
  end.
Proof. destruct rest; reflexivity. Qed.

Lemma replace_space_collapse (n : nat) :
  forall (rest before : list N), (length rest <= n)%nat ->
  replace_from flags_g (plus CSpace) [TLit (js " ")] before rest O = collapse rest false.
Proof.
  induction n as [| n IH]; intros rest before Hlen.
  - destruct rest; simpl in Hlen; [| lia].
    rewrite replace_from_here, exec_plus_space. reflexivity.
  - rewrite replace_from_here, exec_plus_space.
    destruct rest as [| c rest].
    + reflexivity.
    + simpl in Hlen. simpl collapse.
      destruct (isWhiteSpace c) eqn:Hc.
      * change (expand [TLit (js " ")] []) with [32%N]. simpl app.
        destruct (replace_from_skip flags_g (plus CSpace) [TLit (js " ")]
                    (wsPrefix rest) rest (c :: before) (wsPrefix_le rest))
          as (before' & ->).
        rewrite IH by (rewrite List.length_skipn; lia).
        rewrite collapse_after_space. reflexivity.
      * rewrite IH by lia. reflexivity.
Qed.

Lemma replaceAll_space (s : jsstring) :
  replaceAll flags_g (plus CSpace) [TLit (js " ")] s = collapse s false.
Proof. unfold replaceAll. apply (replace_space_collapse (length s)). lia. Qed.

(** The shape of a collapsed string. *)
Lemma collapse_space (s : jsstring) (b : bool) (c : N) :
  In c (collapse s b) -> isWhiteSpace c = true -> c = 32%N.
Proof.
  revert b. induction s as [| x s IH]; intros b; simpl; [easy |].
  destruct (isWhiteSpace x) eqn:Hx.
  - destruct b; simpl.
    + apply IH.
    + intros [<- | H]; [reflexivity | now apply (IH true)].
  - simpl. intros [<- | H] Hc; [congruence | now apply (IH false)].
Qed.

Lemma collapse_head (s : jsstring) (c : N) (t : jsstring) :
  collapse s true = c :: t -> isWhiteSpace c = false.
Proof.
  induction s as [| x s IH]; simpl; [easy |].
  destruct (isWhiteSpace x) eqn:Hx.
  - exact IH.
  - intros [= <- _]. exact Hx.
Qed.

Lemma collapse_single (s : jsstring) (b : bool) (a : jsstring) (c d : N)
    (t : jsstring) :
  collapse s b = a ++ c :: d :: t -> isWhiteSpace c = true -> isWhiteSpace d = false.
Proof.
  revert b a. induction s as [| x s IH]; intros b a; simpl.
  - destruct a; discriminate.
  - destruct (isWhiteSpace x) eqn:Hx.
    + destruct b.
      * apply IH.
      * destruct a as [| y a]; simpl.
        -- intros [= <- H] _. eapply collapse_head. exact H.
        -- intros [= <- H]. eapply IH. exact H.
    + destruct a as [| y a]; simpl.
      * intros [= <- H] Hc. congruence.
      * intros [= <- H]. eapply IH. exact H.
Qed.

(** [trim] keeps a segment of the string that neither starts nor ends with
    white space. *)
Lemma trimStart_suffix (s : jsstring) : exists p, s = p ++ trimStart s.
Proof.
  induction s as [| c s [p IH]]; simpl.
  - now exists [].
  - destruct (isWhiteSpace c).
    + exists (c :: p). simpl. now f_equal.
    + now exists [].
Qed.

Lemma trimStart_head (s : jsstring) (c : N) (t : jsstring) :
  trimStart s = c :: t -> isWhiteSpace c = false.
Proof.
  induction s as [| x s IH]; simpl; [easy |].
  destruct (isWhiteSpace x) eqn:Hx; [exact IH |].
  intros [= <- _]. exact Hx.
Qed.

Lemma trimEnd_prefix (s : jsstring) : exists q, s = trimEnd s ++ q.
Proof.
  unfold trimEnd. destruct (trimStart_suffix (rev s)) as [p Hp].
  exists (rev p). rewrite <- List.rev_app_distr, <- Hp, List.rev_involutive.
  reflexivity.
Qed.

Lemma trimEnd_last (s t : jsstring) (c : N) :
  trimEnd s = t ++ [c] -> isWhiteSpace c = false.
Proof.
  unfold trimEnd. intros H.
  apply (f_equal (@rev N)) in H.
  rewrite List.rev_involutive, List.rev_app_distr in H. simpl in H.
  eapply trimStart_head. exact H.
Qed.

Lemma trim_segment (s : jsstring) : exists p q, s = p ++ trim s ++ q.
Proof.
  unfold trim. destruct (trimStart_suffix s) as [p Hp].
  destruct (trimEnd_prefix (trimStart s)) as [q Hq].
  exists p, q. rewrite <- Hq. exact Hp.
Qed.

Lemma trim_collapse_collapsed (s : jsstring) : collapsed (trim (collapse s false)).
Proof.
  destruct (trim_segment (collapse s false)) as (p & q & Hseg).
  split.
  - intros c Hc. apply (collapse_space s false).
    rewrite Hseg. apply in_or_app. right. apply in_or_app. now left.
  - intros a c d b Ht. apply (collapse_single s false (p ++ a) c d (b ++ q)).
    rewrite Hseg, Ht. rewrite <- !List.app_assoc. reflexivity.
  - intros c t Ht. unfold trim in Ht.
    destruct (trimEnd_prefix (trimStart (collapse s false))) as [q' Hq'].
    rewrite Ht in Hq'. simpl in Hq'.
    eapply trimStart_head. exact Hq'.
  - intros t c Ht. unfold trim in Ht. eapply trimEnd_last. exact Ht.
Qed.




End ExcerptFacts.

(** ** Regular expressions: what a replacement keeps *)

Section RegexFacts.
Import JS Regex.



(** *** A match consumes a prefix of the input, and its captures are parts
    of what it consumed *)

Lemma match_lit_run (f : flags) (lit : jsstring) (s s' : mstate) :
  match_lit f lit s = Some s' ->
  exists m, ms_rest s = m ++ ms_rest s' /\ ms_caps s' = ms_caps s.
Proof.
  revert s. induction lit as [| d lit IH]; intros s; simpl.
  - intros [= <-]. now exists [].
  - destruct (ms_rest s) as [| c rest] eqn:Hrest; [discriminate |].
    destruct (canonicalize f c =? canonicalize f d)%N; [| discriminate].
    intros H. apply IH in H as (m & Hm & Hc). simpl in *.
    exists (c :: m). rewrite Hm. easy.
Qed.

Lemma rep_min_run (f : flags) (cs : cset) (lo : nat) (s s' : mstate) :
  rep_min f cs lo s = Some s' ->
  exists m, ms_rest s = m ++ ms_rest s' /\ ms_caps s' = ms_caps s.
Proof.
  revert s. induction lo as [| lo IH]; intros s; simpl.
  - intros [= <-]. now exists [].
  - destruct (ms_rest s) as [| c rest] eqn:Hrest; [discriminate |].
    destruct (cset_mem f cs c); [| discriminate].
    intros H. apply IH in H as (m & Hm & Hc). simpl in *.
    exists (c :: m). rewrite Hm. easy.
Qed.

Lemma rep_more_run (f : flags) (cs : cset) (greedy : bool) (k : continuation)
    (sf : mstate) (rest : list N) :
  forall (b : option nat) (before : list N) (caps : list (nat * jsstring)),
  rep_more f cs greedy b before rest caps k = Some sf ->
  exists s' m, rest = m ++ ms_rest s' /\ ms_caps s' = caps /\ k s' = Some sf.
Proof.
  assert (Hhere : forall before rest caps,
            k {| ms_before := before; ms_rest := rest; ms_caps := caps |} = Some sf ->
            exists s' m, rest = m ++ ms_rest s' /\ ms_caps s' = caps /\ k s' = Some sf).
  { intros before rest' caps Hk.
    exists {| ms_before := before; ms_rest := rest'; ms_caps := caps |}, []. easy. }
  induction rest as [| c rest IH]; intros b before caps; simpl.
  - apply Hhere.
  - destruct (budget_left b && cset_mem f cs c).
    + destruct greedy.
      * destruct (rep_more f cs true (budget_pred b) (c :: before) rest caps k)
          as [r |] eqn:Hr.
        -- intros [= <-]. apply IH in Hr as (s' & m & -> & Hc & Hk).
           exists s', (c :: m). easy.
        -- apply Hhere.
      * destruct (k _) as [r |] eqn:Hk.
        -- intros [= <-]. eapply Hhere. exact Hk.
        -- intros H. apply IH in H as (s' & m & -> & Hc & Hk').
           exists s', (c :: m). easy.
    + apply Hhere.
Qed.

Lemma consumed_app (s s' : mstate) (m : list N) :
  ms_rest s = m ++ ms_rest s' -> consumed s s' = m.
Proof.
  intros H. unfold consumed. rewrite H, List.length_app.
  replace (length m + length (ms_rest s') - length (ms_rest s'))%nat
    with (length m) by lia.
  rewrite List.firstn_app, List.firstn_all, Nat.sub_diag. simpl.
  apply List.app_nil_r.
Qed.

Lemma rmatch_run (f : flags) (r : regex) :
  forall (s : mstate) (k : continuation) (sf : mstate),
  rmatch f r s k = Some sf ->
  exists s' m,
    ms_rest s = m ++ ms_rest s' /\ k s' = Some sf /\
    forall n txt, In (n, txt) (ms_caps s') ->
                  In (n, txt) (ms_caps s) \/ sublist txt m.
Proof.
  induction r as [lit | cs | cs lo hi greedy | | | a IHa b IHb | a IHa b IHb
                  | n a IHa | n]; intros s k sf; simpl.
  - destruct (match_lit f lit s) as [s' |] eqn:Hm; [| discriminate].
    intros Hk. apply match_lit_run in Hm as (m & Hm & Hc).
    exists s', m. rewrite Hc. auto.
  - destruct (ms_rest s) as [| c rest] eqn:Hrest; [discriminate |].
    destruct (cset_mem f cs c); [| discriminate].
    intros Hk.
    exists {| ms_before := c :: ms_before s; ms_rest := rest; ms_caps := ms_caps s |}, [c].
    simpl. auto.
  - destruct (rep_min f cs lo s) as [s1 |] eqn:Hmin; [| discriminate].
    intros H. apply rep_min_run in Hmin as (m1 & Hm1 & Hc1).
    apply rep_more_run in H as (s' & m & Hm & Hc & Hk).
    exists s', (m1 ++ m). rewrite Hm1, Hm, Hc, Hc1, <- List.app_assoc. auto.
  - destruct (at_bol f s); [| discriminate]. intros Hk. exists s, []. auto.
  - destruct (at_eol f s); [| discriminate]. intros Hk. exists s, []. auto.
  - intros H. apply IHa in H as (s1 & m1 & Hm1 & H & Hc1).
    apply IHb in H as (s2 & m2 & Hm2 & Hk & Hc2).
    exists s2, (m1 ++ m2). rewrite Hm1, Hm2, <- List.app_assoc.
    split; [reflexivity |]. split; [exact Hk |].
    intros i txt Hin. destruct (Hc2 i txt Hin) as [Hin1 | Hsub].
    + destruct (Hc1 i txt Hin1) as [? | Hsub]; [now left | right].
      now apply sublist_inserts_r.
    + right. now apply sublist_inserts_l.
  - destruct (rmatch f a s k) as [r' |] eqn:Ha.
    + intros [= <-]. apply IHa. exact Ha.
    + apply IHb.
  - intros H. apply IHa in H as (s1 & m1 & Hm1 & Hk & Hc1).
    exists {| ms_before := ms_before s1; ms_rest := ms_rest s1;
              ms_caps := (n, consumed s s1) :: ms_caps s1 |}, m1.
    split; [exact Hm1 |]. split; [exact Hk |].
    simpl. intros i txt [[= <- <-] | Hin].
    + right. rewrite (consumed_app s s1 m1 Hm1). reflexivity.
    + apply Hc1. exact Hin.
  - destruct (match_lit _ _ s) as [s' |] eqn:Hm; [| discriminate].
    intros Hk. apply match_lit_run in Hm as (m & Hm & Hc).
    exists s', m. rewrite Hc. auto.
Qed.



(** *** Replacements that only remove *)




End RegexFacts.

(** ** Delimited spans *)

Section DelimitedFacts.
Import JS Regex SemanticSearch.

















End DelimitedFacts.

(** ** Semantic search: the claims *)

Section SemanticSearchClaims.
Import JS Regex SemanticSearch.

(** C3.  A query vector whose length is not the embedding dimension makes
    [semanticSearch] throw the dimension error, and the count of queries
    sent to the store is what it was: the store is not accessed. *)
Theorem semanticSearch_dimension_mismatch (D : nat) (store : Store)
    (q : list number) (limit : option Z) (calls : nat) :
  length q <> D ->
  semanticSearch D store q limit calls
  = (Throw (DimensionMismatch D (length q)), calls).
Proof.
  intros Hlen. unfold semanticSearch.
  rewrite (proj2 (Nat.eqb_neq _ _) Hlen). reflexivity.
Qed.

Lemma semanticSearch_dimension_mismatch_witness :
  semanticSearch 384 sampleStore [1%Q; 0%Q] None 0
  = (Throw (DimensionMismatch 384 2), 0%nat).
Proof.
  apply (semanticSearch_dimension_mismatch 384 sampleStore [1%Q; 0%Q] None 0).
  simpl. lia.
Defined.

(** The call returns when every chunk carries its document's raw
    content. *)
Lemma semanticSearch_returns (D : nat) (store : Store) (q : list number)
    (limit : option Z) (calls : nat) :
  length q = D ->
  List.Forall (fun c => doc_rawMarkdown c <> None) (store q (default 10 limit)) ->
  exists res, fst (semanticSearch D store q limit calls) = Ok res.
Proof.
  intros Hlen Hraw. rewrite semanticSearch_unfold by exact Hlen.
  destruct (group_total (List.map select (store q (default 10 limit))) []) as [m Hm].
  - apply List.Forall_map. exact Hraw.
  - rewrite Hm. simpl. eexists. reflexivity.
Qed.

(** C1.  For a query vector of the right dimension and whatever chunks the
    store answers with: the call returns a list when every chunk carries
    its document's raw content, and a list it returns has at most one
    entry per document identifier, is in descending order of similarity,
    has an entry for every document among the chunks, and each entry has
    the similarity [1 - distance] of a chunk of its document that no
    chunk of that document exceeds. *)
Theorem semanticSearch_ranking (D : nat) (store : Store) (q : list number)
    (limit : option Z) (calls : nat) :
  length q = D ->
  let chunks := store q (default 10 limit) in
  let result := fst (semanticSearch D store q limit calls) in
  (List.Forall (fun c => doc_rawMarkdown c <> None) chunks ->
   exists res, result = Ok res) /\
  (forall res, result = Ok res ->
     List.NoDup (List.map id res) /\
     StronglySorted descending res /\
     (forall c, In c chunks -> In (doc_id c) (List.map id res)) /\
     (forall r, In r res ->
        exists c, In c chunks /\ doc_id c = id r /\
          similarity r = (1 - chunk_distance c)%Q /\
          forall c', In c' chunks -> doc_id c' = id r ->
                     (1 - chunk_distance c' <= similarity r)%Q)).
Proof.
  intros Hlen chunks result. split.
  - intros Hraw. apply semanticSearch_returns; assumption.
  - intros res Hres.
    destruct (semanticSearch_entries D store q limit calls res Hlen Hres)
      as (Hnd & Hsorted & Hsel & Hall).
    repeat split; try assumption.
    intros r Hr. destruct (Hsel r Hr) as (c & raw & Hc & _ & -> & Hmax).
    exists c. repeat split; try assumption.
Qed.

Lemma semanticSearch_ranking_witness :
  exists res,
    fst (semanticSearch 2 sampleStore [1%Q; 0%Q] None 0) = Ok res /\
    List.map id res = [js "a"; js "b"] /\
    StronglySorted descending res.
Proof.
  destruct (semanticSearch_ranking 2 sampleStore [1%Q; 0%Q] None 0 eq_refl)
    as [Htotal Hprops].
  eexists. split; [reflexivity |]. split; [reflexivity |].
  apply (Hprops _ eq_refl).
Defined.


(** A chunk without raw content, were the store to answer with one, makes
    the whole call throw: the replacements are called on the field
    without a test. *)
Lemma semanticSearch_missing_raw_throws :
  fst (semanticSearch 2 nullStore [1%Q; 0%Q] None 0) = Throw TypeError /\
  ~ exists res, fst (semanticSearch 2 nullStore [1%Q; 0%Q] None 0) = Ok res.
Proof.
  split; [reflexivity |]. intros [res H]. discriminate H.
Qed.



(** The chain of replacements on the sample of the specification:
    heading, bold, inline code and link. *)
Example normalizeMarkdown_sample :
  normalizeMarkdown
    (js "# Title" ++ [10%N; 10%N] ++
     js "Some **bold** text with `code` and a [link](url).")
  = js "Title Some bold text with and a link.".
Proof. vm_compute. reflexivity. Qed.

(** Tags, an image, a list marker inside a line, a numbered item, a rule,
    a quotation, emphasis, runs of blanks and a fenced block. *)
Example normalizeMarkdown_kinds :
  normalizeMarkdown
    (js "<p>Hi <b>x</b></p> ![img](a.png) * item" ++ [10%N] ++
     js "1. one" ++ [10%N] ++
     js "---" ++ [10%N] ++
     js "> quote _em_ a    b ```js" ++ [10%N] ++
     js "code``` end")
  = js "Hi x * item one quote em a b end".
Proof. vm_compute. reflexivity. Qed.

End SemanticSearchClaims.

(** ** Embedding ingestion *)

Section EmbeddingsFacts.
Import JS DbUtils Embeddings.

Lemma conflict_update_same_key (v old : EmbeddingRow) :
  row_key old = row_key v -> conflict_update v old = v.
Proof.
  destruct v, old. unfold row_key, conflict_update. simpl.
  intros [= -> -> -> ->]. reflexivity.
Qed.

Lemma upsert_row_present (t : Table) (v : EmbeddingRow) :
  In (row_key v) (List.map row_key t) ->
  upsert_row t v =
  List.map (fun r => if bool_decide (row_key r = row_key v) then v else r) t.
Proof.
  intros Hin. unfold upsert_row.
  replace (existsb _ t) with true.
  - apply List.map_ext. intros r. case_bool_decide as Hk; [| reflexivity].
    apply conflict_update_same_key. exact Hk.
  - symmetry. apply List.existsb_exists.
    apply in_map_iff in Hin as (r & Hk & Hr).
    exists r. split; [exact Hr |]. apply bool_decide_eq_true. exact Hk.
Qed.

Lemma upsert_row_absent (t : Table) (v : EmbeddingRow) :
  ~ In (row_key v) (List.map row_key t) -> upsert_row t v = t ++ [v].
Proof.
  intros Hnin. unfold upsert_row.
  replace (existsb _ t) with false; [reflexivity |].
  symmetry. apply not_true_is_false. intros H.
  apply List.existsb_exists in H as (r & Hr & Hk).
  apply bool_decide_eq_true in Hk. apply Hnin. rewrite <- Hk.
  apply in_map. exact Hr.
Qed.



Lemma upsert_row_written (t : Table) (v : EmbeddingRow) : In v (upsert_row t v).
Proof.
  destruct (key_in_dec (row_key v) (List.map row_key t)) as [Hin | Hnin].
  - rewrite upsert_row_present by exact Hin.
    apply in_map_iff in Hin as (r & Hk & Hr).
    apply in_map_iff. exists r. split; [| exact Hr].
    rewrite bool_decide_eq_true_2 by exact Hk. reflexivity.
  - rewrite upsert_row_absent by exact Hnin. apply in_or_app. right. now left.
Qed.

Lemma upsert_row_at_key (t : Table) (v r : EmbeddingRow) :
  In r (upsert_row t v) -> row_key r = row_key v -> r = v.
Proof.
  destruct (key_in_dec (row_key v) (List.map row_key t)) as [Hin | Hnin].
  - rewrite upsert_row_present by exact Hin.
    intros Hr Hk. apply in_map_iff in Hr as (r0 & <- & Hr0).
    case_bool_decide as Hk0; [reflexivity | contradiction].
  - rewrite upsert_row_absent by exact Hnin.
    intros Hr Hk. apply in_app_or in Hr as [Hr | [<- | []]]; [| reflexivity].
    exfalso. apply Hnin. rewrite <- Hk. apply in_map. exact Hr.
Qed.

Lemma upsert_row_other (t : Table) (v r : EmbeddingRow) :
  row_key r <> row_key v -> (In r (upsert_row t v) <-> In r t).
Proof.
  intros Hne.
  destruct (key_in_dec (row_key v) (List.map row_key t)) as [Hin | Hnin].
  - rewrite upsert_row_present by exact Hin. rewrite in_map_iff. split.
    + intros (r0 & Heq & Hr0). case_bool_decide as Hk0; subst; [contradiction | easy].
    + intros Hr. exists r. split; [| exact Hr].
      rewrite bool_decide_eq_false_2 by exact Hne. reflexivity.
  - rewrite upsert_row_absent by exact Hnin. rewrite in_app_iff. simpl. split.
    + intros [Hr | [<- | []]]; [exact Hr | contradiction].
    + intros Hr. now left.
Qed.


Lemma upsert_rows_other (values : list EmbeddingRow) (t : Table) (r : EmbeddingRow) :
  ~ In (row_key r) (List.map row_key values) ->
  (In r (fold_left upsert_row values t) <-> In r t).
Proof.
  revert t. induction values as [| v values IH]; simpl; intros t Hnin.
  - reflexivity.
  - rewrite IH by tauto. apply upsert_row_other. intros Hk. apply Hnin. now left.
Qed.

Lemma upsert_rows_written (values : list EmbeddingRow) (t : Table) (v : EmbeddingRow) :
  List.NoDup (List.map row_key values) -> In v values ->
  In v (fold_left upsert_row values t).
Proof.
  revert t. induction values as [| v0 values IH]; simpl; intros t Hnd Hv; [easy |].
  apply List.NoDup_cons_iff in Hnd as [Hv0 Hnd].
  destruct Hv as [-> | Hv].
  - apply upsert_rows_other; [exact Hv0 | apply upsert_row_written].
  - apply IH; assumption.
Qed.

Lemma upsert_rows_at_key (values : list EmbeddingRow) (t : Table) (v r : EmbeddingRow) :
  List.NoDup (List.map row_key values) -> In v values ->
  In r (fold_left upsert_row values t) -> row_key r = row_key v -> r = v.
Proof.
  revert t. induction values as [| v0 values IH]; simpl; intros t Hnd Hv Hr Hk; [easy |].
  apply List.NoDup_cons_iff in Hnd as [Hv0 Hnd].
  destruct Hv as [-> | Hv].
  - apply upsert_rows_other in Hr; [| rewrite Hk; exact Hv0].
    eapply upsert_row_at_key; eassumption.
  - eapply IH; eassumption.
Qed.




Section StoreFacts.

Variable vector_in : list number -> option (list number).

(** What the table takes of a proposed row: the vector as the column
    holds it, and every other column as proposed. *)
Lemma stored_columns (v r : EmbeddingRow) :
  stored vector_in v = Some r ->
  row_key r = row_key v /\
  vector_in (col_embedding v) = Some (col_embedding r) /\
  col_chunkText r = col_chunkText v /\ col_pooling r = col_pooling v /\
  col_normalize r = col_normalize v /\ col_contentHash r = col_contentHash v.
Proof.
  unfold stored. destruct (vector_in (col_embedding v)) as [e |]; [| discriminate].
  intros [= <-]. repeat split.
Qed.

Lemma stored_keys (values rows : list EmbeddingRow) :
  mapM (stored vector_in) values = Some rows ->
  List.map row_key rows = List.map row_key values.
Proof.
  intros H. apply mapM_Some_1 in H.
  induction H as [| v r values rows Hv _ IH]; [reflexivity |].
  cbn [List.map]. rewrite IH. f_equal. apply (stored_columns v r Hv).
Qed.

Lemma stored_in (values rows : list EmbeddingRow) (v : EmbeddingRow) :
  mapM (stored vector_in) values = Some rows -> In v values ->
  exists r, In r rows /\ stored vector_in v = Some r.
Proof.
  intros H. apply mapM_Some_1 in H.
  induction H as [| v0 r0 values rows Hv _ IH]; [intros [] |].
  intros [<- | Hin].
  - exists r0. split; [left; reflexivity | exact Hv].
  - destruct (IH Hin) as (r & Hr & Hs). exists r. split; [right; exact Hr | exact Hs].
Qed.

Lemma stored_from (values rows : list EmbeddingRow) (r : EmbeddingRow) :
  mapM (stored vector_in) values = Some rows -> In r rows ->
  exists v, In v values /\ stored vector_in v = Some r.
Proof.
  intros H. apply mapM_Some_1 in H.
  induction H as [| v0 r0 values rows Hv _ IH]; [intros [] |].
  intros [<- | Hin].
  - exists v0. split; [left; reflexivity | exact Hv].
  - destruct (IH Hin) as (v & Hv' & Hs). exists v. split; [right; exact Hv' | exact Hs].
Qed.

Lemma accepted_values (D : nat) (documentId : jsstring) (items : list EmbeddingItem) :
  accepted vector_in D items ->
  forallb (fun v => validateEmbeddingDimensions D (col_embedding v))
          (List.map (toValue documentId) items) = true /\
  List.NoDup (List.map row_key (List.map (toValue documentId) items)) /\
  exists rows, mapM (stored vector_in) (List.map (toValue documentId) items) = Some rows.
Proof.
  intros (Hdim & Hvec & Hnd). split; [| split].
  - apply List.forallb_forall. intros v Hv.
    apply in_map_iff in Hv as (it & <- & Hit).
    rewrite List.Forall_forall in Hdim. simpl.
    unfold validateEmbeddingDimensions. apply Nat.eqb_eq. now apply Hdim.
  - rewrite List.map_map.
    replace (List.map (fun x => row_key (toValue documentId x)) items)
      with (List.map (fun k : Z * jsstring * jsstring =>
                        let '(i, m, d) := k in (documentId, i, m, d))
              (List.map (fun it => (chunkIndex it, modelId it, device it)) items))
      by (rewrite List.map_map; reflexivity).
    apply List.NoDup_map_NoDup_ForallPairs; [| exact Hnd].
    intros [[i m] d] [[i' m'] d'] _ _ [= -> -> ->]. reflexivity.
  - apply (mapM_is_Some_2 (stored vector_in)). apply List.Forall_forall.
    intros v Hv. apply in_map_iff in Hv as (it & <- & Hit).
    rewrite List.Forall_forall in Hvec. destruct (Hvec it Hit) as [e He].
    cbn [compose]. unfold stored. cbn [toValue col_embedding]. rewrite He. eauto.
Qed.

(** An accepted, non-empty call is executed: it returns the count of its
    items and leaves the table with each value written as the table takes
    it. *)
Lemma upsertEmbeddings_accepted (D : nat) (input : UpsertEmbeddingsInput) (t : Table) :
  items input <> [] -> accepted vector_in D (items input) ->
  exists rows,
    mapM (stored vector_in) (List.map (toValue (documentId input)) (items input))
    = Some rows /\
    upsertEmbeddings vector_in D input t =
    (Ok (length (items input)), fold_left upsert_row rows t).
Proof.
  intros Hne Hacc.
  destruct (accepted_values D (documentId input) (items input) Hacc)
    as (Hdim & Hnd & rows & Hrows).
  exists rows. split; [exact Hrows |].
  unfold upsertEmbeddings, insert_onConflictDoUpdate.
  rewrite Hdim. rewrite bool_decide_eq_true_2 by (apply NoDup_ListNoDup; exact Hnd).
  rewrite Hrows. rewrite List.length_map.
  destruct (items input) as [| it its]; [contradiction | reflexivity].
Qed.

(** What a call that returns has written. *)
Lemma upsertEmbeddings_returns (D : nat) (input : UpsertEmbeddingsInput)
    (t t' : Table) (n : nat) :
  upsertEmbeddings vector_in D input t = (Ok n, t') ->
  exists rows,
    mapM (stored vector_in) (List.map (toValue (documentId input)) (items input))
    = Some rows /\
    n = length (items input) /\
    List.NoDup (List.map row_key rows) /\
    t' = fold_left upsert_row rows t.
Proof.
  intros H. revert H.
  unfold upsertEmbeddings, insert_onConflictDoUpdate.
  set (values := List.map (toValue (documentId input)) (items input)).
  rewrite <- (List.length_map (toValue (documentId input))). fold values.
  destruct (forallb _ values && bool_decide _) eqn:Hok.
  - apply andb_true_iff in Hok as [_ Hnd]. apply bool_decide_eq_true in Hnd.
    apply NoDup_ListNoDup in Hnd.
    destruct (mapM (stored vector_in) values) as [rows |] eqn:Hrows.
    + destruct values; [discriminate |].
      intros [= <- <-]. exists rows. repeat split.
      rewrite (stored_keys _ _ Hrows). exact Hnd.
    + destruct values; discriminate.
  - destruct values; discriminate.
Qed.

End StoreFacts.

End EmbeddingsFacts.

(** ** Embedding ingestion: the claims *)

Section EmbeddingsClaims.
Import JS DbUtils Embeddings.




(** C10.  When a call returns, the row under the key of each of its items
    exists and holds ['mean'] for an omitted pooling and the item's pooling
    otherwise, and [0] for a normalize that is [false] and [1] for one
    that is omitted or [true]: whether the row was inserted or was there
    and updated on conflict. *)
Theorem upsertEmbeddings_defaults
    (vector_in : list number -> option (list number)) (D : nat)
    (input : UpsertEmbeddingsInput) (t t' : Table) (n : nat) (it : EmbeddingItem) :
  upsertEmbeddings vector_in D input t = (Ok n, t') ->
  In it (items input) ->
  (exists r, In r t' /\ row_key r = item_key (documentId input) it) /\
  (forall r, In r t' -> row_key r = item_key (documentId input) it ->
     col_pooling r = match pooling it with Some p => p | None => js "mean" end /\
     col_normalize r = match normalize it with Some false => 0 | _ => 1 end).
Proof.
  intros Hrun Hit.
  destruct (upsertEmbeddings_returns vector_in D input t t' n Hrun)
    as (rows & Hrows & _ & Hnd & ->).
  destruct (stored_in _ _ _ (toValue (documentId input) it) Hrows (in_map _ _ _ Hit))
    as (r0 & Hr0 & Hs).
  destruct (stored_columns _ _ _ Hs) as (Hkey & _ & _ & Hpool & Hnorm & _).
  split.
  - exists r0. split; [apply upsert_rows_written; assumption |].
    rewrite Hkey. reflexivity.
  - intros r Hr Hk.
    assert (row_key r = row_key r0) as Hk0 by (rewrite Hk, Hkey; reflexivity).
    rewrite (upsert_rows_at_key _ t _ r Hnd Hr0 Hr Hk0), Hpool, Hnorm. simpl.
    destruct (pooling it), (normalize it) as [[|] |]; split; reflexivity.
Qed.

Lemma upsertEmbeddings_defaults_witness :
  exists r,
    In r (snd (upsertEmbeddings pgvector_in 2
                 (sampleInput [0%Q; 1%Q] None None) [clsRow])) /\
    row_key r = (js "doc", 0, js "m", js "wasm") /\
    col_pooling r = js "mean" /\ col_normalize r = 1.
Proof.
  destruct (upsertEmbeddings_defaults pgvector_in 2
              (sampleInput [0%Q; 1%Q] None None) [clsRow]
              (snd (upsertEmbeddings pgvector_in 2
                      (sampleInput [0%Q; 1%Q] None None) [clsRow]))
              1%nat (sampleItem [0%Q; 1%Q] None None))
    as [(r & Hr & Hk) Hall].
  - reflexivity.
  - now left.
  - exists r. split; [exact Hr |]. split; [exact Hk |]. apply Hall; assumption.
Defined.

End EmbeddingsClaims.

(** ** The embedding worker *)

Section WorkerFacts.
Import JS JSValue Worker.

Lemma embedLoop_steps (pipe : Pipeline) (requestId : jsval) (texts : list jsval)
    (outs : list Output) :
  List.Forall2 (fun text out => pipe text = Ok out) texts outs ->
  forall (i total : nat) (embeddings : list (option (list number))),
  embedLoop pipe requestId texts i total embeddings =
  (Ok (embeddings ++ List.map (fun out => toPlainArray (vectorOf out)) outs),
   embedSteps requestId texts i total).
Proof.
  induction 1 as [| text out texts outs Hpipe _ IH]; intros i total embeddings; simpl.
  - rewrite List.app_nil_r. reflexivity.
  - rewrite Hpipe, IH. rewrite <- List.app_assoc. reflexivity.
Qed.

Section HandlerFacts.

Variable ensurePipeline :
  jsstring -> jsstring -> option jsval -> State ->
  outcome Thrown Pipeline * State * list Obs.
Variable defaultModel : jsstring.
Variable initProgress : Progress.
Variable clearTracker : bool.

Lemma handler_embed_rejected (requestId : jsval) (p : option Payload) (st : State) :
  match p with
  | Some p => match p_texts p with VArr (_ :: _) => False | _ => True end
  | None => True
  end ->
  Worker.onMessage ensurePipeline defaultModel initProgress clearTracker
    (embedRequest requestId p) st =
  (st, [Post (PostResponse requestId false None (Some ErrTextsNotArray))]).
Proof.
  intros Htexts. unfold Worker.onMessage, embedRequest. cbn [Worker.type Worker.requestId Worker.payload].
  change (is_type "status" (VStr (js "embed"))) with false.
  change (is_type "clearCache" (VStr (js "embed"))) with false.
  change (is_type "init" (VStr (js "embed"))) with false.
  change (is_type "embed" (VStr (js "embed"))) with true.
  cbv iota.
  destruct p as [p |]; [| reflexivity].
  destruct (p_texts p) as [| | | | | [| text more] |]; try reflexivity.
  destruct Htexts.
Qed.

Lemma handler_embed_run (requestId : jsval) (p : Payload) (st st' : State)
    (texts : list jsval) (outs : list Output) (pipe : Pipeline) (obs : list Obs) :
  p_texts p = VArr texts -> texts <> [] ->
  ensurePipeline (embedModel defaultModel (Some p) st) (embedDevice (Some p) st)
    (Some requestId) st = (Ok pipe, st', obs) ->
  List.Forall2 (fun text out => pipe text = Ok out) texts outs ->
  Worker.onMessage ensurePipeline defaultModel initProgress clearTracker
    (embedRequest requestId (Some p)) st =
  (st',
   obs ++ embedSteps requestId texts 0 (length texts) ++
   [Post (PostResponse requestId true
            (Some (ResEmbed (cfg_modelId (currentConfig st'))
                            (cfg_device (currentConfig st'))
                            (List.map (fun out => toPlainArray (vectorOf out)) outs)))
            None)]).
Proof.
  intros Htexts Hne Hload Hpipe.
  unfold Worker.onMessage, embedRequest. cbn [Worker.type Worker.requestId Worker.payload].
  change (is_type "status" (VStr (js "embed"))) with false.
  change (is_type "clearCache" (VStr (js "embed"))) with false.
  change (is_type "init" (VStr (js "embed"))) with false.
  change (is_type "embed" (VStr (js "embed"))) with true.
  cbv iota. rewrite Htexts.
  destruct texts as [| text more]; [contradiction |].
  unfold embedModel, embedDevice in Hload. rewrite Hload.
  rewrite (embedLoop_steps pipe requestId (text :: more) outs Hpipe).
  reflexivity.
Qed.

End HandlerFacts.

End WorkerFacts.

(** ** The embedding worker: the claims *)

Section WorkerClaims.
Import JS JSValue Worker.

(** C6, as the claim states it, fails: an array whose element is not a
    string passes the test of the handler; the model is loaded and run on
    the element, and the error reported is the one the model throws. *)
Lemma embed_number_is_run :
  snd (WorkerV3.onMessage stubLoader
         (embedRequest r1 (Some (textsPayload (VArr [VNum 42%Q])))) initial)
  = [LoadModel WorkerV3.defaultModel (js "wasm") (Intercepted (Some r1) NativeFetch);
     Post (PostProgress r1 (Loading (js "Modelo listo") (Some 100)));
     Post (PostProgress r1 (Running 0 1 100));
     PipeCall (VNum 42%Q);
     Post (PostResponse r1 false None
             (Some (ErrThrown {| thrown_message := js "text.split is not a function";
                                 thrown_name := Some (js "TypeError") |})))].
Proof. vm_compute. reflexivity. Qed.

(** C6, amended.  When [texts] is not an array, or is an empty array, both
    workers answer with the error response at once: nothing else is
    posted, no model is loaded or run, and the state is what it was. *)
Theorem embed_rejects_non_array (pipeline : Loader) (requestId : jsval)
    (p : option Payload) (st : State) :
  match p with
  | Some p => match p_texts p with VArr (_ :: _) => False | _ => True end
  | None => True
  end ->
  WorkerV3.onMessage pipeline (embedRequest requestId p) st
    = (st, [Post (PostResponse requestId false None (Some ErrTextsNotArray))]) /\
  WorkerV2.onMessage pipeline (embedRequest requestId p) st
    = (st, [Post (PostResponse requestId false None (Some ErrTextsNotArray))]).
Proof.
  intros Htexts. split; apply handler_embed_rejected; exact Htexts.
Qed.

Lemma embed_rejects_non_array_witness :
  WorkerV3.onMessage stubLoader (embedRequest r1 (Some (textsPayload (VArr [])))) initial
    = (initial, [Post (PostResponse r1 false None (Some ErrTextsNotArray))]) /\
  WorkerV2.onMessage stubLoader (embedRequest r1 (Some (textsPayload (VArr [])))) initial
    = (initial, [Post (PostResponse r1 false None (Some ErrTextsNotArray))]).
Proof.
  apply (embed_rejects_non_array stubLoader r1 (Some (textsPayload (VArr []))) initial).
  simpl. exact I.
Defined.

(** C2, as the claim states it, fails: the progress message of a text is
    posted before the model is run on it.  Here the only text makes the
    model throw, and 100 percent has been reported. *)
Lemma embed_progress_before_text :
  snd (WorkerV3.onMessage stubLoader
         (embedRequest r1 (Some (textsPayload (VArr [VStr (js "adios")])))) initial)
  = [LoadModel WorkerV3.defaultModel (js "wasm") (Intercepted (Some r1) NativeFetch);
     Post (PostProgress r1 (Loading (js "Modelo listo") (Some 100)));
     Post (PostProgress r1 (Running 0 1 100));
     PipeCall (VStr (js "adios"));
     Post (PostResponse r1 false None
             (Some (ErrThrown {| thrown_message := js "unknown text";
                                 thrown_name := None |})))].
Proof. vm_compute. reflexivity. Qed.

(** C2, amended.  For a non-empty array of texts, once the model is
    loaded and as long as it returns for each text, the handler runs the
    model on the texts one after the other in the order of the array,
    posting before each run the progress message of its index; the final
    response carries one vector per text, in that order.  With the texts
    "hola" and "mundo" and a model that returns [1,0] and [0,1], the
    response carries [[1,0],[0,1]] and the progress messages of the
    running phase are at 50 and 100 percent. *)
Theorem embed_in_input_order :
  (forall (pipeline : Loader) (requestId : jsval) (p : Payload) (st st' : State)
          (texts : list jsval) (outs : list Output) (pipe : Pipeline) (obs : list Obs),
     p_texts p = VArr texts -> texts <> [] ->
     WorkerV3.ensurePipeline pipeline
       (embedModel WorkerV3.defaultModel (Some p) st) (embedDevice (Some p) st)
       (Some requestId) st = (Ok pipe, st', obs) ->
     List.Forall2 (fun text out => pipe text = Ok out) texts outs ->
     let embeddings := List.map (fun out => toPlainArray (vectorOf out)) outs in
     length embeddings = length texts /\
     WorkerV3.onMessage pipeline (embedRequest requestId (Some p)) st =
     (st',
      obs ++ embedSteps requestId texts 0 (length texts) ++
      [Post (PostResponse requestId true
               (Some (ResEmbed (cfg_modelId (currentConfig st'))
                               (cfg_device (currentConfig st')) embeddings))
               None)]))
  /\
  (let obs := snd (WorkerV3.onMessage stubLoader
                     (embedRequest r1 (Some (textsPayload
                        (VArr [VStr (js "hola"); VStr (js "mundo")])))) initial) in
   runningPercents obs = [50; 100] /\
   last obs =
   Some (Post (PostResponse r1 true
                 (Some (ResEmbed (Some WorkerV3.defaultModel) (Some (js "wasm"))
                          [Some [1%Q; 0%Q]; Some [0%Q; 1%Q]])) None))).
Proof.
  split.
  - intros pipeline requestId p st st' texts outs pipe obs Htexts Hne Hload Hpipe embeddings.
    split.
    + subst embeddings. rewrite List.length_map.
      pose proof (List.Forall2_length Hpipe) as Hlen. congruence.
    + apply (handler_embed_run (WorkerV3.ensurePipeline pipeline) WorkerV3.defaultModel
               (LoadingMessage WorkerV3.cargandoModelo) false
               requestId p st st' texts outs pipe obs); assumption.
  - vm_compute. split; reflexivity.
Qed.

Lemma embed_in_input_order_witness :
  exists obs,
    snd (WorkerV3.onMessage stubLoader
           (embedRequest r1 (Some (textsPayload
              (VArr [VStr (js "hola"); VStr (js "mundo")])))) initial)
    = obs ++
      embedSteps r1 [VStr (js "hola"); VStr (js "mundo")] 0 2 ++
      [Post (PostResponse r1 true
               (Some (ResEmbed (Some WorkerV3.defaultModel) (Some (js "wasm"))
                        [Some [1%Q; 0%Q]; Some [0%Q; 1%Q]])) None)].
Proof.
  destruct (proj1 embed_in_input_order stubLoader r1
              (textsPayload (VArr [VStr (js "hola"); VStr (js "mundo")]))
              initial
              (snd (fst (WorkerV3.ensurePipeline stubLoader WorkerV3.defaultModel
                           (js "wasm") (Some r1) initial)))
              [VStr (js "hola"); VStr (js "mundo")]
              [OutTensor (TypedArray [1%Q; 0%Q]); OutTensor (TypedArray [0%Q; 1%Q])]
              stubPipe
              (snd (WorkerV3.ensurePipeline stubLoader WorkerV3.defaultModel
                      (js "wasm") (Some r1) initial)))
    as [_ Hrun].
  - reflexivity.
  - discriminate.
  - reflexivity.
  - repeat constructor.
  - eexists. rewrite Hrun. reflexivity.
Defined.

(** C4.  In [public/embeddings-worker.js] the wrapper stays on [env.fetch]
    after a load, whether the load succeeds or throws; a second load wraps
    it once more. *)
Theorem publicWorker_fetch_stays_intercepted :
  env_fetch (fst (WorkerV3.onMessage stubLoader (initRequest r1 None) initial))
    = Some (Intercepted (Some r1) NativeFetch) /\
  env_fetch (fst (WorkerV3.onMessage failingLoader (initRequest r1 None) initial))
    = Some (Intercepted (Some r1) NativeFetch) /\
  env_fetch (fst (WorkerV3.onMessage failingLoader (initRequest (VStr (js "r2")) None)
                    (fst (WorkerV3.onMessage failingLoader (initRequest r1 None) initial))))
    = Some (Intercepted (Some (VStr (js "r2"))) (Intercepted (Some r1) NativeFetch)).
Proof. vm_compute. repeat split. Qed.

(** In general: whenever [public/embeddings-worker.js] attempts a load,
    [env.fetch] is afterwards its wrapper around what was there before. *)
Lemma publicWorker_wrapper_stays (pipeline : Loader) (modelId device : jsstring)
    (report : option jsval) (st : State) :
  loadedFor modelId device st = None ->
  env_fetch (snd (fst (WorkerV3.ensurePipeline pipeline modelId device report st)))
  = Some (Intercepted report (default (globalThis_fetch st) (env_fetch st))).
Proof.
  intros Hload. unfold WorkerV3.ensurePipeline. rewrite Hload.
  destruct (WorkerV3.loadRun _ _ _) as [streams obs].
  destruct (load_result _); reflexivity.
Qed.

(** The sibling worker puts back the fetch function it found, on both
    paths, after having had its wrapper in place while the model loaded;
    it never touches [env.fetch]. *)
Lemma trackerWorker_fetch_restored (pipeline : Loader) (modelId device : jsstring)
    (report : option jsval) (st : State) :
  let '(r, st', obs) := WorkerV2.ensurePipeline pipeline modelId device report st in
  globalThis_fetch st' = globalThis_fetch st /\
  env_fetch st' = env_fetch st /\
  (loadedFor modelId device st = None ->
   In (LoadModel modelId (or_else (Some device) (js "wasm"))
         (Intercepted report (globalThis_fetch st))) obs).
Proof.
  unfold WorkerV2.ensurePipeline.
  destruct (loadedFor modelId device st) as [p |].
  - repeat split. discriminate.
  - cbn [WorkerV2.beforeLoad]. destruct (WorkerV2.loadRun _ _ _ _) as [l ps].
    unfold WorkerV2.afterLoad.
    destruct (load_result _); simpl; repeat split; intros _;
      apply in_or_app; right; now left.
Qed.

End WorkerClaims.

(** ** Download progress *)

Section ProgressFacts.
Import JS JSValue Worker WorkerV2.

Lemma sumTotal_spec (d : gmap jsstring Info) : sumTotal d = spec_sum total d.
Proof.
  unfold sumTotal, spec_sum. rewrite map_fold_foldr.
  induction (map_to_list d) as [| [k info] l IH]; simpl; [reflexivity |].
  rewrite IH. lia.
Qed.

Lemma sumLoaded_spec (d : gmap jsstring Info) : sumLoaded d = spec_sum loaded d.
Proof.
  unfold sumLoaded, spec_sum. rewrite map_fold_foldr.
  induction (map_to_list d) as [| [k info] l IH]; simpl; [reflexivity |].
  rewrite IH. lia.
Qed.

(** [calculateTotalProgress] computes the percentage of the tracked
    files. *)
Lemma calculateTotalProgress_tracked (d : gmap jsstring Info) :
  calculateTotalProgress d = trackedPercent d.
Proof.
  unfold calculateTotalProgress, trackedPercent.
  rewrite sumTotal_spec, sumLoaded_spec.
  case_bool_decide as Hsize; [| reflexivity].
  apply map_size_empty_iff in Hsize. subst d.
  unfold spec_sum. rewrite map_to_list_empty. reflexivity.
Qed.

Lemma calculateTotalProgress_le (d : gmap jsstring Info) (z : Z) :
  calculateTotalProgress d = Some z -> z <= 99.
Proof.
  unfold calculateTotalProgress.
  case_bool_decide; [discriminate |].
  destruct (sumTotal d =? 0); [discriminate |].
  intros [= <-]. apply Z.le_min_l.
Qed.

Lemma reportTotal_spec (d : gmap jsstring Info) (p : Progress) :
  In p (reportTotal d) ->
  exists z, p = Loading (js "Descargando modelo") (Some z) /\
            trackedPercent d = Some z /\ z <= 99.
Proof.
  unfold reportTotal. destruct (calculateTotalProgress d) as [z |] eqn:Hc; [| easy].
  intros [<- | []]. exists z. split; [reflexivity |].
  split; [rewrite <- calculateTotalProgress_tracked; exact Hc |].
  eapply calculateTotalProgress_le. exact Hc.
Qed.

Lemma loadingPercents_app (a b : list Obs) :
  loadingPercents (a ++ b) = loadingPercents a ++ loadingPercents b.
Proof. unfold loadingPercents. apply List.flat_map_app. Qed.

Lemma loadingPercents_reportTotal (r : jsval) (d : gmap jsstring Info) :
  List.Forall cappedPercent (loadingPercents (reportTo (Some r) (reportTotal d))).
Proof.
  unfold reportTotal. destruct (calculateTotalProgress d) as [z |] eqn:Hc;
    cbn; repeat constructor.
  eapply calculateTotalProgress_le. exact Hc.
Qed.

(** What goes through the wrappers is reported below 100 by each. *)
Lemma throughWrappers_capped (rs : list jsval)
    (update : gmap jsstring Info -> gmap jsstring Info) (d : gmap jsstring Info) :
  List.Forall cappedPercent (loadingPercents (snd (throughWrappers rs update d))).
Proof.
  revert d. induction rs as [| r rs IH]; intros d; cbn [throughWrappers].
  - constructor.
  - specialize (IH (update d)).
    destruct (throughWrappers rs update (update d)) as [d' obs]. cbn [snd] in *.
    rewrite loadingPercents_app. apply List.Forall_app. split; [| exact IH].
    apply loadingPercents_reportTotal.
Qed.

(** What the wrapper of a request reports at one event, when it is the
    only one on [globalThis.fetch]: nothing, a null percentage for a
    response without length, or the percentage of the files tracked as
    the event leaves them. *)
Lemma loadStep_reports (r : jsval) (report : option jsval) (l : Download)
    (e : LoadEvent) (o : Obs) :
  isCallback e = false ->
  In o (snd (loadStep [r] report l e)) ->
  o = Post (PostProgress r (Loading (js "Descargando modelo") None)) \/
  exists z, o = Post (PostProgress r (Loading (js "Descargando modelo") (Some z))) /\
            trackedPercent (tracker (fst (loadStep [r] report l e))) = Some z /\
            z <= 99.
Proof.
  intros Hcb. destruct e as [url hasBody len | n len | n | n | ? ? ?];
    try discriminate; cbn [loadStep].
  - destruct (isModelAsset url); cbn [negb orb bool_decide]; [| intros []].
    rewrite bool_decide_eq_false_2 by discriminate.
    destruct (negb hasBody || (default 0 len =? 0)); cbn [snd List.map].
    + intros [<- | []]. now left.
    + intros [].
  - destruct (responses l !! n) as [[fileKey |] |]; cbn [snd]; try easy.
    cbn [throughWrappers fst snd reportTo]. rewrite List.app_nil_r.
    intros Ho. apply List.in_map_iff in Ho as (p & <- & Hp).
    right. destruct (reportTotal_spec _ p Hp) as (z & -> & Hz). exists z.
    split; [reflexivity | exact Hz].
  - destruct (responses l !! n) as [[fileKey |] |]; cbn [snd]; try easy.
    cbn [throughWrappers fst snd reportTo]. rewrite List.app_nil_r.
    intros Ho. apply List.in_map_iff in Ho as (p & <- & Hp).
    right. destruct (reportTotal_spec _ p Hp) as (z & -> & Hz). exists z.
    split; [reflexivity | exact Hz].
  - destruct (responses l !! n) as [[fileKey |] |]; cbn [snd]; easy.
Qed.

(** The percentages of one event: those the callback forwards, or those
    of the wrappers, which are below 100. *)
Lemma loadStep_percents (rs : list jsval) (r : jsval) (l : Download) (e : LoadEvent) :
  let pcts := loadingPercents (snd (loadStep rs (Some r) l e)) in
  if isCallback e then pcts = callbackPercent e else List.Forall cappedPercent pcts.
Proof.
  destruct e as [url hasBody len | n len | n | n | status progress file];
    cbn [isCallback loadStep callbackPercent].
  - destruct (negb (isModelAsset url) || bool_decide (rs = [])); [constructor |].
    destruct (negb hasBody || (default 0 len =? 0)); cbn [snd]; [| constructor].
    induction rs as [| r0 rs IH]; cbn; constructor; [exact I | exact IH].
  - destruct (responses l !! n) as [[fileKey |] |]; try constructor.
    pose proof (throughWrappers_capped rs (addLoaded fileKey len) (tracker l)) as H.
    destruct (throughWrappers _ _ _) as [d obs]. exact H.
  - destruct (responses l !! n) as [[fileKey |] |]; try constructor.
    pose proof (throughWrappers_capped rs (setLoaded fileKey) (tracker l)) as H.
    destruct (throughWrappers _ _ _) as [d obs]. exact H.
  - destruct (responses l !! n) as [[fileKey |] |]; constructor.
  - rewrite bool_decide_eq_true_2 by eauto. cbn [negb].
    destruct (str_eqb status (js "downloading") || str_eqb status (js "progress"));
      [reflexivity |].
    destruct (str_eqb status (js "done")); reflexivity.
Qed.

Lemma loadRun_percents (rs : list jsval) (r : jsval) (es : list LoadEvent) (l : Download) :
  exists per,
    loadingPercents (snd (loadRun rs (Some r) l es)) = concat per /\
    List.Forall2 (fun e pcts => if isCallback e then pcts = callbackPercent e
                                else List.Forall cappedPercent pcts) es per.
Proof.
  revert l. induction es as [| e es IH]; intros l; cbn [loadRun].
  - exists []. split; [reflexivity | constructor].
  - pose proof (loadStep_percents rs r l e) as Hstep. cbv zeta in Hstep.
    destruct (loadStep rs (Some r) l e) as [l' obs]. cbn [snd] in Hstep.
    destruct (IH l') as (per & Hper & Hall).
    destruct (loadRun rs (Some r) l' es) as [l'' obs']. cbn [snd] in *.
    exists (loadingPercents obs :: per). split.
    + rewrite loadingPercents_app, Hper. reflexivity.
    + constructor; [exact Hstep | exact Hall].
Qed.

End ProgressFacts.

Section ProgressClaims.
Import JS JSValue Worker WorkerV2.

(** C8, as the claim states it, fails.  A [done] of the library's progress
    callback is reported as 100 before the load completes, so that 100 is
    reported twice.  And the percentage of the interception is computed in
    doubles: at 23 of 40 bytes the quotient 0.575 and its product with 100
    are rounded to 57.49999999999999, and 57 is reported where the formula
    of the specification gives 58. *)
Lemma progress_100_reported_twice :
  loadingPercents (snd (WorkerV2.ensurePipeline callbackLoader (js "m") (js "wasm")
                          (Some r1) initial))
    = [Some 0; Some 100; Some 100] /\
  loadingPercents (snd (WorkerV2.ensurePipeline oddLoader (js "m") (js "wasm")
                          (Some r1) initial))
    = [Some 0; Some 58; Some 57; Some 99; Some 99; Some 100; Some 100] /\
  spec_percent {[ js "model.onnx" := {| loaded := 23; total := 40 |} ]} = Some 58.
Proof. vm_compute. repeat split; reflexivity. Qed.

(** C8, amended.  In the worker with the tracker, what the wrapper of a
    request reports is the percentage of the files tracked at that moment
    as the worker computes it, in doubles, and so at most 99.  And the
    percentages reported during a load are 0, then event by event those of
    the fetch interception, which are null or at most 99, and those the
    library's progress callback forwards, which are not capped, then 100
    as the last report, if and only if the load succeeds. *)
Theorem download_progress_capped (pipeline : Loader) (modelId device : jsstring)
    (requestId : jsval) (st : State) :
  loadedFor modelId device st = None ->
  let script := pipeline modelId (or_else (Some device) (js "wasm")) in
  (forall report l e o,
     isCallback e = false -> In o (snd (loadStep [requestId] report l e)) ->
     o = Post (PostProgress requestId (Loading (js "Descargando modelo") None)) \/
     exists z,
       o = Post (PostProgress requestId (Loading (js "Descargando modelo") (Some z))) /\
       trackedPercent (tracker (fst (loadStep [requestId] report l e))) = Some z /\
       z <= 99) /\
  exists per,
    loadingPercents
      (snd (WorkerV2.ensurePipeline pipeline modelId device (Some requestId) st))
    = Some 0 :: concat per ++
      match load_result script with Ok _ => [Some 100] | Throw _ => [] end /\
    List.Forall2 (fun e pcts => if isCallback e then pcts = callbackPercent e
                                else List.Forall cappedPercent pcts)
      (load_events script) per.
Proof.
  intros Hload script. split; [exact (loadStep_reports requestId) |].
  unfold WorkerV2.ensurePipeline. rewrite Hload. cbn [beforeLoad]. fold script.
  set (st1 := set_globalThis_fetch _ _).
  destruct (loadRun_percents (reporters (globalThis_fetch st1)) requestId
              (load_events script)
              {| tracker := downloadTracker st1; responses := [] |})
    as (per & Hper & Hall).
  exists per. split; [| exact Hall].
  destruct (loadRun _ _ _ _) as [l obs]. cbn [snd] in Hper.
  unfold afterLoad. destruct (load_result script); cbn [snd];
    rewrite !loadingPercents_app;
    change (loadingPercents (LoadModel ?m ?d ?f :: obs)) with (loadingPercents obs);
    rewrite Hper; cbn; rewrite ?List.app_nil_r; reflexivity.
Qed.

Lemma download_progress_capped_witness :
  exists per,
    loadingPercents (snd (WorkerV2.ensurePipeline oddLoader (js "m") (js "wasm")
                            (Some r1) initial))
    = Some 0 :: concat per ++ [Some 100] /\
    List.Forall2 (fun e pcts => if isCallback e then pcts = callbackPercent e
                                else List.Forall cappedPercent pcts)
      (load_events (oddLoader (js "m") (js "wasm"))) per.
Proof.
  apply (download_progress_capped oddLoader (js "m") (js "wasm") r1 initial).
  reflexivity.
Defined.

End ProgressClaims.

(** ** The worker RPC client *)

Section RpcClientFacts.
Import JS JSValue RpcClient.

(** *** The delay of a timer *)

Lemma timerDelay_small (timeout : Z) :
  0 <= timeout < 2 ^ 31 -> timerDelay timeout = timeout.
Proof.
  intros H. unfold timerDelay, toInt32. rewrite Z.mod_small by lia.
  destruct (timeout <? 2 ^ 31) eqn:E; [lia |]. apply Z.ltb_ge in E. lia.
Qed.

Lemma timerDelay_le (timeout : Z) : 0 <= timeout -> 0 <= timerDelay timeout <= timeout.
Proof.
  intros H. unfold timerDelay, toInt32.
  pose proof (Z.mod_pos_bound timeout (2 ^ 32) ltac:(lia)) as Hm.
  pose proof (Z.mod_le timeout (2 ^ 32) H ltac:(lia)) as Hle.
  destruct (timeout mod 2 ^ 32 <? 2 ^ 31); lia.
Qed.

(** *** Settling *)

Lemma settle_lookup_other (p q : nat) (s : settlement) (ps : gmap nat settlement) :
  p <> q -> settle p s ps !! q = ps !! q.
Proof.
  intros Hne. unfold settle. destruct (ps !! p); [reflexivity |].
  apply lookup_insert_ne. exact Hne.
Qed.

Lemma settle_lookup_fresh (p : nat) (s : settlement) (ps : gmap nat settlement) :
  ps !! p = None -> settle p s ps !! p = Some s.
Proof. intros H. unfold settle. rewrite H. apply lookup_insert_eq. Qed.

Lemma settle_lookup_settled (p q : nat) (s s' : settlement) (ps : gmap nat settlement) :
  ps !! q = Some s' -> settle p s ps !! q = Some s'.
Proof.
  intros H. unfold settle. destruct (ps !! p) eqn:Hp; [exact H |].
  rewrite lookup_insert_ne; [exact H |]. intros ->. congruence.
Qed.

Lemma settle_lookup_some (p q : nat) (s s' : settlement) (ps : gmap nat settlement) :
  settle p s ps !! q = Some s' -> q = p \/ ps !! q = Some s'.
Proof.
  destruct (decide (p = q)) as [-> | Hne]; [now left |].
  rewrite settle_lookup_other by exact Hne. now right.
Qed.

Lemma clearTimeout_in (tid : Z) (ts : list Timer) (t : Timer) :
  In t (clearTimeout tid ts) <-> In t ts /\ timer_id t <> tid.
Proof.
  unfold clearTimeout. rewrite List.filter_In.
  rewrite negb_true_iff, Z.eqb_neq. reflexivity.
Qed.

(** *** Timers that fire *)

Lemma insert_by_due_in (t u : Timer) (ts : list Timer) :
  In u (insert_by_due t ts) <-> u = t \/ In u ts.
Proof.
  induction ts as [| v ts IH]; simpl; [intuition |].
  destruct (timer_due v <=? timer_due t); simpl; rewrite ?IH; intuition.
Qed.

Lemma by_due_in (ts : list Timer) (u : Timer) : In u (by_due ts) <-> In u ts.
Proof.
  unfold by_due.
  assert (H : forall acc, In u (fold_left (fun acc t => insert_by_due t acc) ts acc)
                          <-> In u acc \/ In u ts).
  { induction ts as [| t ts IH]; intros acc; simpl; [intuition |].
    rewrite IH, insert_by_due_in. intuition. }
  rewrite H. simpl. intuition.
Qed.

Lemma fire_fields (ts : list Timer) (c : Client) :
  nextTimerId (fire ts c) = nextTimerId c /\
  nextPromise (fire ts c) = nextPromise c /\
  progressCalls (fire ts c) = progressCalls c /\
  posted (fire ts c) = posted c /\
  listening (fire ts c) = listening c /\
  terminated (fire ts c) = terminated c /\
  now (fire ts c) = now c.
Proof.
  revert c. induction ts as [| t ts IH]; intros c; simpl; [easy |].
  destruct (IH (onTimeout t c)) as (-> & -> & -> & -> & -> & -> & ->). easy.
Qed.

Lemma fire_pending_other (ts : list Timer) (c : Client) (rid : jsstring) :
  ~ In rid (List.map timer_requestId ts) ->
  pending (fire ts c) !! rid = pending c !! rid.
Proof.
  revert c. induction ts as [| t ts IH]; intros c; simpl; intros Hrid; [reflexivity |].
  rewrite IH by tauto. simpl. apply lookup_delete_ne. tauto.
Qed.

Lemma fire_pending_gone (ts : list Timer) (c : Client) (rid : jsstring) :
  pending c !! rid = None -> pending (fire ts c) !! rid = None.
Proof.
  revert c. induction ts as [| t ts IH]; intros c; simpl; intros Hrid; [exact Hrid |].
  apply IH. simpl. destruct (decide (timer_requestId t = rid)) as [Heq | Hne].
  - rewrite Heq. apply lookup_delete_eq.
  - rewrite lookup_delete_ne by exact Hne. exact Hrid.
Qed.

Lemma fire_pending_fired (ts : list Timer) (c : Client) (rid : jsstring) :
  In rid (List.map timer_requestId ts) -> pending (fire ts c) !! rid = None.
Proof.
  revert c. induction ts as [| t ts IH]; intros c; simpl; intros Hrid; [easy |].
  destruct (decide (timer_requestId t = rid)) as [Heq | Hne].
  - apply fire_pending_gone. simpl. rewrite Heq. apply lookup_delete_eq.
  - apply IH. tauto.
Qed.

Lemma fire_pending_some (ts : list Timer) (c : Client) (rid : jsstring) (e : Entry) :
  pending (fire ts c) !! rid = Some e -> pending c !! rid = Some e.
Proof.
  revert c. induction ts as [| t ts IH]; intros c; simpl; intros H; [exact H |].
  apply IH in H. simpl in H.
  destruct (decide (timer_requestId t = rid)) as [Heq | Hne].
  - rewrite Heq, lookup_delete_eq in H. discriminate.
  - rewrite lookup_delete_ne in H by exact Hne. exact H.
Qed.

Lemma fire_timers (ts : list Timer) (c : Client) (t : Timer) :
  In t (timers (fire ts c)) <->
  In t (timers c) /\ ~ In (timer_id t) (List.map timer_id ts).
Proof.
  revert c. induction ts as [| u ts IH]; intros c; simpl; [tauto |].
  rewrite IH. simpl. rewrite clearTimeout_in. intuition.
Qed.

Lemma fire_promise_other (ts : list Timer) (c : Client) (p : nat) :
  ~ In p (List.map timer_promise ts) ->
  promises (fire ts c) !! p = promises c !! p.
Proof.
  revert c. induction ts as [| u ts IH]; intros c; simpl; intros Hp; [reflexivity |].
  rewrite IH by tauto. simpl. apply settle_lookup_other. tauto.
Qed.

Lemma fire_promise_settled (ts : list Timer) (c : Client) (p : nat) (s : settlement) :
  promises c !! p = Some s -> promises (fire ts c) !! p = Some s.
Proof.
  revert c. induction ts as [| u ts IH]; intros c; simpl; intros Hp; [exact Hp |].
  apply IH. simpl. apply settle_lookup_settled. exact Hp.
Qed.

Lemma fire_promise_timeout (ts : list Timer) (c : Client) (t0 : Timer) :
  promises c !! timer_promise t0 = None ->
  In t0 ts ->
  (forall u, In u ts -> timer_promise u = timer_promise t0 -> u = t0) ->
  promises (fire ts c) !! timer_promise t0
  = Some (Rejected (TimeoutError (timer_type t0))).
Proof.
  revert c. induction ts as [| u ts IH]; intros c Hp Hin Huniq; simpl; [easy |].
  destruct (decide (timer_promise u = timer_promise t0)) as [Heq | Hne].
  - assert (u = t0) as -> by (apply Huniq; [now left | exact Heq]).
    apply fire_promise_settled. simpl. apply settle_lookup_fresh. exact Hp.
  - destruct Hin as [-> | Hin]; [congruence |].
    apply IH.
    + simpl. rewrite settle_lookup_other by exact Hne. exact Hp.
    + exact Hin.
    + intros v Hv. apply Huniq. now right.
Qed.

Lemma fire_promise_some (ts : list Timer) (c : Client) (p : nat) (s : settlement) :
  promises (fire ts c) !! p = Some s ->
  In p (List.map timer_promise ts) \/ promises c !! p = Some s.
Proof.
  revert c. induction ts as [| u ts IH]; intros c; simpl; [now right |].
  intros H. destruct (IH _ H) as [Hin | Hs]; [left; now right |].
  simpl in Hs. apply settle_lookup_some in Hs as [-> | Hs]; [left; now left | now right].
Qed.

Lemma dueBy_in (t : Z) (c : Client) (u : Timer) :
  In u (dueBy t c) <-> In u (timers c) /\ timer_due u <= t.
Proof.
  unfold dueBy. rewrite by_due_in, List.filter_In, Z.leb_le. reflexivity.
Qed.

Lemma advance_fire (t : Z) (c : Client) :
  pending (advance t c) = pending (fire (dueBy t c) c) /\
  timers (advance t c) = timers (fire (dueBy t c) c) /\
  promises (advance t c) = promises (fire (dueBy t c) c) /\
  nextTimerId (advance t c) = nextTimerId c /\
  nextPromise (advance t c) = nextPromise c.
Proof.
  unfold advance. fold (dueBy t c). fold (fire (dueBy t c) c). simpl.
  destruct (fire_fields (dueBy t c) c) as (-> & -> & _). easy.
Qed.

(** *** A call that is waiting for its response *)

Lemma call_armed (rid : jsstring) (ty : WorkerRequestType) (payload : jsval)
    (timeoutMs : option Z) (cb : option nat) (c : Client) :
  wf c ->
  (forall u, In u (timers c) -> timer_requestId u <> rid) ->
  armed rid cb
    {| timer_id := nextTimerId c;
       timer_due := now c + timerDelay (default 60000 timeoutMs);
       timer_requestId := rid; timer_type := ty; timer_promise := nextPromise c |}
    (call rid ty payload timeoutMs cb c).
Proof.
  intros [Hts Hps Hpr] Hfresh. split; simpl.
  - reflexivity.
  - apply lookup_insert_eq.
  - apply in_or_app. right. now left.
  - destruct (promises c !! nextPromise c) as [s |] eqn:Hs; [| reflexivity].
    apply Hpr in Hs. lia.
  - intros rid' e Hne He. rewrite lookup_insert_ne in He by congruence.
    apply Hps in He. lia.
  - intros u Hu Heq. apply in_app_or in Hu as [Hu | [<- | []]]; [| reflexivity].
    exfalso. pose proof (Hts u Hu) as [? ?]. pose proof (Hfresh u Hu).
    destruct Heq as [? | [? | ?]]; [lia | lia | contradiction].
  - lia.
Qed.

Lemma onMessage_armed (rid : jsstring) (cb : option nat) (t0 : Timer)
    (data : jsval) (c : Client) :
  armed rid cb t0 c -> isResponseFor rid data = false ->
  armed rid cb t0 (onMessage data c).
Proof.
  intros Ha Hquiet. unfold onMessage.
  destruct (negb (isWorkerMessage data)); [exact Ha |].
  unfold isResponseFor in Hquiet.
  destruct (get "type" data) as [| | | | ty | |]; try exact Ha.
  destruct (get "requestId" data) as [| | | | rid' | |]; try exact Ha.
  destruct (pending c !! rid') as [entry |] eqn:Hentry; [| exact Ha].
  destruct (str_eqb ty (js "progress")).
  { destruct (entry_onProgress entry); [| exact Ha].
    destruct Ha. split; assumption. }
  destruct (str_eqb ty (js "response")); [| exact Ha].
  simpl in Hquiet. apply bool_decide_eq_false in Hquiet.
  destruct Ha as [Hrid He Ht Hu Hes Hts Hids].
  destruct (Hes rid' entry Hquiet Hentry) as [Htid Hp].
  split; simpl.
  - exact Hrid.
  - rewrite lookup_delete_ne by exact Hquiet. exact He.
  - destruct (entry_timeoutId entry =? 0); [exact Ht |].
    apply clearTimeout_in. split; [exact Ht | congruence].
  - rewrite settle_lookup_other by exact Hp. exact Hu.
  - intros rid'' e Hne Hlook.
    apply (Hes rid'' e Hne).
    destruct (decide (rid' = rid'')) as [-> | Hne'].
    + rewrite lookup_delete_eq in Hlook. discriminate.
    + rewrite lookup_delete_ne in Hlook by exact Hne'. exact Hlook.
  - intros u Hin. apply Hts.
    destruct (entry_timeoutId entry =? 0); [exact Hin |].
    apply clearTimeout_in in Hin. tauto.
  - exact Hids.
Qed.

Lemma advance_armed (rid : jsstring) (cb : option nat) (t0 : Timer)
    (t : Z) (c : Client) :
  armed rid cb t0 c -> t < timer_due t0 -> armed rid cb t0 (advance t c).
Proof.
  intros [Hrid He Ht Hu Hes Hts Hids] Hlt.
  destruct (advance_fire t c) as (Hp & Htm & Hpr & Hnt & Hnp).
  assert (Hother : forall u, In u (dueBy t c) ->
            timer_id u <> timer_id t0 /\ timer_promise u <> timer_promise t0 /\
            timer_requestId u <> rid).
  { intros u Hin. apply dueBy_in in Hin as [Hin Hdue].
    assert (Hne : u <> t0) by (intros ->; lia).
    repeat split; intros Heq; apply Hne; apply Hts; auto. }
  assert (Hnotin : forall (A : Type) (f : Timer -> A) (x : A),
            (forall u, In u (dueBy t c) -> f u <> x) ->
            ~ In x (List.map f (dueBy t c))).
  { intros A f x Hf Hin. apply in_map_iff in Hin as (u & Heq & Hin).
    exact (Hf u Hin Heq). }
  split.
  - exact Hrid.
  - rewrite Hp, fire_pending_other; [exact He |].
    apply Hnotin. intros u Hin. apply Hother. exact Hin.
  - rewrite Htm. apply fire_timers. split; [exact Ht |].
    apply Hnotin. intros u Hin. apply Hother. exact Hin.
  - rewrite Hpr, fire_promise_other; [exact Hu |].
    apply Hnotin. intros u Hin. apply Hother. exact Hin.
  - intros rid' e Hne Hlook. rewrite Hp in Hlook.
    apply fire_pending_some in Hlook. eapply Hes; eassumption.
  - intros u Hin. rewrite Htm in Hin. apply fire_timers in Hin as [Hin _].
    apply Hts. exact Hin.
  - rewrite Hnt, Hnp. exact Hids.
Qed.

Lemma call_other_armed (rid : jsstring) (cb : option nat) (t0 : Timer) (c : Client)
    (rid' : jsstring) (ty : WorkerRequestType) (payload : jsval)
    (timeoutMs : option Z) (cb' : option nat) :
  armed rid cb t0 c -> rid' <> rid ->
  armed rid cb t0 (call rid' ty payload timeoutMs cb' c).
Proof.
  intros [Hrid He Ht Hu Hes Hts Hids] Hne. split; simpl.
  - exact Hrid.
  - rewrite lookup_insert_ne by exact Hne. exact He.
  - apply in_or_app. now left.
  - exact Hu.
  - intros rid'' e Hne' Hlook.
    destruct (decide (rid' = rid'')) as [-> | Hne''].
    + rewrite lookup_insert_eq in Hlook. injection Hlook as <-. simpl. lia.
    + rewrite lookup_insert_ne in Hlook by exact Hne''. eapply Hes; eassumption.
  - intros u Hin Heq. apply in_app_or in Hin as [Hin | [<- | []]].
    + apply Hts; assumption.
    + simpl in Heq. exfalso. destruct Heq as [? | [? | ?]]; [lia | lia | contradiction].
  - lia.
Qed.

Lemma step_armed (rid : jsstring) (cb : option nat) (t0 : Timer) (c : Client) (e : event) :
  armed rid cb t0 c -> quiet rid (timer_due t0) e -> armed rid cb t0 (step c e).
Proof.
  intros Ha Hq. destruct e as [rid' ty payload tmo cb' | data | t |]; simpl in *.
  - apply call_other_armed; assumption.
  - destruct (listening c); [apply onMessage_armed; assumption | exact Ha].
  - apply advance_armed; assumption.
  - destruct Hq.
Qed.

Lemma run_armed (rid : jsstring) (cb : option nat) (t0 : Timer) (es : list event)
    (c : Client) :
  armed rid cb t0 c -> List.Forall (quiet rid (timer_due t0)) es ->
  armed rid cb t0 (run es c).
Proof.
  revert c. induction es as [| e es IH]; intros c Ha Hq; simpl; [exact Ha |].
  apply List.Forall_cons_iff in Hq as [He Hes].
  apply IH; [apply step_armed; assumption | exact Hes].
Qed.

(** When the clock reaches the due time of the timer, the call is rejected
    and leaves [pending]. *)
Lemma advance_due (rid : jsstring) (cb : option nat) (t0 : Timer) (c : Client) :
  armed rid cb t0 c ->
  promises (advance (timer_due t0) c) !! timer_promise t0
    = Some (Rejected (TimeoutError (timer_type t0))) /\
  pending (advance (timer_due t0) c) !! rid = None.
Proof.
  intros [Hrid He Ht Hu Hes Hts Hids].
  destruct (advance_fire (timer_due t0) c) as (Hp & _ & Hpr & _).
  assert (Hin : In t0 (dueBy (timer_due t0) c)) by (apply dueBy_in; split; [exact Ht | lia]).
  split.
  - rewrite Hpr. apply fire_promise_timeout; [exact Hu | exact Hin |].
    intros u Hu' Heq. apply dueBy_in in Hu' as [Hu' _]. apply Hts; auto.
  - rewrite Hp. apply fire_pending_fired.
    apply in_map_iff. exists t0. split; [exact Hrid | exact Hin].
Qed.

(** A response for a call that is not pending changes nothing. *)
Lemma onMessage_not_pending (rid : jsstring) (data : jsval) (c : Client) :
  pending c !! rid = None -> isResponseFor rid data = true ->
  step c (Message data) = c.
Proof.
  intros Hnone Hresp. simpl. destruct (listening c); [| reflexivity].
  unfold onMessage. destruct (negb (isWorkerMessage data)); [reflexivity |].
  unfold isResponseFor in Hresp.
  destruct (get "type" data) as [| | | | ty | |]; try reflexivity.
  destruct (get "requestId" data) as [| | | | rid' | |]; try reflexivity.
  apply andb_true_iff in Hresp as [_ Hrid]. apply bool_decide_eq_true in Hrid.
  subst rid'. rewrite Hnone. reflexivity.
Qed.

End RpcClientFacts.

(** ** The worker RPC client: the claims *)

Section RpcClientClaims.
Import JS JSValue RpcClient.

(** *** The identifiers in use stay below the next ones *)

Lemma wf_create (t : Z) : wf (createWorkerRpcClient t).
Proof.
  split; simpl.
  - intros u [].
  - intros rid e H. rewrite lookup_empty in H. discriminate.
  - intros p s H. rewrite lookup_empty in H. discriminate.
Qed.

Lemma wf_call (rid : jsstring) (ty : WorkerRequestType) (payload : jsval)
    (timeoutMs : option Z) (cb : option nat) (c : Client) :
  wf c -> wf (call rid ty payload timeoutMs cb c).
Proof.
  intros [Hts Hps Hpr]. split; simpl.
  - intros u Hu. apply in_app_or in Hu as [Hu | [<- | []]]; simpl.
    + apply Hts in Hu. lia.
    + lia.
  - intros rid' e He. destruct (decide (rid = rid')) as [-> | Hne].
    + rewrite lookup_insert_eq in He. injection He as <-. simpl. lia.
    + rewrite lookup_insert_ne in He by exact Hne. apply Hps in He. lia.
  - intros p s Hp. apply Hpr in Hp. lia.
Qed.

Lemma wf_onMessage (data : jsval) (c : Client) : wf c -> wf (onMessage data c).
Proof.
  intros Hwf. unfold onMessage.
  destruct (negb (isWorkerMessage data)); [exact Hwf |].
  destruct (get "type" data) as [| | | | ty | |]; try exact Hwf.
  destruct (get "requestId" data) as [| | | | rid | |]; try exact Hwf.
  destruct (pending c !! rid) as [entry |] eqn:Hentry; [| exact Hwf].
  destruct (str_eqb ty (js "progress")).
  { destruct (entry_onProgress entry); [| exact Hwf].
    destruct Hwf. split; assumption. }
  destruct (str_eqb ty (js "response")); [| exact Hwf].
  destruct Hwf as [Hts Hps Hpr]. split; simpl.
  - intros u Hu. apply Hts.
    destruct (entry_timeoutId entry =? 0); [exact Hu |].
    apply clearTimeout_in in Hu. tauto.
  - intros rid' e He. apply (Hps rid').
    destruct (decide (rid = rid')) as [-> | Hne].
    + rewrite lookup_delete_eq in He. discriminate.
    + rewrite lookup_delete_ne in He by exact Hne. exact He.
  - intros p s Hp. apply settle_lookup_some in Hp as [-> | Hp].
    + apply (Hps rid entry Hentry).
    + eapply Hpr. exact Hp.
Qed.

Lemma wf_advance (t : Z) (c : Client) : wf c -> wf (advance t c).
Proof.
  intros [Hts Hps Hpr].
  destruct (advance_fire t c) as (Hp & Htm & Hprm & Hnt & Hnp).
  split; rewrite ?Hnt, ?Hnp.
  - intros u Hu. rewrite Htm in Hu. apply fire_timers in Hu as [Hu _]. now apply Hts.
  - intros rid e He. rewrite Hp in He. apply fire_pending_some in He.
    eapply Hps. exact He.
  - intros p s Hs. rewrite Hprm in Hs. apply fire_promise_some in Hs as [Hin | Hs].
    + apply in_map_iff in Hin as (u & <- & Hu). apply dueBy_in in Hu as [Hu _].
      now apply Hts.
    + eapply Hpr. exact Hs.
Qed.

Lemma wf_dispose (c : Client) : wf c -> wf (dispose c).
Proof.
  intros [Hts Hps Hpr]. split; simpl.
  - intros u.
    assert (H : forall (es : list (jsstring * Entry)) (ts : list Timer),
              In u (fold_left (fun ts e =>
                      if entry_timeoutId (snd e) =? 0 then ts
                      else clearTimeout (entry_timeoutId (snd e)) ts) es ts) ->
              In u ts).
    { induction es as [| e es IH]; intros ts; simpl; [easy |].
      intros H. apply IH in H. destruct (entry_timeoutId (snd e) =? 0); [exact H |].
      apply clearTimeout_in in H. tauto. }
    intros Hu. apply H in Hu. now apply Hts.
  - intros rid e He. rewrite lookup_empty in He. discriminate.
  - intros p s.
    assert (H : forall (es : list (jsstring * Entry)) (ps : gmap nat settlement),
              fold_left (fun ps e =>
                settle (entry_promise (snd e)) (Rejected DisposedError) ps) es ps
                !! p = Some s ->
              In p (List.map (fun e => entry_promise (snd e)) es) \/ ps !! p = Some s).
    { induction es as [| e es IH]; intros ps; simpl; [now right |].
      intros H. apply IH in H as [H | H]; [left; now right |].
      apply settle_lookup_some in H as [-> | H]; [left; now left | now right]. }
    intros Hs. apply H in Hs as [Hin | Hs].
    + apply in_map_iff in Hin as ([rid e] & <- & Hin). simpl.
      apply list_elem_of_In, elem_of_map_to_list in Hin.
      apply (Hps rid e Hin).
    + eapply Hpr. exact Hs.
Qed.

Lemma wf_run (es : list event) (c : Client) : wf c -> wf (run es c).
Proof.
  revert c. induction es as [| e es IH]; intros c Hwf; simpl; [exact Hwf |].
  apply IH. destruct e; simpl.
  - apply wf_call. exact Hwf.
  - destruct (listening c); [apply wf_onMessage |]; exact Hwf.
  - apply wf_advance. exact Hwf.
  - apply wf_dispose. exact Hwf.
Qed.

(** *** Timers belong to the calls that armed them *)

Lemma onMessage_timers (data : jsval) (c : Client) (u : Timer) :
  In u (timers (onMessage data c)) -> In u (timers c).
Proof.
  unfold onMessage.
  destruct (negb (isWorkerMessage data)); [easy |].
  destruct (get "type" data) as [| | | | ty | |]; try easy.
  destruct (get "requestId" data) as [| | | | rid | |]; try easy.
  destruct (pending c !! rid) as [entry |]; [| easy].
  destruct (str_eqb ty (js "progress")).
  { destruct (entry_onProgress entry); easy. }
  destruct (str_eqb ty (js "response")); [| easy].
  simpl. destruct (entry_timeoutId entry =? 0); [easy |].
  intros Hu. apply clearTimeout_in in Hu. tauto.
Qed.

Lemma dispose_timers (c : Client) (u : Timer) :
  In u (timers (dispose c)) -> In u (timers c).
Proof.
  simpl. generalize (timers c).
  induction (map_to_list (pending c)) as [| e es IH]; intros ts; simpl; [easy |].
  intros H. apply IH in H. destruct (entry_timeoutId (snd e) =? 0); [exact H |].
  apply clearTimeout_in in H. tauto.
Qed.

Lemma run_timers_other (rid : jsstring) (es : list event) (c : Client) :
  (forall u, In u (timers c) -> timer_requestId u <> rid) ->
  List.Forall (otherCall rid) es ->
  forall u, In u (timers (run es c)) -> timer_requestId u <> rid.
Proof.
  revert c. induction es as [| e es IH]; intros c Hc Hes; simpl; [exact Hc |].
  apply List.Forall_cons_iff in Hes as [He Hes].
  apply IH; [| exact Hes].
  intros u Hu. destruct e as [rid' ty payload tmo cb | data | t |].
  - simpl in Hu, He. apply in_app_or in Hu as [Hu | [<- | []]]; [now apply Hc | exact He].
  - simpl in Hu. destruct (listening c); [apply onMessage_timers in Hu |]; now apply Hc.
  - change (In u (timers (advance t c))) in Hu.
    destruct (advance_fire t c) as (_ & Htm & _). rewrite Htm in Hu.
    apply fire_timers in Hu as [Hu _]. now apply Hc.
  - change (In u (timers (dispose c))) in Hu.
    apply dispose_timers in Hu. now apply Hc.
Qed.

(** C5, as the claim states it, fails for a timeout of 2^31 milliseconds
    or more, which [setTimeout] takes as a 32-bit integer.  With a timeout
    of 2147483648 ms the timer is due at the call time: one millisecond
    after the call, the call has been rejected with the timeout error and
    has left the pending set, and the response of the worker is dropped. *)
Lemma call_long_timeout_fires_at_once :
  let c1 := call (js "a") embed VUndefined (Some 2147483648) None
              (createWorkerRpcClient 0) in
  let c2 := step c1 (Advance 1) in
  List.map timer_due (timers c1) = [0] /\
  promises c2 !! 0%nat = Some (Rejected (TimeoutError embed)) /\
  pending c2 !! js "a" = None /\
  step c2 (Message (workerMessage "response" "a" [(js "ok", VBool true)])) = c2.
Proof. vm_compute. repeat split; reflexivity. Qed.

(** C5, amended.  Take a client in any state reached from its creation by
    events among which there is no call under the identifier [rid].  A
    call under [rid] is made; [T] is the delay of its timer: the timeout
    (60000 when none is given) when that is from 0 to 2^31 - 1, and in
    general the timeout as a 32-bit integer, or 0 when this is negative.
    Then anything happens that is not a response for the call, a call
    under the same identifier or a disposal, while the clock stays before
    the call time plus [T].  The call is then still pending and its
    promise unsettled; when the clock reaches the call time plus [T] the
    promise is rejected with the timeout error and the call leaves the
    pending set; a response for the call that arrives after that leaves
    the client as it is. *)
Theorem call_times_out (created : Z) (before : list event)
    (rid : jsstring) (ty : WorkerRequestType) (payload : jsval)
    (timeoutMs : option Z) (cb : option nat) (es : list event) :
  let c0 := run before (createWorkerRpcClient created) in
  let T := timerDelay (default 60000 timeoutMs) in
  let promise := nextPromise c0 in
  List.Forall (otherCall rid) before ->
  List.Forall (quiet rid (now c0 + T)) es ->
  let c2 := run es (call rid ty payload timeoutMs cb c0) in
  let c3 := step c2 (Advance (now c0 + T)) in
  (0 <= default 60000 timeoutMs < 2 ^ 31 -> T = default 60000 timeoutMs) /\
  (is_Some (pending c2 !! rid) /\ promises c2 !! promise = None) /\
  promises c3 !! promise = Some (Rejected (TimeoutError ty)) /\
  pending c3 !! rid = None /\
  (forall data, isResponseFor rid data = true -> step c3 (Message data) = c3).
Proof.
  intros c0 T promise Hbefore Hquiet c2 c3.
  split; [apply timerDelay_small |].
  assert (Hwf : wf c0) by (apply wf_run, wf_create).
  assert (Hfresh : forall u, In u (timers c0) -> timer_requestId u <> rid).
  { apply run_timers_other; [intros u [] | exact Hbefore]. }
  pose proof (call_armed rid ty payload timeoutMs cb c0 Hwf Hfresh) as Ha.
  set (t0 := {| timer_id := nextTimerId c0;
                timer_due := now c0 + timerDelay (default 60000 timeoutMs);
                timer_requestId := rid; timer_type := ty;
                timer_promise := nextPromise c0 |}) in Ha.
  pose proof (run_armed rid cb t0 es _ Ha Hquiet) as Ha2. fold c2 in Ha2.
  destruct (advance_due rid cb t0 c2 Ha2) as [Hrej Hgone].
  split; [| split; [| split]].
  - split.
    + rewrite (armed_entry _ _ _ _ Ha2). eauto.
    + exact (armed_unsettled _ _ _ _ Ha2).
  - exact Hrej.
  - exact Hgone.
  - intros data Hresp. apply (onMessage_not_pending rid); assumption.
Qed.

Lemma call_times_out_witness :
  let c3 := run (earlierEvents ++
                 Call (js "a") embed VUndefined None (Some 7%nat)
                   :: quietEvents ++ [Advance 60005])
              (createWorkerRpcClient 0) in
  promises c3 !! 1%nat = Some (Rejected (TimeoutError embed)) /\
  pending c3 !! js "a" = None /\
  step c3 (Message (workerMessage "response" "a" [(js "ok", VBool true)])) = c3.
Proof.
  destruct (call_times_out 0 earlierEvents (js "a") embed VUndefined
              None (Some 7%nat) quietEvents)
    as (_ & _ & Hrej & Hgone & Hlate).
  - repeat constructor. discriminate.
  - repeat constructor; simpl; try reflexivity. discriminate.
  - intros c3.
    assert (Hc3 : c3 = step (run quietEvents
                               (call (js "a") embed VUndefined None (Some 7%nat)
                                  (run earlierEvents (createWorkerRpcClient 0))))
                         (Advance 60005)).
    { subst c3. unfold run. rewrite fold_left_app. cbn [fold_left].
      rewrite fold_left_app. reflexivity. }
    rewrite Hc3. split; [exact Hrej |]. split; [exact Hgone |].
    apply Hlate. reflexivity.
Defined.

End RpcClientClaims.


(** ** Embedding ingestion: other documents, repetition, re-ingestion *)

Section DocumentRowsFacts.
Import JS DbUtils Embeddings.

Lemma row_key_document (r v : EmbeddingRow) :
  row_key r = row_key v -> col_documentId r = col_documentId v.
Proof. unfold row_key. congruence. Qed.

Lemma upsert_row_rowsOf (t : Table) (v : EmbeddingRow) (doc : jsstring) :
  col_documentId v <> doc -> rowsOf doc (upsert_row t v) = rowsOf doc t.
Proof.
  intros Hv. unfold upsert_row.
  destruct (existsb _ t).
  - induction t as [| r t IH]; [reflexivity |].
    cbn [List.map rowsOf List.filter].
    destruct (bool_decide (row_key r = row_key v)) eqn:Hk.
    + apply bool_decide_eq_true, row_key_document in Hk.
      cbn [conflict_update col_documentId].
      rewrite !bool_decide_eq_false_2 by congruence. exact IH.
    + fold (rowsOf doc t). unfold rowsOf in IH. rewrite IH. reflexivity.
  - unfold rowsOf. rewrite List.filter_app. cbn [List.filter].
    rewrite bool_decide_eq_false_2 by exact Hv. apply app_nil_r.
Qed.

Lemma upsert_rows_rowsOf (values : list EmbeddingRow) (doc : jsstring) :
  List.Forall (fun v => col_documentId v <> doc) values ->
  forall t, rowsOf doc (fold_left upsert_row values t) = rowsOf doc t.
Proof.
  induction 1 as [| v values Hv _ IH]; intros t; [reflexivity |].
  cbn [fold_left]. rewrite IH. apply upsert_row_rowsOf, Hv.
Qed.

Lemma upsert_rows_unchanged (values : list EmbeddingRow) (t : Table) :
  (forall v, In v values -> upsert_row t v = t) ->
  fold_left upsert_row values t = t.
Proof.
  induction values as [| v values IH]; intros H; [reflexivity |].
  cbn [fold_left]. rewrite (H v) by (left; reflexivity).
  apply IH. intros u Hu. apply H. right. exact Hu.
Qed.

Lemma upsert_rows_fix (values : list EmbeddingRow) (t : Table) :
  List.NoDup (List.map row_key values) ->
  fold_left upsert_row values (fold_left upsert_row values t)
  = fold_left upsert_row values t.
Proof.
  intros Hnd. apply upsert_rows_unchanged. intros v Hv.
  rewrite upsert_row_present
    by (apply List.in_map, upsert_rows_written; assumption).
  rewrite <- (List.map_id (fold_left upsert_row values t)) at 2.
  apply List.map_ext_in. intros r Hr.
  destruct (bool_decide (row_key r = row_key v)) eqn:Hk; [| reflexivity].
  apply bool_decide_eq_true in Hk. symmetry.
  exact (upsert_rows_at_key values t v r Hnd Hv Hr Hk).
Qed.

Lemma upsert_rows_fresh (values : list EmbeddingRow) :
  List.NoDup (List.map row_key values) ->
  forall t, (forall v, In v values -> ~ In (row_key v) (List.map row_key t)) ->
  fold_left upsert_row values t = t ++ values.
Proof.
  induction values as [| v values IH]; intros Hnd t Hfresh.
  - symmetry. apply app_nil_r.
  - cbn [List.map] in Hnd. apply List.NoDup_cons_iff in Hnd as [Hv Hnd].
    cbn [fold_left].
    rewrite upsert_row_absent by (apply Hfresh; left; reflexivity).
    rewrite (IH Hnd).
    + rewrite <- app_assoc. reflexivity.
    + intros u Hu. rewrite List.map_app, List.in_app_iff. cbn [List.map In].
      intros [Hin | [Heq | []]].
      * exact (Hfresh u (or_intror Hu) Hin).
      * apply Hv. rewrite Heq. apply List.in_map, Hu.
Qed.

Lemma rowsOf_deleted (doc : jsstring) (t : Table) :
  rowsOf doc (deleteDocumentEmbeddings doc t) = [].
Proof.
  unfold rowsOf, deleteDocumentEmbeddings.
  induction t as [| r t IH]; [reflexivity |]. cbn [List.filter].
  destruct (bool_decide (col_documentId r = doc)) eqn:Hd; cbn [negb List.filter].
  - exact IH.
  - rewrite Hd. exact IH.
Qed.

Lemma rowsOf_deleted_other (doc doc' : jsstring) (t : Table) :
  doc' <> doc -> rowsOf doc' (deleteDocumentEmbeddings doc t) = rowsOf doc' t.
Proof.
  intros Hne. unfold rowsOf, deleteDocumentEmbeddings.
  induction t as [| r t IH]; [reflexivity |]. cbn [List.filter].
  destruct (bool_decide (col_documentId r = doc)) eqn:Hd; cbn [negb List.filter].
  - apply bool_decide_eq_true in Hd.
    rewrite (bool_decide_eq_false_2 (col_documentId r = doc')) by congruence.
    exact IH.
  - rewrite IH. reflexivity.
Qed.

Lemma deleted_keys (doc : jsstring) (t : Table) (r : EmbeddingRow) :
  col_documentId r = doc ->
  ~ In (row_key r) (List.map row_key (deleteDocumentEmbeddings doc t)).
Proof.
  intros Hr Hin. apply List.in_map_iff in Hin as (r' & Hk & Hin).
  apply List.filter_In in Hin as [_ Hd].
  apply negb_true_iff, bool_decide_eq_false in Hd.
  apply Hd. rewrite <- Hr. apply row_key_document. exact Hk.
Qed.

Lemma rowsOf_all (doc : jsstring) (t : Table) :
  List.Forall (fun r => col_documentId r = doc) t -> rowsOf doc t = t.
Proof.
  induction 1 as [| r t Hr _ IH]; [reflexivity |].
  unfold rowsOf. cbn [List.filter].
  rewrite bool_decide_eq_true_2 by exact Hr. f_equal. exact IH.
Qed.

Lemma rowsOf_app (doc : jsstring) (a b : Table) :
  rowsOf doc (a ++ b) = rowsOf doc a ++ rowsOf doc b.
Proof. apply List.filter_app. Qed.

End DocumentRowsFacts.

Section DocumentRowsProperties.
Import JS DbUtils Embeddings.

(** X1.  [upsertEmbeddings] touches the rows of its own document only:
    whether the statement is accepted or rejected, the rows of every other
    document are afterwards what they were, in the same order. *)
Theorem upsertEmbeddings_other_documents
    (vector_in : list number -> option (list number)) (D : nat)
    (input : UpsertEmbeddingsInput) (t : Table) (doc : jsstring) :
  doc <> documentId input ->
  rowsOf doc (snd (upsertEmbeddings vector_in D input t)) = rowsOf doc t.
Proof.
  intros Hne. unfold upsertEmbeddings, insert_onConflictDoUpdate.
  destruct (List.map (toValue (documentId input)) (items input))
    as [| v values] eqn:Hvalues; [reflexivity |].
  destruct (_ && _); [| reflexivity].
  destruct (mapM (stored vector_in) (v :: values)) as [rows |] eqn:Hrows;
    [| reflexivity].
  cbn [snd]. apply upsert_rows_rowsOf.
  apply List.Forall_forall. intros r Hr.
  destruct (stored_from _ _ _ r Hrows Hr) as (v0 & Hv0 & Hs).
  rewrite <- Hvalues in Hv0. apply List.in_map_iff in Hv0 as (it & <- & _).
  destruct (stored_columns _ _ _ Hs) as (Hk & _).
  apply row_key_document in Hk. rewrite Hk. cbn [toValue col_documentId].
  congruence.
Qed.

Lemma upsertEmbeddings_other_documents_witness :
  rowsOf (js "other")
    (snd (upsertEmbeddings pgvector_in 2 (sampleInput [0%Q; 1%Q] None None)
            [otherRow; clsRow]))
  = [otherRow].
Proof.
  rewrite (upsertEmbeddings_other_documents pgvector_in 2
             (sampleInput [0%Q; 1%Q] None None) [otherRow; clsRow] (js "other")).
  - vm_compute. reflexivity.
  - vm_compute. discriminate.
Defined.

(** X2.  Repeating an accepted call changes nothing: when
    [upsertEmbeddings] has returned [n] and left the table [t'], the same
    call on [t'] returns [n] again and leaves [t'] as it is. *)
Theorem upsertEmbeddings_repeat
    (vector_in : list number -> option (list number)) (D : nat)
    (input : UpsertEmbeddingsInput) (t t' : Table) (n : nat) :
  upsertEmbeddings vector_in D input t = (Ok n, t') ->
  upsertEmbeddings vector_in D input t' = (Ok n, t').
Proof.
  intros H.
  destruct (upsertEmbeddings_returns vector_in D input t t' n H)
    as (rows & Hrows & _ & Hnd & Ht').
  unfold upsertEmbeddings in *.
  remember (List.map (toValue (documentId input)) (items input)) as values eqn:Hvalues.
  destruct (insert_onConflictDoUpdate vector_in D values t) as [t1 | e] eqn:H1;
    [| discriminate].
  injection H as <- <-.
  assert (insert_onConflictDoUpdate vector_in D values t1 = Ok t1) as ->;
    [| reflexivity].
  unfold insert_onConflictDoUpdate in *.
  destruct values as [| v values]; [discriminate |].
  destruct (_ && _); [| discriminate].
  rewrite Hrows in *. f_equal. rewrite Ht'. exact (upsert_rows_fix rows t Hnd).
Qed.

Lemma upsertEmbeddings_repeat_witness :
  let t' := snd (upsertEmbeddings pgvector_in 2 twoChunks [otherRow; clsRow]) in
  upsertEmbeddings pgvector_in 2 twoChunks t' = (Ok 2%nat, t').
Proof.
  cbv zeta. apply (upsertEmbeddings_repeat pgvector_in 2 twoChunks [otherRow; clsRow]).
  vm_compute. reflexivity.
Defined.

(** X3.  Re-ingesting a document: after [deleteDocumentEmbeddings] no row
    of the document is left and the rows of the other documents are
    untouched; an accepted [upsertEmbeddings] for the document then
    appends one row per item, so that the rows of the document are exactly
    the values of the call as the table takes them (the vector as the
    column holds it), in the order of the items. *)
Theorem reingest_replaces_document
    (vector_in : list number -> option (list number)) (D : nat)
    (input : UpsertEmbeddingsInput) (t : Table) :
  items input <> [] -> accepted vector_in D (items input) ->
  let doc := documentId input in
  let values := List.map (toValue doc) (items input) in
  let t0 := deleteDocumentEmbeddings doc t in
  exists rows,
    mapM (stored vector_in) values = Some rows /\
    rowsOf doc t0 = [] /\
    (forall doc', doc' <> doc -> rowsOf doc' t0 = rowsOf doc' t) /\
    upsertEmbeddings vector_in D input t0 = (Ok (length (items input)), t0 ++ rows) /\
    rowsOf doc (t0 ++ rows) = rows.
Proof.
  intros Hne Hacc. cbv zeta.
  set (doc := documentId input). set (t0 := deleteDocumentEmbeddings doc t).
  destruct (upsertEmbeddings_accepted vector_in D input t0 Hne Hacc)
    as (rows & Hrows & Hrun).
  destruct (accepted_values vector_in D doc (items input) Hacc) as (_ & Hnd & _).
  fold doc in Hrows. rewrite <- (stored_keys _ _ _ Hrows) in Hnd.
  assert (forall r, In r rows -> col_documentId r = doc) as Hdoc.
  { intros r Hr. destruct (stored_from _ _ _ r Hrows Hr) as (v & Hv & Hs).
    destruct (stored_columns _ _ _ Hs) as (Hk & _).
    apply row_key_document in Hk. rewrite Hk.
    apply List.in_map_iff in Hv as (it & <- & _). reflexivity. }
  exists rows. split; [exact Hrows |].
  split; [apply rowsOf_deleted |].
  split; [intros doc' Hd; apply rowsOf_deleted_other, Hd |].
  split.
  - rewrite Hrun. f_equal.
    apply upsert_rows_fresh; [exact Hnd |].
    intros r Hr. apply deleted_keys. apply Hdoc, Hr.
  - rewrite rowsOf_app. unfold t0. rewrite rowsOf_deleted. apply rowsOf_all.
    apply List.Forall_forall. exact Hdoc.
Qed.

Lemma reingest_replaces_document_witness :
  upsertEmbeddings pgvector_in 2 twoChunks
    (deleteDocumentEmbeddings (js "doc") [otherRow; clsRow])
  = (Ok 2%nat, otherRow :: List.map (toValue (js "doc")) (items twoChunks)).
Proof.
  destruct (reingest_replaces_document pgvector_in 2 twoChunks [otherRow; clsRow])
    as (rows & Hrows & _ & _ & Hrun & _).
  - discriminate.
  - split; [| split].
    + repeat constructor.
    + repeat constructor; vm_compute; eauto.
    + vm_compute. repeat constructor; cbn; intuition discriminate.
  - vm_compute in Hrows. injection Hrows as <-. exact Hrun.
Defined.

End DocumentRowsProperties.

(** ** Content hash: the printed form *)

Section HashFacts.
Import JS DbUtils.

Lemma hexDigit_hex (d : Z) : 0 <= d < 16 -> isLowerHex (hexDigit d) = true.
Proof.
  intros Hd. unfold isLowerHex, hexDigit.
  destruct (Z.ltb_spec d 10).
  - apply orb_true_iff. left. apply andb_true_iff. split; apply N.leb_le; lia.
  - apply orb_true_iff. right. apply andb_true_iff. split; apply N.leb_le; lia.
Qed.

Lemma hexValue_hexDigit (d : Z) : 0 <= d < 16 -> hexValue (hexDigit d) = d.
Proof.
  intros Hd. unfold hexValue, hexDigit.
  destruct (Z.ltb_spec d 10).
  - destruct (N.ltb_spec (Z.to_N (48 + d)) 58); lia.
  - destruct (N.ltb_spec (Z.to_N (97 + (d - 10))) 58); lia.
Qed.

Lemma parseHex_from (s : jsstring) (a : Z) :
  fold_left (fun acc c => acc * 16 + hexValue c) s a
  = a * 16 ^ Z.of_nat (length s) + parseHex s.
Proof.
  unfold parseHex. revert a.
  induction s as [| c s IH]; intros a; cbn [fold_left length].
  - rewrite Z.pow_0_r. lia.
  - rewrite (IH (a * 16 + hexValue c)), (IH (0 * 16 + hexValue c)).
    rewrite Nat2Z.inj_succ, Z.pow_succ_r by lia. ring.
Qed.

Lemma parseHex_cons (c : N) (s : jsstring) :
  parseHex (c :: s) = hexValue c * 16 ^ Z.of_nat (length s) + parseHex s.
Proof.
  unfold parseHex at 1. cbn [fold_left]. rewrite parseHex_from. ring.
Qed.

Lemma toString16_from_hex (fuel : nat) :
  forall (n : Z) (acc : jsstring),
  forallb isLowerHex acc = true ->
  forallb isLowerHex (toString16_from fuel n acc) = true.
Proof.
  induction fuel as [| fuel IH]; intros n acc Hacc; cbn [toString16_from]; [exact Hacc |].
  assert (forallb isLowerHex (hexDigit (n mod 16) :: acc) = true) as Hacc'.
  { cbn [forallb]. rewrite Hacc, hexDigit_hex; [reflexivity |].
    apply Z.mod_pos_bound. lia. }
  destruct (n / 16 =? 0); [exact Hacc' | apply IH, Hacc'].
Qed.

Lemma toString16_from_length (fuel : nat) :
  forall (k : nat) (n : Z) (acc : jsstring),
  (1 <= k)%nat -> 0 <= n < 16 ^ Z.of_nat k ->
  (length (toString16_from fuel n acc) <= length acc + k)%nat.
Proof.
  induction fuel as [| fuel IH]; intros k n acc Hk Hn; cbn [toString16_from]; [lia |].
  destruct (Z.eqb_spec (n / 16) 0) as [_ | Hq]; [cbn [length]; lia |].
  destruct k as [| [| k]]; [lia | |].
  - exfalso. apply Hq. apply Z.div_small. change (16 ^ Z.of_nat 1) with 16 in Hn. lia.
  - specialize (IH (S k) (n / 16) (hexDigit (n mod 16) :: acc)).
    cbn [length] in IH. 
    assert (0 <= n / 16 < 16 ^ Z.of_nat (S k)) as Hn'.
    { rewrite (Nat2Z.inj_succ (S k)), Z.pow_succ_r in Hn by lia.
      split; [apply Z.div_pos; lia |].
      apply Z.div_lt_upper_bound; lia. }
    specialize (IH ltac:(lia) Hn'). lia.
Qed.

Lemma toString16_from_value (fuel : nat) :
  forall (n : Z) (acc : jsstring),
  0 <= n < 2 ^ Z.of_nat fuel ->
  parseHex (toString16_from fuel n acc)
  = n * 16 ^ Z.of_nat (length acc) + parseHex acc.
Proof.
  induction fuel as [| fuel IH]; intros n acc Hn; cbn [toString16_from].
  - change (2 ^ Z.of_nat 0) with 1 in Hn. assert (n = 0) as -> by lia. lia.
  - pose proof (Z.mod_pos_bound n 16 ltac:(lia)) as Hm.
    pose proof (Z.div_mod n 16 ltac:(lia)) as Hdm.
    destruct (Z.eqb_spec (n / 16) 0) as [Hq | Hq].
    + rewrite parseHex_cons, hexValue_hexDigit by exact Hm.
      rewrite Hq in Hdm. replace (n mod 16) with n by lia. reflexivity.
    + rewrite IH.
      * rewrite parseHex_cons, hexValue_hexDigit by exact Hm.
        cbn [length]. rewrite Nat2Z.inj_succ, Z.pow_succ_r by lia.
        set (P := 16 ^ Z.of_nat (length acc)).
        rewrite Hdm at 3. ring.
      * rewrite Nat2Z.inj_succ, Z.pow_succ_r in Hn by lia.
        split; [apply Z.div_pos; lia |].
        apply Z.div_lt_upper_bound; lia.
Qed.

Lemma toString16_value (n : Z) : 0 <= n -> parseHex (toString16 n) = n.
Proof.
  intros Hn. unfold toString16. rewrite toString16_from_value.
  - cbn [length]. change (parseHex []) with 0. rewrite Z.pow_0_r. lia.
  - split; [exact Hn |].
    destruct (Z.eq_dec n 0) as [-> | Hz]; [reflexivity |].
    rewrite Nat2Z.inj_succ, Z2Nat.id by apply Z.log2_nonneg.
    apply Z.log2_spec. lia.
Qed.

Lemma parseHex_padStart0 (len : nat) (s : jsstring) :
  parseHex (padStart0 len s) = parseHex s.
Proof.
  unfold padStart0. generalize (len - length s)%nat as k.
  induction k as [| k IH]; [reflexivity |].
  cbn [repeat app]. rewrite parseHex_cons, IH. reflexivity.
Qed.

End HashFacts.

Section HashProperties.
Import JS DbUtils.

(** X4.  [fnv1a32] always returns exactly eight digits of [0-9a-f], and
    they are the base-16 notation of the 32-bit hash taken as an unsigned
    integer: short hashes are padded with zeros, none is cut. *)
Theorem fnv1a32_eight_hex_digits (str : jsstring) :
  length (fnv1a32 str) = 8%nat /\
  forallb isLowerHex (fnv1a32 str) = true /\
  parseHex (fnv1a32 str) = fnv1a32_int str mod 2 ^ 32.
Proof.
  unfold fnv1a32. fold (fnv1a32_int str).
  set (u := toUint32 (fnv1a32_int str)).
  assert (0 <= u < 2 ^ 32) as Hu by (apply Z.mod_pos_bound; lia).
  assert (length (toString16 u) <= 8)%nat as Hlen.
  { unfold toString16.
    apply (toString16_from_length _ 8 u []); [lia |].
    change (16 ^ Z.of_nat 8) with (2 ^ 32). exact Hu. }
  split; [| split].
  - unfold padStart0. rewrite length_app, repeat_length. lia.
  - unfold padStart0. rewrite forallb_app. apply andb_true_iff. split.
    + apply forallb_forall. intros c Hc. apply repeat_spec in Hc. subst c. reflexivity.
    + apply toString16_from_hex. reflexivity.
  - rewrite parseHex_padStart0. apply toString16_value. apply Hu.
Qed.

End HashProperties.

(** ** Semantic search: answers in the order of the query *)

Section OrderedAnswerFacts.
Import JS Regex SemanticSearch.

Lemma sort_descending (l : list SemanticSearchResult) :
  StronglySorted descending l -> sort compareFn l = l.
Proof.
  induction 1 as [| x l Hs IH Hx]; [reflexivity |].
  cbn [sort]. rewrite IH.
  destruct l as [| y l]; [reflexivity |].
  cbn [sort_insert].
  apply List.Forall_inv in Hx.
  apply compareFn_not_positive in Hx. rewrite Hx. reflexivity.
Qed.

Lemma existsb_str_eqb (k : jsstring) (seen : list jsstring) :
  existsb (str_eqb k) seen = true <-> In k seen.
Proof.
  rewrite List.existsb_exists. split.
  - intros (x & Hx & He). apply str_eqb_eq in He. subst x. exact Hx.
  - intros H. exists k. split; [exact H | apply str_eqb_eq; reflexivity].
Qed.

Lemma firstOfEach_in (chunks : list Chunk) :
  forall (seen : list jsstring) (c : Chunk),
  In c (firstOfEach seen chunks) -> In c chunks.
Proof.
  induction chunks as [| x chunks IH]; intros seen c; cbn [firstOfEach]; [easy |].
  destruct (existsb _ seen).
  - intros H. right. exact (IH _ _ H).
  - intros [-> | H]; [left; reflexivity | right; exact (IH _ _ H)].
Qed.

Lemma firstOfEach_sorted (chunks : list Chunk) :
  StronglySorted nearestFirst chunks ->
  forall seen, StronglySorted nearestFirst (firstOfEach seen chunks).
Proof.
  induction 1 as [| x chunks Hs IH Hx]; intros seen; cbn [firstOfEach]; [constructor |].
  destruct (existsb _ seen); [apply IH |].
  constructor; [apply IH |].
  rewrite List.Forall_forall in Hx |- *.
  intros c Hc. apply Hx. exact (firstOfEach_in _ _ _ Hc).
Qed.

Lemma similarity_nearest (a b : Chunk) :
  nearestFirst a b -> (1 - chunk_distance b <= 1 - chunk_distance a)%Q.
Proof.
  unfold nearestFirst. intros H. unfold Qminus.
  apply Qplus_le_r, Qopp_le_compat. exact H.
Qed.

Lemma entries_descending (chunks : list Chunk) :
  StronglySorted nearestFirst chunks ->
  StronglySorted descending (List.map entryOfChunk chunks).
Proof.
  induction 1 as [| x chunks Hs IH Hx]; cbn [List.map]; constructor; [exact IH |].
  rewrite List.Forall_forall in Hx |- *.
  intros e He. apply List.in_map_iff in He as (c & <- & Hc).
  unfold descending. cbn. apply similarity_nearest, Hx, Hc.
Qed.

(** The loop over an answer in the order of the query never replaces an
    entry: it appends the first chunk of each new document. *)
Lemma group_ordered (chunks : list Chunk) :
  StronglySorted nearestFirst chunks ->
  List.Forall (fun c => doc_rawMarkdown c <> None) chunks ->
  forall m : DocMap,
  (forall k v c, In (k, v) m -> In c chunks -> doc_id c = k ->
                 (1 - chunk_distance c <= similarity v)%Q) ->
  group (List.map select chunks) m
  = Ok (m ++ List.map (fun c => (doc_id c, entryOfChunk c))
                      (firstOfEach (List.map fst m) chunks)).
Proof.
  induction 1 as [| c chunks Hs IH Hc]; intros Hraw m Hm.
  - cbn. rewrite app_nil_r. reflexivity.
  - apply List.Forall_cons_iff in Hraw as [Hrc Hraw].
    cbn [List.map group firstOfEach].
    unfold visit. cbn [select row_id row_similarity row_rawMarkdown
                       row_title row_slug row_createdAt].
    destruct (map_get (doc_id c) m) as [e |] eqn:Hget.
    + apply map_get_some in Hget.
      assert (gt (1 - chunk_distance c)%Q (similarity e) = false) as ->.
      { apply gt_false. apply (Hm _ _ c Hget); [left; reflexivity | reflexivity]. }
      assert (existsb (str_eqb (doc_id c)) (List.map fst m) = true) as ->.
      { apply existsb_str_eqb.
        exact (List.in_map fst m _ Hget). }
      apply IH; [exact Hraw |].
      intros k v c' Hin Hc' Hk. apply (Hm k v c' Hin); [right; exact Hc' | exact Hk].
    + apply map_get_none in Hget.
      assert (existsb (str_eqb (doc_id c)) (List.map fst m) = false) as ->.
      { apply not_true_is_false. intros H. apply Hget, existsb_str_eqb, H. }
      destruct (doc_rawMarkdown c) as [raw |] eqn:Hr; [| congruence].
      rewrite map_set_keys_fresh by exact Hget.
      rewrite IH.
      * rewrite List.map_app. cbn [List.map fst]. rewrite <- app_assoc.
        cbn [app]. unfold entryOfChunk at 2, entryOf. rewrite Hr.
        reflexivity.
      * exact Hraw.
      * intros k v c' Hin Hc' Hk.
        apply List.in_app_iff in Hin as [Hin | [Heq | []]].
        -- apply (Hm k v c' Hin); [right; exact Hc' | exact Hk].
        -- injection Heq as <- <-. cbn [similarity].
           rewrite List.Forall_forall in Hc.
           apply similarity_nearest, Hc, Hc'.
Qed.

(** *** Patterns that need a code unit the text does not have *)

Lemma respects_exact (f : flags) (P : N -> bool) :
  ignoreCase f = false -> respects f P.
Proof.
  intros Hf c d. unfold canonicalize. rewrite Hf. intros -> H. exact H.
Qed.

Lemma cset_within_mem (P : N -> bool) (f : flags) (cs : cset) (c : N) :
  respects f P ->
  cset_within P cs = true -> cset_mem f cs c = true -> P c = true.
Proof.
  intros Hf. induction cs as [d | | | | a IHa b IHb | a IH]; cbn [cset_within cset_mem];
    try discriminate.
  - intros HP Hc. apply N.eqb_eq in Hc. exact (Hf c d Hc HP).
  - intros HP Hc. apply andb_true_iff in Hc as [Hlo Hhi].
    apply N.leb_le in Hlo, Hhi.
    rewrite forallb_forall in HP. apply HP.
    assert (c = 48 \/ c = 49 \/ c = 50 \/ c = 51 \/ c = 52 \/ c = 53 \/ c = 54 \/
            c = 55 \/ c = 56 \/ c = 57)%N as Hcases by lia.
    cbn [In]. intuition.
  - intros HP Hc. apply andb_true_iff in HP as [Ha Hb].
    apply orb_true_iff in Hc as [Hc | Hc]; [apply IHa | apply IHb]; assumption.
Qed.

Lemma match_lit_needs (P : N -> bool) (f : flags) (lit : jsstring) :
  respects f P ->
  forall s s', match_lit f lit s = Some s' ->
  exists m, ms_rest s = m ++ ms_rest s' /\
            (existsb P lit = true -> existsb P m = true).
Proof.
  intros Hf. induction lit as [| d lit IH]; intros s s'; cbn [match_lit].
  - intros H. injection H as <-. exists []. split; [reflexivity | intros H; exact H].
  - destruct (ms_rest s) as [| c rest'] eqn:Hrest; [discriminate |].
    destruct (N.eqb_spec (canonicalize f c) (canonicalize f d)) as [Hcd | _];
      [| discriminate].
    intros H. apply IH in H as (m & Hm & HP). cbn [ms_rest] in Hm.
    exists (c :: m). split; [rewrite Hm; reflexivity |].
    cbn [existsb]. intros Hex. apply orb_true_iff in Hex as [Hd | Hex].
    + rewrite (Hf c d Hcd Hd). reflexivity.
    + rewrite (HP Hex). apply orb_true_r.
Qed.

Lemma rep_min_members (f : flags) (cs : cset) (lo : nat) :
  forall s s', rep_min f cs lo s = Some s' ->
  exists m, ms_rest s = m ++ ms_rest s' /\ length m = lo /\
            forallb (cset_mem f cs) m = true.
Proof.
  induction lo as [| lo IH]; intros s s'; cbn [rep_min].
  - intros H. injection H as <-. exists []. repeat split.
  - destruct (ms_rest s) as [| c rest'] eqn:Hrest; [discriminate |].
    destruct (cset_mem f cs c) eqn:Hc; [| discriminate].
    intros H. apply IH in H as (m & Hm & Hlen & Hall). cbn [ms_rest] in Hm.
    exists (c :: m). cbn [app length forallb]. rewrite Hm, Hlen, Hc, Hall.
    repeat split.
Qed.

Lemma needs_run (P : N -> bool) (f : flags) (r : regex) :
  respects f P -> needs P r = true ->
  forall (s : mstate) (k : continuation) (sf : mstate),
  rmatch f r s k = Some sf ->
  exists s' m, ms_rest s = m ++ ms_rest s' /\ k s' = Some sf /\ existsb P m = true.
Proof.
  intros Hf. induction r as [lit | cs | cs lo hi greedy | | | a IHa b IHb | a IHa b IHb
                             | n a IHa | n]; cbn [needs rmatch]; try discriminate.
  - intros HP s k sf H.
    destruct (match_lit f lit s) as [s' |] eqn:Hl; [| discriminate].
    apply (match_lit_needs P f lit Hf) in Hl as (m & Hm & Hex).
    exists s', m. split; [exact Hm |]. split; [exact H | exact (Hex HP)].
  - intros HP s k sf H.
    destruct (rep_min f cs 1 s) as [s' |] eqn:Hl; [| discriminate].
    apply rep_min_members in Hl as (m & Hm & Hlen & Hall).
    exists s', m. split; [exact Hm |]. split; [exact H |].
    destruct m as [| c m]; [discriminate |].
    cbn [forallb existsb] in *. apply andb_true_iff in Hall as [Hc _].
    rewrite (cset_within_mem P f cs c Hf HP Hc). reflexivity.
  - intros HP s k sf H. apply andb_true_iff in HP as [Hlo HP].
    destruct (rep_min f cs lo s) as [s1 |] eqn:Hl; [| discriminate].
    apply rep_min_members in Hl as (m1 & Hm1 & Hlen & Hall).
    apply rep_more_run in H as (s' & m2 & Hm2 & _ & Hk).
    exists s', (m1 ++ m2). split; [rewrite Hm1, Hm2, app_assoc; reflexivity |].
    split; [exact Hk |].
    destruct m1 as [| c m1]; [subst lo; discriminate |].
    cbn [forallb existsb app] in *. apply andb_true_iff in Hall as [Hc _].
    rewrite (cset_within_mem P f cs c Hf HP Hc). reflexivity.
  - intros HP s k sf H. apply orb_true_iff in HP as [HP | HP].
    + apply (IHa HP) in H as (s1 & m1 & Hm1 & Hk & HP1).
      apply rmatch_run in Hk as (s' & m2 & Hm2 & Hk & _).
      exists s', (m1 ++ m2). split; [rewrite Hm1, Hm2, app_assoc; reflexivity |].
      split; [exact Hk |]. rewrite existsb_app, HP1. reflexivity.
    + apply rmatch_run in H as (s1 & m1 & Hm1 & Hk & _).
      apply (IHb HP) in Hk as (s' & m2 & Hm2 & Hk & HP2).
      exists s', (m1 ++ m2). split; [rewrite Hm1, Hm2, app_assoc; reflexivity |].
      split; [exact Hk |]. rewrite existsb_app, HP2. apply orb_true_r.
  - intros HP s k sf H. apply andb_true_iff in HP as [HPa HPb].
    destruct (rmatch f a s k) as [r' |] eqn:Ha.
    + injection H as <-. exact (IHa HPa _ _ _ Ha).
    + exact (IHb HPb _ _ _ H).
  - intros HP s k sf H.
    apply (IHa HP) in H as (s' & m & Hm & Hk & HPm).
    eexists _, m. split; [| split; [exact Hk | exact HPm]]. exact Hm.
Qed.

Lemma exec_at_needs (P : N -> bool) (f : flags) (r : regex) (before rest : list N) :
  respects f P -> needs P r = true ->
  forallb (fun c => negb (P c)) rest = true ->
  exec_at f r before rest = None.
Proof.
  intros Hf Hr Hrest. unfold exec_at.
  destruct (rmatch f r _ Some) as [sf |] eqn:Hm; [| reflexivity].
  exfalso. apply (needs_run P f r Hf Hr) in Hm as (s' & m & Hm & _ & HP).
  cbn [ms_rest] in Hm. rewrite Hm, forallb_app in Hrest.
  apply andb_true_iff in Hrest as [Hrest _].
  apply List.existsb_exists in HP as (c & Hc & HPc).
  rewrite forallb_forall in Hrest. specialize (Hrest c Hc).
  rewrite HPc in Hrest. discriminate.
Qed.

Lemma replace_from_needs (P : N -> bool) (f : flags) (r : regex) (tpl : list titem) :
  ignoreCase f = false -> needs P r = true ->
  forall rest before, forallb (fun c => negb (P c)) rest = true ->
  replace_from f r tpl before rest O = rest.
Proof.
  intros Hf Hr. induction rest as [| c rest IH]; intros before Hrest;
    rewrite replace_from_here,
      (exec_at_needs P f r before _ (respects_exact f P Hf) Hr Hrest);
    [reflexivity |].
  f_equal. apply IH. cbn [forallb] in Hrest.
  apply andb_true_iff in Hrest as [_ Hrest]. exact Hrest.
Qed.

(** A replacement whose pattern needs a code unit that the text does not
    contain leaves the text as it is. *)
Lemma replaceAll_needs (P : N -> bool) (f : flags) (r : regex) (tpl : list titem)
    (s : jsstring) :
  ignoreCase f = false -> needs P r = true ->
  forallb (fun c => negb (P c)) s = true ->
  replaceAll f r tpl s = s.
Proof. intros Hf Hr Hs. exact (replace_from_needs P f r tpl Hf Hr s [] Hs). Qed.

Lemma plainText_without (P : N -> bool) (s : jsstring) :
  (forall c, P c = true -> isMarkup c = true) ->
  plainText s = true -> forallb (fun c => negb (P c)) s = true.
Proof.
  intros HP Hs. unfold plainText in Hs. rewrite forallb_forall in Hs |- *.
  intros c Hc. specialize (Hs c Hc).
  destruct (P c) eqn:HPc; [| reflexivity].
  rewrite (HP c HPc) in Hs. discriminate.
Qed.

Lemma isMarkup_char (d : N) :
  isMarkup d = true -> forall c, (c =? d)%N = true -> isMarkup c = true.
Proof. intros Hd c Hc. apply N.eqb_eq in Hc. subst c. exact Hd. Qed.

Lemma isMarkup_digit (c : N) :
  ((48 <=? c) && (c <=? 57))%N = true -> isMarkup c = true.
Proof. intros H. unfold isMarkup. rewrite H. apply orb_true_r. Qed.

End OrderedAnswerFacts.

Section OrderedAnswerProperties.
Import JS Regex SemanticSearch.

(** X5.  When the store answers in the order of the query (nearest chunk
    first) with chunks that carry raw content, [semanticSearch] returns,
    after one query, the entries of the chunks that are the first of their
    document, in the order of the answer: later chunks of a document are
    dropped, nothing is reordered, and an empty answer gives an empty
    list. *)
Theorem semanticSearch_ordered_answer (D : nat) (store : Store) (q : list number)
    (limit : option Z) (calls : nat) :
  length q = D ->
  let chunks := store q (default 10 limit) in
  StronglySorted nearestFirst chunks ->
  List.Forall (fun c => doc_rawMarkdown c <> None) chunks ->
  semanticSearch D store q limit calls
  = (Ok (List.map entryOfChunk (firstOfEach [] chunks)), S calls).
Proof.
  intros Hq chunks Hs Hraw.
  rewrite (semanticSearch_unfold D store q limit calls Hq). fold chunks.
  rewrite (group_ordered chunks Hs Hraw []) by (intros k v c []).
  cbn [app List.map]. unfold map_values. rewrite List.map_map. cbn [snd].
  rewrite sort_descending; [reflexivity |].
  apply entries_descending, firstOfEach_sorted, Hs.
Qed.

Lemma semanticSearch_ordered_answer_witness :
  semanticSearch 2 sampleStore [1%Q; 0%Q] None 0
  = (Ok [entryOfChunk (sampleChunk "a" (Some (js "# A")) (1 # 10));
         entryOfChunk (sampleChunk "b" (Some []) (2 # 10))], 1%nat).
Proof.
  refine (semanticSearch_ordered_answer 2 sampleStore [1%Q; 0%Q] None 0 _ _ _).
  - reflexivity.
  - repeat constructor; unfold nearestFirst; cbn; discriminate.
  - repeat constructor; discriminate.
Defined.

(** X6.  A text without Markdown or HTML punctuation and without digits
    goes through [normalizeMarkdown] with its white space normalised and
    nothing else changed: every run of white space becomes one space, and
    leading and trailing white space is removed. *)
Theorem normalizeMarkdown_plain_text (raw : jsstring) :
  plainText raw = true ->
  normalizeMarkdown raw = trim (collapse raw false).
Proof.
  intros Hraw. unfold normalizeMarkdown.
  rewrite (replaceAll_needs (fun c => c =? ch "<")%N _ _ _ raw) by
    (first [reflexivity | apply plainText_without;
     [apply isMarkup_char; reflexivity | exact Hraw]]).
  rewrite (replaceAll_needs (fun c => c =? ch "[")%N _ _ _ raw) by
    (first [reflexivity | apply plainText_without;
     [apply isMarkup_char; reflexivity | exact Hraw]]).
  rewrite (replaceAll_needs (fun c => c =? ch "[")%N _ _ _ raw) by
    (first [reflexivity | apply plainText_without;
     [apply isMarkup_char; reflexivity | exact Hraw]]).
  rewrite (replaceAll_needs (fun c => c =? ch "`")%N _ _ _ raw) by
    (first [reflexivity | apply plainText_without;
     [apply isMarkup_char; reflexivity | exact Hraw]]).
  rewrite (replaceAll_needs (fun c => c =? ch "`")%N _ _ _ raw) by
    (first [reflexivity | apply plainText_without;
     [apply isMarkup_char; reflexivity | exact Hraw]]).
  rewrite (replaceAll_needs (fun c => c =? ch "#")%N _ _ _ raw) by
    (first [reflexivity | apply plainText_without;
     [apply isMarkup_char; reflexivity | exact Hraw]]).
  rewrite (replaceAll_needs (fun c => (c =? ch "*") || (c =? ch "_"))%N _ _ _ raw) by
    (first [reflexivity | apply plainText_without; [| exact Hraw];
     intros c Hc; apply orb_true_iff in Hc as [Hc | Hc];
     revert Hc; apply isMarkup_char; reflexivity]).
  rewrite (replaceAll_needs (fun c => (c =? ch "*") || (c =? ch "_"))%N _ _ _ raw) by
    (first [reflexivity | apply plainText_without; [| exact Hraw];
     intros c Hc; apply orb_true_iff in Hc as [Hc | Hc];
     revert Hc; apply isMarkup_char; reflexivity]).
  rewrite (replaceAll_needs (fun c => c =? ch ">")%N _ _ _ raw) by
    (first [reflexivity | apply plainText_without;
     [apply isMarkup_char; reflexivity | exact Hraw]]).
  rewrite (replaceAll_needs (fun c => c =? ch "-")%N _ _ _ raw) by
    (first [reflexivity | apply plainText_without;
     [apply isMarkup_char; reflexivity | exact Hraw]]).
  rewrite (replaceAll_needs
             (fun c => (c =? ch "-") || ((c =? ch "*") || (c =? ch "+")))%N
             _ _ _ raw) by
    (first [reflexivity | apply plainText_without; [| exact Hraw];
     intros c Hc; apply orb_true_iff in Hc as [Hc | Hc];
     [| apply orb_true_iff in Hc as [Hc | Hc]];
     revert Hc; apply isMarkup_char; reflexivity]).
  rewrite (replaceAll_needs (fun c => (48 <=? c) && (c <=? 57))%N _ _ _ raw) by
    (first [reflexivity | apply plainText_without; [| exact Hraw];
     exact isMarkup_digit]).
  rewrite replaceAll_space. reflexivity.
Qed.

Lemma normalizeMarkdown_plain_text_witness :
  normalizeMarkdown (js "  Hola   mundo. " ++ [10%N] ++ js "Adios.")
  = js "Hola mundo. Adios.".
Proof.
  rewrite normalizeMarkdown_plain_text.
  - vm_compute. reflexivity.
  - vm_compute. reflexivity.
Defined.

End OrderedAnswerProperties.

(** ** Export of a post: the file name *)

Section PostExportFacts.
Import JS Regex PostExport.

Lemma exec_set (f : flags) (cs : cset) (before rest : list N) :
  exec_at f (RSet cs) before rest =
  match rest with
  | c :: _ => if cset_mem f cs c then Some (1%nat, []) else None
  | [] => None
  end.
Proof.
  unfold exec_at. cbn [rmatch rep_min ms_rest ms_before ms_caps].
  destruct rest as [| c rest]; [reflexivity |].
  destruct (cset_mem f cs c); [| reflexivity].
  cbn [ms_rest ms_caps length]. f_equal. f_equal. lia.
Qed.

Lemma replace_set (f : flags) (cs : cset) (rest : list N) :
  forall before,
  replace_from f (RSet cs) [] before rest O
  = List.filter (fun c => negb (cset_mem f cs c)) rest.
Proof.
  induction rest as [| c rest IH]; intros before;
    rewrite replace_from_here, exec_set; [reflexivity |].
  cbn [List.filter]. destruct (cset_mem f cs c); cbn [negb expand flat_map app].
  - apply IH.
  - f_equal. apply IH.
Qed.

Lemma replaceAll_set (f : flags) (cs : cset) (s : jsstring) :
  replaceAll f (RSet cs) [] s = List.filter (fun c => negb (cset_mem f cs c)) s.
Proof. apply replace_set. Qed.

Lemma reserved_mem (c : N) :
  cset_mem flags_g reserved c = true <-> In c reservedChars.
Proof.
  unfold reserved, reservedChars. cbn.
  rewrite !orb_true_iff, !N.eqb_eq. intuition.
Qed.

Lemma collapse_in (s : jsstring) :
  forall (b : bool) (c : N), In c (collapse s b) -> c = 32%N \/ In c s.
Proof.
  induction s as [| x s IH]; intros b c; cbn [collapse]; [tauto |].
  destruct (isWhiteSpace x), b; cbn [In]; intros H.
  - apply IH in H. tauto.
  - destruct H as [<- | H]; [tauto | apply IH in H; tauto].
  - destruct H as [<- | H]; [tauto | apply IH in H; tauto].
  - destruct H as [<- | H]; [tauto | apply IH in H; tauto].
Qed.

Lemma trim_in (s : jsstring) (c : N) : In c (trim s) -> In c s.
Proof.
  intros H. destruct (trim_segment s) as (p & q & Hs). rewrite Hs.
  apply List.in_app_iff. right. apply List.in_app_iff. left. exact H.
Qed.

Lemma firstn_in (n : nat) (s : jsstring) (c : N) : In c (firstn n s) -> In c s.
Proof. intros H. rewrite <- (firstn_skipn n s). apply List.in_app_iff. left. exact H. Qed.

Lemma collapsed_firstn (n : nat) (text : jsstring) :
  collapsed text -> spaced (firstn n text).
Proof.
  intros [Hsp Hsi Hfi _]. pose proof (firstn_skipn n text) as Happ.
  split.
  - intros c Hc. apply Hsp. exact (firstn_in _ _ _ Hc).
  - intros a c d b Ht. apply (Hsi a c d (b ++ skipn n text)).
    transitivity (firstn n text ++ skipn n text); [symmetry; exact Happ |].
    rewrite Ht, <- app_assoc. reflexivity.
  - intros c t Ht. apply (Hfi c (t ++ skipn n text)).
    transitivity (firstn n text ++ skipn n text); [symmetry; exact Happ |].
    rewrite Ht. reflexivity.
Qed.

Lemma documento_spaced : spaced documento.
Proof.
  split.
  - intros c Hc Hw. exfalso. revert Hw. cbn in Hc.
    repeat (destruct Hc as [<- | Hc]; [vm_compute; discriminate |]). destruct Hc.
  - intros a c d b Ht Hw.
    assert (In c documento) as Hc
      by (rewrite Ht; apply List.in_app_iff; right; left; reflexivity).
    exfalso. revert Hw. cbn in Hc.
    repeat (destruct Hc as [<- | Hc]; [vm_compute; discriminate |]). destruct Hc.
  - intros c t Ht. injection Ht as <- _. reflexivity.
Qed.

(** The steps of [sanitizeFilename] as operations on lists. *)
Lemma sanitizeFilename_steps (name : jsstring) :
  sanitizeFilename name =
  let s := if bool_decide (name = []) then documento else name in
  let s := firstn 80 (trim (collapse
             (List.filter (fun c => negb (cset_mem flags_g reserved c)) s) false)) in
  if bool_decide (s = []) then documento else s.
Proof.
  unfold sanitizeFilename. rewrite replaceAll_set, replaceAll_space. reflexivity.
Qed.

Lemma collapse_spaced (s : jsstring) :
  forall b : bool,
  (forall c, In c s -> isWhiteSpace c = true -> c = 32%N) ->
  (forall a c d t, s = a ++ c :: d :: t -> isWhiteSpace c = true ->
                   isWhiteSpace d = false) ->
  (b = true -> forall c t, s = c :: t -> isWhiteSpace c = false) ->
  collapse s b = s.
Proof.
  induction s as [| x s IH]; intros b Hsp Hsi Hhd; [reflexivity |].
  cbn [collapse].
  assert (forall c, In c s -> isWhiteSpace c = true -> c = 32%N) as Hsp'
    by (intros c Hc; apply Hsp; right; exact Hc).
  assert (forall a c d t, s = a ++ c :: d :: t -> isWhiteSpace c = true ->
                          isWhiteSpace d = false) as Hsi'
    by (intros a c d t Hs; apply (Hsi (x :: a) c d t); rewrite Hs; reflexivity).
  destruct (isWhiteSpace x) eqn:Hx.
  - destruct b.
    + rewrite (Hhd eq_refl x s eq_refl) in Hx. discriminate.
    + rewrite (Hsp x (or_introl eq_refl) Hx). f_equal.
      apply IH; [exact Hsp' | exact Hsi' |].
      intros _ c t Hs. apply (Hsi [] x c t); [rewrite Hs; reflexivity | exact Hx].
  - f_equal. apply IH; [exact Hsp' | exact Hsi' | discriminate].
Qed.

Lemma trimStart_id (s : jsstring) :
  (forall c t, s = c :: t -> isWhiteSpace c = false) -> trimStart s = s.
Proof.
  destruct s as [| c s]; [reflexivity |]. intros H. cbn [trimStart].
  rewrite (H c s eq_refl). reflexivity.
Qed.

Lemma trim_id (s : jsstring) :
  (forall c t, s = c :: t -> isWhiteSpace c = false) ->
  (forall t c, s = t ++ [c] -> isWhiteSpace c = false) ->
  trim s = s.
Proof.
  intros Hfi Hla. unfold trim, trimEnd. rewrite (trimStart_id s Hfi).
  rewrite trimStart_id; [apply rev_involutive |].
  intros c t Hr. apply (Hla (rev t) c).
  rewrite <- (rev_involutive s), Hr. reflexivity.
Qed.

Lemma filter_id (P : N -> bool) (s : list N) :
  (forall c, In c s -> P c = true) -> List.filter P s = s.
Proof.
  induction s as [| c s IH]; intros H; [reflexivity |].
  cbn [List.filter]. rewrite (H c (or_introl eq_refl)). f_equal.
  apply IH. intros d Hd. apply H. right. exact Hd.
Qed.

End PostExportFacts.

Section PostExportProperties.
Import JS Regex PostExport.

(** X7.  Whatever the title, [sanitizeFilename] returns a usable file
    name: it is not empty (an empty title, and a title of which nothing is
    left, give ["documento"]), it has at most 80 code units, it contains
    none of the reserved characters, and its white space is single spaces
    that do not start the name. *)
Theorem sanitizeFilename_safe (name : jsstring) :
  let file := sanitizeFilename name in
  file <> [] /\
  (length file <= 80)%nat /\
  (forall c, In c file -> ~ In c reservedChars) /\
  spaced file.
Proof.
  cbv zeta. rewrite sanitizeFilename_steps. cbv zeta.
  set (s := if bool_decide (name = []) then documento else name).
  set (kept := List.filter (fun c => negb (cset_mem flags_g reserved c)) s).
  destruct (bool_decide_reflect (firstn 80 (trim (collapse kept false)) = []))
    as [_ | Hne].
  - split; [discriminate |]. split; [cbn; lia |].
    split; [| exact documento_spaced].
    intros c Hc. cbn in Hc.
    repeat (destruct Hc as [<- | Hc]; [vm_compute; intuition discriminate |]).
    destruct Hc.
  - split; [exact Hne |]. split; [apply length_firstn_le || (rewrite length_firstn; lia) |].
    split; [| apply collapsed_firstn, trim_collapse_collapsed].
    intros c Hc. apply firstn_in, trim_in, collapse_in in Hc.
    destruct Hc as [-> | Hc]; [vm_compute; intuition discriminate |].
    apply List.filter_In in Hc as [_ Hc]. apply negb_true_iff in Hc.
    intros Hr. apply reserved_mem in Hr. congruence.
Qed.

(** X8.  A title that is already a usable file name is returned as it
    is: not empty, at most 80 code units, no reserved character, white
    space only as single spaces inside the name. *)
Theorem sanitizeFilename_keeps_clean_name (name : jsstring) :
  name <> [] -> (length name <= 80)%nat ->
  (forall c, In c name -> ~ In c reservedChars) ->
  collapsed name ->
  sanitizeFilename name = name.
Proof.
  intros Hne Hlen Hres [Hsp Hsi Hfi Hla].
  rewrite sanitizeFilename_steps. cbv zeta.
  rewrite (bool_decide_eq_false_2 _ Hne).
  rewrite filter_id.
  2:{ intros c Hc. apply negb_true_iff, not_true_is_false.
      intros Hr. apply reserved_mem in Hr. exact (Hres c Hc Hr). }
  rewrite collapse_spaced by (assumption || discriminate).
  rewrite (trim_id name Hfi Hla).
  rewrite firstn_all2 by exact Hlen.
  rewrite (bool_decide_eq_false_2 _ Hne). reflexivity.
Qed.

Lemma sanitizeFilename_keeps_clean_name_witness :
  sanitizeFilename (js "Mi post") = js "Mi post".
Proof.
  apply sanitizeFilename_keeps_clean_name.
  - discriminate.
  - cbn. lia.
  - intros c Hc. cbn in Hc.
    repeat (destruct Hc as [<- | Hc]; [vm_compute; intuition discriminate |]).
    destruct Hc.
  - change (js "Mi post") with (trim (collapse (js "Mi post") false)).
    apply trim_collapse_collapsed.
Defined.

End PostExportProperties.

(** ** The worker RPC client: answers, progress, disposal *)

Section RpcAnswerFacts.
Import JS JSValue RpcClient.

(** *** Fields that the steps leave alone *)

Lemma onMessage_fields (data : jsval) (c : Client) :
  nextTimerId (onMessage data c) = nextTimerId c /\
  nextPromise (onMessage data c) = nextPromise c /\
  posted (onMessage data c) = posted c /\
  listening (onMessage data c) = listening c /\
  now (onMessage data c) = now c.
Proof.
  unfold onMessage.
  destruct (negb (isWorkerMessage data)); [easy |].
  destruct (get "type" data) as [| | | | ty | |]; try easy.
  destruct (get "requestId" data) as [| | | | rid | |]; try easy.
  destruct (pending c !! rid) as [entry |]; [| easy].
  destruct (str_eqb ty (js "progress")).
  { destruct (entry_onProgress entry); easy. }
  destruct (str_eqb ty (js "response")); easy.
Qed.

Lemma advance_fields (t : Z) (c : Client) :
  nextTimerId (advance t c) = nextTimerId c /\
  nextPromise (advance t c) = nextPromise c /\
  posted (advance t c) = posted c /\
  listening (advance t c) = listening c.
Proof.
  unfold advance. cbn [nextTimerId nextPromise posted listening].
  fold (dueBy t c). fold (fire (dueBy t c) c).
  destruct (fire_fields (dueBy t c) c) as (-> & -> & _ & -> & -> & _). easy.
Qed.

Lemma run_app (a b : list event) (c : Client) : run (a ++ b) c = run b (run a c).
Proof. unfold run. apply fold_left_app. Qed.

Lemma run_listening (es : list event) :
  forall c, ~ In Dispose es -> listening (run es c) = listening c.
Proof.
  induction es as [| e es IH]; intros c Hd; [reflexivity |].
  cbn [run fold_left]. fold (run es (step c e)).
  rewrite IH by (intros H; apply Hd; right; exact H).
  destruct e as [rid ty payload tmo cb | data | t |]; cbn [step].
  - reflexivity.
  - destruct (listening c) eqn:Hl; [| exact Hl]. rewrite <- Hl.
    apply onMessage_fields.
  - apply advance_fields.
  - exfalso. apply Hd. left. reflexivity.
Qed.

Lemma run_nextTimerId_pos (es : list event) :
  forall c, 0 < nextTimerId c -> 0 < nextTimerId (run es c).
Proof.
  induction es as [| e es IH]; intros c Hc; [exact Hc |].
  cbn [run fold_left]. fold (run es (step c e)). apply IH.
  destruct e as [rid ty payload tmo cb | data | t |]; cbn [step].
  - cbn. lia.
  - destruct (listening c); [| exact Hc].
    destruct (onMessage_fields data c) as (-> & _). exact Hc.
  - destruct (advance_fields t c) as (-> & _). exact Hc.
  - exact Hc.
Qed.

(** *** A settled promise stays as it is *)

Lemma onMessage_settled (data : jsval) (c : Client) (p : nat) (s : settlement) :
  promises c !! p = Some s -> promises (onMessage data c) !! p = Some s.
Proof.
  intros Hs. unfold onMessage.
  destruct (negb (isWorkerMessage data)); [exact Hs |].
  destruct (get "type" data) as [| | | | ty | |]; try exact Hs.
  destruct (get "requestId" data) as [| | | | rid | |]; try exact Hs.
  destruct (pending c !! rid) as [entry |]; [| exact Hs].
  destruct (str_eqb ty (js "progress")).
  { destruct (entry_onProgress entry); exact Hs. }
  destruct (str_eqb ty (js "response")); [| exact Hs].
  cbn [promises]. apply settle_lookup_settled. exact Hs.
Qed.

Lemma dispose_settled (c : Client) (p : nat) (s : settlement) :
  promises c !! p = Some s -> promises (dispose c) !! p = Some s.
Proof.
  cbn [dispose promises]. generalize (promises c).
  induction (map_to_list (pending c)) as [| e es IH]; intros ps Hs; [exact Hs |].
  cbn [fold_left]. apply IH, settle_lookup_settled, Hs.
Qed.

Lemma step_settled (e : event) (c : Client) (p : nat) (s : settlement) :
  promises c !! p = Some s -> promises (step c e) !! p = Some s.
Proof.
  intros Hs. destruct e as [rid ty payload tmo cb | data | t |]; cbn [step].
  - exact Hs.
  - destruct (listening c); [apply onMessage_settled |]; exact Hs.
  - destruct (advance_fire t c) as (_ & _ & -> & _).
    apply fire_promise_settled. exact Hs.
  - apply dispose_settled. exact Hs.
Qed.

Lemma run_settled (es : list event) :
  forall (c : Client) (p : nat) (s : settlement),
  promises c !! p = Some s -> promises (run es c) !! p = Some s.
Proof.
  induction es as [| e es IH]; intros c p s Hs; [exact Hs |].
  cbn [run fold_left]. fold (run es (step c e)).
  apply IH, step_settled, Hs.
Qed.

(** *** Messages for a call *)

Lemma onMessage_unknown (rid : jsstring) (data : jsval) (c : Client) :
  pending c !! rid = None -> get "requestId" data = VStr rid ->
  onMessage data c = c.
Proof.
  intros Hnone Hrid. unfold onMessage. rewrite Hrid.
  destruct (negb (isWorkerMessage data)); [reflexivity |].
  destruct (get "type" data) as [| | | | ty | |]; try reflexivity.
  rewrite Hnone. reflexivity.
Qed.

Lemma isResponseFor_fields (rid : jsstring) (data : jsval) :
  isResponseFor rid data = true ->
  get "type" data = VStr (js "response") /\ get "requestId" data = VStr rid /\
  isWorkerMessage data = true.
Proof.
  unfold isResponseFor, isWorkerMessage.
  destruct data as [| | | | | |fields]; cbn [get]; try discriminate.
  destruct (lookup_field (js "type") fields) as [| | | | ty | |]; try discriminate.
  destruct (lookup_field (js "requestId") fields) as [| | | | rid' | |]; try discriminate.
  intros H. apply andb_true_iff in H as [Hty Hrid].
  rewrite Hty. apply str_eqb_eq in Hty, Hrid. subst. easy.
Qed.

Lemma isProgressFor_fields (rid : jsstring) (data : jsval) :
  isProgressFor rid data = true ->
  get "type" data = VStr (js "progress") /\ get "requestId" data = VStr rid /\
  isWorkerMessage data = true.
Proof.
  unfold isProgressFor, isWorkerMessage.
  destruct data as [| | | | | |fields]; cbn [get]; try discriminate.
  destruct (lookup_field (js "type") fields) as [| | | | ty | |]; try discriminate.
  destruct (lookup_field (js "requestId") fields) as [| | | | rid' | |]; try discriminate.
  intros H. apply andb_true_iff in H as [Hty Hrid].
  rewrite Hty, orb_true_r. apply str_eqb_eq in Hty, Hrid. subst. easy.
Qed.

(** The response for a waiting call settles it, removes it and clears its
    timer. *)
Lemma onMessage_response (rid : jsstring) (cb : option nat) (t0 : Timer)
    (data : jsval) (c : Client) :
  armed rid cb t0 c -> timer_id t0 <> 0 -> isResponseFor rid data = true ->
  promises (onMessage data c) !! timer_promise t0 = Some (settlementOf data) /\
  pending (onMessage data c) !! rid = None /\
  (forall u, In u (timers (onMessage data c)) -> timer_promise u <> timer_promise t0).
Proof.
  intros [Hrid He Ht Hu Hes Hts Hids] Hpos Hresp.
  apply isResponseFor_fields in Hresp as (Hty & Hreq & Hwm).
  unfold onMessage. rewrite Hwm, Hty, Hreq, He. cbn [negb].
  change (str_eqb (js "response") (js "progress")) with false.
  change (str_eqb (js "response") (js "response")) with true.
  cbn [entry_timeoutId entry_promise promises pending timers].
  apply Z.eqb_neq in Hpos. rewrite Hpos.
  split; [| split].
  - apply settle_lookup_fresh. exact Hu.
  - apply lookup_delete_eq.
  - intros u Hin Hp. apply clearTimeout_in in Hin as [Hin Hid].
    apply Hid. rewrite (Hts u Hin) by tauto. reflexivity.
Qed.

(** A progress message for a waiting call reaches its callback and changes
    nothing else. *)
Lemma onMessage_progress (rid : jsstring) (cb : option nat) (t0 : Timer)
    (data : jsval) (c : Client) :
  armed rid cb t0 c -> isProgressFor rid data = true ->
  progressCalls (onMessage data c)
  = progressCalls c ++ match cb with
                       | Some h => [(h, get "payload" data)]
                       | None => []
                       end /\
  pending (onMessage data c) = pending c /\
  timers (onMessage data c) = timers c /\
  promises (onMessage data c) = promises c /\
  posted (onMessage data c) = posted c.
Proof.
  intros [Hrid He Ht Hu Hes Hts Hids] Hprog.
  apply isProgressFor_fields in Hprog as (Hty & Hreq & Hwm).
  unfold onMessage. rewrite Hwm, Hty, Hreq, He. cbn [negb].
  change (str_eqb (js "progress") (js "progress")) with true.
  cbn [entry_onProgress]. destruct cb as [h |]; cbn.
  - easy.
  - rewrite app_nil_r. easy.
Qed.

(** *** The requests posted *)

Lemma run_posted (es : list event) :
  forall c, posted (run es c) = posted c ++ requests es.
Proof.
  induction es as [| e es IH]; intros c.
  - cbn. symmetry. apply app_nil_r.
  - cbn [run fold_left]. fold (run es (step c e)). rewrite IH.
    destruct e as [rid ty payload tmo cb | data | t |]; cbn [step requests flat_map].
    + cbn [call posted]. rewrite <- app_assoc. reflexivity.
    + destruct (listening c); [| reflexivity].
      destruct (onMessage_fields data c) as (_ & _ & -> & _). reflexivity.
    + destruct (advance_fields t c) as (_ & _ & -> & _). reflexivity.
    + reflexivity.
Qed.

(** *** The state in which a call waits *)

Lemma call_waits (created : Z) (before : list event)
    (rid : jsstring) (ty : WorkerRequestType) (payload : jsval)
    (timeoutMs : option Z) (cb : option nat) (es : list event) :
  let c0 := run before (createWorkerRpcClient created) in
  List.Forall (otherCall rid) before ->
  List.Forall (quiet rid (now c0 + timerDelay (default 60000 timeoutMs))) es ->
  armed rid cb
    {| timer_id := nextTimerId c0;
       timer_due := now c0 + timerDelay (default 60000 timeoutMs);
       timer_requestId := rid; timer_type := ty; timer_promise := nextPromise c0 |}
    (run es (call rid ty payload timeoutMs cb c0)).
Proof.
  intros c0 Hbefore Hquiet.
  apply run_armed; [| exact Hquiet].
  apply call_armed; [apply wf_run, wf_create |].
  apply run_timers_other; [intros u [] | exact Hbefore].
Qed.

Lemma quiet_undisposed (rid : jsstring) (due : Z) (es : list event) :
  List.Forall (quiet rid due) es -> ~ In Dispose es.
Proof.
  intros H Hin. rewrite List.Forall_forall in H. exact (H Dispose Hin).
Qed.

End RpcAnswerFacts.

Section RpcAnswerProperties.
Import JS JSValue RpcClient.

(** X9.  A call that is answered in time.  On a client that has not been
    disposed of, a call is made under an identifier not used before, and
    nothing happens to it until its response arrives before its timer is
    due ([T] is the delay of the timer: the timeout as [setTimeout] takes
    it, a 32-bit integer that counts as 0 when negative).
    The response settles the promise of the call: resolved with the result
    when [ok] is truthy, rejected with the error otherwise.  The call
    leaves the pending set and no timer is left for it; whatever happens
    later, the timeout and a disposal included, the promise keeps that
    settlement, and further messages under the identifier are ignored. *)
Theorem call_answered (created : Z) (before : list event)
    (rid : jsstring) (ty : WorkerRequestType) (payload : jsval)
    (timeoutMs : option Z) (cb : option nat) (es : list event)
    (data : jsval) (later : list event) :
  let c0 := run before (createWorkerRpcClient created) in
  let T := timerDelay (default 60000 timeoutMs) in
  let promise := nextPromise c0 in
  List.Forall (otherCall rid) before -> ~ In Dispose before ->
  List.Forall (quiet rid (now c0 + T)) es ->
  isResponseFor rid data = true ->
  let c3 := step (run es (call rid ty payload timeoutMs cb c0)) (Message data) in
  promises c3 !! promise = Some (settlementOf data) /\
  pending c3 !! rid = None /\
  (forall u, In u (timers c3) -> timer_promise u <> promise) /\
  promises (run later c3) !! promise = Some (settlementOf data) /\
  (forall data', get "requestId" data' = VStr rid -> step c3 (Message data') = c3).
Proof.
  intros c0 T promise Hbefore Hlive Hquiet Hresp c3.
  pose proof (call_waits created before rid ty payload timeoutMs cb es
                Hbefore Hquiet) as Ha.
  cbv zeta in Ha. fold c0 in Ha.
  set (c2 := run es (call rid ty payload timeoutMs cb c0)) in *.
  assert (listening c2 = true) as Hl.
  { unfold c2. rewrite run_listening by exact (quiet_undisposed _ _ _ Hquiet).
    cbn [call listening]. unfold c0. rewrite run_listening by exact Hlive.
    reflexivity. }
  assert (0 < nextTimerId c0) as Hpos
    by (apply run_nextTimerId_pos; cbn; lia).
  destruct (onMessage_response rid cb _ data c2 Ha) as (Hp & Hgone & Htm);
    [cbn [timer_id]; lia | exact Hresp |].
  cbn [timer_promise] in Hp, Htm.
  assert (c3 = onMessage data c2) as Hc3
    by (unfold c3; cbn [step]; rewrite Hl; reflexivity).
  rewrite Hc3.
  split; [exact Hp |]. split; [exact Hgone |]. split; [exact Htm |].
  split; [apply run_settled; exact Hp |].
  intros data' Hrid. cbn [step].
  destruct (listening (onMessage data c2)); [| reflexivity].
  apply (onMessage_unknown rid); assumption.
Qed.

Lemma call_answered_witness :
  let c3 := run answeredEvents (createWorkerRpcClient 0) in
  promises (run [Advance 70000; Dispose] c3) !! 0%nat = Some (Resolved (VNum 1%Q)).
Proof.
  cbv zeta.
  refine (proj1 (proj2 (proj2 (proj2
    (call_answered 0 [] (js "a") embed VUndefined None (Some 7%nat)
       [Message (workerMessage "progress" "a" [(js "payload", VNum 50%Q)]);
        Advance 10]
       (workerMessage "response" "a"
          [(js "ok", VBool true); (js "result", VNum 1%Q)])
       [Call (js "b") status VUndefined (Some 1000) None; Advance 70000; Dispose]
       _ _ _ _))))).
  - constructor.
  - intros [].
  - repeat constructor; cbn; lia.
  - reflexivity.
Defined.

(** X10.  A progress message for a call that is waiting, its timer not
    yet due ([T] is the delay of the timer, the timeout as [setTimeout]
    takes it), is passed to the progress callback of that call, once and
    with the payload of the message; it settles nothing, removes nothing
    and clears no timer.  A call made without a callback ignores it. *)
Theorem progress_forwarded (created : Z) (before : list event)
    (rid : jsstring) (ty : WorkerRequestType) (payload : jsval)
    (timeoutMs : option Z) (cb : option nat) (es : list event) (data : jsval) :
  let c0 := run before (createWorkerRpcClient created) in
  let T := timerDelay (default 60000 timeoutMs) in
  List.Forall (otherCall rid) before -> ~ In Dispose before ->
  List.Forall (quiet rid (now c0 + T)) es ->
  isProgressFor rid data = true ->
  let c2 := run es (call rid ty payload timeoutMs cb c0) in
  let c3 := step c2 (Message data) in
  progressCalls c3
  = progressCalls c2 ++ match cb with
                        | Some h => [(h, get "payload" data)]
                        | None => []
                        end /\
  pending c3 = pending c2 /\ timers c3 = timers c2 /\
  promises c3 = promises c2 /\ posted c3 = posted c2.
Proof.
  intros c0 T Hbefore Hlive Hquiet Hprog c2 c3.
  pose proof (call_waits created before rid ty payload timeoutMs cb es
                Hbefore Hquiet) as Ha.
  cbv zeta in Ha. fold c0 c2 in Ha.
  assert (listening c2 = true) as Hl.
  { unfold c2. rewrite run_listening by exact (quiet_undisposed _ _ _ Hquiet).
    cbn [call listening]. unfold c0. rewrite run_listening by exact Hlive.
    reflexivity. }
  assert (c3 = onMessage data c2) as ->
    by (unfold c3; cbn [step]; rewrite Hl; reflexivity).
  exact (onMessage_progress rid cb _ data c2 Ha Hprog).
Qed.

Lemma progress_forwarded_witness :
  progressCalls (run [Call (js "a") embed VUndefined None (Some 7%nat);
                      Advance 10;
                      Message (workerMessage "progress" "a"
                                 [(js "payload", VNum 50%Q)])]
                   (createWorkerRpcClient 0))
  = [(7%nat, VNum 50%Q)].
Proof.
  refine (proj1 (progress_forwarded 0 [] (js "a") embed VUndefined None (Some 7%nat)
                   [Advance 10]
                   (workerMessage "progress" "a" [(js "payload", VNum 50%Q)])
                   _ _ _ _)).
  - constructor.
  - intros [].
  - repeat constructor; cbn; lia.
  - reflexivity.
Defined.

(** X11.  The client posts to the worker exactly one request per call, in
    the order of the calls, with the type, identifier and payload of the
    call; neither messages of the worker nor timeouts nor a disposal post
    anything. *)
Theorem posted_one_request_per_call (created : Z) (es : list event) :
  posted (run es (createWorkerRpcClient created)) = requests es.
Proof. rewrite run_posted. reflexivity. Qed.

End RpcAnswerProperties.

(** ** The worker RPC client: every call is settled *)

Section RpcTrackedFacts.
Import JS JSValue RpcClient.

(** *** Lists of timers *)

Lemma insert_by_due_perm (t : Timer) (ts : list Timer) :
  Permutation (insert_by_due t ts) (t :: ts).
Proof.
  induction ts as [| u ts IH]; cbn [insert_by_due]; [reflexivity |].
  destruct (timer_due u <=? timer_due t); [| reflexivity].
  rewrite IH. apply perm_swap.
Qed.

Lemma by_due_perm (ts : list Timer) : Permutation (by_due ts) ts.
Proof.
  unfold by_due.
  assert (forall acc, Permutation (fold_left (fun acc t => insert_by_due t acc) ts acc)
                                  (ts ++ acc)) as H.
  { induction ts as [| t ts IH]; intros acc; cbn [fold_left app]; [reflexivity |].
    rewrite IH, insert_by_due_perm. symmetry. apply Permutation_middle. }
  rewrite H, app_nil_r. reflexivity.
Qed.

Lemma NoDup_map_filter (A B : Type) (f : A -> B) (P : A -> bool) (l : list A) :
  List.NoDup (List.map f l) -> List.NoDup (List.map f (List.filter P l)).
Proof.
  induction l as [| x l IH]; cbn [List.map List.filter]; intros H; [exact H |].
  apply List.NoDup_cons_iff in H as [Hx H].
  destruct (P x); [| exact (IH H)].
  cbn [List.map]. apply List.NoDup_cons; [| exact (IH H)].
  intros Hin. apply Hx. apply List.in_map_iff in Hin as (y & Hy & Hin).
  apply List.in_map_iff. exists y. split; [exact Hy |].
  apply List.filter_In in Hin. tauto.
Qed.

Lemma NoDup_map_inj_in (A B : Type) (f : A -> B) (l : list A) (a b : A) :
  List.NoDup (List.map f l) -> In a l -> In b l -> f a = f b -> a = b.
Proof.
  induction l as [| x l IH]; cbn [List.map In]; intros H Ha Hb Hf; [destruct Ha |].
  apply List.NoDup_cons_iff in H as [Hx H].
  destruct Ha as [-> | Ha], Hb as [-> | Hb].
  - reflexivity.
  - exfalso. apply Hx. rewrite Hf. apply List.in_map, Hb.
  - exfalso. apply Hx. rewrite <- Hf. apply List.in_map, Ha.
  - exact (IH H Ha Hb Hf).
Qed.

Lemma dueBy_nodup (t : Z) (c : Client) :
  List.NoDup (List.map timer_id (timers c)) ->
  List.NoDup (List.map timer_id (dueBy t c)).
Proof.
  intros H. unfold dueBy.
  apply (Permutation_NoDup
           (l := List.map timer_id
                   (List.filter (fun u => timer_due u <=? t) (timers c)))).
  - apply Permutation_map. symmetry. apply by_due_perm.
  - apply NoDup_map_filter. exact H.
Qed.

Lemma settle_is_some (p : nat) (s : settlement) (ps : gmap nat settlement) :
  is_Some (settle p s ps !! p).
Proof.
  unfold settle. destruct (ps !! p) as [s' |] eqn:Hp.
  - rewrite Hp. eauto.
  - rewrite lookup_insert_eq. eauto.
Qed.

(** *** The bookkeeping is kept by every step *)

Lemma tracked_create (t : Z) : tracked (createWorkerRpcClient t).
Proof.
  split; cbn.
  - apply wf_create.
  - lia.
  - intros u [].
  - constructor.
  - intros u [].
  - intros rid e H. rewrite lookup_empty in H. discriminate.
  - intros p Hp. lia.
Qed.

Lemma tracked_ext (c c' : Client) :
  pending c' = pending c -> timers c' = timers c -> promises c' = promises c ->
  nextTimerId c' = nextTimerId c -> nextPromise c' = nextPromise c ->
  tracked c -> tracked c'.
Proof.
  intros Hp Ht Hpr Hnt Hnp [[Hw1 Hw2 Hw3] Hnext Hpos Hids Htimer Hentry Hwait].
  split; [split |..]; rewrite ?Hp, ?Ht, ?Hpr, ?Hnt, ?Hnp; assumption.
Qed.

Lemma call_tracked (rid : jsstring) (ty : WorkerRequestType) (payload : jsval)
    (timeoutMs : option Z) (cb : option nat) (c : Client) :
  tracked c -> pending c !! rid = None ->
  tracked (call rid ty payload timeoutMs cb c).
Proof.
  intros [Hwf Hnext Hpos Hids Htimer Hentry Hwait] Hfresh.
  pose proof (wf_timers c Hwf) as Hts.
  assert (forall u, In u (timers c) -> timer_requestId u <> rid) as Hother.
  { intros u Hu Heq. destruct (Htimer u Hu) as (cb' & He).
    rewrite Heq, Hfresh in He. discriminate. }
  split; cbn [call pending timers nextTimerId promises nextPromise].
  - apply wf_call. exact Hwf.
  - lia.
  - intros u Hu. apply in_app_or in Hu as [Hu | [<- | []]]; [apply Hpos, Hu | cbn; lia].
  - rewrite List.map_app. cbn [List.map timer_id].
    apply NoDup_ListNoDup, NoDup_app. repeat split.
    + apply NoDup_ListNoDup. exact Hids.
    + intros x Hx Hx'. apply list_elem_of_In in Hx.
      apply list_elem_of_In in Hx' as [<- | []].
      apply List.in_map_iff in Hx as (u & Hid & Hu). apply Hts in Hu. lia.
    + apply NoDup_singleton.
  - intros u Hu. apply in_app_or in Hu as [Hu | [<- | []]].
    + destruct (Htimer u Hu) as (cb' & He). exists cb'.
      rewrite lookup_insert_ne by (intros Heq; exact (Hother u Hu (eq_sym Heq))).
      exact He.
    + exists cb. cbn. apply lookup_insert_eq.
  - intros rid' e He. destruct (decide (rid = rid')) as [<- | Hne].
    + rewrite lookup_insert_eq in He. injection He as <-.
      eexists. split; [apply in_or_app; right; left; reflexivity |]. cbn. easy.
    + rewrite lookup_insert_ne in He by exact Hne.
      destruct (Hentry rid' e He) as (u & Hu & Hrest).
      exists u. split; [apply in_or_app; left; exact Hu | exact Hrest].
  - intros p Hp Hnone. destruct (decide (p = nextPromise c)) as [-> | Hne].
    + eexists. split; [apply in_or_app; right; left; reflexivity | reflexivity].
    + destruct (Hwait p ltac:(lia) Hnone) as (u & Hu & Hpu).
      exists u. split; [apply in_or_app; left; exact Hu | exact Hpu].
Qed.

(** Removing the entry [rid], clearing its timer [tid] and settling its
    promise [p]: what a response and a timeout do. *)
Lemma remove_tracked (rid : jsstring) (tid : Z) (p : nat) (s : settlement)
    (c c' : Client) :
  tracked c ->
  (exists u, In u (timers c) /\ timer_id u = tid /\ timer_requestId u = rid /\
             timer_promise u = p) ->
  pending c' = delete rid (pending c) ->
  timers c' = clearTimeout tid (timers c) ->
  promises c' = settle p s (promises c) ->
  nextTimerId c' = nextTimerId c -> nextPromise c' = nextPromise c ->
  tracked c'.
Proof.
  intros [Hwf Hnext Hpos Hids Htimer Hentry Hwait] (u0 & Hu0 & Hid0 & Hrid0 & Hp0)
         Hp Ht Hpr Hnt Hnp.
  destruct Hwf as [Hw1 Hw2 Hw3].
  assert (forall u, In u (timers c) -> timer_id u = tid -> u = u0) as Hsame.
  { intros u Hu Hid. apply (NoDup_map_inj_in _ _ timer_id (timers c)); congruence. }
  assert (forall u, In u (timers c) -> timer_id u <> tid ->
                    timer_requestId u <> rid) as Hother.
  { intros u Hu Hne Heq.
    destruct (Htimer u Hu) as (cb & He). destruct (Htimer u0 Hu0) as (cb0 & He0).
    rewrite Heq, <- Hrid0, He0 in He. injection He as _ _ Hid. congruence. }
  split; [split |..]; rewrite ?Hp, ?Ht, ?Hpr, ?Hnt, ?Hnp.
  - intros u Hu. apply clearTimeout_in in Hu as [Hu _]. exact (Hw1 u Hu).
  - intros rid' e He. apply lookup_delete_Some in He as [_ He]. exact (Hw2 rid' e He).
  - intros q s' Hq. apply settle_lookup_some in Hq as [-> | Hq].
    + rewrite <- Hp0. apply (Hw1 u0 Hu0).
    + exact (Hw3 q s' Hq).
  - exact Hnext.
  - intros u Hu. apply clearTimeout_in in Hu as [Hu _]. exact (Hpos u Hu).
  - unfold clearTimeout. apply NoDup_map_filter. exact Hids.
  - intros u Hu. apply clearTimeout_in in Hu as [Hu Hne].
    destruct (Htimer u Hu) as (cb & He). exists cb.
    rewrite lookup_delete_ne by (intros Heq; exact (Hother u Hu Hne (eq_sym Heq))).
    exact He.
  - intros rid' e He. apply lookup_delete_Some in He as [Hne He].
    destruct (Hentry rid' e He) as (u & Hu & Hid & Hrid & Hpu).
    exists u. split; [| easy].
    apply clearTimeout_in. split; [exact Hu |].
    intros Heq. apply Hne. rewrite <- Hrid, (Hsame u Hu Heq). symmetry. exact Hrid0.
  - intros q Hq Hnone.
    assert (q <> p) as Hne.
    { intros ->. destruct (settle_is_some p s (promises c)) as [x Hx]. congruence. }
    rewrite settle_lookup_other in Hnone by congruence.
    destruct (Hwait q Hq Hnone) as (u & Hu & Hpu).
    exists u. split; [| exact Hpu].
    apply clearTimeout_in. split; [exact Hu |].
    intros Heq. apply Hne. rewrite <- Hpu, (Hsame u Hu Heq). exact Hp0.
Qed.

Lemma onMessage_tracked (data : jsval) (c : Client) :
  tracked c -> tracked (onMessage data c).
Proof.
  intros Htr. unfold onMessage.
  destruct (negb (isWorkerMessage data)); [exact Htr |].
  destruct (get "type" data) as [| | | | ty | |]; try exact Htr.
  destruct (get "requestId" data) as [| | | | rid | |]; try exact Htr.
  destruct (pending c !! rid) as [entry |] eqn:Hentry; [| exact Htr].
  destruct (str_eqb ty (js "progress")).
  { destruct (entry_onProgress entry); [| exact Htr].
    revert Htr. apply tracked_ext; reflexivity. }
  destruct (str_eqb ty (js "response")); [| exact Htr].
  destruct (tracked_entry c Htr rid entry Hentry) as (u & Hu & Hid & Hrid & Hpu).
  pose proof (tracked_pos c Htr u Hu) as Hpos.
  eapply (remove_tracked rid (entry_timeoutId entry) (entry_promise entry)).
  - exact Htr.
  - exists u. easy.
  - reflexivity.
  - cbn [timers]. rewrite (proj2 (Z.eqb_neq _ _)) by lia. reflexivity.
  - reflexivity.
  - reflexivity.
  - reflexivity.
Qed.

Lemma onTimeout_tracked (u : Timer) (c : Client) :
  tracked c -> In u (timers c) -> tracked (onTimeout u c).
Proof.
  intros Htr Hu.
  eapply (remove_tracked (timer_requestId u) (timer_id u) (timer_promise u)).
  - exact Htr.
  - exists u. easy.
  - reflexivity.
  - reflexivity.
  - reflexivity.
  - reflexivity.
  - reflexivity.
Qed.

Lemma fire_tracked (ts : list Timer) :
  forall c, tracked c -> (forall u, In u ts -> In u (timers c)) ->
  List.NoDup (List.map timer_id ts) -> tracked (fire ts c).
Proof.
  induction ts as [| u ts IH]; intros c Htr Hin Hnd; [exact Htr |].
  cbn [fire fold_left]. fold (fire ts (onTimeout u c)).
  cbn [List.map] in Hnd. apply List.NoDup_cons_iff in Hnd as [Hu Hnd].
  apply IH; [| | exact Hnd].
  - apply onTimeout_tracked; [exact Htr | apply Hin; left; reflexivity].
  - intros v Hv. cbn [onTimeout timers]. apply clearTimeout_in.
    split; [apply Hin; right; exact Hv |].
    intros Heq. apply Hu. rewrite <- Heq. apply List.in_map, Hv.
Qed.

Lemma advance_tracked (t : Z) (c : Client) : tracked c -> tracked (advance t c).
Proof.
  intros Htr. destruct (advance_fire t c) as (Hp & Ht & Hpr & Hnt & Hnp).
  destruct (fire_fields (dueBy t c) c) as (Hnt' & Hnp' & _).
  apply (tracked_ext (fire (dueBy t c) c)); try congruence.
  apply fire_tracked; [exact Htr | |].
  - intros u Hu. apply dueBy_in in Hu. tauto.
  - apply dueBy_nodup, (tracked_ids c Htr).
Qed.

(** *** Disposal *)

Lemma dispose_clears (c : Client) (u : Timer) (rid : jsstring) (e : Entry) :
  In u (timers (dispose c)) -> pending c !! rid = Some e ->
  entry_timeoutId e <> 0 -> timer_id u <> entry_timeoutId e.
Proof.
  cbn [dispose timers]. intros Hu He Hne.
  apply elem_of_map_to_list, list_elem_of_In in He.
  revert Hu He. generalize (timers c).
  induction (map_to_list (pending c)) as [| x es IH]; intros ts Hu He; [destruct He |].
  cbn [fold_left] in Hu. destruct He as [-> | He]; [| exact (IH _ Hu He)].
  cbn [snd] in Hu. rewrite (proj2 (Z.eqb_neq _ _) Hne) in Hu.
  assert (forall (l : list (jsstring * Entry)) (ts' : list Timer),
            In u (fold_left (fun ts e =>
                    if entry_timeoutId (snd e) =? 0 then ts
                    else clearTimeout (entry_timeoutId (snd e)) ts) l ts') ->
            In u ts') as Hmono.
  { induction l as [| y l IHl]; intros ts'; cbn [fold_left]; [easy |].
    intros H. apply IHl in H. destruct (entry_timeoutId (snd y) =? 0); [exact H |].
    apply clearTimeout_in in H. tauto. }
  apply Hmono, clearTimeout_in in Hu. tauto.
Qed.

Lemma dispose_rejects (c : Client) (rid : jsstring) (e : Entry) :
  pending c !! rid = Some e -> promises c !! entry_promise e = None ->
  promises (dispose c) !! entry_promise e = Some (Rejected DisposedError).
Proof.
  cbn [dispose promises]. intros He.
  apply elem_of_map_to_list, list_elem_of_In in He.
  revert He. generalize (promises c).
  induction (map_to_list (pending c)) as [| x es IH]; intros ps He Hnone; [destruct He |].
  cbn [fold_left].
  assert (forall (l : list (jsstring * Entry)) (ps' : gmap nat settlement) q s,
            ps' !! q = Some s ->
            fold_left (fun ps e =>
              settle (entry_promise (snd e)) (Rejected DisposedError) ps) l ps' !! q
            = Some s) as Hkeep.
  { induction l as [| y l IHl]; intros ps' q s Hq; cbn [fold_left]; [exact Hq |].
    apply IHl, settle_lookup_settled, Hq. }
  destruct (decide (entry_promise (snd x) = entry_promise e)) as [Heq | Hne].
  - apply Hkeep. rewrite Heq. apply settle_lookup_fresh. exact Hnone.
  - destruct He as [-> | He]; [exfalso; apply Hne; reflexivity |].
    apply IH; [exact He |]. rewrite settle_lookup_other by exact Hne. exact Hnone.
Qed.

Lemma dispose_no_timers (c : Client) : tracked c -> timers (dispose c) = [].
Proof.
  intros Htr. destruct (timers (dispose c)) as [| u ts] eqn:Hts; [reflexivity |].
  exfalso.
  assert (In u (timers (dispose c))) as Hu by (rewrite Hts; left; reflexivity).
  pose proof (dispose_timers c u Hu) as Hu'.
  destruct (tracked_timer c Htr u Hu') as (cb & He).
  pose proof (tracked_pos c Htr u Hu') as Hpos.
  apply (dispose_clears c u _ _ Hu He); cbn; lia.
Qed.

Lemma dispose_tracked (c : Client) : tracked c -> tracked (dispose c).
Proof.
  intros Htr. pose proof (dispose_no_timers c Htr) as Hno.
  split; rewrite ?Hno.
  - apply wf_dispose, (tracked_wf c Htr).
  - exact (tracked_next c Htr).
  - intros u [].
  - constructor.
  - intros u [].
  - intros rid e He. cbn in He. rewrite lookup_empty in He. discriminate.
  - intros p Hp Hnone. exfalso.
    destruct (promises c !! p) as [s |] eqn:Hs.
    + rewrite (dispose_settled c p s Hs) in Hnone. discriminate.
    + destruct (tracked_waiting c Htr p Hp Hs) as (u & Hu & Hpu).
      destruct (tracked_timer c Htr u Hu) as (cb & He).
      pose proof (dispose_rejects c _ _ He) as Hrej. cbn [entry_promise] in Hrej.
      rewrite Hpu in Hrej. rewrite Hrej in Hnone by exact Hs. discriminate.
Qed.

(** *** Runs with distinct call identifiers *)

Lemma onMessage_pending_none (data : jsval) (c : Client) (rid : jsstring) :
  pending c !! rid = None -> pending (onMessage data c) !! rid = None.
Proof.
  intros Hnone. unfold onMessage.
  destruct (negb (isWorkerMessage data)); [exact Hnone |].
  destruct (get "type" data) as [| | | | ty | |]; try exact Hnone.
  destruct (get "requestId" data) as [| | | | rid' | |]; try exact Hnone.
  destruct (pending c !! rid') as [entry |]; [| exact Hnone].
  destruct (str_eqb ty (js "progress")).
  { destruct (entry_onProgress entry); exact Hnone. }
  destruct (str_eqb ty (js "response")); [| exact Hnone].
  cbn [pending]. apply lookup_delete_None. right. exact Hnone.
Qed.

Lemma step_pending_none (e : event) (c : Client) (rid : jsstring) :
  otherCall rid e -> pending c !! rid = None -> pending (step c e) !! rid = None.
Proof.
  intros He Hnone. destruct e as [rid' ty payload tmo cb | data | t |]; cbn [step].
  - cbn [call pending]. cbn in He. rewrite lookup_insert_ne by exact He. exact Hnone.
  - destruct (listening c); [apply onMessage_pending_none |]; exact Hnone.
  - destruct (advance_fire t c) as (-> & _). apply fire_pending_gone. exact Hnone.
  - apply lookup_empty.
Qed.

Lemma step_tracked (e : event) (c : Client) :
  tracked c ->
  match e with Call rid _ _ _ _ => pending c !! rid = None | _ => True end ->
  tracked (step c e).
Proof.
  intros Htr He. destruct e as [rid ty payload tmo cb | data | t |]; cbn [step].
  - apply call_tracked; assumption.
  - destruct (listening c); [apply onMessage_tracked |]; exact Htr.
  - apply advance_tracked. exact Htr.
  - apply dispose_tracked. exact Htr.
Qed.

Lemma run_tracked (es : list event) :
  forall c, tracked c -> List.NoDup (callIds es) ->
  (forall rid, In rid (callIds es) -> pending c !! rid = None) ->
  tracked (run es c).
Proof.
  induction es as [| e es IH]; intros c Htr Hnd Hfresh; [exact Htr |].
  cbn [run fold_left]. fold (run es (step c e)).
  assert (List.NoDup (callIds es) /\
          (forall rid, In rid (callIds es) -> otherCall rid e) /\
          match e with Call rid _ _ _ _ => pending c !! rid = None | _ => True end)
    as (Hnd' & Hother & He).
  { destruct e as [rid ty payload tmo cb | data | t |]; cbn [callIds flat_map app] in *;
      try (split; [exact Hnd | split; [intros; exact I | exact I]]).
    apply List.NoDup_cons_iff in Hnd as [Hrid Hnd].
    split; [exact Hnd |]. split; [| apply Hfresh; left; reflexivity].
    intros rid' Hin. cbn. intros ->. exact (Hrid Hin). }
  apply IH; [apply step_tracked; assumption | exact Hnd' |].
  intros rid Hin. apply step_pending_none; [exact (Hother rid Hin) |].
  apply Hfresh. destruct e; cbn [callIds flat_map app In]; auto.
Qed.

Lemma reachable_tracked (created : Z) (es : list event) :
  List.NoDup (callIds es) -> tracked (run es (createWorkerRpcClient created)).
Proof.
  intros Hnd. apply run_tracked; [apply tracked_create | exact Hnd |].
  intros rid _. apply lookup_empty.
Qed.

(** *** The timer of a call *)

Lemma step_sole (t0 : Timer) (e : event) (c : Client) :
  sole t0 c -> otherCall (timer_requestId t0) e -> sole t0 (step c e).
Proof.
  intros [Hlt Hsole] He. destruct e as [rid ty payload tmo cb | data | t |]; cbn [step].
  - split; cbn [call nextPromise timers]; [lia |].
    intros u Hu Heq. apply in_app_or in Hu as [Hu | [<- | []]]; [exact (Hsole u Hu Heq) |].
    exfalso. cbn in Heq, He. destruct Heq as [Heq | Heq]; [lia | exact (He Heq)].
  - destruct (listening c); [| split; assumption].
    split; [destruct (onMessage_fields data c) as (_ & -> & _); exact Hlt |].
    intros u Hu. apply Hsole. exact (onMessage_timers data c u Hu).
  - destruct (advance_fire t c) as (_ & Ht & _ & _ & Hnp).
    split; [rewrite Hnp; exact Hlt |].
    intros u Hu. apply Hsole. rewrite Ht in Hu. apply fire_timers in Hu. tauto.
  - split; [exact Hlt |].
    intros u Hu. apply Hsole. exact (dispose_timers c u Hu).
Qed.

Lemma run_sole (t0 : Timer) (es : list event) :
  forall c, sole t0 c -> List.Forall (otherCall (timer_requestId t0)) es ->
  sole t0 (run es c).
Proof.
  induction es as [| e es IH]; intros c Hs Hes; [exact Hs |].
  cbn [run fold_left]. fold (run es (step c e)).
  apply List.Forall_cons_iff in Hes as [He Hes].
  apply IH; [apply step_sole; assumption | exact Hes].
Qed.

Lemma callIds_app (a b : list event) : callIds (a ++ b) = callIds a ++ callIds b.
Proof. unfold callIds. apply List.flat_map_app. Qed.

Lemma callIds_other (rid : jsstring) (es : list event) :
  ~ In rid (callIds es) -> List.Forall (otherCall rid) es.
Proof.
  induction es as [| e es IH]; intros Hn; constructor.
  - destruct e as [rid' ty payload tmo cb | data | t |]; cbn; try exact I.
    intros ->. apply Hn. left. reflexivity.
  - apply IH. intros Hin. apply Hn. cbn [callIds flat_map].
    apply List.in_app_iff. right. exact Hin.
Qed.

(** A timer that is due has fired when the clock has advanced. *)
Lemma advance_fired (t : Z) (c : Client) (u : Timer) :
  timer_due u <= t -> ~ In u (timers (advance t c)).
Proof.
  intros Hdue Hin. destruct (advance_fire t c) as (_ & Ht & _).
  rewrite Ht in Hin. apply fire_timers in Hin as [Hin Hnot].
  apply Hnot, List.in_map, dueBy_in. split; assumption.
Qed.

End RpcTrackedFacts.

Section RpcTrackedProperties.
Import JS JSValue RpcClient.

(** X12.  Disposal of a client whose calls were made under distinct
    identifiers.  Every call ever made is settled afterwards: the promises
    settled before keep their settlement and all the others are rejected
    with the disposal error.  No call is pending and no timer is armed any
    more, the worker is terminated, and messages of the worker are
    ignored from then on. *)
Theorem dispose_settles_every_call (created : Z) (es : list event) :
  List.NoDup (callIds es) ->
  let c := run es (createWorkerRpcClient created) in
  let c' := step c Dispose in
  (forall p, (p < nextPromise c)%nat ->
     promises c' !! p = Some (default (Rejected DisposedError) (promises c !! p))) /\
  pending c' = ∅ /\ timers c' = [] /\ terminated c' = true /\
  (forall data, step c' (Message data) = c').
Proof.
  intros Hnd c c'. pose proof (reachable_tracked created es Hnd) as Htr. fold c in Htr.
  unfold c'. cbn [step].
  split; [| split; [reflexivity | split; [exact (dispose_no_timers c Htr) |
                                          split; reflexivity]]].
  intros p Hp. destruct (promises c !! p) as [s |] eqn:Hs; cbn [default].
  - apply dispose_settled. exact Hs.
  - destruct (tracked_waiting c Htr p Hp Hs) as (u & Hu & Hpu).
    destruct (tracked_timer c Htr u Hu) as (cb & He).
    pose proof (dispose_rejects c _ _ He) as Hrej. cbn [entry_promise] in Hrej.
    rewrite Hpu in Hrej. exact (Hrej Hs).
Qed.

Lemma dispose_settles_every_call_witness :
  let c' := run (answeredEvents ++ [Dispose]) (createWorkerRpcClient 0) in
  promises c' !! 0%nat = Some (Resolved (VNum 1%Q)) /\
  promises c' !! 1%nat = Some (Rejected DisposedError) /\
  timers c' = [].
Proof.
  cbv zeta. rewrite run_app.
  destruct (dispose_settles_every_call 0 answeredEvents) as (Hp & _ & Ht & _).
  - vm_compute. repeat constructor; cbn; intuition discriminate.
  - split; [| split].
    + exact (Hp 0%nat ltac:(vm_compute; lia)).
    + exact (Hp 1%nat ltac:(vm_compute; lia)).
    + exact Ht.
Defined.

(** X13.  No call waits for ever.  On a client whose calls are made under
    distinct identifiers, take a call with a timeout (60000 when none is
    given); [T] is the delay of its timer, which is never more than a
    timeout that is not negative.  Whatever happens after the call
    (messages of the worker, other calls, a disposal, the passing of
    time), once the clock has reached the call time plus [T], and so once
    it has reached the call time plus the timeout, the promise of the call
    is settled, the call is no longer pending and no timer is left for
    it. *)
Theorem call_settled_by_deadline (created : Z) (before : list event)
    (rid : jsstring) (ty : WorkerRequestType) (payload : jsval)
    (timeoutMs : option Z) (cb : option nat) (es : list event) (t : Z) :
  let c0 := run before (createWorkerRpcClient created) in
  let T := timerDelay (default 60000 timeoutMs) in
  let promise := nextPromise c0 in
  List.NoDup (callIds (before ++ Call rid ty payload timeoutMs cb :: es)) ->
  now c0 + T <= t ->
  let c3 := step (run es (call rid ty payload timeoutMs cb c0)) (Advance t) in
  (0 <= default 60000 timeoutMs -> T <= default 60000 timeoutMs) /\
  is_Some (promises c3 !! promise) /\
  pending c3 !! rid = None /\
  (forall u, In u (timers c3) -> timer_promise u <> promise).
Proof.
  intros c0 T promise Hnd Ht c3.
  split; [intros H0; apply timerDelay_le, H0 |].
  set (c2 := run es (call rid ty payload timeoutMs cb c0)).
  set (t0 := {| timer_id := nextTimerId c0; timer_due := now c0 + T;
                timer_requestId := rid; timer_type := ty;
                timer_promise := promise |}).
  assert (tracked c2) as Htr2.
  { pose proof (reachable_tracked created _ Hnd) as H.
    rewrite run_app in H. exact H. }
  pose proof Hnd as Hnd'. rewrite callIds_app in Hnd'.
  apply NoDup_ListNoDup, NoDup_app in Hnd' as (_ & Hdisj & Hcall).
  cbn [callIds flat_map app] in Hdisj, Hcall. fold (callIds es) in Hdisj, Hcall.
  apply NoDup_cons in Hcall as [Hrid _].
  assert (List.Forall (otherCall rid) before) as Hbefore.
  { apply callIds_other. intros Hin. apply list_elem_of_In in Hin.
    apply (Hdisj rid Hin). left. }
  assert (List.Forall (otherCall rid) es) as Hes.
  { apply callIds_other. intros Hin. apply Hrid, list_elem_of_In, Hin. }
  assert (sole t0 c2) as Hsole2.
  { apply run_sole; [| exact Hes].
    pose proof (wf_timers c0 (wf_run before _ (wf_create created))) as Hw.
    pose proof (run_timers_other rid before (createWorkerRpcClient created)
                  ltac:(intros u []) Hbefore) as Hfresh.
    split; cbn [call nextPromise timers timer_promise t0]; [unfold promise; lia |].
    intros u Hu Heq. apply in_app_or in Hu as [Hu | [<- | []]]; [| reflexivity].
    exfalso. cbn [timer_promise timer_requestId t0] in Heq.
    destruct Heq as [Heq | Heq].
    - apply Hw in Hu. unfold promise in Heq. lia.
    - exact (Hfresh u Hu Heq). }
  assert (tracked c3) as Htr3 by (apply advance_tracked; exact Htr2).
  assert (sole t0 c3) as [Hlt Hsole3] by (apply step_sole; [exact Hsole2 | exact I]).
  assert (~ In t0 (timers c3)) as Hfired by (apply advance_fired; cbn; lia).
  assert (forall u, In u (timers c3) -> timer_promise u <> promise) as Hnone.
  { intros u Hu Heq. apply Hfired. rewrite <- (Hsole3 u Hu); [exact Hu |].
    left. exact Heq. }
  split; [| split; [| exact Hnone]].
  - destruct (promises c3 !! promise) as [s |] eqn:Hs; [eauto |]. exfalso.
    destruct (tracked_waiting c3 Htr3 promise Hlt Hs) as (u & Hu & Hpu).
    exact (Hnone u Hu Hpu).
  - destruct (pending c3 !! rid) as [e |] eqn:He; [| reflexivity]. exfalso.
    destruct (tracked_entry c3 Htr3 rid e He) as (u & Hu & _ & Hrid' & _).
    apply Hfired. rewrite <- (Hsole3 u Hu); [exact Hu |]. right. exact Hrid'.
Qed.

Lemma call_settled_by_deadline_witness :
  let c3 := run (answeredEvents ++ [Dispose; Advance 1010]) (createWorkerRpcClient 0) in
  is_Some (promises c3 !! 1%nat) /\ pending c3 !! js "b" = None.
Proof.
  cbv zeta.
  destruct (call_settled_by_deadline 0
              (firstn 4 answeredEvents) (js "b") status VUndefined (Some 1000) None
              [Dispose] 1010) as (_ & Hp & Hgone & _).
  - vm_compute. repeat constructor; cbn; intuition discriminate.
  - vm_compute. discriminate.
  - split; [exact Hp | exact Hgone].
Defined.

End RpcTrackedProperties.

Section RpcDisposedFacts.
Import JS JSValue RpcClient.

(** Nothing registers the listener again. *)
Lemma step_deaf (e : event) (c : Client) :
  listening c = false -> listening (step c e) = false.
Proof.
  intros Hl. destruct e as [rid ty payload tmo cb | data | t |]; cbn [step].
  - exact Hl.
  - rewrite Hl. exact Hl.
  - destruct (advance_fields t c) as (_ & _ & _ & ->). exact Hl.
  - reflexivity.
Qed.

Lemma step_armed_disposed (rid : jsstring) (cb : option nat) (t0 : Timer)
    (c : Client) (e : event) :
  listening c = false -> armed rid cb t0 c -> quietDisposed rid (timer_due t0) e ->
  listening (step c e) = false /\ armed rid cb t0 (step c e).
Proof.
  intros Hl Ha Hq. split.
  - apply step_deaf, Hl.
  - destruct e as [rid' ty payload tmo cb' | data | t |]; cbn [step quietDisposed] in *.
    + apply call_other_armed; assumption.
    + rewrite Hl. exact Ha.
    + apply advance_armed; assumption.
    + destruct Hq.
Qed.

Lemma run_armed_disposed (rid : jsstring) (cb : option nat) (t0 : Timer)
    (es : list event) :
  forall c, listening c = false -> armed rid cb t0 c ->
  List.Forall (quietDisposed rid (timer_due t0)) es ->
  armed rid cb t0 (run es c).
Proof.
  induction es as [| e es IH]; intros c Hl Ha Hq; [exact Ha |].
  cbn [run fold_left]. fold (run es (step c e)).
  apply List.Forall_cons_iff in Hq as [He Hes].
  destruct (step_armed_disposed rid cb t0 c e Hl Ha He) as [Hl' Ha'].
  apply IH; assumption.
Qed.

End RpcDisposedFacts.

Section RpcDisposedProperties.
Import JS JSValue RpcClient.

(** X23.  A call on a client that has been disposed of.  The request is
    still posted and a timer is armed, but the listener is gone: no
    message of the worker, not even a response for the call, settles the
    promise.  The call stays pending until the clock reaches the call time
    plus the delay [T] of its timer (the timeout as [setTimeout] takes
    it), and is then rejected with the timeout error. *)
Theorem call_after_dispose_times_out (created : Z) (before : list event)
    (rid : jsstring) (ty : WorkerRequestType) (payload : jsval)
    (timeoutMs : option Z) (cb : option nat) (es : list event) :
  let c0 := run (before ++ [Dispose]) (createWorkerRpcClient created) in
  let T := timerDelay (default 60000 timeoutMs) in
  let promise := nextPromise c0 in
  List.Forall (otherCall rid) before ->
  List.Forall (quietDisposed rid (now c0 + T)) es ->
  let c1 := call rid ty payload timeoutMs cb c0 in
  let c2 := run es c1 in
  let c3 := step c2 (Advance (now c0 + T)) in
  last (posted c1) = Some {| req_type := ty; req_requestId := rid;
                             req_payload := payload |} /\
  (is_Some (pending c2 !! rid) /\ promises c2 !! promise = None) /\
  promises c3 !! promise = Some (Rejected (TimeoutError ty)) /\
  pending c3 !! rid = None.
Proof.
  intros c0 T promise Hbefore Hquiet c1 c2 c3.
  assert (List.Forall (otherCall rid) (before ++ [Dispose])) as Hbefore'
    by (apply List.Forall_app; split; [exact Hbefore | repeat constructor]).
  assert (listening c0 = false) as Hl by (unfold c0; rewrite run_app; reflexivity).
  assert (armed rid cb
            {| timer_id := nextTimerId c0; timer_due := now c0 + T;
               timer_requestId := rid; timer_type := ty; timer_promise := promise |}
            c1) as Ha.
  { apply call_armed; [apply wf_run, wf_create |].
    apply run_timers_other; [intros u [] | exact Hbefore']. }
  pose proof (run_armed_disposed rid cb _ es c1 Hl Ha Hquiet) as Ha2. fold c2 in Ha2.
  destruct (advance_due rid cb _ c2 Ha2) as [Hrej Hgone].
  split; [apply last_snoc |]. split; [split |].
  - rewrite (armed_entry _ _ _ _ Ha2). eauto.
  - exact (armed_unsettled _ _ _ _ Ha2).
  - split; [exact Hrej | exact Hgone].
Qed.

Lemma call_after_dispose_times_out_witness :
  let c2 := run [Dispose;
                 Call (js "a") embed VUndefined (Some 1000) None;
                 Message (workerMessage "response" "a" [(js "ok", VBool true)])]
              (createWorkerRpcClient 0) in
  promises c2 !! 0%nat = None /\
  promises (step c2 (Advance 1000)) !! 0%nat = Some (Rejected (TimeoutError embed)).
Proof.
  cbv zeta.
  destruct (call_after_dispose_times_out 0 [] (js "a") embed VUndefined (Some 1000) None
              [Message (workerMessage "response" "a" [(js "ok", VBool true)])])
    as (_ & (_ & Hwait) & Hrej & _).
  - constructor.
  - repeat constructor.
  - split; [exact Hwait | exact Hrej].
Defined.

End RpcDisposedProperties.

(** ** The embedding worker: reuse of the model, failures, responses *)

Section WorkerScriptFacts.
Import JS JSValue Regex Worker.

Lemma or_else_idem (x : option jsstring) (b : jsstring) :
  or_else (Some (or_else x b)) b = or_else x b.
Proof.
  unfold or_else. destruct x as [s |].
  - destruct (bool_decide_reflect (s = [])) as [-> | Hs].
    + destruct (bool_decide (b = [])); reflexivity.
    + rewrite bool_decide_eq_false_2 by exact Hs. reflexivity.
  - destruct (bool_decide (b = [])); reflexivity.
Qed.

Lemma or_else_some (d b : jsstring) : d <> [] -> or_else (Some d) b = d.
Proof.
  intros Hd. unfold or_else. rewrite bool_decide_eq_false_2 by exact Hd. reflexivity.
Qed.

Lemma or_else_nonempty (x : option jsstring) (b : jsstring) :
  b <> [] -> or_else x b <> [].
Proof.
  intros Hb. unfold or_else. destruct x as [s |]; [| exact Hb].
  destruct (bool_decide_reflect (s = [])); assumption.
Qed.

Lemma initDevice_nonempty (p : option Payload) : initDevice p <> [].
Proof. apply or_else_nonempty. discriminate. Qed.

Lemma loadedFor_config (m d : jsstring) (st : State) (p : Pipeline) :
  featureExtractionPipeline st = Some p ->
  currentConfig st = {| cfg_modelId := Some m; cfg_device := Some d |} ->
  loadedFor m d st = Some p.
Proof.
  intros Hp Hc. unfold loadedFor. rewrite Hp, Hc. cbn.
  rewrite !bool_decide_eq_true_2 by reflexivity. reflexivity.
Qed.

Lemma reportTo_quiet (report : option jsval) (ps : list Progress) :
  List.Forall (fun o => isResponse o = false) (reportTo report ps).
Proof.
  unfold reportTo. destruct report as [r |]; [| constructor].
  apply List.Forall_forall. intros o Ho.
  apply List.in_map_iff in Ho as (q & <- & _). reflexivity.
Qed.

Lemma publicWorker_loadRun_quiet (rs : list jsval) (es : list LoadEvent) :
  forall streams,
  List.Forall (fun o => isResponse o = false) (snd (WorkerV3.loadRun rs streams es)).
Proof.
  assert (forall q, List.Forall (fun o => isResponse o = false)
                      (WorkerV3.reportAll rs q)) as Hall.
  { intros q. apply List.Forall_forall. intros o Ho.
    apply List.in_map_iff in Ho as (r & <- & _). reflexivity. }
  induction es as [| e es IH]; intros streams; cbn [WorkerV3.loadRun]; [constructor |].
  destruct (WorkerV3.loadStep rs streams e) as [streams' obs] eqn:Hstep.
  specialize (IH streams').
  destruct (WorkerV3.loadRun rs streams' es) as [streams'' obs']. cbn [snd] in *.
  apply List.Forall_app. split; [| exact IH].
  destruct e as [url hasBody len | n len | n | n | s pr f];
    cbn [WorkerV3.loadStep] in Hstep.
  - destruct (_ || _); [injection Hstep as <- <-; constructor |].
    destruct (_ =? 0); injection Hstep as <- <-; [apply Hall | constructor].
  - destruct (streams !! n) as [[info |] |]; injection Hstep as <- <-;
      [apply Hall | constructor | constructor].
  - destruct (streams !! n) as [[info |] |]; injection Hstep as <- <-;
      [apply Hall | constructor | constructor].
  - destruct (streams !! n) as [[info |] |]; injection Hstep as <- <-; constructor.
  - injection Hstep as <- <-. constructor.
Qed.

Lemma publicWorker_loads (pipeline : Loader) :
  loads pipeline (WorkerV3.ensurePipeline pipeline).
Proof.
  split.
  - intros m d r st p Hc. unfold WorkerV3.ensurePipeline. rewrite Hc. reflexivity.
  - intros m d r st p Hnone Hd Hres. unfold WorkerV3.ensurePipeline.
    rewrite Hnone, (or_else_some d _ Hd).
    destruct (WorkerV3.loadRun _ _ _) as [streams obs]. rewrite Hres.
    eexists _, _. split; [reflexivity |]. split; reflexivity.
  - intros m d r st e Hnone Hd Hres. unfold WorkerV3.ensurePipeline.
    rewrite Hnone, (or_else_some d _ Hd).
    destruct (WorkerV3.loadRun _ _ _) as [streams obs]. rewrite Hres.
    eexists _, _. split; [reflexivity |]. split; reflexivity.
  - intros m d r st. unfold WorkerV3.ensurePipeline.
    destruct (loadedFor m d st); [constructor |].
    pose proof (publicWorker_loadRun_quiet
                  (reporters
                     (default NativeFetch
                        (env_fetch
                           (set_env_fetch
                              (Some (Intercepted r
                                 (default (globalThis_fetch st) (env_fetch st)))) st))))
                  (load_events (pipeline m (or_else (Some d) (js "wasm")))) []) as Hq.
    destruct (WorkerV3.loadRun _ _ _) as [streams obs]. cbn [snd] in Hq.
    destruct (load_result _); cbn [snd].
    + constructor; [reflexivity |]. apply List.Forall_app. split; [exact Hq |].
      apply reportTo_quiet.
    + constructor; [reflexivity | exact Hq].
Qed.

(** What the wrappers and the callback of a load post: progress, to the
    request of one of the wrappers or to the request of the call. *)
Lemma reportTo_posts (rs : list jsval) (report : option jsval) (r : jsval)
    (ps : list Progress) :
  In r rs \/ report = Some r ->
  List.Forall (fun o => exists r p, o = Post (PostProgress r p) /\
                                    (In r rs \/ report = Some r))
    (reportTo (Some r) ps).
Proof.
  intros Hr. apply List.Forall_forall. intros o Ho.
  apply List.in_map_iff in Ho as (p & <- & _). eauto.
Qed.

Lemma throughWrappers_posts (rs' rs : list jsval) (report : option jsval)
    (update : gmap jsstring Info -> gmap jsstring Info) (d : gmap jsstring Info) :
  (forall r, In r rs' -> In r rs) ->
  List.Forall (fun o => exists r p, o = Post (PostProgress r p) /\
                                    (In r rs \/ report = Some r))
    (snd (WorkerV2.throughWrappers rs' update d)).
Proof.
  revert d. induction rs' as [| r rs' IH]; intros d Hsub; cbn [WorkerV2.throughWrappers].
  - constructor.
  - specialize (IH (update d) (fun r0 H => Hsub r0 (or_intror H))).
    destruct (WorkerV2.throughWrappers rs' update (update d)) as [d' obs].
    cbn [snd] in *. apply List.Forall_app. split; [| exact IH].
    apply reportTo_posts. left. apply Hsub. left. reflexivity.
Qed.

Lemma trackerWorker_loadRun_posts (rs : list jsval) (report : option jsval)
    (es : list LoadEvent) :
  forall l,
  List.Forall (fun o => exists r p, o = Post (PostProgress r p) /\
                                    (In r rs \/ report = Some r))
    (snd (WorkerV2.loadRun rs report l es)).
Proof.
  induction es as [| e es IH]; intros l; cbn [WorkerV2.loadRun]; [constructor |].
  destruct (WorkerV2.loadStep rs report l e) as [l' obs] eqn:Hstep.
  specialize (IH l').
  destruct (WorkerV2.loadRun rs report l' es) as [l'' obs']. cbn [snd] in *.
  apply List.Forall_app. split; [| exact IH].
  destruct e as [url hasBody len | n len | n | n | s pr f];
    cbn [WorkerV2.loadStep] in Hstep.
  - destruct (_ || _); [injection Hstep as <- <-; constructor |].
    destruct (_ || _); injection Hstep as <- <-; [| constructor].
    apply List.Forall_forall. intros o Ho.
    apply List.in_map_iff in Ho as (r & <- & Hr). eauto.
  - destruct (WorkerV2.responses l !! n) as [[fileKey |] |];
      [| injection Hstep as <- <-; constructor ..].
    pose proof (throughWrappers_posts rs rs report (WorkerV2.addLoaded fileKey len)
                  (WorkerV2.tracker l) (fun r H => H)) as Hw.
    destruct (WorkerV2.throughWrappers _ _ _) as [d obs0].
    injection Hstep as <- <-. exact Hw.
  - destruct (WorkerV2.responses l !! n) as [[fileKey |] |];
      [| injection Hstep as <- <-; constructor ..].
    pose proof (throughWrappers_posts rs rs report (WorkerV2.setLoaded fileKey)
                  (WorkerV2.tracker l) (fun r H => H)) as Hw.
    destruct (WorkerV2.throughWrappers _ _ _) as [d obs0].
    injection Hstep as <- <-. exact Hw.
  - destruct (WorkerV2.responses l !! n) as [[fileKey |] |];
      injection Hstep as <- <-; constructor.
  - destruct report as [r |]; [| injection Hstep as <- <-; constructor].
    rewrite bool_decide_eq_true_2 in Hstep by eauto. cbn [negb] in Hstep.
    destruct (_ || _);
      [injection Hstep as <- <-; constructor; [eauto 6 | constructor] |].
    destruct (str_eqb _ _); injection Hstep as <- <-;
      [constructor; [eauto 6 | constructor] | constructor].
Qed.

Lemma trackerWorker_loadRun_quiet (rs : list jsval) (report : option jsval)
    (es : list LoadEvent) (l : WorkerV2.Download) :
  List.Forall (fun o => isResponse o = false) (snd (WorkerV2.loadRun rs report l es)).
Proof.
  eapply List.Forall_impl; [| apply trackerWorker_loadRun_posts].
  intros o (r & p & -> & _). reflexivity.
Qed.

Lemma trackerWorker_loads (pipeline : Loader) :
  loads pipeline (WorkerV2.ensurePipeline pipeline).
Proof.
  split.
  - intros m d r st p Hc. unfold WorkerV2.ensurePipeline. rewrite Hc. reflexivity.
  - intros m d r st p Hnone Hd Hres. unfold WorkerV2.ensurePipeline.
    rewrite Hnone, (or_else_some d _ Hd). cbn [WorkerV2.beforeLoad].
    destruct (WorkerV2.loadRun _ _ _ _) as [l ps]. rewrite Hres.
    eexists _, _. split; [reflexivity |]. split; reflexivity.
  - intros m d r st e Hnone Hd Hres. unfold WorkerV2.ensurePipeline.
    rewrite Hnone, (or_else_some d _ Hd). cbn [WorkerV2.beforeLoad].
    destruct (WorkerV2.loadRun _ _ _ _) as [l ps]. rewrite Hres.
    eexists _, _. split; [reflexivity |]. split; reflexivity.
  - intros m d r st. unfold WorkerV2.ensurePipeline.
    destruct (loadedFor m d st); [constructor |]. cbn [WorkerV2.beforeLoad].
    match goal with
    | |- context [WorkerV2.loadRun ?rs ?rep ?l ?es] =>
        pose proof (trackerWorker_loadRun_quiet rs rep es l) as Hq
    end.
    destruct (WorkerV2.loadRun _ _ _ _) as [l ps]. cbn [snd] in Hq.
    unfold WorkerV2.afterLoad. destruct (load_result _); cbn [snd].
    + apply List.Forall_app. split; [apply reportTo_quiet |].
      constructor; [reflexivity |].
      apply List.Forall_app. split; [exact Hq | apply reportTo_quiet].
    + apply List.Forall_app. split; [apply reportTo_quiet |].
      constructor; [reflexivity |]. apply List.Forall_app. split; [exact Hq | constructor].
Qed.

Lemma script_loads (w : script) (pipeline : Loader) :
  loads pipeline (ensurePipelineOf w pipeline).
Proof. destruct w; [apply publicWorker_loads | apply trackerWorker_loads]. Qed.

Lemma onMessageOf_handler (w : script) (pipeline : Loader) :
  onMessageOf w pipeline =
  Worker.onMessage (ensurePipelineOf w pipeline) (defaultModelOf w) (initProgressOf w)
    (match w with PublicWorker => false | TrackerWorker => true end).
Proof. destruct w; reflexivity. Qed.

Lemma embedLoop_quiet (pipe : Pipeline) (requestId : jsval) (texts : list jsval) :
  forall (i total : nat) (embeddings : list (option (list number))),
  List.Forall (fun o => isResponse o = false)
    (snd (embedLoop pipe requestId texts i total embeddings)).
Proof.
  induction texts as [| text texts IH]; intros i total embeddings; cbn [embedLoop];
    [constructor |].
  destruct (pipe text) as [output | e]; [| repeat constructor].
  specialize (IH (S i) total (embeddings ++ [toPlainArray (vectorOf output)])).
  destruct (embedLoop pipe requestId texts (S i) total _) as [r obs].
  cbn [snd] in *. repeat constructor. exact IH.
Qed.

Section HandlerMoreFacts.

Variable pipeline : Loader.
Variable ensurePipeline :
  jsstring -> jsstring -> option jsval -> State ->
  outcome Thrown Pipeline * State * list Obs.
Variable defaultModel : jsstring.
Variable initProgress : Progress.
Variable clearTracker : bool.
Hypothesis Hloads : loads pipeline ensurePipeline.

Lemma handler_init (requestId : jsval) (p : option Payload) (st : State) :
  Worker.onMessage ensurePipeline defaultModel initProgress clearTracker
    (initRequest requestId p) st =
  let '(r, st', obs) :=
    ensurePipeline (initModel defaultModel p) (initDevice p) (Some requestId) st in
  (st', Post (PostProgress requestId initProgress) :: obs ++
        [match r with
         | Ok _ => Post (PostResponse requestId true
                           (Some (ResReady (currentConfig st'))) None)
         | Throw e => Post (PostResponse requestId false None (Some (ErrThrown e)))
         end]).
Proof.
  unfold Worker.onMessage, initRequest, initModel, initDevice.
  cbn [Worker.type Worker.requestId Worker.payload].
  change (is_type "status" (VStr (js "init"))) with false.
  change (is_type "clearCache" (VStr (js "init"))) with false.
  change (is_type "init" (VStr (js "init"))) with true.
  cbv iota.
  destruct (ensurePipeline _ _ _ st) as [[r st'] obs]. destruct r; reflexivity.
Qed.

Lemma handler_init_cached (requestId : jsval) (p : option Payload) (st : State)
    (pipe : Pipeline) :
  loadedFor (initModel defaultModel p) (initDevice p) st = Some pipe ->
  Worker.onMessage ensurePipeline defaultModel initProgress clearTracker
    (initRequest requestId p) st =
  (st, [Post (PostProgress requestId initProgress);
        Post (PostResponse requestId true (Some (ResReady (currentConfig st))) None)]).
Proof using Hloads.
  intros Hc. rewrite handler_init, (loads_cached _ _ Hloads _ _ _ _ _ Hc). reflexivity.
Qed.

Lemma handler_one_response (data : option Request) (st : State) :
  exists pre ok result error,
    snd (Worker.onMessage ensurePipeline defaultModel initProgress clearTracker data st)
    = pre ++ [Post (PostResponse (requestIdOf data) ok result error)] /\
    List.Forall (fun o => isResponse o = false) pre.
Proof using Hloads.
  unfold Worker.onMessage. fold (requestIdOf data).
  set (ty := match data with Some d => Worker.type d | None => VUndefined end).
  set (pl := match data with Some d => Worker.payload d | None => None end).
  set (rid := requestIdOf data).
  destruct (is_type "status" ty).
  { exists []. eexists _, _, _. split; [reflexivity | constructor]. }
  destruct (is_type "clearCache" ty).
  { exists []. eexists _, _, _. split; [reflexivity | constructor]. }
  destruct (is_type "init" ty).
  { pose proof (loads_quiet _ _ Hloads
                  (or_else (pl ≫= p_modelId) defaultModel)
                  (or_else (pl ≫= p_device) (js "wasm")) (Some rid) st) as Hq.
    destruct (ensurePipeline _ _ _ st) as [[r st'] obs]. cbn [snd] in Hq.
    destruct r; cbn [snd];
      (exists (Post (PostProgress rid initProgress) :: obs); eexists _, _, _;
       split; [reflexivity | constructor; [reflexivity | exact Hq]]). }
  destruct (is_type "embed" ty).
  2:{ exists []. eexists _, _, _. split; [reflexivity | constructor]. }
  destruct (match pl with Some p => p_texts p | None => VUndefined end)
    as [| | | | | [| text more] |];
    try (exists []; eexists _, _, _; split; [reflexivity | constructor]).
  match goal with
  | |- context [ensurePipeline ?m ?d ?r st] =>
      pose proof (loads_quiet _ _ Hloads m d r st) as Hq;
      destruct (ensurePipeline m d r st) as [[r0 st'] obs]
  end.
  cbn [snd] in Hq.
  destruct r0 as [pipe | e].
  - pose proof (embedLoop_quiet pipe rid (text :: more) 0 (length (text :: more)) [])
      as Hq'.
    destruct (embedLoop pipe rid (text :: more) 0 (length (text :: more)) [])
      as [r' obs'].
    cbn [snd] in Hq'.
    destruct r'; cbn [snd];
      (exists (obs ++ obs'); eexists _, _, _;
       split; [rewrite <- app_assoc; reflexivity |
               apply List.Forall_app; split; assumption]).
  - cbn [snd]. exists obs. eexists _, _, _. split; [reflexivity | exact Hq].
Qed.

End HandlerMoreFacts.

Lemma one_response_worker (w : script) (pipeline : Loader)
    (data : option Request) (st : State) :
  exists pre ok result error,
    snd (onMessageOf w pipeline data st)
    = pre ++ [Post (PostResponse (requestIdOf data) ok result error)] /\
    List.Forall (fun o => isResponse o = false) pre.
Proof.
  rewrite onMessageOf_handler.
  exact (handler_one_response pipeline _ _ _ _ (script_loads w pipeline) data st).
Qed.

End WorkerScriptFacts.

Section WorkerScriptProperties.
Import JS JSValue Regex Worker.

(** X14.  In both worker scripts the model is loaded once and reused.
    After an [init] request whose load succeeds, the worker holds the
    loaded model under the requested model and device.  A second [init]
    for the same model and device then answers at once, without calling
    the loader and without touching the state, and an [embed] request that
    names neither model nor device runs the loaded model on its texts,
    again without a load. *)
Theorem model_loaded_once (w : script) (pipeline : Loader) (r1 r2 : jsval)
    (p : option Payload) (st : State) (pipe : Pipeline) :
  let modelId := initModel (defaultModelOf w) p in
  let device := initDevice p in
  loadedFor modelId device st = None ->
  load_result (pipeline modelId device) = Ok pipe ->
  let st1 := fst (onMessageOf w pipeline (initRequest r1 p) st) in
  featureExtractionPipeline st1 = Some pipe /\
  currentConfig st1 = {| cfg_modelId := Some modelId; cfg_device := Some device |} /\
  onMessageOf w pipeline (initRequest r2 p) st1
  = (st1, [Post (PostProgress r2 (initProgressOf w));
           Post (PostResponse r2 true (Some (ResReady (currentConfig st1))) None)]) /\
  forall texts outs, texts <> [] ->
    List.Forall2 (fun text out => pipe text = Ok out) texts outs ->
    onMessageOf w pipeline (embedRequest r2 (Some (textsPayload (VArr texts)))) st1
    = (st1, embedSteps r2 texts 0 (length texts) ++
            [Post (PostResponse r2 true
                     (Some (ResEmbed (Some modelId) (Some device)
                              (List.map (fun out => toPlainArray (vectorOf out)) outs)))
                     None)]).
Proof.
  intros modelId device Hnone Hres st1.
  pose proof (script_loads w pipeline) as Hloads.
  destruct (loads_ok _ _ Hloads modelId device (Some r1) st pipe Hnone
              (initDevice_nonempty p) Hres) as (st' & obs & Hens & Hpipe & Hcfg).
  assert (st1 = st') as ->.
  { unfold st1. rewrite onMessageOf_handler, handler_init.
    fold modelId device. rewrite Hens. reflexivity. }
  pose proof (loadedFor_config modelId device st' pipe Hpipe Hcfg) as Hc.
  split; [exact Hpipe |]. split; [exact Hcfg |]. split.
  - rewrite onMessageOf_handler.
    exact (handler_init_cached pipeline _ _ _ _ Hloads r2 p st' pipe Hc).
  - intros texts outs Hne Hall. rewrite onMessageOf_handler.
    assert (embedModel (defaultModelOf w) (Some (textsPayload (VArr texts))) st'
            = modelId) as Hm.
    { unfold embedModel. rewrite Hcfg. cbn. apply or_else_idem. }
    assert (embedDevice (Some (textsPayload (VArr texts))) st' = device) as Hd.
    { unfold embedDevice. rewrite Hcfg. cbn. apply or_else_idem. }
    rewrite (handler_embed_run _ _ _ _ r2 (textsPayload (VArr texts)) st' st'
               texts outs pipe [] eq_refl Hne).
    + rewrite Hcfg. reflexivity.
    + rewrite Hm, Hd. exact (loads_cached _ _ Hloads _ _ _ _ _ Hc).
    + exact Hall.
Qed.

Lemma model_loaded_once_witness :
  let st1 := fst (WorkerV3.onMessage constLoader (initRequest r1 None) initial) in
  WorkerV3.onMessage constLoader
    (embedRequest r1 (Some (textsPayload (VArr [VStr (js "hola")])))) st1
  = (st1, [Post (PostProgress r1 (Running 0 1 100));
           PipeCall (VStr (js "hola"));
           Post (PostResponse r1 true
                   (Some (ResEmbed (Some WorkerV3.defaultModel) (Some (js "wasm"))
                            [Some [1%Q]])) None)]).
Proof.
  cbv zeta.
  refine (proj2 (proj2 (proj2
            (model_loaded_once PublicWorker constLoader r1 r1 None initial constPipe
               _ _))) [VStr (js "hola")] [OutArray [1%Q]] _ _).
  - reflexivity.
  - reflexivity.
  - discriminate.
  - repeat constructor.
Defined.

(** X15.  In both worker scripts a load that fails leaves the model in
    service: the [init] request is answered with the error that the
    loader threw, as the last message, and the loaded model and the
    current configuration are what they were before the request. *)
Theorem failed_load_keeps_model (w : script) (pipeline : Loader) (r : jsval)
    (p : option Payload) (st : State) (e : Thrown) :
  let modelId := initModel (defaultModelOf w) p in
  let device := initDevice p in
  loadedFor modelId device st = None ->
  load_result (pipeline modelId device) = Throw e ->
  let st1 := fst (onMessageOf w pipeline (initRequest r p) st) in
  let obs := snd (onMessageOf w pipeline (initRequest r p) st) in
  featureExtractionPipeline st1 = featureExtractionPipeline st /\
  currentConfig st1 = currentConfig st /\
  last obs = Some (Post (PostResponse r false None (Some (ErrThrown e)))).
Proof.
  intros modelId device Hnone Hres st1 obs.
  pose proof (script_loads w pipeline) as Hloads.
  destruct (loads_failed _ _ Hloads modelId device (Some r) st e Hnone
              (initDevice_nonempty p) Hres) as (st' & obs' & Hens & Hpipe & Hcfg).
  unfold st1, obs. rewrite onMessageOf_handler, handler_init.
  fold modelId device. rewrite Hens. cbn [fst snd].
  split; [exact Hpipe |]. split; [exact Hcfg |].
  rewrite app_comm_cons. apply last_snoc.
Qed.

Lemma failed_load_keeps_model_witness :
  let st0 := fst (WorkerV2.onMessage constLoader (initRequest r1 None) initial) in
  let st1 := fst (WorkerV2.onMessage failingLoader
                    (initRequest r1 (Some {| p_modelId := Some (js "m");
                                             p_device := None;
                                             p_texts := VUndefined |})) st0) in
  featureExtractionPipeline st1 = featureExtractionPipeline st0 /\
  currentConfig st1 = currentConfig st0.
Proof.
  cbv zeta.
  pose proof (failed_load_keeps_model TrackerWorker failingLoader r1
                (Some {| p_modelId := Some (js "m"); p_device := None;
                         p_texts := VUndefined |})
                (fst (WorkerV2.onMessage constLoader (initRequest r1 None) initial))
                {| thrown_message := js "Failed to fetch";
                   thrown_name := Some (js "TypeError") |}) as H.
  cbv zeta in H. destruct H as (Hp & Hc & _).
  - reflexivity.
  - reflexivity.
  - split; [exact Hp | exact Hc].
Defined.

(** X16.  Both worker scripts answer every message, whatever its type and
    payload and whatever the loader and the model do, with exactly one
    response; it carries the request identifier of the message and it is
    the last thing the handler posts. *)
Theorem one_response_per_message (w : script) (pipeline : Loader)
    (data : option Request) (st : State) :
  exists pre ok result error,
    snd (onMessageOf w pipeline data st)
    = pre ++ [Post (PostResponse (requestIdOf data) ok result error)] /\
    List.Forall (fun o => isResponse o = false) pre.
Proof. apply one_response_worker. Qed.

End WorkerScriptProperties.

(** ** The embedding worker: percentages, and the pattern of the assets *)

Section PercentFacts.
Import JS JSValue Regex Worker.

(** The percentage of [a] in [b] as the sources compute it,
    [Math.round((a / b) * 100)], for integers [0 <= a <= a' <= b]: the
    rounding of the quotient and of the product keep the order, and 1 and
    100 are doubles. *)
Lemma percent_le (a a' b : Z) :
  0 <= a <= a' -> 0 < b ->
  0 <= Math_round (fmul (fdiv (inject_Z a) (inject_Z b)) 100%Q)
    <= Math_round (fmul (fdiv (inject_Z a') (inject_Z b)) 100%Q).
Proof.
  intros Ha Hb. unfold fmul, fdiv.
  assert (0 < inject_Z b)%Q as Hqb
    by (change 0%Q with (inject_Z 0); rewrite <- Zlt_Qlt; lia).
  assert (0 <= inject_Z a / inject_Z b)%Q as H0.
  { apply Qle_shift_div_l; [exact Hqb |]. rewrite Qmult_0_l.
    change 0%Q with (inject_Z 0). rewrite <- Zle_Qle. lia. }
  assert (inject_Z a / inject_Z b <= inject_Z a' / inject_Z b)%Q as H1.
  { apply Qmult_le_compat_r; [rewrite <- Zle_Qle; lia |].
    apply Qlt_le_weak, Qinv_lt_0_compat, Hqb. }
  pose proof (double_nonneg _ H0) as Hd0.
  pose proof (double_le _ _ H0 H1) as Hd1.
  assert (0 <= double (inject_Z a / inject_Z b) * 100)%Q as Hm0 by lra.
  pose proof (double_nonneg _ Hm0) as Hr0.
  assert (double (inject_Z a / inject_Z b) * 100
          <= double (inject_Z a' / inject_Z b) * 100)%Q as Hm1 by lra.
  pose proof (double_le _ _ Hm0 Hm1) as Hr1.
  split.
  - change 0 with (Math_round 0). apply Math_round_le, Hr0.
  - apply Math_round_le, Hr1.
Qed.

Lemma percent_whole (b : Z) :
  0 < b -> Math_round (fmul (fdiv (inject_Z b) (inject_Z b)) 100%Q) = 100.
Proof.
  intros Hb. unfold fmul, fdiv.
  assert (inject_Z b / inject_Z b == 1)%Q as H1.
  { apply Qmult_inv_r. intros H. unfold Qeq in H. cbn in H. lia. }
  rewrite (double_comp _ _ H1). reflexivity.
Qed.

(** *** Alternatives that cannot match *)

Lemma exec_at_none (f : flags) (r : regex) (before rest : list N) :
  exec_at f r before rest = None <->
  rmatch f r {| ms_before := before; ms_rest := rest; ms_caps := [] |} Some = None.
Proof.
  unfold exec_at. destruct (rmatch f r _ Some); split; congruence.
Qed.

Lemma exec_alt_dead (P : N -> bool) (f : flags) (a b : regex) (before rest : list N) :
  respects f P -> needs P b = true ->
  forallb (fun c => negb (P c)) rest = true ->
  exec_at f (RAlt a b) before rest = exec_at f a before rest.
Proof.
  intros Hf Hb Hrest.
  pose proof (exec_at_needs P f b before rest Hf Hb Hrest) as Hnone.
  apply exec_at_none in Hnone.
  unfold exec_at. cbn [rmatch]. rewrite Hnone.
  destruct (rmatch f a _ Some); reflexivity.
Qed.

Lemma test_from_ext (f : flags) (r r' : regex) (Q : N -> bool) (rest : list N) :
  (forall before rest', forallb Q rest' = true ->
     exec_at f r before rest' = exec_at f r' before rest') ->
  forall before, forallb Q rest = true ->
  test_from f r before rest = test_from f r' before rest.
Proof.
  intros Hex. induction rest as [| c rest IH]; intros before Hrest;
    cbn [test_from]; rewrite (Hex before _ Hrest); [reflexivity |].
  cbn [forallb] in Hrest. apply andb_true_iff in Hrest as [_ Hrest].
  rewrite (IH (c :: before) Hrest). reflexivity.
Qed.

Lemma backslash_respected : respects flags_i (fun c => c =? ch "\")%N.
Proof.
  intros c d Hcd Hd. apply N.eqb_eq in Hd. subst d. apply N.eqb_eq.
  revert Hcd. unfold canonicalize. cbn [ignoreCase flags_i].
  change (ch "\") with 92%N. cbn [N.leb andb].
  destruct (N.leb_spec 97 c); cbn [andb]; [| intros ->; reflexivity].
  destruct (N.leb_spec c 122); [| intros ->; reflexivity].
  change ((97 <=? 92)%N && (92 <=? 122)%N) with false. cbv iota. lia.
Qed.

End PercentFacts.

Section PercentProperties.
Import JS JSValue Regex Worker.

(** X19.  The percentage of the running-phase progress message for the
    text of index [j] among [total] texts lies between 0 and 100, does not
    decrease with the index, and is 100 for the last text. *)
Theorem runningPercent_range (i j total : nat) :
  (i <= j < total)%nat ->
  0 <= runningPercent i total <= runningPercent j total /\
  runningPercent j total <= 100 /\
  runningPercent (total - 1) total = 100.
Proof.
  intros Hij. unfold runningPercent.
  assert (0 < Z.of_nat total) as Ht by lia.
  split; [apply percent_le; lia |]. split.
  - pose proof (percent_le (Z.of_nat (j + 1)) (Z.of_nat total) (Z.of_nat total)
                  ltac:(lia) Ht) as [_ H].
    rewrite (percent_whole (Z.of_nat total) Ht) in H. exact H.
  - replace (Z.of_nat (total - 1 + 1)) with (Z.of_nat total) by lia.
    apply percent_whole, Ht.
Qed.

Lemma runningPercent_range_witness :
  0 <= runningPercent 0 3 <= runningPercent 1 3 /\
  runningPercent 1 3 <= 100 /\ runningPercent 2 3 = 100.
Proof. apply (runningPercent_range 0 1 3). lia. Defined.

(** X20.  In the worker on Transformers.js 2.x the four file-extension
    alternatives of the pattern of [isModelAsset], written with doubled
    backslashes, match only where the text has a backslash.  For a URL
    without backslash the test is decided by the four host names alone:
    a model file on another host is not taken for a model asset. *)
Theorem trackerWorker_extensions_never_match (url : jsstring) :
  ~ In (ch "\") url ->
  WorkerV2.isModelAsset url = test flags_i hostPattern url.
Proof.
  intros Hno.
  assert (forallb (fun c => negb (c =? ch "\")%N) url = true) as Hurl.
  { apply forallb_forall. intros c Hc. apply negb_true_iff, N.eqb_neq.
    intros ->. exact (Hno Hc). }
  unfold WorkerV2.isModelAsset, test.
  apply (test_from_ext _ _ _ (fun c => negb (c =? ch "\")%N)); [| exact Hurl].
  intros before rest Hrest.
  unfold WorkerV2.modelAssetPattern, hostPattern, alts. cbn [fold_left].
  do 4 (rewrite (exec_alt_dead (fun c => c =? ch "\")%N)
          by first [exact backslash_respected | reflexivity | exact Hrest]).
  reflexivity.
Qed.

Lemma trackerWorker_extensions_never_match_witness :
  WorkerV2.isModelAsset (js "https://example.com/models/model.onnx") = false /\
  WorkerV3.isModelAsset (js "https://example.com/models/model.onnx") = true.
Proof.
  split; [| vm_compute; reflexivity].
  rewrite trackerWorker_extensions_never_match.
  - vm_compute. reflexivity.
  - vm_compute. intuition discriminate.
Defined.

End PercentProperties.

Section WorkerCacheProperties.
Import JS JSValue Regex Worker.

(** X22.  [clearCache] forgets the model in both worker scripts: it is
    answered with one response, afterwards no model is held and the
    configuration is null, and the next [init] request calls the loader
    again, also for the model that was loaded before. *)
Theorem clearCache_forgets_model (w : script) (pipeline : Loader) (r r' : jsval)
    (p : option Payload) (st : State) :
  let st1 := fst (onMessageOf w pipeline (clearCacheRequest r) st) in
  snd (onMessageOf w pipeline (clearCacheRequest r) st)
  = [Post (PostResponse r true (Some ResCleared) None)] /\
  featureExtractionPipeline st1 = None /\
  currentConfig st1 = {| cfg_modelId := None; cfg_device := None |} /\
  existsb isLoad (snd (onMessageOf w pipeline (initRequest r' p) st1)) = true.
Proof.
  intros st1.
  assert (featureExtractionPipeline st1 = None /\
          currentConfig st1 = {| cfg_modelId := None; cfg_device := None |}) as [Hp Hc]
    by (destruct w; split; reflexivity).
  split; [destruct w; reflexivity |]. split; [exact Hp |]. split; [exact Hc |].
  assert (forall m d, loadedFor m d st1 = None) as Hnone
    by (intros m d; unfold loadedFor; rewrite Hp; reflexivity).
  rewrite onMessageOf_handler, handler_init.
  destruct w; cbn [ensurePipelineOf];
    [unfold WorkerV3.ensurePipeline | unfold WorkerV2.ensurePipeline];
    rewrite Hnone.
  - destruct (WorkerV3.loadRun _ _ _) as [streams obs].
    destruct (load_result _); reflexivity.
  - cbn [WorkerV2.beforeLoad]. destruct (WorkerV2.loadRun _ _ _ _) as [l ps].
    unfold WorkerV2.afterLoad.
    destruct (load_result _); cbn [snd existsb isLoad orb];
      unfold reportTo; cbn [List.map app existsb isLoad orb]; reflexivity.
Qed.

End WorkerCacheProperties.

Section WorkerEmbedFacts.
Import JS JSValue Regex Worker.

Lemma embedSteps_app (requestId : jsval) (a b : list jsval) (i total : nat) :
  embedSteps requestId (a ++ b) i total
  = embedSteps requestId a i total ++ embedSteps requestId b (i + length a) total.
Proof.
  revert i. induction a as [| text a IH]; intros i; cbn [app embedSteps length].
  - rewrite Nat.add_0_r. reflexivity.
  - rewrite IH. replace (S i + length a)%nat with (i + S (length a))%nat by lia.
    reflexivity.
Qed.

(** The loop stops at the first text on which the model throws. *)
Lemma embedLoop_throws (pipe : Pipeline) (requestId : jsval) (done : list jsval)
    (outs : list Output) (text : jsval) (rest : list jsval) (e : Thrown) :
  List.Forall2 (fun text out => pipe text = Ok out) done outs ->
  pipe text = Throw e ->
  forall (i total : nat) (embeddings : list (option (list number))),
  embedLoop pipe requestId (done ++ text :: rest) i total embeddings
  = (Throw e, embedSteps requestId (done ++ [text]) i total).
Proof.
  intros Hdone Hthrow.
  induction Hdone as [| t out done outs Ht _ IH]; intros i total embeddings;
    cbn [app embedLoop embedSteps].
  - rewrite Hthrow. reflexivity.
  - rewrite Ht, IH. reflexivity.
Qed.

Lemma reportTo_addressed (requestId : jsval) (ps : list Progress) :
  List.Forall (addressedTo requestId) (reportTo (Some requestId) ps).
Proof.
  apply List.Forall_forall. intros o Ho.
  apply List.in_map_iff in Ho as (q & <- & _). reflexivity.
Qed.

Lemma trackerWorker_loadRun_addressed (rs : list jsval) (requestId : jsval)
    (es : list LoadEvent) (l : WorkerV2.Download) :
  (forall r, In r rs -> r = requestId) ->
  List.Forall (addressedTo requestId)
    (snd (WorkerV2.loadRun rs (Some requestId) l es)).
Proof.
  intros Hrs. eapply List.Forall_impl; [| apply trackerWorker_loadRun_posts].
  intros o (r & p & -> & [Hr | [= <-]]); [apply Hrs, Hr | reflexivity].
Qed.

Lemma trackerWorker_ensure_addressed (pipeline : Loader) (m d : jsstring)
    (requestId : jsval) (st : State) :
  reporters (globalThis_fetch st) = [] ->
  List.Forall (addressedTo requestId)
    (snd (WorkerV2.ensurePipeline pipeline m d (Some requestId) st)).
Proof.
  intros Hnone. unfold WorkerV2.ensurePipeline.
  destruct (loadedFor m d st); [constructor |]. cbn [WorkerV2.beforeLoad].
  match goal with
  | |- context [WorkerV2.loadRun ?rs ?rep ?l ?es] =>
      pose proof (trackerWorker_loadRun_addressed rs requestId es l) as Hq;
      destruct (WorkerV2.loadRun rs rep l es) as [l0 ps]
  end.
  cbn [snd set_globalThis_fetch set_tracker globalThis_fetch reporters] in Hq.
  rewrite Hnone in Hq.
  specialize (Hq ltac:(intros r [<- | []]; reflexivity)).
  unfold WorkerV2.afterLoad. destruct (load_result _); cbn [snd].
  - apply List.Forall_app. split; [apply reportTo_addressed |].
    constructor; [exact I |].
    apply List.Forall_app. split; [exact Hq | apply reportTo_addressed].
  - apply List.Forall_app. split; [apply reportTo_addressed |].
    constructor; [exact I |]. apply List.Forall_app. split; [exact Hq | constructor].
Qed.

(** Each load puts back on [globalThis.fetch] the function it found. *)
Lemma trackerWorker_ensure_fetch (pipeline : Loader) (m d : jsstring)
    (report : option jsval) (st : State) :
  globalThis_fetch (snd (fst (WorkerV2.ensurePipeline pipeline m d report st)))
  = globalThis_fetch st.
Proof.
  unfold WorkerV2.ensurePipeline.
  destruct (loadedFor m d st); [reflexivity |]. cbn [WorkerV2.beforeLoad].
  destruct (WorkerV2.loadRun _ _ _ _) as [l ps].
  unfold WorkerV2.afterLoad. destruct (load_result _); reflexivity.
Qed.

Lemma embedLoop_addressed (pipe : Pipeline) (requestId : jsval) (texts : list jsval) :
  forall (i total : nat) (embeddings : list (option (list number))),
  List.Forall (addressedTo requestId)
    (snd (embedLoop pipe requestId texts i total embeddings)).
Proof.
  induction texts as [| text texts IH]; intros i total embeddings; cbn [embedLoop];
    [constructor |].
  destruct (pipe text) as [output | e]; [| repeat constructor].
  specialize (IH (S i) total (embeddings ++ [toPlainArray (vectorOf output)])).
  destruct (embedLoop pipe requestId texts (S i) total _) as [r obs].
  cbn [snd] in *. repeat constructor. exact IH.
Qed.

End WorkerEmbedFacts.

Section WorkerEmbedProperties.
Import JS JSValue Regex Worker.

(** X25.  In both worker scripts [embed] stops at the first text on which
    the model throws: the texts before it have been run, in order, each
    after its progress message; the failing text has been announced and
    run; no later text is announced or run; and the response is the
    failure, without the vectors computed so far. *)
Theorem embed_stops_at_first_failure (w : script) (pipeline : Loader)
    (requestId : jsval) (p : Payload) (st st' : State) (pipe : Pipeline)
    (obs : list Obs) (done : list jsval) (outs : list Output)
    (text : jsval) (rest : list jsval) (e : Thrown) :
  p_texts p = VArr (done ++ text :: rest) ->
  ensurePipelineOf w pipeline
    (embedModel (defaultModelOf w) (Some p) st) (embedDevice (Some p) st)
    (Some requestId) st = (Ok pipe, st', obs) ->
  List.Forall2 (fun text out => pipe text = Ok out) done outs ->
  pipe text = Throw e ->
  onMessageOf w pipeline (embedRequest requestId (Some p)) st
  = (st', obs ++
          embedSteps requestId (done ++ [text]) 0 (length (done ++ text :: rest)) ++
          [Post (PostResponse requestId false None (Some (ErrThrown e)))]).
Proof.
  intros Htexts Hload Hdone Hthrow.
  rewrite onMessageOf_handler.
  unfold Worker.onMessage, embedRequest.
  cbn [Worker.type Worker.requestId Worker.payload].
  change (is_type "status" (VStr (js "embed"))) with false.
  change (is_type "clearCache" (VStr (js "embed"))) with false.
  change (is_type "init" (VStr (js "embed"))) with false.
  change (is_type "embed" (VStr (js "embed"))) with true.
  cbv iota. rewrite Htexts.
  destruct (done ++ text :: rest) as [| t0 more] eqn:Hall;
    [destruct done; discriminate |].
  unfold embedModel, embedDevice in Hload. rewrite Hload.
  rewrite <- Hall.
  rewrite (embedLoop_throws pipe requestId done outs text rest e Hdone Hthrow).
  reflexivity.
Qed.

Lemma embed_stops_at_first_failure_witness :
  snd (WorkerV3.onMessage stubLoader
         (embedRequest r1 (Some (textsPayload
            (VArr [VStr (js "hola"); VStr (js "adios"); VStr (js "mundo")]))))
         (fst (WorkerV3.onMessage stubLoader (initRequest r1 None) initial)))
  = [Post (PostProgress r1 (Running 0 3 33)); PipeCall (VStr (js "hola"));
     Post (PostProgress r1 (Running 1 3 67)); PipeCall (VStr (js "adios"));
     Post (PostResponse r1 false None
             (Some (ErrThrown {| thrown_message := js "unknown text";
                                 thrown_name := None |})))].
Proof.
  apply (f_equal snd
           (embed_stops_at_first_failure PublicWorker stubLoader r1
              (textsPayload
                 (VArr [VStr (js "hola"); VStr (js "adios"); VStr (js "mundo")]))
              (fst (WorkerV3.onMessage stubLoader (initRequest r1 None) initial))
              (fst (WorkerV3.onMessage stubLoader (initRequest r1 None) initial))
              stubPipe [] [VStr (js "hola")] [OutTensor (TypedArray [1%Q; 0%Q])]
              (VStr (js "adios")) [VStr (js "mundo")]
              {| thrown_message := js "unknown text"; thrown_name := None |}
              eq_refl eq_refl
              ltac:(repeat constructor) eq_refl)).
Defined.

(** X26.  In the worker on Transformers.js 2.x, when no wrapper that
    reports to an earlier request is left on [globalThis.fetch], every
    message posted while a request is handled, progress and response
    alike, carries the identifier of that request; and the handler leaves
    [globalThis.fetch] as it found it, so that this holds again for the
    next message when the messages are handled one after the other. *)
Theorem trackerWorker_posts_to_requester (pipeline : Loader)
    (data : option Request) (st : State) :
  reporters (globalThis_fetch st) = [] ->
  List.Forall (addressedTo (requestIdOf data))
    (snd (WorkerV2.onMessage pipeline data st)) /\
  globalThis_fetch (fst (WorkerV2.onMessage pipeline data st)) = globalThis_fetch st.
Proof.
  intros Hnone.
  unfold WorkerV2.onMessage, Worker.onMessage. fold (requestIdOf data).
  set (ty := match data with Some d => Worker.type d | None => VUndefined end).
  set (pl := match data with Some d => Worker.payload d | None => None end).
  set (rid := requestIdOf data).
  destruct (is_type "status" ty); [split; [repeat constructor | reflexivity] |].
  destruct (is_type "clearCache" ty); [split; [repeat constructor | reflexivity] |].
  destruct (is_type "init" ty).
  { match goal with
    | |- context [WorkerV2.ensurePipeline pipeline ?m ?d (Some rid) st] =>
        pose proof (trackerWorker_ensure_addressed pipeline m d rid st Hnone) as Hq;
        pose proof (trackerWorker_ensure_fetch pipeline m d (Some rid) st) as Hf;
        destruct (WorkerV2.ensurePipeline pipeline m d (Some rid) st) as [[r st'] obs]
    end.
    cbn [fst snd] in Hq, Hf.
    destruct r; cbn [fst snd]; (split; [| exact Hf]); constructor; try reflexivity;
      apply List.Forall_app; split; try exact Hq; repeat constructor. }
  destruct (is_type "embed" ty); [| split; [repeat constructor | reflexivity]].
  destruct (match pl with Some p => p_texts p | None => VUndefined end)
    as [| | | | | [| text more] |]; try (split; [repeat constructor | reflexivity]).
  match goal with
  | |- context [WorkerV2.ensurePipeline pipeline ?m ?d (Some rid) st] =>
      pose proof (trackerWorker_ensure_addressed pipeline m d rid st Hnone) as Hq;
      pose proof (trackerWorker_ensure_fetch pipeline m d (Some rid) st) as Hf;
      destruct (WorkerV2.ensurePipeline pipeline m d (Some rid) st) as [[r0 st'] obs]
  end.
  cbn [fst snd] in Hq, Hf.
  destruct r0 as [pipe | e].
  - pose proof (embedLoop_addressed pipe rid (text :: more) 0
                  (length (text :: more)) []) as Hq'.
    destruct (embedLoop pipe rid (text :: more) 0 (length (text :: more)) [])
      as [r' obs'].
    cbn [snd] in Hq'.
    destruct r'; cbn [fst snd]; (split; [| exact Hf]); apply List.Forall_app;
      split; try exact Hq;
      apply List.Forall_app; split; try exact Hq'; repeat constructor.
  - cbn [fst snd]. split; [| exact Hf].
    apply List.Forall_app. split; [exact Hq | repeat constructor].
Qed.

Lemma trackerWorker_posts_to_requester_witness :
  List.Forall (addressedTo r1)
    (snd (WorkerV2.onMessage downloadLoader (initRequest r1 None) initial)).
Proof.
  apply (trackerWorker_posts_to_requester downloadLoader (initRequest r1 None) initial).
  reflexivity.
Defined.

(** Two loads that overlap leave the wrapper of the first on
    [globalThis.fetch]: each wrapper is put around what is there when its
    load starts and each load puts back what it found, so the second load,
    ending last, restores the wrapper of the first.  The download of a
    later load is then reported to the first request as well. *)
Example trackerWorker_overlapping_loads :
  globalThis_fetch overlapped = Intercepted (Some r1) NativeFetch /\
  In (Post (PostProgress r1 (Loading (js "Descargando modelo") (Some 40))))
     (snd (WorkerV2.onMessage downloadLoader
             (initRequest (VStr (js "r3")) (Some otherModel)) overlapped)).
Proof. vm_compute. split; [reflexivity | tauto]. Qed.

(** In [public/embeddings-worker.js], after a load for the request [r1]
    and a [clearCache], the download of the load for [r2] is reported to
    [r1] as well. *)
Example publicWorker_posts_to_earlier_request :
  In (Post (PostProgress r1 (Loading (js "Descargando modelo") (Some 40)))) staleProgress.
Proof. vm_compute. tauto. Qed.

End WorkerEmbedProperties.

(** ** The worker instance *)

Section WorkerInstanceFacts.
Import JS WorkerInstance.

Lemma step_single (st : State) (o : op) : single st -> single (step st o).
Proof.
  intros Hst. pose proof Hst as (Hnd & Hlive & Hbound).
  destruct o as [supported url |]; cbn [step];
    [unfold getEmbeddingsWorker | unfold terminateEmbeddingsWorker];
    destruct (workerInstance st) as [w0 |] eqn:Hw; cbn [snd]; try exact Hst.
  - destruct supported; cbn [negb snd]; [| exact Hst].
    unfold single. cbn [workerInstance constructed terminatedWorkers].
    split; [exact Hnd |]. rewrite length_app. cbn [length]. split.
    + intros w Hlt. destruct (decide (w = length (constructed st))) as [-> | Hne].
      * split; [| congruence].
        intros Hin. pose proof (Hbound _ (or_introl Hin)). lia.
      * rewrite (Hlive w) by lia. split; intros _; congruence.
    + intros w [Hin | Heq]; [pose proof (Hbound w (or_introl Hin)); lia |].
      injection Heq as <-. lia.
  - unfold single. cbn [workerInstance constructed terminatedWorkers].
    assert (w0 < length (constructed st))%nat as Hw0 by (apply Hbound; right; reflexivity).
    assert (~ In w0 (terminatedWorkers st)) as Hnot.
    { intros Hin. apply (Hlive w0 Hw0) in Hin. congruence. }
    split; [| split].
    + apply NoDup_ListNoDup, NoDup_app. repeat split.
      * apply NoDup_ListNoDup. exact Hnd.
      * intros x Hx Hx'. apply list_elem_of_In in Hx.
        apply list_elem_of_In in Hx' as [<- | []]. exact (Hnot Hx).
      * apply NoDup_singleton.
    + intros w Hlt. rewrite List.in_app_iff. cbn [In]. split; [discriminate |].
      intros _. destruct (decide (w = w0)) as [-> | Hne]; [tauto |].
      left. apply (Hlive w Hlt). congruence.
    + intros w [Hin | Heq]; [| discriminate].
      apply List.in_app_iff in Hin as [Hin | [<- | []]];
        [apply Hbound; left; exact Hin | exact Hw0].
Qed.

Lemma run_single (ops : list op) : forall st, single st -> single (run ops st).
Proof.
  induction ops as [| o ops IH]; intros st Hst; [exact Hst |].
  cbn [run fold_left]. apply IH, step_single, Hst.
Qed.

End WorkerInstanceFacts.

Section WorkerInstanceProperties.
Import JS WorkerInstance.

(** X17.  At most one worker is alive.  After any sequence of calls of
    [getEmbeddingsWorker] and [terminateEmbeddingsWorker], every worker
    that has been constructed has been terminated, exactly once, unless it
    is the one [workerInstance] holds, and that one has not been
    terminated. *)
Theorem worker_instance_single (ops : list op) :
  let st := run ops initial in
  List.NoDup (terminatedWorkers st) /\
  forall w, (w < length (constructed st))%nat ->
    (In w (terminatedWorkers st) <-> workerInstance st <> Some w).
Proof.
  cbv zeta.
  destruct (run_single ops initial) as (Hnd & Hlive & _); [| exact (conj Hnd Hlive)].
  split; [constructor |]. cbn. split; [intros w Hw; lia |].
  intros w [[] | Heq]. discriminate.
Qed.

(** X18.  While a worker is held, [getEmbeddingsWorker] returns it again
    and constructs nothing, whatever URL it is given and even where
    workers are not supported: the URL only counts for the call that
    constructs the worker. *)
Theorem getEmbeddingsWorker_reuses (supported supported' : bool)
    (workerUrl workerUrl' : option jsstring) (st : State) (w : nat) :
  fst (getEmbeddingsWorker supported workerUrl st) = Ok w ->
  let st' := snd (getEmbeddingsWorker supported workerUrl st) in
  getEmbeddingsWorker supported' workerUrl' st' = (Ok w, st').
Proof.
  unfold getEmbeddingsWorker.
  destruct (workerInstance st) as [w0 |] eqn:Hw; cbn [fst snd].
  - intros [= <-]. rewrite Hw. reflexivity.
  - destruct supported; cbn [negb fst snd]; [| discriminate].
    intros [= <-]. reflexivity.
Qed.

Lemma getEmbeddingsWorker_reuses_witness :
  let st' := snd (getEmbeddingsWorker true None initial) in
  getEmbeddingsWorker false (Some (js "/other.js")) st' = (Ok 0%nat, st') /\
  constructed st' = [js "/embeddings-worker.js"].
Proof.
  cbv zeta. split; [| reflexivity].
  apply (getEmbeddingsWorker_reuses true false None (Some (js "/other.js")) initial 0).
  reflexivity.
Defined.

End WorkerInstanceProperties.

(** ** Slugs *)

Section SlugFacts.
Import JS Regex Slugs.

Lemma crangeFrom_mem (f : flags) (n : nat) :
  ignoreCase f = false ->
  forall lo c,
  cset_mem f (crangeFrom lo n) c = ((lo <=? c) && (c <=? lo + N.of_nat n))%N.
Proof.
  intros Hf. induction n as [| n IH]; intros lo c; cbn [crangeFrom cset_mem].
  - unfold canonicalize. rewrite Hf.
    destruct (N.eqb_spec c lo), (N.leb_spec lo c), (N.leb_spec c (lo + N.of_nat 0));
      cbn [andb]; lia || reflexivity.
  - rewrite IH. unfold canonicalize. rewrite Hf.
    destruct (N.eqb_spec c lo), (N.leb_spec lo c), (N.leb_spec (N.succ lo) c),
             (N.leb_spec c (N.succ lo + N.of_nat n)),
             (N.leb_spec c (lo + N.of_nat (S n)));
      cbn [andb orb]; lia || reflexivity.
Qed.

Lemma crange_mem (f : flags) (lo hi c : N) :
  ignoreCase f = false -> (lo <= hi)%N ->
  cset_mem f (crange lo hi) c = ((lo <=? c) && (c <=? hi))%N.
Proof.
  intros Hf Hle. unfold crange. rewrite (crangeFrom_mem f _ Hf).
  rewrite N2Nat.id. replace (lo + (hi - lo))%N with hi by lia. reflexivity.
Qed.

Lemma notAlnum_mem (c : N) :
  cset_mem flags_g
    (CNot (CUnion (crange (ch "a") (ch "z")) (crange (ch "0") (ch "9")))) c
  = negb (isAlnum c).
Proof.
  cbn [cset_mem].
  rewrite !(crange_mem flags_g) by (reflexivity || (vm_compute; discriminate)).
  reflexivity.
Qed.

(** *** A quantified class, matched greedily *)

Lemma prefixLen_le (P : N -> bool) (s : jsstring) : (prefixLen P s <= length s)%nat.
Proof.
  induction s as [| c s IH]; cbn [prefixLen length]; [lia |].
  destruct (P c); lia.
Qed.

Lemma rep_more_all (f : flags) (cs : cset) (rest : list N) :
  forall (before : list N) (caps : list (nat * jsstring)),
  exists s', rep_more f cs true None before rest caps Some = Some s' /\
             ms_rest s' = skipn (prefixLen (cset_mem f cs) rest) rest /\
             ms_caps s' = caps.
Proof.
  induction rest as [| c rest IH]; intros before caps; cbn [rep_more prefixLen].
  - eexists. repeat split.
  - cbn [budget_left andb budget_pred]. destruct (cset_mem f cs c).
    + destruct (IH (c :: before) caps) as (s' & -> & Hrest & Hcaps).
      exists s'. repeat split; assumption.
    + eexists. repeat split.
Qed.

Lemma exec_plus (f : flags) (cs : cset) (before rest : list N) :
  exec_at f (plus cs) before rest =
  match rest with
  | c :: rest' =>
      if cset_mem f cs c then Some (S (prefixLen (cset_mem f cs) rest'), []) else None
  | [] => None
  end.
Proof.
  unfold exec_at, plus. cbn [rmatch rep_min ms_rest ms_before ms_caps option_map].
  destruct rest as [| c rest']; [reflexivity |].
  destruct (cset_mem f cs c); [| reflexivity].
  cbn [ms_rest ms_before ms_caps].
  destruct (rep_more_all f cs rest' (c :: before) []) as (s' & -> & Hrest & ->).
  rewrite Hrest, List.length_skipn. cbn [length].
  pose proof (prefixLen_le (cset_mem f cs) rest'). do 2 f_equal. lia.
Qed.

Lemma squeeze_in_run (P : N -> bool) (d : N) (s : jsstring) :
  squeeze P d s true = squeeze P d (skipn (prefixLen P s) s) false.
Proof.
  induction s as [| c s IH]; cbn [squeeze prefixLen skipn]; [reflexivity |].
  destruct (P c) eqn:Hc; cbn [skipn squeeze]; [exact IH |].
  rewrite Hc. reflexivity.
Qed.

Lemma replace_plus_squeeze (f : flags) (cs : cset) (d : N) (n : nat) :
  forall (rest before : list N), (length rest <= n)%nat ->
  replace_from f (plus cs) [TLit [d]] before rest O
  = squeeze (cset_mem f cs) d rest false.
Proof.
  induction n as [| n IH]; intros rest before Hlen;
    rewrite replace_from_here, exec_plus.
  - destruct rest; cbn [length] in Hlen; [reflexivity | lia].
  - destruct rest as [| c rest]; [reflexivity |].
    cbn [length] in Hlen. cbn [squeeze].
    destruct (cset_mem f cs c) eqn:Hc.
    + change (expand [TLit [d]] []) with [d]. cbn [app].
      destruct (replace_from_skip f (plus cs) [TLit [d]]
                  (prefixLen (cset_mem f cs) rest) rest (c :: before)
                  (prefixLen_le _ rest)) as (before' & ->).
      rewrite IH by (rewrite List.length_skipn; lia).
      rewrite squeeze_in_run. reflexivity.
    + rewrite IH by lia. reflexivity.
Qed.

Lemma replaceAll_plus (f : flags) (cs : cset) (d : N) (s : jsstring) :
  replaceAll f (plus cs) [TLit [d]] s = squeeze (cset_mem f cs) d s false.
Proof. apply (replace_plus_squeeze f cs d (length s)). lia. Qed.

(** *** The shape of a squeezed string *)

Lemma squeeze_in (P : N -> bool) (d : N) (s : jsstring) :
  forall (b : bool) (c : N), In c (squeeze P d s b) -> c = d \/ (In c s /\ P c = false).
Proof.
  induction s as [| x s IH]; intros b c; cbn [squeeze]; [intros [] |].
  destruct (P x) eqn:Hx.
  - destruct b; cbn [In].
    + intros H. apply IH in H. tauto.
    + intros [<- | H]; [tauto | apply IH in H; tauto].
  - cbn [In]. intros [<- | H]; [tauto | apply IH in H; tauto].
Qed.

Lemma squeeze_head (P : N -> bool) (d : N) (s : jsstring) (c : N) (t : jsstring) :
  squeeze P d s true = c :: t -> P c = false.
Proof.
  induction s as [| x s IH]; cbn [squeeze]; [discriminate |].
  destruct (P x) eqn:Hx; [exact IH |].
  intros [= <- _]. exact Hx.
Qed.

Lemma squeeze_single (P : N -> bool) (d : N) (s : jsstring) :
  P d = true ->
  forall (b : bool) (a : jsstring) (t : jsstring),
  squeeze P d s b <> a ++ d :: d :: t.
Proof.
  intros Hd. induction s as [| x s IH]; intros b a t; cbn [squeeze].
  - destruct a; discriminate.
  - destruct (P x) eqn:Hx.
    + destruct b; [apply IH |].
      destruct a as [| y a]; cbn [app].
      * intros [= H]. apply squeeze_head in H. congruence.
      * intros [= _ H]. exact (IH _ _ _ H).
    + destruct a as [| y a]; cbn [app].
      * intros [= -> _]. congruence.
      * intros [= _ H]. exact (IH _ _ _ H).
Qed.

(** *** Hyphens at the ends *)

Lemma exec_ends (before rest : list N) :
  exec_at flags_g (RGroup 1 (RAlt (RSeq RBol (lit "-")) (RSeq (lit "-") REol)))
    before rest =
  match rest with
  | c :: rest' =>
      if (c =? 45)%N && (bool_decide (before = []) || bool_decide (rest' = []))
      then Some (1%nat, [(1%nat, [45%N])]) else None
  | [] => None
  end.
Proof.
  unfold exec_at, lit. change (js "-") with [45%N].
  destruct rest as [| c rest']; [destruct before; reflexivity |].
  assert (forall b, consumed {| ms_before := b; ms_rest := c :: rest'; ms_caps := [] |}
                             {| ms_before := c :: b; ms_rest := rest'; ms_caps := [] |}
                    = [c]) as Hcons.
  { intros b. apply consumed_app. reflexivity. }
  assert (S (length rest') - length rest' = 1)%nat as Hlen by lia.
  cbn [rmatch match_lit ms_rest ms_before ms_caps].
  unfold canonicalize, at_bol, at_eol.
  cbn [ignoreCase multiline flags_g ms_before ms_rest ms_caps andb].
  destruct (N.eqb_spec c 45) as [-> | Hc]; cbn [andb].
  2:{ destruct before; reflexivity. }
  destruct before as [| b before].
  - rewrite (bool_decide_eq_true_2 ([] = [])) by reflexivity. cbn [orb].
    cbn [ms_rest ms_caps ms_before length]. rewrite Hcons, Hlen. reflexivity.
  - rewrite (bool_decide_eq_false_2 (b :: before = [])) by discriminate. cbn [orb].
    destruct rest' as [| e rest'']; cbn [andb ms_rest ms_caps ms_before length].
    + rewrite (bool_decide_eq_true_2 ([] = [])) by reflexivity.
      rewrite Hcons. reflexivity.
    + rewrite (bool_decide_eq_false_2 (e :: rest'' = [])) by discriminate. reflexivity.
Qed.

Lemma replace_ends (rest : list N) :
  forall before,
  replace_from flags_g (RGroup 1 (RAlt (RSeq RBol (lit "-")) (RSeq (lit "-") REol)))
    [] before rest O
  = stripEnds (bool_decide (before = [])) rest.
Proof.
  induction rest as [| c rest IH]; intros before;
    rewrite replace_from_here, exec_ends; [reflexivity |].
  cbn [stripEnds].
  destruct ((c =? 45)%N && (bool_decide (before = []) || bool_decide (rest = [])));
    cbn [expand flat_map app]; rewrite IH;
    rewrite (bool_decide_eq_false_2 (c :: before = [])) by discriminate; reflexivity.
Qed.

Lemma stripEnds_prefix (s : jsstring) : exists q, s = stripEnds false s ++ q.
Proof.
  induction s as [| c s [q IH]]; cbn [stripEnds orb].
  - exists []. reflexivity.
  - destruct ((c =? 45)%N && bool_decide (s = [])) eqn:Hc.
    + apply andb_true_iff in Hc as [_ Hc]. apply bool_decide_eq_true in Hc.
      subst s. exists [c]. reflexivity.
    + exists q. cbn [app]. f_equal. exact IH.
Qed.

Lemma stripEnds_segment (s : jsstring) : exists p q, s = p ++ stripEnds true s ++ q.
Proof.
  destruct s as [| c s]; cbn [stripEnds orb].
  - exists [], []. reflexivity.
  - destruct (stripEnds_prefix s) as [q Hq]. rewrite andb_true_r.
    destruct (c =? 45)%N.
    + exists [c], q. cbn [app]. f_equal. exact Hq.
    + exists [], q. cbn [app]. f_equal. exact Hq.
Qed.

Lemma stripEnds_head (s t : jsstring) :
  (forall a b, s <> a ++ 45%N :: 45%N :: b) -> stripEnds true s <> 45%N :: t.
Proof.
  intros Hs. destruct s as [| c s]; cbn [stripEnds orb]; [discriminate |].
  rewrite andb_true_r. destruct (N.eqb_spec c 45) as [-> | Hc].
  - destruct s as [| d s]; cbn [stripEnds orb]; [discriminate |].
    destruct ((d =? 45)%N && bool_decide (s = [])) eqn:Hd.
    + apply andb_true_iff in Hd as [Hd _]. apply N.eqb_eq in Hd. subst d.
      exfalso. exact (Hs [] s eq_refl).
    + intros [= -> _]. exact (Hs [] s eq_refl).
  - intros [= -> _]. apply Hc. reflexivity.
Qed.

End SlugFacts.

Section SlugProperties.
Import JS Regex Slugs.

(** X21.  Whatever lower-casing and normalisation do to the input,
    [slugify] returns a slug that is safe in a URL: it is not empty (the
    slug of an input of which nothing is left is ["post"]), it has at most
    80 code units, each of them a letter of [a-z], a digit or a hyphen,
    it does not start with a hyphen and it has no two hyphens in a row. *)
Theorem slugify_url_safe (toLowerCase normalizeNFKD : jsstring -> jsstring)
    (input : jsstring) :
  let slug := slugify toLowerCase normalizeNFKD input in
  slug <> [] /\
  (length slug <= 80)%nat /\
  (forall c, In c slug -> isSlugChar c = true) /\
  (forall t, slug <> ch "-" :: t) /\
  (forall a b, slug <> a ++ ch "-" :: ch "-" :: b).
Proof.
  cbv zeta. unfold slugify.
  set (s1 := replaceAll flags_g (RSet (crange 768 879)) []
               (normalizeNFKD (toLowerCase input))).
  change (js "-") with [45%N]. rewrite replaceAll_plus.
  set (P := cset_mem flags_g
              (CNot (CUnion (crange (ch "a") (ch "z")) (crange (ch "0") (ch "9"))))).
  set (s2 := squeeze P 45 s1 false).
  unfold replaceAll. rewrite replace_ends.
  rewrite (bool_decide_eq_true_2 ([] = [])) by reflexivity.
  set (s3 := stripEnds true s2). unfold slice0.
  assert (P 45%N = true) as HP by (unfold P; rewrite notAlnum_mem; reflexivity).
  assert (forall a b, s2 <> a ++ 45%N :: 45%N :: b) as Hs2
    by (intros a b; apply squeeze_single; exact HP).
  destruct (stripEnds_segment s2) as (p & q & Hseg). fold s3 in Hseg.
  assert (forall c, In c s3 -> isSlugChar c = true) as Hchars.
  { intros c Hc.
    assert (In c s2) as Hc2
      by (rewrite Hseg; apply List.in_app_iff; right; apply List.in_app_iff; left;
          exact Hc).
    apply squeeze_in in Hc2 as [-> | [_ Hc2]]; [reflexivity |].
    unfold P in Hc2. rewrite notAlnum_mem in Hc2. apply negb_false_iff in Hc2.
    unfold isSlugChar. rewrite Hc2. reflexivity. }
  assert (forall a b, s3 <> a ++ 45%N :: 45%N :: b) as Hs3.
  { intros a b Heq. apply (Hs2 (p ++ a) (b ++ q)).
    rewrite Hseg, Heq, <- !app_assoc. reflexivity. }
  pose proof (firstn_skipn 80 s3) as Hcut.
  case_bool_decide as Hne.
  - split; [discriminate |]. split; [cbn; lia |].
    split; [| split].
    + intros c Hc. cbn in Hc.
      repeat (destruct Hc as [<- | Hc]; [reflexivity |]). destruct Hc.
    + discriminate.
    + intros [| x [| y [| z [| u [| v a]]]]] b; discriminate.
  - split; [exact Hne |]. split; [apply List.firstn_le_length |].
    split; [| split].
    + intros c Hc. apply Hchars. rewrite <- Hcut.
      apply List.in_app_iff. left. exact Hc.
    + intros t Heq. apply (stripEnds_head s2 (t ++ skipn 80 s3) Hs2).
      fold s3. transitivity (firstn 80 s3 ++ skipn 80 s3); [symmetry; exact Hcut |].
      rewrite Heq. reflexivity.
    + intros a b Heq. apply (Hs3 a (b ++ skipn 80 s3)).
      transitivity (firstn 80 s3 ++ skipn 80 s3); [symmetry; exact Hcut |].
      rewrite Heq, <- app_assoc. reflexivity.
Qed.

(** With the identity for the two functions of the platform, which is
    what they are on lower-case ASCII text. *)
Example slugify_sample :
  slugify (fun s => s) (fun s => s) (js "  hola,  mundo: 2 + 2 = 4! ")
  = js "hola-mundo-2-2-4".
Proof. vm_compute. reflexivity. Qed.

End SlugProperties.

(** ** The worker and its client *)

Section WorkerClientFacts.
Import JS JSValue RpcClient Worker.

Lemma delivered_app (encP : Progress -> jsval) (encR : Result -> jsval)
    (encE : ErrorInfo -> jsval) (a b : list Obs) :
  delivered encP encR encE (a ++ b)
  = delivered encP encR encE a ++ delivered encP encR encE b.
Proof. unfold delivered. apply List.flat_map_app. Qed.

(** What the worker posts before its response leaves the call waiting. *)
Lemma delivered_quiet (encP : Progress -> jsval) (encR : Result -> jsval)
    (encE : ErrorInfo -> jsval) (rid : jsstring) (due : Z) (pre : list Obs) :
  List.Forall (fun o => isResponse o = false) pre ->
  List.Forall (quiet rid due) (delivered encP encR encE pre).
Proof.
  induction 1 as [| o pre Ho _ IH]; [constructor |].
  cbn [delivered flat_map]. fold (delivered encP encR encE pre).
  destruct o as [[requestId p | requestId ok result error] | m d f | text];
    cbn [app]; try exact IH; [| discriminate].
  constructor; [| exact IH].
  cbn [quiet]. unfold isResponseFor. cbn.
  destruct requestId; reflexivity.
Qed.

Lemma postedMessage_response (encP : Progress -> jsval) (encR : Result -> jsval)
    (encE : ErrorInfo -> jsval) (requestId : jsval) (ok : bool)
    (result : option Result) (error : option ErrorInfo) :
  let data := postedMessage encP encR encE (PostResponse requestId ok result error) in
  get "type" data = VStr (js "response") /\
  get "requestId" data = requestId /\
  get "ok" data = VBool ok /\
  get "result" data = match result with Some r => encR r | None => VNull end /\
  get "error" data = match error with Some e => encE e | None => VUndefined end.
Proof. cbv zeta. repeat split; reflexivity. Qed.

End WorkerClientFacts.

Section WorkerClientProperties.
Import JS JSValue RpcClient Worker.

(** X24.  A call and the worker, end to end.  A client that has not been
    disposed of makes a call under a new identifier; the request it posts
    reaches a worker running either script, in any state and with any
    loader and model; everything the worker posts while handling the
    request is delivered to the client, in order, before the timeout.
    Then the call is settled by the response of the worker and by nothing
    else: resolved with the result when the worker reports success,
    rejected with the error when it reports a failure; the call is no
    longer pending and its timer is cleared. *)
Theorem call_answered_by_worker (created : Z) (before : list event)
    (rid : jsstring) (ty : WorkerRequestType) (payload : jsval)
    (timeoutMs : option Z) (cb : option nat)
    (w : script) (pipeline : Loader) (st : State) (decode : jsval -> option Payload)
    (encP : Progress -> jsval) (encR : Result -> jsval) (encE : ErrorInfo -> jsval) :
  let c0 := run before (createWorkerRpcClient created) in
  let promise := nextPromise c0 in
  let request := {| req_type := ty; req_requestId := rid; req_payload := payload |} in
  List.Forall (otherCall rid) before -> ~ In Dispose before ->
  (forall e, nullish (encE e) = false) ->
  let c1 := call rid ty payload timeoutMs cb c0 in
  let obs := snd (onMessageOf w pipeline (received decode request) st) in
  let c2 := run (delivered encP encR encE obs) c1 in
  last (posted c1) = Some request /\
  (exists ok result error,
     last obs = Some (Post (PostResponse (VStr rid) ok result error)) /\
     promises c2 !! promise
     = Some (match ok, result, error with
             | true, Some r, _ => Resolved (encR r)
             | true, None, _ => Resolved VNull
             | false, _, Some e => Rejected (WorkerError (encE e))
             | false, _, None => Rejected UnknownWorkerError
             end)) /\
  pending c2 !! rid = None /\
  (forall u, In u (timers c2) -> timer_promise u <> promise).
Proof.
  intros c0 promise request Hbefore Hlive Henc c1 obs c2.
  split; [apply last_snoc |].
  destruct (one_response_worker w pipeline (received decode request) st)
    as (pre & ok & result & error & Hobs & Hpre).
  fold obs in Hobs. cbn [requestIdOf received requestId req_requestId request] in Hobs.
  set (T := timerDelay (default 60000 timeoutMs)).
  pose proof (delivered_quiet encP encR encE rid (now c0 + T) pre Hpre) as Hquiet.
  pose proof (call_waits created before rid ty payload timeoutMs cb _ Hbefore Hquiet)
    as Ha.
  cbv zeta in Ha. fold c0 c1 in Ha.
  set (c1' := run (delivered encP encR encE pre) c1) in *.
  assert (listening c1' = true) as Hl.
  { unfold c1'. rewrite run_listening by exact (quiet_undisposed _ _ _ Hquiet).
    unfold c1. cbn [call listening]. unfold c0.
    rewrite run_listening by exact Hlive. reflexivity. }
  assert (0 < nextTimerId c0) as Hpos by (apply run_nextTimerId_pos; cbn; lia).
  set (data := postedMessage encP encR encE (PostResponse (VStr rid) ok result error)).
  assert (c2 = RpcClient.onMessage data c1') as Hc2.
  { unfold c2. rewrite Hobs, delivered_app, run_app. fold c1'.
    cbn [delivered flat_map app run fold_left step]. rewrite Hl. reflexivity. }
  destruct (postedMessage_response encP encR encE (VStr rid) ok result error)
    as (Hty & Hrid & Hok & Hres & Herr).
  fold data in Hty, Hrid, Hok, Hres, Herr.
  assert (isResponseFor rid data = true) as Hresp.
  { unfold isResponseFor. rewrite Hty, Hrid.
    change (str_eqb (js "response") (js "response")) with true.
    apply str_eqb_eq. reflexivity. }
  destruct (onMessage_response rid cb _ data c1' Ha) as (Hp & Hgone & Htm);
    [cbn [timer_id]; lia | exact Hresp |].
  cbn [timer_promise] in Hp, Htm. rewrite Hc2.
  split; [| split; [exact Hgone | exact Htm]].
  exists ok, result, error. split; [rewrite Hobs; apply last_snoc |].
  unfold promise. rewrite Hp. f_equal. unfold settlementOf. rewrite Hok, Hres, Herr.
  destruct ok; cbn [truthy]; [destruct result; reflexivity |].
  destruct error as [e |]; [rewrite (Henc e) |]; reflexivity.
Qed.

Lemma call_answered_by_worker_witness :
  let c1 := call (js "a") embed (VObj [(js "texts", VArr [VStr (js "hola")])])
              None None (createWorkerRpcClient 0) in
  let obs := snd (WorkerV3.onMessage stubLoader
                    (embedRequest (VStr (js "a"))
                       (Some (textsPayload (VArr [VStr (js "hola")])))) initial) in
  let c2 := run (delivered opaqueProgress vectorsOf opaqueError obs) c1 in
  pending c2 !! js "a" = None /\ timers c2 = [].
Proof.
  cbv zeta.
  destruct (call_answered_by_worker 0 [] (js "a") embed
              (VObj [(js "texts", VArr [VStr (js "hola")])]) None None
              PublicWorker stubLoader initial textsOnly
              opaqueProgress vectorsOf opaqueError)
    as (_ & _ & Hgone & _).
  - constructor.
  - intros [].
  - reflexivity.
  - split; [exact Hgone | vm_compute; reflexivity].
Defined.

End WorkerClientProperties.
